(** * Traffic-signaling referee: schedule validator and simulation engine

    A shallow embedding of the two implementations of the referee found in
    the repository:

    - [Fifo]   : [src/index.js], where every street carries an array
                 [carIdQueue] from which the crossing car is physically
                 removed ([shift]);
    - [Ticket] : [src/unnamed/part_001], where every street carries the two
                 counters [lastQueuingNumber] / [nextQueuingNumber] and every
                 car a [queuingNumber].

    Modelling conventions.
    - JavaScript numbers are modelled by [Z]: all the numbers that the referee
      manipulates are integers as long as the input files hold integer tokens.
      [Number] below covers the integer fragment of the JavaScript
      string-to-number conversion; every other token is read as [NaN]
      ([None]).  Quotients (the two reported averages) are exact rationals
      ([Qc]), i.e. the value before IEEE rounding and before [toFixed(2)].
    - JavaScript objects used as dictionaries are [gmap string _]; arrays are
      lists, updated by index.  Street names are assumed not to collide with
      the properties every JavaScript object inherits, with the text
      [undefined] (the key that a missing name is converted to), or, in
      [index.js], with the property [scheduledTimeWindow], which shares an
      object with the street names of an intersection.  The statements
      that say what a file accepts or rejects, or that compare the two
      files, carry these conventions as hypotheses: [plainInput] for the
      input data set (which also has the header count the lines that the
      parser reads) and [plainText] for the submission.
    - An exception aborts the whole run: every function that can throw
      returns a [result].  The messages of the [Error]s are abstracted to
      their kind; an access to a property of [undefined] is [TypeError].
    - The dataset is taken after tokenisation ([parseLine]): its header, its
      street lines and its car lines.  The submission is taken as text.
    - The engine additionally emits an observation trace (registrations,
      crossings, arrivals).  The trace never influences the state. *)

From Stdlib Require Import ZArith List String Ascii Lia Bool QArith Qcanon.
From stdpp Require Import base option list gmap strings numbers pretty
  sorting.

Local Open Scope string_scope.
Local Open Scope list_scope.
Local Open Scope Z_scope.

(** ** Exceptions *)

Inductive error : Type :=
| TruncatedSubmission
| MalformedCount
| DuplicateIntersectionSchedule
| StreetIntersectionMismatch
| MalformedGreenDuration
| GreenDurationOutOfRange
| TypeError.

Inductive result (A : Type) : Type :=
| Ok (a : A)
| Throw (e : error).
Arguments Ok {A} a.
Arguments Throw {A} e.

#[global] Instance result_ret : MRet result := λ A a, Ok a.
#[global] Instance result_bind : MBind result := λ A B f m,
  match m with
  | Ok a => f a
  | Throw e => Throw e
  end.

(** [o ?? e]: the value of [o], or the exception [e] when [o] is
    [undefined]. *)
Definition or_throw {A} (o : option A) (e : error) : result A :=
  match o with
  | Some a => Ok a
  | None => Throw e
  end.
Infix "??" := or_throw (at level 60).

(** ** The fragment of JavaScript used by both files *)

Module JS.

Definition is_digit (c : ascii) : bool :=
  (48 <=? nat_of_ascii c)%nat && (nat_of_ascii c <=? 57)%nat.

Fixpoint digits (acc : Z) (s : string) : option Z :=
  match s with
  | EmptyString => Some acc
  | String c s' =>
      if is_digit c
      then digits (10 * acc + Z.of_nat (nat_of_ascii c - 48)) s'
      else None
  end.

(** [Number(s)], also written [+s]: the empty string is [0]; an optionally
    signed non-empty run of decimal digits is its value (leading zeros
    allowed); [None] stands for [NaN].  This is the conversion of JavaScript
    on the texts that [plain] below accepts. *)
Definition Number (s : string) : option Z :=
  match s with
  | EmptyString => Some 0
  | String "-" EmptyString => None
  | String "+" EmptyString => None
  | String "-" s' => Z.opp <$> digits 0 s'
  | String "+" s' => digits 0 s'
  | _ => digits 0 s
  end.

Definition is_letter (c : ascii) : bool :=
  ((65 <=? nat_of_ascii c)%nat && (nat_of_ascii c <=? 90)%nat)
  || ((97 <=? nat_of_ascii c)%nat && (nat_of_ascii c <=? 122)%nat).

(** The texts on which [Number] is the JavaScript conversion: the texts
    that it reads as a number below [2^53] in absolute value (the integers
    that JavaScript holds exactly), and the texts that start with a letter
    other than [I] (of [Infinity]), which JavaScript reads as [NaN] as well.
    Left out are the texts that JavaScript reads as a number and [Number]
    does not (white space or a line terminator around the numeral, a
    decimal point, an exponent, [Infinity], hexadecimal, octal and binary
    literals). *)
Definition plain (s : string) : bool :=
  match Number s with
  | Some n => Z.abs n <? 2 ^ 53
  | None =>
      match s with
      | EmptyString => false
      | String c _ => is_letter c && negb (Ascii.eqb c "I")
      end
  end.

(** The property names that every object inherits from [Object.prototype]:
    in an object used as a dictionary a lookup of one of them finds a
    function (for [__proto__] the prototype) unless the name was stored. *)
Definition inherited : list string :=
  [ "constructor"; "hasOwnProperty"; "isPrototypeOf";
    "propertyIsEnumerable"; "toLocaleString"; "toString"; "valueOf";
    "__proto__"; "__defineGetter__"; "__defineSetter__";
    "__lookupGetter__"; "__lookupSetter__" ].

(** A name that a dictionary of the referee holds exactly when it was
    stored as a street name: not an inherited name, not the key [undefined]
    that a missing name is converted to, not the property
    [scheduledTimeWindow] that [index.js] keeps beside the street names of
    an intersection. *)
Definition ownName (s : string) : bool :=
  negb (bool_decide (s ∈ inherited))
  && negb (String.eqb s "undefined")
  && negb (String.eqb s "scheduledTimeWindow").

(** [String(n)], the property key that a number is converted to. *)
Definition String (n : Z) : string := pretty n.

(** [s.split(c)] for a one-character separator. *)
Fixpoint split_go (c : ascii) (cur : string) (s : string) : list string :=
  match s with
  | EmptyString => [String.rev cur]
  | String.String a s' =>
      if Ascii.eqb a c
      then String.rev cur :: split_go c EmptyString s'
      else split_go c (String.String a cur) s'
  end.

Definition split (c : ascii) (s : string) : list string :=
  split_go c EmptyString s.

(** [a % b] on integers: the remainder has the sign of the dividend, and
    [NaN] when the divisor is [0]. *)
Definition rem (a b : Z) : option Z :=
  if b =? 0 then None else Some (Z.rem a b).

(** [a / b], [None] when the result is not a finite number. *)
Definition div (a b : Z) : option Qc :=
  if b =? 0 then None else Some (Qc_of_Z a / Qc_of_Z b)%Qc.

(** [l[i]] for a number [i]. *)
Definition nth {A} (l : list A) (i : Z) : option A :=
  if i <? 0 then None else l !! Z.to_nat i.

End JS.

(** [parseLine(rawLine, idx)] of [utils.js], for a line that is present:
    the tokens of the line.  The conversion of the tokens at the positions
    [idx] is done by the caller with [JS.Number]. *)
Definition parseLine (rawLine : string) : list string :=
  JS.split " " rawLine.

(** ** What both files share: the header and the tokenised dataset *)

Module Simulation.
Record t : Type := mk {
  duration : Z;
  numIntersections : Z;
  numStreets : Z;
  numCars : Z;
  bonusPoint : Z;
}.
End Simulation.

(** A street line [B E NAME L] and a car line [P n1 ... nP]. *)
Record StreetLine : Type := {
  sl_start : Z; sl_end : Z; sl_name : string; sl_duration : Z;
}.

Record CarLine : Type := {
  cl_numStreets : Z; cl_streetNames : list string;
}.

Record Input : Type := {
  header : Simulation.t;
  streetLines : list StreetLine;
  carLines : list CarLine;
}.

(** The input data sets that the record above renders as the two files read
    them: [streetLines] are the [numStreets] lines and [carLines] the
    [numCars] lines that the loops of [parseInputDataSet] index, and no name
    of a street line or of a route meets a property that the dictionaries of
    the referee hold without it having been stored. *)
Definition plainInput (inp : Input) : Prop :=
  Simulation.numStreets (header inp) = Z.of_nat (length (streetLines inp))
  ∧ Simulation.numCars (header inp) = Z.of_nat (length (carLines inp))
  ∧ Forall (λ l, JS.ownName (sl_name l) = true) (streetLines inp)
  ∧ Forall (λ l, Forall (λ s, JS.ownName s = true) (cl_streetNames l))
           (carLines inp).

(** The submissions that [JS.Number] reads as JavaScript does: every line,
    and every token of every line, is [JS.plain]. *)
Definition plainText (data : string) : Prop :=
  Forall (λ line, JS.plain line = true
                  ∧ Forall (λ token, JS.plain token = true) (parseLine line))
         (JS.split "010" data).

(** [averageIntersectionSchedules]. *)
Record Averages : Type := {
  greenCycles : option Qc;
  totalCycles : option Qc;
}.

(** The part of a car that the report reads. *)
Record CarView : Type := {
  v_arrived : bool; v_score : Z; v_commuteTime : Z;
}.

(** What the validator read for one intersection: the position of its
    first line (after the first line of the file), its identifier, the
    declared number of streets and the entries read.  The validator of both
    files hands the list of these back for the statements below; nothing
    else reads it. *)
Record Scheduled : Type := {
  s_line : Z;
  s_intersectionId : string;
  s_declared : Z;
  s_entries : list (string * Z);
}.

Definition sumZ (l : list Z) : Z := foldr Z.add 0 l.

(** The cycle length of a scheduled intersection: the sum of its green
    durations. *)
Definition cycleLength (b : Scheduled) : Z := sumZ (snd <$> s_entries b).

(** The number of lines, after the first line of the file, that the
    scheduled intersections occupy: two lines and the declared number of
    street lines each. *)
Definition requiredLines (log : list Scheduled) : Z :=
  sumZ ((λ b, s_declared b + 2) <$> log).

(** ** [createInsights]: the numbers of the report

    Both files hold the same function.  Its formatting (colours, thousands
    separators, [toFixed]) is left out; the numbers it prints are kept. *)

Record Insights : Type := {
  i_score : Z;
  i_bonusPoints : Z;                   (* bonusPoint * numArrivedCars *)
  i_bonusPoint : Z;
  i_earlyArrivalBonus : Z;
  i_numArrivedCars : Z;
  i_numCars : Z;
  i_arrivedFraction : option Qc;       (* numArrivedCars / numCars *)
  i_earliest : option (Z * Z);         (* commuteTime, score *)
  i_latest : option (Z * Z);
  i_averageCommuteTime : option Qc;
  i_numIntersections : Z;
  i_totalCycles : option Qc;
  i_greenCycles : option Qc;
}.

(** [.sort((a, b) => a.commuteTime - b.commuteTime)], a stable sort. *)
Fixpoint insertByCommuteTime (c : CarView) (l : list CarView) : list CarView :=
  match l with
  | [] => [c]
  | x :: l' =>
      if v_commuteTime c <=? v_commuteTime x
      then c :: l
      else x :: insertByCommuteTime c l'
  end.

Definition sortByCommuteTime (l : list CarView) : list CarView :=
  foldr insertByCommuteTime [] l.

Definition insights (sim : Simulation.t) (avg : Averages)
    (cars : list CarView) : Insights :=
  let arrivedCars := sortByCommuteTime (filter (λ c, v_arrived c = true) cars) in
  let numArrivedCars := Z.of_nat (length arrivedCars) in
  let bonusPoint := Simulation.bonusPoint sim in
  let pair c := (v_commuteTime c, v_score c) in
  {| i_score := fold_left (λ sum c, sum + v_score c) arrivedCars 0;
     i_bonusPoints := bonusPoint * numArrivedCars;
     i_bonusPoint := bonusPoint;
     i_earlyArrivalBonus :=
       fold_left (λ sum c, sum + (v_score c - bonusPoint)) arrivedCars 0;
     i_numArrivedCars := numArrivedCars;
     i_numCars := Simulation.numCars sim;
     i_arrivedFraction := JS.div numArrivedCars (Simulation.numCars sim);
     i_earliest := pair <$> head arrivedCars;
     i_latest := pair <$> last arrivedCars;
     i_averageCommuteTime :=
       JS.div (fold_left (λ sum c, sum + v_commuteTime c) arrivedCars 0)
              numArrivedCars;
     i_numIntersections := Simulation.numIntersections sim;
     i_totalCycles := totalCycles avg;
     i_greenCycles := greenCycles avg |}.

(** ** [src/unnamed/part_001]: per-street counters, per-car ticket *)

Module Ticket.

Module Street.
Record t : Type := mk {
  start : Z;
  end_ : Z;
  duration : Z;
  lastQueuingNumber : Z;
  nextQueuingNumber : Z;
  schedule : option (Z * Z);          (* { gte, lte } *)
  scheduledTimeWindow : option Z;
}.

Definition set_lastQueuingNumber (v : Z) (s : t) : t :=
  mk (start s) (end_ s) (duration s) v (nextQueuingNumber s)
     (schedule s) (scheduledTimeWindow s).
Definition set_nextQueuingNumber (v : Z) (s : t) : t :=
  mk (start s) (end_ s) (duration s) (lastQueuingNumber s) v
     (schedule s) (scheduledTimeWindow s).
Definition set_schedule (v : Z * Z) (s : t) : t :=
  mk (start s) (end_ s) (duration s) (lastQueuingNumber s)
     (nextQueuingNumber s) (Some v) (scheduledTimeWindow s).
Definition set_scheduledTimeWindow (v : Z) (s : t) : t :=
  mk (start s) (end_ s) (duration s) (lastQueuingNumber s)
     (nextQueuingNumber s) (schedule s) (Some v).
End Street.

Module Car.
Record t : Type := mk {
  numStreets : Z;
  streetNames : list string;
  currentStreetIdx : Z;
  currentStreetName : string;
  remainingTimeOnStreet : Z;
  queuingNumber : Z;
  arrived : bool;
  score : Z;
  commuteTime : Z;
}.

Definition set_queuingNumber (v : Z) (c : t) : t :=
  mk (numStreets c) (streetNames c) (currentStreetIdx c)
     (currentStreetName c) (remainingTimeOnStreet c) v
     (arrived c) (score c) (commuteTime c).
Definition set_remainingTimeOnStreet (v : Z) (c : t) : t :=
  mk (numStreets c) (streetNames c) (currentStreetIdx c)
     (currentStreetName c) v (queuingNumber c)
     (arrived c) (score c) (commuteTime c).
(** [car.arrived = true; car.score = s; car.commuteTime = ct] *)
Definition set_arrived (s ct : Z) (c : t) : t :=
  mk (numStreets c) (streetNames c) (currentStreetIdx c)
     (currentStreetName c) (remainingTimeOnStreet c) (queuingNumber c)
     true s ct.
(** [car.currentStreetName = name] after [++car.currentStreetIdx], then
    [car.remainingTimeOnStreet = d] *)
Definition advance (name : string) (d : Z) (c : t) : t :=
  mk (numStreets c) (streetNames c) (currentStreetIdx c + 1)
     name d (queuingNumber c)
     (arrived c) (score c) (commuteTime c).

Definition view (c : t) : CarView :=
  {| v_arrived := arrived c; v_score := score c;
     v_commuteTime := commuteTime c |}.
End Car.

Record Dataset : Type := {
  simulation : Simulation.t;
  streets : gmap string Street.t;
  cars : list Car.t;
}.

Definition with_streets (m : gmap string Street.t) (d : Dataset) : Dataset :=
  {| simulation := simulation d; streets := m; cars := cars d |}.
Definition with_cars (l : list Car.t) (d : Dataset) : Dataset :=
  {| simulation := simulation d; streets := streets d; cars := l |}.

(** *** [parseInputDataSet] *)

Definition addStreet (m : gmap string Street.t) (l : StreetLine)
    : gmap string Street.t :=
  <[sl_name l := Street.mk (sl_start l) (sl_end l) (sl_duration l)
                           (-1) 0 None None]> m.

(** One iteration of the loop over the car lines.  The first street of
    the route hands out the car's first ticket.  A route without a name, or
    whose first name is no street, ends in the [TypeError] of a property
    read on [undefined]; this is what the code does for the names of a
    [plainInput]. *)
Definition addCar (d : Dataset) (l : CarLine) : result Dataset :=
  name ← head (cl_streetNames l) ?? TypeError;
  st ← streets d !! name ?? TypeError;
  let car := Car.mk (cl_numStreets l) (cl_streetNames l) 0 name 0
                    (Street.nextQueuingNumber st) false 0 0 in
  Ok {| simulation := simulation d;
        streets := <[name := Street.set_nextQueuingNumber
                               (Street.nextQueuingNumber st + 1) st]>
                     (streets d);
        cars := cars d ++ [car] |}.

Fixpoint addCars (d : Dataset) (ls : list CarLine) : result Dataset :=
  match ls with
  | [] => Ok d
  | l :: ls' => d' ← addCar d l; addCars d' ls'
  end.

(** The two loops of [parseInputDataSet], over the street lines and the
    car lines that the header counts ([plainInput]). *)
Definition parseInputDataSet (inp : Input) : result Dataset :=
  addCars {| simulation := header inp;
             streets := fold_left addStreet (streetLines inp) ∅;
             cars := [] |}
          (carLines inp).

(** *** [parseSubmittedDataSet] *)

(** The variables of the function that live across the intersections, and
    the record of the intersections scheduled so far. *)
Record Validation : Type := {
  v_streets : gmap string Street.t;          (* dataset.streets *)
  intersectionSchedulesById : gset string;   (* keys set to [true] *)
  numSchedules : Z;
  currentLine : Z;
  totalCycles_sum : Z;       (* averageIntersectionSchedules.totalCycles *)
  scheduled : list Scheduled;
}.

(** The body of the loop over [j], for the line at position [pos]; [acc]
    holds [dataset.streets], [streetNames], [lastScheduleTime] and the
    entries read so far. *)
Definition scheduleStreet (sim : Simulation.t) (lines : list string)
    (intersectionId : string) (pos : Z)
    (acc : gmap string Street.t * list string * Z * list (string * Z))
    : result (gmap string Street.t * list string * Z * list (string * Z)) :=
  let '(streets, streetNames, lastScheduleTime, entries) := acc in
  line ← JS.nth lines pos ?? TypeError;
  let tokens := parseLine line in
  let streetName := default "" (head tokens) in
  let schedule := tokens !! 1%nat ≫= JS.Number in
  if match streets !! streetName with
     | Some st => bool_decide (JS.Number intersectionId ≠ Some (Street.end_ st))
     | None => false
     end
  then Throw StreetIntersectionMismatch
  else
    match schedule with
    | None => Throw MalformedGreenDuration
    | Some g =>
        if (g <? 1) || (Simulation.duration sim <? g)
        then Throw GreenDurationOutOfRange
        else
          st ← streets !! streetName ?? TypeError;
          Ok (<[streetName :=
                  Street.set_schedule
                    (lastScheduleTime, lastScheduleTime + g - 1) st]> streets,
              streetNames ++ [streetName],
              lastScheduleTime + g,
              entries ++ [(streetName, g)])
    end.

Fixpoint scheduleStreets (sim : Simulation.t) (lines : list string)
    (intersectionId : string) (n : nat) (pos : Z)
    (acc : gmap string Street.t * list string * Z * list (string * Z))
    : result (gmap string Street.t * list string * Z * list (string * Z)) :=
  match n with
  | O => Ok acc
  | S n' =>
      acc' ← scheduleStreet sim lines intersectionId pos acc;
      scheduleStreets sim lines intersectionId n' (pos + 1) acc'
  end.

(** [for (const streetName of streetNames)
      dataset.streets[streetName].scheduledTimeWindow = w]; every name was
    looked up successfully by the loop before. *)
Definition setWindows (w : Z) (streetNames : list string)
    (streets : gmap string Street.t) : gmap string Street.t :=
  fold_left (λ m name, alter (Street.set_scheduledTimeWindow w) name m)
            streetNames streets.

(** The body of the loop over [i]. *)
Definition scheduleIntersection (sim : Simulation.t) (lines : list string)
    (i : Z) (v : Validation) : result Validation :=
  let intersectionId :=
    default "undefined" (JS.nth lines (currentLine v + i)) in
  match JS.nth lines (currentLine v + i + 1) with
  | None => Throw TruncatedSubmission
  | Some numIncomingStreets =>
      match JS.Number numIncomingStreets with
      | None => Throw MalformedCount
      | Some n =>
          if bool_decide (intersectionId ∈ intersectionSchedulesById v)
          then Throw DuplicateIntersectionSchedule
          else
            '(streets, streetNames, lastScheduleTime, entries) ←
              scheduleStreets sim lines intersectionId (Z.to_nat n)
                (currentLine v + i + 2) (v_streets v, [], 0, []);
            Ok {| v_streets :=
                    setWindows lastScheduleTime streetNames streets;
                  intersectionSchedulesById :=
                    {[intersectionId]} ∪ intersectionSchedulesById v;
                  numSchedules := numSchedules v + n;
                  currentLine := currentLine v + n + 1;
                  totalCycles_sum := totalCycles_sum v + lastScheduleTime;
                  scheduled :=
                    scheduled v
                    ++ [{| s_line := currentLine v + i;
                           s_intersectionId := intersectionId;
                           s_declared := n;
                           s_entries := entries |}] |}
      end
  end.

Fixpoint scheduleIntersections (sim : Simulation.t) (lines : list string)
    (n : nat) (i : Z) (v : Validation) : result Validation :=
  match n with
  | O => Ok v
  | S n' =>
      v' ← scheduleIntersection sim lines i v;
      scheduleIntersections sim lines n' (i + 1) v'
  end.

(** The function once [data] is split: [lines.shift()] is the first line; a
    [NaN] count runs no iteration. *)
Definition parseSubmittedLines (d : Dataset) (lines : list string)
    : result (Dataset * Averages * list Scheduled) :=
  let numIntersections := default 0 (head lines ≫= JS.Number) in
  v ← scheduleIntersections (simulation d) (tail lines)
        (Z.to_nat numIntersections) 0
        {| v_streets := streets d; intersectionSchedulesById := ∅;
           numSchedules := 0; currentLine := 0; totalCycles_sum := 0;
           scheduled := [] |};
  Ok (with_streets (v_streets v) d,
      {| greenCycles := JS.div (totalCycles_sum v) (numSchedules v);
         totalCycles :=
           JS.div (totalCycles_sum v)
                  (Simulation.numIntersections (simulation d)) |},
      scheduled v).

Definition parseSubmittedDataSet (d : Dataset) (data : string)
    : result (Dataset * Averages * list Scheduled) :=
  parseSubmittedLines d (JS.split "010" data).

(** *** [simulate] *)

Inductive event : Type :=
| Register (time : Z) (streetName : string) (car : nat) (ticket : Z)
| Cross (time : Z) (streetName : string) (car : nat) (ticket : Z)
| Arrive (time : Z) (car : nat).

(** [if (car.remainingTimeOnStreet === 1 && car.currentStreetIdx <
    car.numStreets - 1) car.queuingNumber = ...nextQueuingNumber++] *)
Definition register (time : Z) (i : nat) (car : Car.t)
    (streets : gmap string Street.t)
    : result (Car.t * gmap string Street.t * list event) :=
  if (Car.remainingTimeOnStreet car =? 1)
     && (Car.currentStreetIdx car <? Car.numStreets car - 1)
  then
    st ← streets !! Car.currentStreetName car ?? TypeError;
    Ok (Car.set_queuingNumber (Street.nextQueuingNumber st) car,
        <[Car.currentStreetName car :=
            Street.set_nextQueuingNumber
              (Street.nextQueuingNumber st + 1) st]> streets,
        [Register time (Car.currentStreetName car) i
                  (Street.nextQueuingNumber st)])
  else Ok (car, streets, []).

(** [if (car.remainingTimeOnStreet > 0) car.remainingTimeOnStreet--] *)
Definition decrement (car : Car.t) : Car.t :=
  if 0 <? Car.remainingTimeOnStreet car
  then Car.set_remainingTimeOnStreet (Car.remainingTimeOnStreet car - 1) car
  else car.

Definition isTrafficLightGreen (time : Z) (st : Street.t) : bool :=
  match Street.schedule st with
  | Some (gte, lte) =>
      match Street.scheduledTimeWindow st ≫= JS.rem time with
      | Some timePart => (gte <=? timePart) && (timePart <=? lte)
      | None => false
      end
  | None => false
  end.

Definition put (i : nat) (car : Car.t) (streets : gmap string Street.t)
    (d : Dataset) : Dataset :=
  {| simulation := simulation d; streets := streets;
     cars := <[i := car]> (cars d) |}.

(** [if (car.remainingTimeOnStreet === 0) { ... }]: the arrival, the final
    tick, the test of the light, of the marker and of the queue, and the
    crossing.  [car] and [streets] are the car and [dataset.streets] as the
    two statements before left them, [crossed] is
    [isIntersectionCrossedInThisIteration]. *)
Definition resolve (remainingTime time : Z) (i : nat) (car : Car.t)
    (streets : gmap string Street.t) (d : Dataset) (crossed : gset string)
    (ev : list event) : result (Dataset * gset string * list event) :=
  if negb (Car.remainingTimeOnStreet car =? 0)
  then Ok (put i car streets d, crossed, ev)
  else if Car.currentStreetIdx car =? Car.numStreets car - 1
  then Ok (put i (Car.set_arrived
                    (Simulation.bonusPoint (simulation d) + remainingTime)
                    time car) streets d,
           crossed, ev ++ [Arrive time i])
  else if remainingTime =? 0
  then Ok (put i car streets d, crossed, ev)
  else
    let streetName := Car.currentStreetName car in
    st ← streets !! streetName ?? TypeError;
    if negb (isTrafficLightGreen time st)
       || bool_decide (streetName ∈ crossed)
       || negb (Street.lastQueuingNumber st + 1 =? Car.queuingNumber car)
    then Ok (put i car streets d, crossed, ev)
    else
      let streets' :=
        <[streetName :=
            Street.set_lastQueuingNumber (Car.queuingNumber car) st]>
          streets in
      next ← JS.nth (Car.streetNames car) (Car.currentStreetIdx car + 1)
             ?? TypeError;
      nst ← streets' !! next ?? TypeError;
      Ok (put i (Car.advance next (Street.duration nst) car) streets' d,
          {[streetName]} ∪ crossed,
          ev ++ [Cross time streetName i (Car.queuingNumber car)]).

(** The body of the loop over the cars, for the car at index [i]: its three
    consecutive [if] statements. *)
Definition carStep (remainingTime time : Z) (i : nat)
    (s : Dataset * gset string)
    : result (Dataset * gset string * list event) :=
  let '(d, crossed) := s in
  car ← cars d !! i ?? TypeError;
  if Car.arrived car then Ok (d, crossed, [])
  else
    '(car, streets, ev) ← register time i car (streets d);
    resolve remainingTime time i (decrement car) streets d crossed ev.

(** The cars are visited in the order [order]; the source visits them in
    the order of the array. *)
Fixpoint processCars (remainingTime time : Z) (order : list nat)
    (s : Dataset * gset string)
    : result (Dataset * gset string * list event) :=
  match order with
  | [] => Ok (s, [])
  | i :: order' =>
      '(s', ev) ← carStep remainingTime time i s;
      '(s'', evs) ← processCars remainingTime time order' s';
      Ok (s'', ev ++ evs)
  end.

(** One iteration of the [while] loop, [remainingTime] already
    decremented: the marker starts empty. *)
Definition tickIn (order : list nat) (remainingTime time : Z) (d : Dataset)
    : result (Dataset * gset string * list event) :=
  processCars remainingTime time order (d, ∅).

(** [n] iterations of [while (remainingTime--) { ...; time++ }], the cars
    of the tick at [time] being visited in the order [order time d]. *)
Fixpoint loopIn (order : Z → Dataset → list nat) (n : nat)
    (remainingTime time : Z) (d : Dataset) : result (Dataset * list event) :=
  match n with
  | O => Ok (d, [])
  | S n' =>
      '(d', _, ev) ← tickIn (order time d) (remainingTime - 1) time d;
      '(d'', evs) ← loopIn order n' (remainingTime - 1) (time + 1) d';
      Ok (d'', ev ++ evs)
  end.

(** The loop runs until [remainingTime] is [0], i.e. [duration + 1] times
    (the source does not terminate when [duration < -1]). *)
Definition simulateIn (order : Z → Dataset → list nat) (d : Dataset)
    : result (Dataset * list event) :=
  let duration := Simulation.duration (simulation d) in
  loopIn order (Z.to_nat (duration + 1)) (duration + 1) 0 d.

(** [for (const car of dataset.cars)] *)
Definition sourceOrder (time : Z) (d : Dataset) : list nat :=
  seq 0 (length (cars d)).

Definition tick (remainingTime time : Z) (d : Dataset)
    : result (Dataset * gset string * list event) :=
  tickIn (sourceOrder time d) remainingTime time d.

Definition loop : nat → Z → Z → Dataset → result (Dataset * list event) :=
  loopIn sourceOrder.

Definition simulate (d : Dataset) : result (Dataset * list event) :=
  simulateIn sourceOrder d.

(** *** Properties of datasets and observations on traces *)

Definition carInRange (c : Car.t) : Prop :=
  0 ≤ Car.currentStreetIdx c ≤ Car.numStreets c - 1
  ∧ 0 ≤ Car.remainingTimeOnStreet c.

(** Every route has at least its current street left, no car has a
    negative time left, no street a negative length. *)
Definition wellFormed (d : Dataset) : Prop :=
  Forall carInRange (cars d)
  ∧ map_Forall (λ _ st, 0 ≤ Street.duration st) (streets d).

(** What [simulate] never writes in a street. *)
Definition static (st : Street.t) : Z * Z * Z * option (Z * Z) * option Z :=
  (Street.start st, Street.end_ st, Street.duration st,
   Street.schedule st, Street.scheduledTimeWindow st).

(** The streets crossed at tick [t], in the order of the trace. *)
Definition crossedAt (t : Z) (ev : list event) : list string :=
  omap (λ e, match e with
             | Cross t' s _ _ => if decide (t' = t) then Some s else None
             | _ => None
             end) ev.

(** The streets crossed, in the order of the trace. *)
Definition crossedStreets (ev : list event) : list string :=
  omap (λ e, match e with Cross _ s _ _ => Some s | _ => None end) ev.

(** A list of crossings (tick, ticket) that starts no earlier than tick
    [t0], in which every ticket is the successor of the one before, [l]
    being the one before the first, and every tick is later than the one
    before. *)
Fixpoint consecutive (t0 l : Z) (cs : list (Z * Z)) : Prop :=
  match cs with
  | [] => True
  | (t, q) :: cs' => t0 ≤ t ∧ q = l + 1 ∧ consecutive (t + 1) (l + 1) cs'
  end.

(** The last ticket that crossed street [s]. *)
Definition lastOf (s : string) (d : Dataset) : option Z :=
  Street.lastQueuingNumber <$> streets d !! s.

(** The next ticket that street [s] hands out. *)
Definition nextOf (s : string) (d : Dataset) : option Z :=
  Street.nextQueuingNumber <$> streets d !! s.

(** The crossings of street [s] as pairs (tick, ticket), in the order of
    the trace. *)
Definition crossingsOf (s : string) (ev : list event) : list (Z * Z) :=
  omap (λ e, match e with
             | Cross t s' _ q => if decide (s' = s) then Some (t, q) else None
             | _ => None
             end) ev.

(** *** [createInsights] and [evaluate] *)

Definition createInsights (d : Dataset) (avg : Averages) : Insights :=
  insights (simulation d) avg (Car.view <$> cars d).

Definition evaluate (inp : Input) (submittedDataSet : string)
    : result Insights :=
  d ← parseInputDataSet inp;
  '(d, avg, _) ← parseSubmittedDataSet d submittedDataSet;
  '(d, _) ← simulate d;
  Ok (createInsights d avg).

(** What [createInsights] reads of the cars once [simulate] has run. *)
Definition finalCars (inp : Input) (submittedDataSet : string)
    : result (list CarView) :=
  d ← parseInputDataSet inp;
  '(d, _, _) ← parseSubmittedDataSet d submittedDataSet;
  '(d, _) ← simulate d;
  Ok (Car.view <$> cars d).

End Ticket.

(** ** [src/index.js]: per-street array of waiting cars *)

Module Fifo.

Module Street.
Record t : Type := mk {
  start : Z;
  end_ : Z;
  duration : Z;
  carIdQueue : list nat;
}.

Definition set_carIdQueue (q : list nat) (s : t) : t :=
  mk (start s) (end_ s) (duration s) q.
End Street.

Module Car.
Record t : Type := mk {
  numStreets : Z;
  streetNames : list string;
  currentStreetIdx : Z;
  remainingTimeOnStreet : Z;
  arrived : bool;
  score : Z;
  commuteTime : Z;
}.

Definition set_remainingTimeOnStreet (v : Z) (c : t) : t :=
  mk (numStreets c) (streetNames c) (currentStreetIdx c) v
     (arrived c) (score c) (commuteTime c).
Definition set_arrived (s ct : Z) (c : t) : t :=
  mk (numStreets c) (streetNames c) (currentStreetIdx c)
     (remainingTimeOnStreet c) true s ct.
(** [++car.currentStreetIdx; car.remainingTimeOnStreet = d] *)
Definition advance (d : Z) (c : t) : t :=
  mk (numStreets c) (streetNames c) (currentStreetIdx c + 1) d
     (arrived c) (score c) (commuteTime c).

Definition view (c : t) : CarView :=
  {| v_arrived := arrived c; v_score := score c;
     v_commuteTime := commuteTime c |}.
End Car.

(** One entry of [intersectionSchedulesById]: the windows by street name
    and the property [scheduledTimeWindow]. *)
Record IntersectionSchedule : Type := {
  windows : gmap string (Z * Z);
  scheduledTimeWindow : option Z;
}.

Record Dataset : Type := {
  simulation : Simulation.t;
  streets : gmap string Street.t;
  cars : list Car.t;
}.

(** *** [parseInputDataSet] *)

Definition addStreet (m : gmap string Street.t) (l : StreetLine)
    : gmap string Street.t :=
  <[sl_name l := Street.mk (sl_start l) (sl_end l) (sl_duration l) []]> m.

(** One iteration of the loop over the car lines: the car is pushed, then
    its index is pushed on the queue of its first street.  A route without
    a name, or whose first name is no street, ends in the [TypeError] of a
    property read on [undefined] (for the names of a [plainInput]). *)
Definition addCar (d : Dataset) (l : CarLine) : result Dataset :=
  let car := Car.mk (cl_numStreets l) (cl_streetNames l) 0 0 false 0 0 in
  name ← head (cl_streetNames l) ?? TypeError;
  st ← streets d !! name ?? TypeError;
  Ok {| simulation := simulation d;
        streets := <[name := Street.set_carIdQueue
                               (Street.carIdQueue st ++ [length (cars d)])
                               st]> (streets d);
        cars := cars d ++ [car] |}.

Fixpoint addCars (d : Dataset) (ls : list CarLine) : result Dataset :=
  match ls with
  | [] => Ok d
  | l :: ls' => d' ← addCar d l; addCars d' ls'
  end.

(** The two loops of [parseInputDataSet], over the street lines and the
    car lines that the header counts ([plainInput]). *)
Definition parseInputDataSet (inp : Input) : result Dataset :=
  addCars {| simulation := header inp;
             streets := fold_left addStreet (streetLines inp) ∅;
             cars := [] |}
          (carLines inp).

(** *** [parseSubmittedDataSet] *)

Record Validation : Type := {
  intersectionSchedulesById : gmap string IntersectionSchedule;
  numSchedules : Z;
  currentLine : Z;
  totalCycles_sum : Z;       (* averageIntersectionSchedules.totalCycles *)
}.

(** The body of the loop over [j]; [acc] holds the windows stored so far
    under the intersection, [lastScheduleTime] and the running total. *)
Definition scheduleStreet (d : Dataset) (lines : list string)
    (intersectionId : string) (pos : Z)
    (acc : gmap string (Z * Z) * Z * Z)
    : result (gmap string (Z * Z) * Z * Z) :=
  let '(ws, lastScheduleTime, total) := acc in
  line ← JS.nth lines pos ?? TypeError;
  let tokens := parseLine line in
  let streetName := default "" (head tokens) in
  let schedule := tokens !! 1%nat ≫= JS.Number in
  if match streets d !! streetName with
     | Some st => bool_decide (JS.Number intersectionId ≠ Some (Street.end_ st))
     | None => false
     end
  then Throw StreetIntersectionMismatch
  else
    match schedule with
    | None => Throw MalformedGreenDuration
    | Some g =>
        if (g <? 1) || (Simulation.duration (simulation d) <? g)
        then Throw GreenDurationOutOfRange
        else
          Ok (<[streetName := (lastScheduleTime, lastScheduleTime + g - 1)]> ws,
              lastScheduleTime + g,
              total + g)
    end.

Fixpoint scheduleStreets (d : Dataset) (lines : list string)
    (intersectionId : string) (n : nat) (pos : Z)
    (acc : gmap string (Z * Z) * Z * Z)
    : result (gmap string (Z * Z) * Z * Z) :=
  match n with
  | O => Ok acc
  | S n' =>
      acc' ← scheduleStreet d lines intersectionId pos acc;
      scheduleStreets d lines intersectionId n' (pos + 1) acc'
  end.

(** The body of the loop over [i]. *)
Definition scheduleIntersection (d : Dataset) (lines : list string)
    (i : Z) (v : Validation) : result Validation :=
  let intersectionId :=
    default "undefined" (JS.nth lines (currentLine v + i)) in
  match JS.nth lines (currentLine v + i + 1) with
  | None => Throw TruncatedSubmission
  | Some numIncomingStreets =>
      match JS.Number numIncomingStreets with
      | None => Throw MalformedCount
      | Some n =>
          if bool_decide (is_Some (intersectionSchedulesById v !! intersectionId))
          then Throw DuplicateIntersectionSchedule
          else
            '(ws, lastScheduleTime, total) ←
              scheduleStreets d lines intersectionId (Z.to_nat n)
                (currentLine v + i + 2) (∅, 0, totalCycles_sum v);
            Ok {| intersectionSchedulesById :=
                    <[intersectionId :=
                        {| windows := ws;
                           scheduledTimeWindow := Some lastScheduleTime |}]>
                      (intersectionSchedulesById v);
                  numSchedules := numSchedules v + n;
                  currentLine := currentLine v + n + 1;
                  totalCycles_sum := total |}
      end
  end.

Fixpoint scheduleIntersections (d : Dataset) (lines : list string)
    (n : nat) (i : Z) (v : Validation) : result Validation :=
  match n with
  | O => Ok v
  | S n' =>
      v' ← scheduleIntersection d lines i v;
      scheduleIntersections d lines n' (i + 1) v'
  end.

Definition parseSubmittedDataSet (d : Dataset) (data : string)
    : result (gmap string IntersectionSchedule * Averages) :=
  let lines := JS.split "010" data in
  let numIntersections := default 0 (head lines ≫= JS.Number) in
  v ← scheduleIntersections d (tail lines) (Z.to_nat numIntersections) 0
        {| intersectionSchedulesById := ∅;
           numSchedules := 0; currentLine := 0; totalCycles_sum := 0 |};
  Ok (intersectionSchedulesById v,
      {| greenCycles := JS.div (totalCycles_sum v) (numSchedules v);
         totalCycles :=
           JS.div (totalCycles_sum v)
                  (Simulation.numIntersections (simulation d)) |}).

(** *** [simulate] *)

Inductive event : Type :=
| Register (time : Z) (streetName : string) (car : nat)
| Cross (time : Z) (streetName : string) (car : nat)
| Arrive (time : Z) (car : nat).

Section Engine.

(** The global [intersectionSchedulesById], fixed once the submission is
    parsed. *)
Variable schedules : gmap string IntersectionSchedule.

(** [if (car.remainingTimeOnStreet === 1 && car.currentStreetIdx <
    car.numStreets - 1) dataset.streets[streetName].carIdQueue.push(i)] *)
Definition register (time : Z) (i : nat) (car : Car.t)
    (streets : gmap string Street.t)
    : result (gmap string Street.t * list event) :=
  if (Car.remainingTimeOnStreet car =? 1)
     && (Car.currentStreetIdx car <? Car.numStreets car - 1)
  then
    streetName ← JS.nth (Car.streetNames car) (Car.currentStreetIdx car)
                 ?? TypeError;
    st ← streets !! streetName ?? TypeError;
    Ok (<[streetName :=
            Street.set_carIdQueue (Street.carIdQueue st ++ [i]) st]> streets,
        [Register time streetName i])
  else Ok (streets, []).

Definition decrement (car : Car.t) : Car.t :=
  if 0 <? Car.remainingTimeOnStreet car
  then Car.set_remainingTimeOnStreet (Car.remainingTimeOnStreet car - 1) car
  else car.

(** [intersectionSchedulesById[end] && intersectionSchedulesById[end]
    [streetName]], then the test of the window.  The lookup of the street
    name finds what the validator stored; this is what the code does for
    the street names of a [plainInput]. *)
Definition isTrafficLightGreen (time : Z) (streetName : string)
    (st : Street.t) : bool :=
  match schedules !! JS.String (Street.end_ st) with
  | Some sch =>
      match windows sch !! streetName with
      | Some (gte, lte) =>
          match scheduledTimeWindow sch ≫= JS.rem time with
          | Some timePart => (gte <=? timePart) && (timePart <=? lte)
          | None => false
          end
      | None => false
      end
  | None => false
  end.

Definition put (i : nat) (car : Car.t) (streets : gmap string Street.t)
    (d : Dataset) : Dataset :=
  {| simulation := simulation d; streets := streets;
     cars := <[i := car]> (cars d) |}.

(** [if (car.remainingTimeOnStreet === 0) { ... }]; [car] and [streets] are
    the car and [dataset.streets] as the two statements before left them,
    [crossed] is [isIntersectionCrossedInThisIteration]. *)
Definition resolve (remainingTime time : Z) (i : nat) (car : Car.t)
    (streets : gmap string Street.t) (d : Dataset) (crossed : gset string)
    (ev : list event) : result (Dataset * gset string * list event) :=
  if negb (Car.remainingTimeOnStreet car =? 0)
  then Ok (put i car streets d, crossed, ev)
  else if Car.currentStreetIdx car =? Car.numStreets car - 1
  then Ok (put i (Car.set_arrived
                    (Simulation.bonusPoint (simulation d) + remainingTime)
                    time car) streets d,
           crossed, ev ++ [Arrive time i])
  else if remainingTime =? 0
  then Ok (put i car streets d, crossed, ev)
  else
    streetName ← JS.nth (Car.streetNames car) (Car.currentStreetIdx car)
                 ?? TypeError;
    st ← streets !! streetName ?? TypeError;
    if negb (isTrafficLightGreen time streetName st)
       || bool_decide (streetName ∈ crossed)
       || negb (bool_decide (head (Street.carIdQueue st) = Some i))
    then Ok (put i car streets d, crossed, ev)
    else
      let streets' :=
        <[streetName :=
            Street.set_carIdQueue (tail (Street.carIdQueue st)) st]>
          streets in
      next ← JS.nth (Car.streetNames car) (Car.currentStreetIdx car + 1)
             ?? TypeError;
      nst ← streets' !! next ?? TypeError;
      Ok (put i (Car.advance (Street.duration nst) car) streets' d,
          {[streetName]} ∪ crossed,
          ev ++ [Cross time streetName i]).

(** The body of the loop over [i]: its three consecutive [if] statements. *)
Definition carStep (remainingTime time : Z) (i : nat)
    (s : Dataset * gset string)
    : result (Dataset * gset string * list event) :=
  let '(d, crossed) := s in
  car ← cars d !! i ?? TypeError;
  if Car.arrived car then Ok (d, crossed, [])
  else
    '(streets, ev) ← register time i car (streets d);
    resolve remainingTime time i (decrement car) streets d crossed ev.

Fixpoint processCars (remainingTime time : Z) (order : list nat)
    (s : Dataset * gset string)
    : result (Dataset * gset string * list event) :=
  match order with
  | [] => Ok (s, [])
  | i :: order' =>
      '(s', ev) ← carStep remainingTime time i s;
      '(s'', evs) ← processCars remainingTime time order' s';
      Ok (s'', ev ++ evs)
  end.

(** One iteration of the [while] loop, with an empty marker. *)
Definition tickIn (order : list nat) (remainingTime time : Z) (d : Dataset)
    : result (Dataset * gset string * list event) :=
  processCars remainingTime time order (d, ∅).

Fixpoint loopIn (order : Z → Dataset → list nat) (n : nat)
    (remainingTime time : Z) (d : Dataset)
    : result (Dataset * list event) :=
  match n with
  | O => Ok (d, [])
  | S n' =>
      '(d', _, ev) ← tickIn (order time d) (remainingTime - 1) time d;
      '(d'', evs) ← loopIn order n' (remainingTime - 1) (time + 1) d';
      Ok (d'', ev ++ evs)
  end.

Definition simulateIn (order : Z → Dataset → list nat) (d : Dataset)
    : result (Dataset * list event) :=
  let duration := Simulation.duration (simulation d) in
  loopIn order (Z.to_nat (duration + 1)) (duration + 1) 0 d.

(** [for (let i = 0; i < dataset.simulation.numCars; i++)] *)
Definition sourceOrder (time : Z) (d : Dataset) : list nat :=
  seq 0 (Z.to_nat (Simulation.numCars (simulation d))).

Definition tick (remainingTime time : Z) (d : Dataset)
    : result (Dataset * gset string * list event) :=
  tickIn (sourceOrder time d) remainingTime time d.

Definition loop : nat → Z → Z → Dataset → result (Dataset * list event) :=
  loopIn sourceOrder.

Definition simulate (d : Dataset) : result (Dataset * list event) :=
  simulateIn sourceOrder d.

End Engine.

(** *** [createInsights] and [evaluate] *)

Definition createInsights (d : Dataset) (avg : Averages) : Insights :=
  insights (simulation d) avg (Car.view <$> cars d).

Definition evaluate (inp : Input) (submittedDataSet : string)
    : result Insights :=
  d ← parseInputDataSet inp;
  '(schedules, avg) ← parseSubmittedDataSet d submittedDataSet;
  '(d, _) ← simulate schedules d;
  Ok (createInsights d avg).

(** What [createInsights] reads of the cars once [simulate] has run. *)
Definition finalCars (inp : Input) (submittedDataSet : string)
    : result (list CarView) :=
  d ← parseInputDataSet inp;
  '(schedules, _) ← parseSubmittedDataSet d submittedDataSet;
  '(d, _) ← simulate schedules d;
  Ok (Car.view <$> cars d).

(** *** Properties of datasets and observations on traces *)

Definition carInRange (c : Car.t) : Prop :=
  0 ≤ Car.currentStreetIdx c ≤ Car.numStreets c - 1
  ∧ 0 ≤ Car.remainingTimeOnStreet c.

(** Every route has at least its current street left, no car has a
    negative time left, no street a negative length. *)
Definition wellFormed (d : Dataset) : Prop :=
  Forall carInRange (cars d)
  ∧ map_Forall (λ _ st, 0 ≤ Street.duration st) (streets d).

(** What [simulate] never writes in a street. *)
Definition static (st : Street.t) : Z * Z * Z :=
  (Street.start st, Street.end_ st, Street.duration st).

(** The streets crossed at tick [t], and the streets crossed, in the order
    of the trace. *)
Definition crossedAt (t : Z) (ev : list event) : list string :=
  omap (λ e, match e with
             | Cross t' s _ => if decide (t' = t) then Some s else None
             | _ => None
             end) ev.

Definition crossedStreets (ev : list event) : list string :=
  omap (λ e, match e with Cross _ s _ => Some s | _ => None end) ev.

(** The cars pushed on the queue of street [s], and the cars that crossed
    [s], in the order of the trace. *)
Definition registeredOn (s : string) (ev : list event) : list nat :=
  omap (λ e, match e with
             | Register _ s' j => if decide (s' = s) then Some j else None
             | _ => None
             end) ev.

Definition crossedOn (s : string) (ev : list event) : list nat :=
  omap (λ e, match e with
             | Cross _ s' j => if decide (s' = s) then Some j else None
             | _ => None
             end) ev.

(** The queue of street [s]. *)
Definition queueOf (s : string) (d : Dataset) : option (list nat) :=
  Street.carIdQueue <$> streets d !! s.

End Fifo.

(** ** The two files side by side *)

Module Refine.

(** The datasets on which the statement below compares the two files: the
    header counts the car lines, every street takes at least one tick, every
    route has at least one street. *)
Definition wellFormedInput (inp : Input) : Prop :=
  Simulation.numCars (header inp) = Z.of_nat (length (carLines inp))
  ∧ Forall (λ l, 1 ≤ sl_duration l) (streetLines inp)
  ∧ Forall (λ l, 1 ≤ cl_numStreets l) (carLines inp).

(** An intersection identifier that is the decimal numeral of a number,
    i.e. the property key that the number is converted to. *)
Definition canonical (intersectionId : string) : Prop :=
  JS.String <$> JS.Number intersectionId = Some intersectionId.

(** A car of [index.js] and the same car of [part_001]. *)
Definition carRel (cf : Fifo.Car.t) (ct : Ticket.Car.t) : Prop :=
  Fifo.Car.numStreets cf = Ticket.Car.numStreets ct
  ∧ Fifo.Car.streetNames cf = Ticket.Car.streetNames ct
  ∧ Fifo.Car.currentStreetIdx cf = Ticket.Car.currentStreetIdx ct
  ∧ Fifo.Car.remainingTimeOnStreet cf = Ticket.Car.remainingTimeOnStreet ct
  ∧ Fifo.Car.arrived cf = Ticket.Car.arrived ct
  ∧ Fifo.Car.score cf = Ticket.Car.score ct
  ∧ Fifo.Car.commuteTime cf = Ticket.Car.commuteTime ct
  ∧ JS.nth (Ticket.Car.streetNames ct) (Ticket.Car.currentStreetIdx ct)
    = Some (Ticket.Car.currentStreetName ct)
  ∧ Ticket.Car.currentStreetIdx ct ≤ Ticket.Car.numStreets ct - 1.

(** A street of [index.js] and the same street of [part_001]: the tickets
    handed out and not yet used are as many as the queue is long. *)
Definition streetRel (sf : Fifo.Street.t) (st : Ticket.Street.t) : Prop :=
  Fifo.Street.start sf = Ticket.Street.start st
  ∧ Fifo.Street.end_ sf = Ticket.Street.end_ st
  ∧ Fifo.Street.duration sf = Ticket.Street.duration st
  ∧ 1 ≤ Ticket.Street.duration st
  ∧ Ticket.Street.nextQueuingNumber st
    = Ticket.Street.lastQueuingNumber st + 1
      + Z.of_nat (length (Fifo.Street.carIdQueue sf)).

(** The dataset of [index.js], with its global [intersectionSchedulesById],
    and the dataset of [part_001] describe the same situation. *)
Record related (schedules : gmap string Fifo.IntersectionSchedule)
    (df : Fifo.Dataset) (dt : Ticket.Dataset) : Prop := {
  rel_simulation : Fifo.simulation df = Ticket.simulation dt;
  rel_cars : Forall2 carRel (Fifo.cars df) (Ticket.cars dt);
  rel_streets : ∀ s,
    option_Forall2 streetRel (Fifo.streets df !! s) (Ticket.streets dt !! s);
  (** the car at position [k] of a queue holds the [k]-th ticket after the
      last one used, and waits at the end of that street *)
  rel_queue : ∀ s sf st k j,
    Fifo.streets df !! s = Some sf → Ticket.streets dt !! s = Some st →
    Fifo.Street.carIdQueue sf !! k = Some j →
    ∃ ct, Ticket.cars dt !! j = Some ct
          ∧ Ticket.Car.queuingNumber ct
            = Ticket.Street.lastQueuingNumber st + 1 + Z.of_nat k
          ∧ Ticket.Car.currentStreetName ct = s
          ∧ Ticket.Car.remainingTimeOnStreet ct = 0;
  (** a car that waits to cross is in the queue of its street *)
  rel_waiting : ∀ i ct,
    Ticket.cars dt !! i = Some ct → Ticket.Car.arrived ct = false →
    Ticket.Car.remainingTimeOnStreet ct = 0 →
    Ticket.Car.currentStreetIdx ct < Ticket.Car.numStreets ct - 1 →
    ∃ sf k, Fifo.streets df !! Ticket.Car.currentStreetName ct = Some sf
            ∧ Fifo.Street.carIdQueue sf !! k = Some i;
  rel_green : ∀ t s sf st,
    Fifo.streets df !! s = Some sf → Ticket.streets dt !! s = Some st →
    Fifo.isTrafficLightGreen schedules t s sf
    = Ticket.isTrafficLightGreen t st;
}.

(** What a visit of a car hands back in both files: related datasets and
    the same marker. *)
Definition stepRel (schedules : gmap string Fifo.IntersectionSchedule)
    (rf : Fifo.Dataset * gset string * list Fifo.event)
    (rt : Ticket.Dataset * gset string * list Ticket.event) : Prop :=
  related schedules rf.1.1 rt.1.1 ∧ rf.1.2 = rt.1.2.

(** The header counts the cars of the dataset. *)
Definition countsCars (dt : Ticket.Dataset) : Prop :=
  Simulation.numCars (Ticket.simulation dt)
  = Z.of_nat (length (Ticket.cars dt)).

(** The results of the two files agree: the same exception, or values that
    [P] relates. *)
Definition agree {A B} (P : A → B → Prop) (rf : result A) (rt : result B)
    : Prop :=
  match rf, rt with
  | Ok a, Ok b => P a b
  | Throw e1, Throw e2 => e1 = e2
  | _, _ => False
  end.

(** A street of [part_001] that no submission has scheduled. *)
Definition unscheduled (m : gmap string Ticket.Street.t) : Prop :=
  ∀ s st, m !! s = Some st → Ticket.Street.schedule st = None.

(** Two streets of [part_001] that differ in their schedule at most. *)
Definition sameCore (a b : Ticket.Street.t) : Prop :=
  Ticket.Street.start a = Ticket.Street.start b
  ∧ Ticket.Street.end_ a = Ticket.Street.end_ b
  ∧ Ticket.Street.duration a = Ticket.Street.duration b
  ∧ Ticket.Street.lastQueuingNumber a = Ticket.Street.lastQueuingNumber b
  ∧ Ticket.Street.nextQueuingNumber a = Ticket.Street.nextQueuingNumber b.

(** The window and the cycle length that each file finds for a street. *)
Definition fifoWindow (byId : gmap string Fifo.IntersectionSchedule)
    (e : Z) (s : string) : option (Z * Z * option Z) :=
  sch ← byId !! JS.String e;
  w ← Fifo.windows sch !! s;
  Some (w, Fifo.scheduledTimeWindow sch).

Definition ticketWindow (st : Ticket.Street.t) : option (Z * Z * option Z) :=
  w ← Ticket.Street.schedule st;
  Some (w, Ticket.Street.scheduledTimeWindow st).

Definition greenOf (t : Z) (o : option (Z * Z * option Z)) : bool :=
  match o with
  | Some ((gte, lte), w) =>
      match w ≫= JS.rem t with
      | Some timePart => (gte <=? timePart) && (timePart <=? lte)
      | None => false
      end
  | None => false
  end.

(** The streets of [index.js] and of [part_001] end at the same
    intersections. *)
Definition endsRel (df : Fifo.Dataset) (m : gmap string Ticket.Street.t)
    : Prop :=
  ∀ s, option_Forall2 (λ sf st, Fifo.Street.end_ sf = Ticket.Street.end_ st)
         (Fifo.streets df !! s) (m !! s).

(** The variables of [parseSubmittedDataSet] in both files, [m0] being the
    streets of [part_001] before the submission is read. *)
Record validRel (m0 : gmap string Ticket.Street.t)
    (vf : Fifo.Validation) (vt : Ticket.Validation) : Prop := {
  vr_num : Fifo.numSchedules vf = Ticket.numSchedules vt;
  vr_line : Fifo.currentLine vf = Ticket.currentLine vt;
  vr_total : Fifo.totalCycles_sum vf = Ticket.totalCycles_sum vt;
  vr_keys : ∀ id,
    is_Some (Fifo.intersectionSchedulesById vf !! id)
    ↔ id ∈ Ticket.intersectionSchedulesById vt;
  vr_core : ∀ s, option_Forall2 sameCore (m0 !! s) (Ticket.v_streets vt !! s);
  vr_windows : ∀ s st,
    Ticket.v_streets vt !! s = Some st →
    fifoWindow (Fifo.intersectionSchedulesById vf) (Ticket.Street.end_ st) s
    = ticketWindow st;
}.

(** The streets and the windows while the entries of one intersection are
    read: [m] are the streets before the intersection. *)
Definition entriesRel (intersectionId : string)
    (m streets : gmap string Ticket.Street.t) (names : list string)
    (ws : gmap string (Z * Z)) : Prop :=
  (∀ s, s ∉ names → streets !! s = m !! s ∧ ws !! s = None)
  ∧ (∀ s, s ∈ names →
       ∃ st0 st w, m !! s = Some st0 ∧ streets !! s = Some st
                   ∧ sameCore st0 st
                   ∧ JS.Number intersectionId = Some (Ticket.Street.end_ st)
                   ∧ Ticket.Street.schedule st = Some w
                   ∧ Ticket.Street.scheduledTimeWindow st
                     = Ticket.Street.scheduledTimeWindow st0
                   ∧ ws !! s = Some w).

End Refine.

(** ** A small city used to exercise the definitions

    Three streets [a : 0 -> 1], [b : 1 -> 2], [c : 2 -> 0]; two cars, both
    waiting at the end of [a]; the lights of the intersections [1] and [2]
    are scheduled. *)

Module Sample.

Definition nl : string := String "010" EmptyString.

Definition inputFor (duration : Z) : Input :=
  {| header := Simulation.mk duration 3 3 2 1000;
     streetLines := [ Build_StreetLine 0 1 "a" 1;
                      Build_StreetLine 1 2 "b" 2;
                      Build_StreetLine 2 0 "c" 1 ];
     carLines := [ Build_CarLine 3 ["a"; "b"; "c"];
                   Build_CarLine 2 ["a"; "b"] ] |}.

Definition input : Input := inputFor 6.

Definition submission : string :=
  "2" +:+ nl +:+ "1" +:+ nl +:+ "1" +:+ nl +:+ "a 1" +:+ nl
      +:+ "2" +:+ nl +:+ "1" +:+ nl +:+ "b 2" +:+ nl.

(** [submission] cut after the identifier of the second intersection, after
    the count of the second intersection, after the identifier of the second
    intersection with the line feed that ends it, and a submission whose
    first entry is out of range and whose second entry is cut off. *)
Definition cutAtCount : string :=
  "2" +:+ nl +:+ "1" +:+ nl +:+ "1" +:+ nl +:+ "a 1" +:+ nl +:+ "2".

Definition cutAtStreet : string :=
  "2" +:+ nl +:+ "1" +:+ nl +:+ "1" +:+ nl +:+ "a 1" +:+ nl
      +:+ "2" +:+ nl +:+ "1".

Definition cutKeepingLineFeed : string := cutAtCount +:+ nl.

Definition cutAfterBadDuration : string :=
  "1" +:+ nl +:+ "1" +:+ nl +:+ "2" +:+ nl +:+ "a 0".

(** [submission] with the identifier of intersection 1 written [01]. *)
Definition leadingZero : string :=
  "2" +:+ nl +:+ "01" +:+ nl +:+ "1" +:+ nl +:+ "a 1" +:+ nl
      +:+ "2" +:+ nl +:+ "1" +:+ nl +:+ "b 2" +:+ nl.

(** A submission that schedules, at intersection 1, street [a] and a street
    [z] that the dataset does not have. *)
Definition unknownStreet : string :=
  "1" +:+ nl +:+ "1" +:+ nl +:+ "2" +:+ nl +:+ "a 1" +:+ nl
      +:+ "z 1" +:+ nl.

(** The dataset of [part_001] once the input data set is parsed. *)
Definition ticketParsed : Ticket.Dataset :=
  match Ticket.parseInputDataSet input with
  | Ok d => d
  | Throw _ =>
      {| Ticket.simulation := header input; Ticket.streets := ∅;
         Ticket.cars := [] |}
  end.

(** The dataset of [part_001] once both files are parsed. *)
Definition ticketFor (duration : Z) : Ticket.Dataset :=
  match Ticket.parseInputDataSet (inputFor duration)
        ≫= λ d, Ticket.parseSubmittedDataSet d submission with
  | Ok (d, _, _) => d
  | Throw _ =>
      {| Ticket.simulation := header (inputFor duration);
         Ticket.streets := ∅; Ticket.cars := [] |}
  end.

Definition ticketDataset : Ticket.Dataset := ticketFor 6.

(** The same dataset after the first [n] ticks of the run. *)
Definition ticketAfter (n : nat) : Ticket.Dataset :=
  match Ticket.loop n 7 0 ticketDataset with
  | Ok (d, _) => d
  | Throw _ => ticketDataset
  end.

(** The averages that [part_001] reports for [submission], and what its
    validator read. *)
Definition ticketAverages : Averages :=
  match Ticket.parseSubmittedDataSet ticketParsed submission with
  | Ok (_, avg, _) => avg
  | Throw _ => {| greenCycles := None; totalCycles := None |}
  end.

Definition ticketLog : list Scheduled :=
  [ {| s_line := 0; s_intersectionId := "1"; s_declared := 1;
       s_entries := [("a", 1)] |};
    {| s_line := 3; s_intersectionId := "2"; s_declared := 1;
       s_entries := [("b", 2)] |} ].

(** The dataset of [index.js] once the input data set is parsed, and its
    [intersectionSchedulesById] once the submission is. *)
Definition fifoFor (duration : Z) : Fifo.Dataset :=
  match Fifo.parseInputDataSet (inputFor duration) with
  | Ok d => d
  | Throw _ =>
      {| Fifo.simulation := header (inputFor duration);
         Fifo.streets := ∅; Fifo.cars := [] |}
  end.

Definition fifoDataset : Fifo.Dataset := fifoFor 6.

Definition fifoSchedules : gmap string Fifo.IntersectionSchedule :=
  match Fifo.parseSubmittedDataSet fifoDataset submission with
  | Ok (schedules, _) => schedules
  | Throw _ => ∅
  end.

(** The dataset of [index.js] after the first [n] ticks of the run. *)
Definition fifoAfter (n : nat) : Fifo.Dataset :=
  match Fifo.loop fifoSchedules n 7 0 fifoDataset with
  | Ok (d, _) => d
  | Throw _ => fifoDataset
  end.

End Sample.

(** ** Observations for the report, the parsers, the validator and the
       routes *)

(** The order in which [createInsights] sorts the arrived cars. *)
Definition byCommuteTime (a b : CarView) : Prop :=
  v_commuteTime a ≤ v_commuteTime b.

Module Parsed.

(** The street on which the route of a car line starts. *)
Definition firstStreet (l : CarLine) : option string :=
  head (cl_streetNames l).

(** The positions, counted from [i], of the car lines whose route starts on
    street [s], in the order of the file. *)
Fixpoint startersFrom (i : nat) (s : string) (ls : list CarLine)
    : list nat :=
  match ls with
  | [] => []
  | l :: ls' =>
      (if decide (firstStreet l = Some s) then [i] else [])
      ++ startersFrom (S i) s ls'
  end.

Definition starters (s : string) (ls : list CarLine) : list nat :=
  startersFrom 0 s ls.

(** The street line that names street [s]: the last one, when several
    do. *)
Definition streetLineOf (s : string) (ls : list StreetLine)
    : option StreetLine :=
  last (filter (λ l, sl_name l = s) ls).

(** A car line whose route starts on a street of the dataset. *)
Definition startsOnStreet (inp : Input) (l : CarLine) : Prop :=
  ∃ name, firstStreet l = Some name
          ∧ is_Some (streetLineOf name (streetLines inp)).

#[global] Instance startsOnStreet_dec inp l : Decision (startsOnStreet inp l).
Proof.
  unfold startsOnStreet. destruct (firstStreet l) as [name|].
  - destruct (decide (is_Some (streetLineOf name (streetLines inp))))
      as [H|H].
    + left. by exists name.
    + right. intros (n & [= <-] & ?). done.
  - right. intros (n & ? & _). done.
Defined.

(** The car that [index.js] builds of a car line, and the car that
    [part_001] builds of it with ticket [q]. *)
Definition fifoCar (l : CarLine) : Fifo.Car.t :=
  Fifo.Car.mk (cl_numStreets l) (cl_streetNames l) 0 0 false 0 0.

Definition ticketCar (l : CarLine) (q : Z) : Ticket.Car.t :=
  Ticket.Car.mk (cl_numStreets l) (cl_streetNames l) 0
                (default "" (firstStreet l)) 0 q false 0 0.

End Parsed.

Module SampleJunction.
Import Sample.
(** A second city, in which the streets [a] and [b] enter the same
    intersection [2], and a submission that schedules both. *)
Definition junctionInput : Input :=
  {| header := Simulation.mk 6 3 3 1 1000;
     streetLines := [ Build_StreetLine 0 2 "a" 1;
                      Build_StreetLine 1 2 "b" 1;
                      Build_StreetLine 2 0 "c" 1 ];
     carLines := [ Build_CarLine 2 ["a"; "c"] ] |}.

Definition junctionSubmission : string :=
  "1" +:+ nl +:+ "2" +:+ nl +:+ "2" +:+ nl +:+ "a 1" +:+ nl
      +:+ "b 2" +:+ nl.

Definition junctionParsed : Ticket.Dataset :=
  match Ticket.parseInputDataSet junctionInput with
  | Ok d => d
  | Throw _ =>
      {| Ticket.simulation := header junctionInput; Ticket.streets := ∅;
         Ticket.cars := [] |}
  end.

Definition junctionValidated : Ticket.Dataset * Averages * list Scheduled :=
  match Ticket.parseSubmittedDataSet junctionParsed junctionSubmission with
  | Ok r => r
  | Throw _ =>
      (junctionParsed, {| greenCycles := None; totalCycles := None |}, [])
  end.

Definition junctionDataset : Ticket.Dataset := junctionValidated.1.1.

Definition junctionLog : list Scheduled :=
  [ {| s_line := 0; s_intersectionId := "2"; s_declared := 2;
       s_entries := [("a", 1); ("b", 2)] |} ].
Definition junctionAverages : Averages := junctionValidated.1.2.

Definition junctionFifo : Fifo.Dataset :=
  match Fifo.parseInputDataSet junctionInput with
  | Ok d => d
  | Throw _ =>
      {| Fifo.simulation := header junctionInput; Fifo.streets := ∅;
         Fifo.cars := [] |}
  end.

Definition junctionSchedules : gmap string Fifo.IntersectionSchedule :=
  match Fifo.parseSubmittedDataSet junctionFifo junctionSubmission with
  | Ok (schedules, _) => schedules
  | Throw _ => ∅
  end.
End SampleJunction.

Module Validated.
Import Refine.

(** The time of the cycle at which the entry at position [k] of an
    intersection turns green: the sum of the green durations before it. *)
Definition offsetOf (entries : list (string * Z)) (k : nat) : Z :=
  sumZ (snd <$> take k entries).

(** Street [s], as the validator of [part_001] leaves it, carries the
    window of an entry of the scheduled intersection [b]. *)
Definition compiled (b : Scheduled) (s : string) (st : Ticket.Street.t)
    : Prop :=
  ∃ k g, s_entries b !! k = Some (s, g)
    ∧ Ticket.Street.schedule st
      = Some (offsetOf (s_entries b) k, offsetOf (s_entries b) k + g - 1)
    ∧ Ticket.Street.scheduledTimeWindow st = Some (cycleLength b)
    ∧ JS.Number (s_intersectionId b) = Some (Ticket.Street.end_ st).

(** What the validator checks of an entry: the green duration lies between
    [1] and the duration of the simulation, and the street enters the
    intersection. *)
Definition checked (sim : Simulation.t) (m : gmap string Ticket.Street.t)
    (intersectionId : string) (e : string * Z) : Prop :=
  1 ≤ e.2 ≤ Simulation.duration sim
  ∧ ∃ st, m !! e.1 = Some st
          ∧ JS.Number intersectionId = Some (Ticket.Street.end_ st).

(** The loop over the entries of one intersection: [m] are the streets
    before the intersection. *)
Definition entriesInv (sim : Simulation.t) (intersectionId : string)
    (m streets : gmap string Ticket.Street.t) (names : list string)
    (last : Z) (entries : list (string * Z)) : Prop :=
  names = fst <$> entries
  ∧ last = sumZ (snd <$> entries)
  ∧ Forall (checked sim m intersectionId) entries
  ∧ (∀ s, s ∉ names → streets !! s = m !! s)
  ∧ (∀ s, s ∈ names →
       ∃ st0 st k g,
         m !! s = Some st0 ∧ streets !! s = Some st ∧ sameCore st0 st
         ∧ entries !! k = Some (s, g)
         ∧ Ticket.Street.schedule st
           = Some (offsetOf entries k, offsetOf entries k + g - 1)).

(** The loop over the intersections: [m0] are the streets before the
    submission is read. *)
Definition validInv (sim : Simulation.t) (m0 : gmap string Ticket.Street.t)
    (v : Ticket.Validation) : Prop :=
  NoDup (s_intersectionId <$> Ticket.scheduled v)
  ∧ (∀ id, id ∈ Ticket.intersectionSchedulesById v
           ↔ id ∈ s_intersectionId <$> Ticket.scheduled v)
  ∧ Forall (λ b, Forall (checked sim m0 (s_intersectionId b)) (s_entries b))
           (Ticket.scheduled v)
  ∧ (∀ s, option_Forall2 sameCore (m0 !! s) (Ticket.v_streets v !! s))
  ∧ (∀ s st, Ticket.v_streets v !! s = Some st →
       m0 !! s = Some st
       ∨ ∃ i b, Ticket.scheduled v !! i = Some b ∧ compiled b s st).

(** The windows that [index.js] holds under one identifier are the windows
    of the entries of a list of green durations, all at least [1], whose
    sum is the cycle length. *)
Definition laidOut (ws : gmap string (Z * Z)) (entries : list (string * Z))
    : Prop :=
  Forall (λ e, 1 ≤ e.2) entries
  ∧ ∀ s w, ws !! s = Some w →
           ∃ k g, entries !! k = Some (s, g)
                  ∧ w = (offsetOf entries k, offsetOf entries k + g - 1).

Definition fifoInv (byId : gmap string Fifo.IntersectionSchedule) : Prop :=
  ∀ id isch, byId !! id = Some isch →
    ∃ entries, laidOut (Fifo.windows isch) entries
               ∧ Fifo.scheduledTimeWindow isch
                 = Some (sumZ (snd <$> entries)).

End Validated.

Module Route.
Import Ticket.

(** The streets that car [i] crossed, in the order of the trace. *)
Definition crossedBy (i : nat) (ev : list event) : list string :=
  omap (λ e, match e with
             | Cross _ s j _ => if decide (j = i) then Some s else None
             | _ => None
             end) ev.

(** [currentStreetName] is the street of the route at [currentStreetIdx]. *)
Definition consistent (c : Car.t) : Prop :=
  0 ≤ Car.currentStreetIdx c
  ∧ JS.nth (Car.streetNames c) (Car.currentStreetIdx c)
    = Some (Car.currentStreetName c).

(** Car [j] went from [c] to [c'] along its route while the trace [ev] was
    emitted. *)
Definition follows (j : nat) (c c' : Car.t) (ev : list event) : Prop :=
  Car.numStreets c' = Car.numStreets c
  ∧ Car.streetNames c' = Car.streetNames c
  ∧ consistent c'
  ∧ Car.currentStreetIdx c'
    = Car.currentStreetIdx c + Z.of_nat (length (crossedBy j ev))
  ∧ crossedBy j ev
    = take (length (crossedBy j ev))
           (drop (Z.to_nat (Car.currentStreetIdx c)) (Car.streetNames c)).

(** The streets that a car drives: the first [numStreets] names of its
    line. *)
Definition route (c : Car.t) : list string :=
  take (Z.to_nat (Car.numStreets c)) (Car.streetNames c).

Definition durationOf (m : gmap string Street.t) (name : string) : Z :=
  default 0 (Street.duration <$> m !! name).

(** The time that a car needs for the streets of its route after the
    first, and for the streets after its current one. *)
Definition drivingTime (m : gmap string Street.t) (c : Car.t) : Z :=
  sumZ (durationOf m <$> drop 1 (route c)).

Definition leftToDrive (m : gmap string Street.t) (c : Car.t) : Z :=
  sumZ (durationOf m
        <$> drop (Z.to_nat (Car.currentStreetIdx c + 1)) (route c)).

(** At the start of the tick at time [t] car [c] is not ahead of its
    driving time: if it is arrived, it arrived no earlier than its driving
    time allows; otherwise it is past the last street of its route (and
    never arrives), or the time gone, the time left on its street and the
    streets left to drive add up to more than the driving time, unless the
    car still waits where it started. *)
Definition onTime (m : gmap string Street.t) (t : Z) (c : Car.t) : Prop :=
  if Car.arrived c
  then drivingTime m c ≤ Car.commuteTime c
  else Car.numStreets c - 1 < Car.currentStreetIdx c
       ∨ (Car.currentStreetIdx c ≤ Car.numStreets c - 1
          ∧ (drivingTime m c + 1
             ≤ t + Car.remainingTimeOnStreet c + leftToDrive m c
             ∨ (Car.remainingTimeOnStreet c = 0
                ∧ leftToDrive m c = drivingTime m c))).

(** A car as [parseInputDataSet] builds it. *)
Definition fresh (c : Car.t) : Prop :=
  Car.arrived c = false ∧ Car.remainingTimeOnStreet c = 0
  ∧ Car.currentStreetIdx c = 0.

End Route.

Module FifoRoute.
Import Fifo.

(** The streets that a car drives: the first [numStreets] names of its
    line. *)
Definition route (c : Car.t) : list string :=
  take (Z.to_nat (Car.numStreets c)) (Car.streetNames c).

Definition durationOf (m : gmap string Street.t) (name : string) : Z :=
  default 0 (Street.duration <$> m !! name).

(** The time that a car needs for the streets of its route after the
    first, and for the streets after its current one. *)
Definition drivingTime (m : gmap string Street.t) (c : Car.t) : Z :=
  sumZ (durationOf m <$> drop 1 (route c)).

Definition leftToDrive (m : gmap string Street.t) (c : Car.t) : Z :=
  sumZ (durationOf m
        <$> drop (Z.to_nat (Car.currentStreetIdx c + 1)) (route c)).

(** At the start of the tick at time [t] car [c] is not ahead of its
    driving time (see [Route.onTime]). *)
Definition onTime (m : gmap string Street.t) (t : Z) (c : Car.t) : Prop :=
  if Car.arrived c
  then drivingTime m c ≤ Car.commuteTime c
  else Car.numStreets c - 1 < Car.currentStreetIdx c
       ∨ (Car.currentStreetIdx c ≤ Car.numStreets c - 1
          ∧ (drivingTime m c + 1
             ≤ t + Car.remainingTimeOnStreet c + leftToDrive m c
             ∨ (Car.remainingTimeOnStreet c = 0
                ∧ leftToDrive m c = drivingTime m c))).

(** A car as [parseInputDataSet] builds it. *)
Definition fresh (c : Car.t) : Prop :=
  Car.arrived c = false ∧ Car.remainingTimeOnStreet c = 0
  ∧ Car.currentStreetIdx c = 0.

End FifoRoute.

Module Bound.
Import Parsed.

(** The length of street [s] in the input data set ([0] when no line names
    it). *)
Definition lineDuration (inp : Input) (s : string) : Z :=
  default 0 (sl_duration <$> streetLineOf s (streetLines inp)).

(** The time that the car of a car line needs for the streets of its route
    after the first. *)
Definition lineDrivingTime (inp : Input) (l : CarLine) : Z :=
  sumZ (lineDuration inp
        <$> drop 1 (take (Z.to_nat (cl_numStreets l)) (cl_streetNames l))).

(** The most that the car of a car line can score: the bonus and one point
    for every second between its driving time and the deadline, or nothing
    when it cannot arrive by the deadline. *)
Definition bestScore (inp : Input) (l : CarLine) : Z :=
  Z.max 0 (Simulation.bonusPoint (header inp)
           + (Simulation.duration (header inp) - lineDrivingTime inp l)).

End Bound.

(** * Facts *)

Lemma bind_Ok {A B} (f : A → result B) (m : result A) (b : B) :
  m ≫= f = Ok b ↔ ∃ a, m = Ok a ∧ f a = Ok b.
Proof.
  destruct m as [a|e]; simpl; split.
  - intros H. exists a. auto.
  - intros (a' & Ha & Hf). congruence.
  - discriminate.
  - intros (a' & Ha & _). discriminate.
Qed.

Lemma or_throw_Ok {A} (o : option A) (e : error) (a : A) :
  o ?? e = Ok a ↔ o = Some a.
Proof. destruct o; simpl; split; congruence. Qed.

Ltac inv_result :=
  repeat match goal with
  | H : Ok _ = Ok _ |- _ => inversion H; clear H; subst
  | H : Throw _ = Ok _ |- _ => discriminate H
  | H : mret _ = Ok _ |- _ => inversion H; clear H; subst
  | H : (_ ≫= _) = Ok _ |- _ =>
      let a := fresh "a" in
      let Ha := fresh "Ha" in
      apply bind_Ok in H; destruct H as (a & Ha & H)
  | H : _ ?? _ = Ok _ |- _ => apply or_throw_Ok in H
  end.

Module TicketFacts.
Import Ticket.

(** The outcomes of one visit of a car, read off [carStep]. *)
Lemma carStep_cases R t i d x d' x' ev :
  carStep R t i (d, x) = Ok (d', x', ev) →
  ∃ car, cars d !! i = Some car ∧
    ((Car.arrived car = true ∧ d' = d ∧ x' = x ∧ ev = [])
     ∨ (Car.arrived car = false ∧
        ∃ car1 streets1 ev1,
          register t i car (streets d) = Ok (car1, streets1, ev1) ∧
          let car2 := decrement car1 in
          let name := Car.currentStreetName car2 in
          ((Car.remainingTimeOnStreet car2 ≠ 0 ∧
            d' = put i car2 streets1 d ∧ x' = x ∧ ev = ev1)
           ∨ (Car.remainingTimeOnStreet car2 = 0 ∧
              Car.currentStreetIdx car2 = Car.numStreets car2 - 1 ∧
              d' = put i (Car.set_arrived
                            (Simulation.bonusPoint (simulation d) + R) t car2)
                       streets1 d ∧
              x' = x ∧ ev = ev1 ++ [Arrive t i])
           ∨ (Car.remainingTimeOnStreet car2 = 0 ∧
              Car.currentStreetIdx car2 ≠ Car.numStreets car2 - 1 ∧
              R = 0 ∧ d' = put i car2 streets1 d ∧ x' = x ∧ ev = ev1)
           ∨ (Car.remainingTimeOnStreet car2 = 0 ∧
              Car.currentStreetIdx car2 ≠ Car.numStreets car2 - 1 ∧
              R ≠ 0 ∧
              ∃ st, streets1 !! name = Some st ∧
                (isTrafficLightGreen t st = false ∨ name ∈ x ∨
                 Street.lastQueuingNumber st + 1 ≠ Car.queuingNumber car2) ∧
                d' = put i car2 streets1 d ∧ x' = x ∧ ev = ev1)
           ∨ (Car.remainingTimeOnStreet car2 = 0 ∧
              Car.currentStreetIdx car2 ≠ Car.numStreets car2 - 1 ∧
              R ≠ 0 ∧
              ∃ st next nst,
                streets1 !! name = Some st ∧
                isTrafficLightGreen t st = true ∧ (name ∉ x) ∧
                Street.lastQueuingNumber st + 1 = Car.queuingNumber car2 ∧
                JS.nth (Car.streetNames car2) (Car.currentStreetIdx car2 + 1)
                  = Some next ∧
                (<[name := Street.set_lastQueuingNumber
                             (Car.queuingNumber car2) st]> streets1) !! next
                  = Some nst ∧
                d' = put i (Car.advance next (Street.duration nst) car2)
                       (<[name := Street.set_lastQueuingNumber
                                    (Car.queuingNumber car2) st]> streets1) d ∧
                x' = {[name]} ∪ x ∧
                ev = ev1 ++ [Cross t name i (Car.queuingNumber car2)])))).
Proof.
  unfold carStep, resolve. intros H. inv_result.
  exists a. split; [done|].
  destruct (Car.arrived a) eqn:Harr.
  { left. inv_result. done. }
  right. split; [done|]. inv_result.
  destruct a0 as [[car1 streets1] ev1].
  exists car1, streets1, ev1. split; [done|]. cbn zeta.
  destruct (Z.eqb_spec (Car.remainingTimeOnStreet (decrement car1)) 0) as [Hrem|Hrem];
    cbn [negb] in H.
  2:{ inv_result. left. done. }
  right.
  destruct (Z.eqb_spec (Car.currentStreetIdx (decrement car1))
              (Car.numStreets (decrement car1) - 1)) as [Hidx|Hidx].
  { inv_result. left. done. }
  right.
  destruct (Z.eqb_spec R 0) as [HR|HR].
  { inv_result. left. done. }
  right. inv_result.
  rename a0 into st.
  destruct (isTrafficLightGreen t st) eqn:Hgreen; cbn [negb orb] in H.
  2:{ inv_result. left. do 3 (split; [done|]). exists st. auto. }
  case_bool_decide as Hx; cbn [orb] in H.
  { inv_result. left. do 3 (split; [done|]). exists st. auto. }
  destruct (Z.eqb_spec (Street.lastQueuingNumber st + 1)
              (Car.queuingNumber (decrement car1))) as [Hq|Hq]; cbn [negb] in H.
  2:{ inv_result. left. do 3 (split; [done|]). exists st. auto. }
  inv_result. right. do 3 (split; [done|]).
  exists st, a0, a1. done.
Qed.

Ltac step_cases H :=
  apply carStep_cases in H;
  let car := fresh "car" in
  let Hcar := fresh "Hcar" in
  let Harr := fresh "Harr" in
  let car1 := fresh "car1" in
  let streets1 := fresh "streets1" in
  let ev1 := fresh "ev1" in
  let Hreg := fresh "Hreg" in
  let Hrem := fresh "Hrem" in
  let Hidx := fresh "Hidx" in
  let HR := fresh "HR" in
  let st := fresh "st" in
  let Hst := fresh "Hst" in
  let Hblk := fresh "Hblk" in
  let next := fresh "next" in
  let nst := fresh "nst" in
  let Hgreen := fresh "Hgreen" in
  let Hx := fresh "Hx" in
  let Hq := fresh "Hq" in
  let Hnext := fresh "Hnext" in
  let Hnst := fresh "Hnst" in
  destruct H as (car & Hcar &
    [(Harr & -> & -> & ->) | (Harr & car1 & streets1 & ev1 & Hreg & H)]);
  [| cbn zeta in H;
     destruct H as
       [(Hrem & -> & -> & ->)
       |[(Hrem & Hidx & -> & -> & ->)
        |[(Hrem & Hidx & HR & -> & -> & ->)
         |[(Hrem & Hidx & HR & st & Hst & Hblk & -> & -> & ->)
          |(Hrem & Hidx & HR & st & next & nst & Hst & Hgreen & Hx & Hq
            & Hnext & Hnst & -> & -> & ->)]]]]].

Lemma register_cases t i car streets car1 streets1 ev1 :
  register t i car streets = Ok (car1, streets1, ev1) →
  (Car.remainingTimeOnStreet car = 1
   ∧ Car.currentStreetIdx car < Car.numStreets car - 1
   ∧ ∃ st, streets !! Car.currentStreetName car = Some st
       ∧ car1 = Car.set_queuingNumber (Street.nextQueuingNumber st) car
       ∧ streets1 = <[Car.currentStreetName car :=
                        Street.set_nextQueuingNumber
                          (Street.nextQueuingNumber st + 1) st]> streets
       ∧ ev1 = [Register t (Car.currentStreetName car) i
                         (Street.nextQueuingNumber st)])
  ∨ (¬ (Car.remainingTimeOnStreet car = 1
        ∧ Car.currentStreetIdx car < Car.numStreets car - 1)
     ∧ car1 = car ∧ streets1 = streets ∧ ev1 = []).
Proof.
  unfold register. intros H.
  destruct (Z.eqb_spec (Car.remainingTimeOnStreet car) 1) as [H1|H1];
    destruct (Z.ltb_spec (Car.currentStreetIdx car) (Car.numStreets car - 1))
      as [H2|H2]; cbn [andb] in H; inv_result.
  - left. do 2 (split; [done|]). exists a. done.
  - right. split; [lia|done].
  - right. split; [lia|done].
  - right. split; [lia|done].
Qed.

Lemma processCars_cons R t i order s s'' ev :
  processCars R t (i :: order) s = Ok (s'', ev) →
  ∃ s' ev1 ev2, carStep R t i s = Ok (s', ev1)
                ∧ processCars R t order s' = Ok (s'', ev2)
                ∧ ev = ev1 ++ ev2.
Proof.
  cbn [processCars]. intros H. inv_result.
  destruct a as [s' ev1]. inv_result. destruct a as [s3 ev2]. inv_result.
  exists s', ev1, ev2. done.
Qed.

Lemma loopIn_succ order n R t d d'' ev :
  loopIn order (S n) R t d = Ok (d'', ev) →
  ∃ d' x ev1 ev2, tickIn (order t d) (R - 1) t d = Ok (d', x, ev1)
                  ∧ loopIn order n (R - 1) (t + 1) d' = Ok (d'', ev2)
                  ∧ ev = ev1 ++ ev2.
Proof.
  cbn [loopIn]. intros H. inv_result.
  destruct a as [[d' x] ev1]. inv_result. destruct a as [d3 ev2]. inv_result.
  exists d', x, ev1, ev2. done.
Qed.

(** A property of the dataset that every visit of a car preserves is
    preserved by the tick and by the loop. *)
Section Preservation.
Variable P : Dataset → Prop.
Hypothesis P_step : ∀ R t i d x d' x' ev,
  carStep R t i (d, x) = Ok (d', x', ev) → P d → P d'.

Lemma processCars_preserves R t order d x d' x' ev :
  processCars R t order (d, x) = Ok (d', x', ev) → P d → P d'.
Proof.
  revert d x ev. induction order as [|i order IH]; intros d x ev H HP.
  - cbn in H. inv_result. done.
  - apply processCars_cons in H as ([d1 x1] & ev1 & ev2 & H1 & H2 & ->).
    eauto.
Qed.

Lemma loopIn_preserves order n R t d d' ev :
  loopIn order n R t d = Ok (d', ev) → P d → P d'.
Proof.
  revert R t d ev. induction n as [|n IH]; intros R t d ev H HP.
  - cbn in H. inv_result. done.
  - apply loopIn_succ in H as (d1 & x & ev1 & ev2 & H1 & H2 & ->).
    eapply IH; [done|]. eapply processCars_preserves; done.
Qed.
End Preservation.

(** *** The range of the route index and of the time left *)

Lemma decrement_inRange c : carInRange c → carInRange (decrement c).
Proof.
  unfold decrement, carInRange.
  destruct (Z.ltb_spec 0 (Car.remainingTimeOnStreet c)); cbn; lia.
Qed.

Lemma register_inRange t i car streets car1 streets1 ev1 :
  register t i car streets = Ok (car1, streets1, ev1) →
  carInRange car → carInRange car1.
Proof.
  intros H Hc.
  apply register_cases in H as [(_ & _ & st & _ & -> & _)|(_ & -> & _)]; done.
Qed.

Lemma register_durations t i car streets car1 streets1 ev1 :
  register t i car streets = Ok (car1, streets1, ev1) →
  map_Forall (λ _ st, 0 ≤ Street.duration st) streets →
  map_Forall (λ _ st, 0 ≤ Street.duration st) streets1.
Proof.
  intros H Hs.
  apply register_cases in H as [(_ & _ & st & Hst & _ & -> & _)|(_ & _ & -> & _)];
    [|done].
  apply map_Forall_insert_2; [|done]. cbn. by apply (Hs _ _ Hst).
Qed.

Lemma carStep_wellFormed R t i d x d' x' ev :
  carStep R t i (d, x) = Ok (d', x', ev) → wellFormed d → wellFormed d'.
Proof.
  intros H [Hcars Hstreets]. step_cases H; [done|..];
    pose proof (register_durations _ _ _ _ _ _ _ Hreg Hstreets) as Hs1;
    assert (carInRange (decrement car1)) as Hc2
      by (apply decrement_inRange; eapply register_inRange; [done|];
          by eapply Forall_lookup_1).
  - split; [by apply Forall_insert|done].
  - split; [by apply Forall_insert|done].
  - split; [by apply Forall_insert|done].
  - split; [by apply Forall_insert|done].
  - assert (map_Forall (λ _ st, 0 ≤ Street.duration st)
              (<[Car.currentStreetName (decrement car1) :=
                   Street.set_lastQueuingNumber
                     (Car.queuingNumber (decrement car1)) st]> streets1))
      as Hs2.
    { apply map_Forall_insert_2; [|done]. cbn. by apply (Hs1 _ _ Hst). }
    split; [|done]. apply Forall_insert; [done|].
    destruct Hc2 as [Hi Hr]. split; cbn; [lia|].
    by apply (Hs2 _ _ Hnst).
Qed.

(** *** Arrived cars are never written again *)

Lemma carStep_other R t i d x d' x' ev j :
  carStep R t i (d, x) = Ok (d', x', ev) → j ≠ i →
  cars d' !! j = cars d !! j.
Proof.
  intros H Hj. step_cases H; [done|..]; cbn; by apply list_lookup_insert_ne.
Qed.

Lemma carStep_frozen j c R t i d x d' x' ev :
  carStep R t i (d, x) = Ok (d', x', ev) →
  cars d !! j = Some c ∧ Car.arrived c = true →
  cars d' !! j = Some c ∧ Car.arrived c = true.
Proof.
  intros H [Hc Harr]. split; [|done].
  destruct (decide (j = i)) as [->|Hj].
  - step_cases H; [done|congruence..].
  - by rewrite (carStep_other _ _ _ _ _ _ _ _ _ H Hj).
Qed.

Lemma carStep_simulation R t i d x d' x' ev :
  carStep R t i (d, x) = Ok (d', x', ev) → simulation d' = simulation d.
Proof. intros H. step_cases H; done. Qed.

Lemma carStep_length R t i d x d' x' ev :
  carStep R t i (d, x) = Ok (d', x', ev) → length (cars d') = length (cars d).
Proof. intros H. step_cases H; [done|..]; cbn; apply length_insert. Qed.

Lemma loopIn_simulation order n R t d d' ev :
  loopIn order n R t d = Ok (d', ev) → simulation d' = simulation d.
Proof.
  intros H.
  apply (loopIn_preserves (λ d1, simulation d1 = simulation d))
    with (order := order) (n := n) (R := R) (t := t) (d := d) (ev := ev);
    [|done..].
  intros R' t' i' d1 x1 d2 x2 ev' Hs <-. by eapply carStep_simulation.
Qed.

(** Running [n + m] ticks is running [n] ticks, then [m] more. *)
Lemma loopIn_add order n m R t d d'' ev :
  loopIn order (n + m) R t d = Ok (d'', ev) →
  ∃ d' ev1 ev2, loopIn order n R t d = Ok (d', ev1)
                ∧ loopIn order m (R - Z.of_nat n) (t + Z.of_nat n) d'
                  = Ok (d'', ev2)
                ∧ ev = ev1 ++ ev2.
Proof.
  revert R t d ev. induction n as [|n IH]; intros R t d ev H.
  - exists d, [], ev. cbn [loopIn]. split; [done|].
    replace (R - Z.of_nat 0) with R by lia.
    replace (t + Z.of_nat 0) with t by lia. done.
  - cbn [Nat.add] in H.
    apply loopIn_succ in H as (d1 & x & ev1 & ev2 & H1 & H2 & ->).
    apply IH in H2 as (d2 & ev3 & ev4 & H3 & H4 & ->).
    exists d2, (ev1 ++ ev3), ev4. split; [|split].
    + cbn [loopIn]. rewrite H1. cbn. rewrite H3. done.
    + replace (R - Z.of_nat (S n)) with (R - 1 - Z.of_nat n) by lia.
      replace (t + Z.of_nat (S n)) with (t + 1 + Z.of_nat n) by lia. done.
    + by rewrite app_assoc.
Qed.

Lemma loopIn_wellFormed order n R t d d' ev :
  loopIn order n R t d = Ok (d', ev) → wellFormed d → wellFormed d'.
Proof.
  apply (loopIn_preserves wellFormed). intros R' t' i' d1 x1 d2 x2 ev'.
  apply carStep_wellFormed.
Qed.

Lemma loopIn_frozen j c order n R t d d' ev :
  loopIn order n R t d = Ok (d', ev) →
  cars d !! j = Some c → Car.arrived c = true → cars d' !! j = Some c.
Proof.
  intros H Hc Harr.
  apply (loopIn_preserves
           (λ d1, cars d1 !! j = Some c ∧ Car.arrived c = true))
    with (order := order) (n := n) (R := R) (t := t) (d := d) (ev := ev);
    [|done..].
  intros R' t' i' d1 x1 d2 x2 ev'. apply carStep_frozen.
Qed.

(** *** Arrivals *)

Lemma register_no_arrival t i car streets car1 streets1 ev1 t' j :
  register t i car streets = Ok (car1, streets1, ev1) → Arrive t' j ∉ ev1.
Proof.
  intros H.
  apply register_cases in H as [(_ & _ & st & _ & _ & _ & ->)|(_ & _ & _ & ->)];
    set_solver.
Qed.

Lemma carStep_arrival R t i d x d' x' ev t' j :
  carStep R t i (d, x) = Ok (d', x', ev) → Arrive t' j ∈ ev →
  t' = t ∧ ∃ c, cars d' !! j = Some c ∧ Car.arrived c = true
                ∧ Car.commuteTime c = t
                ∧ Car.score c = Simulation.bonusPoint (simulation d) + R.
Proof.
  intros H Hin. step_cases H; [by apply not_elem_of_nil in Hin|..];
    pose proof (register_no_arrival _ _ _ _ _ _ _ t' j Hreg) as Hno;
    try (rewrite elem_of_app in Hin; destruct Hin as [Hin|Hin]);
    try done;
    try (apply list_elem_of_singleton in Hin; discriminate Hin).
  apply list_elem_of_singleton in Hin. injection Hin as -> ->.
  split; [done|]. eexists. split.
  - cbn. apply list_lookup_insert_eq. by eapply lookup_lt_Some.
  - done.
Qed.

Lemma processCars_arrival R t order d x d' x' ev t' j :
  processCars R t order (d, x) = Ok (d', x', ev) → Arrive t' j ∈ ev →
  t' = t ∧ ∃ c, cars d' !! j = Some c ∧ Car.arrived c = true
                ∧ Car.commuteTime c = t
                ∧ Car.score c = Simulation.bonusPoint (simulation d) + R.
Proof.
  revert d x ev. induction order as [|i order IH]; intros d x ev H Hin.
  - cbn in H. inv_result. set_solver.
  - apply processCars_cons in H as ([d1 x1] & ev1 & ev2 & H1 & H2 & ->).
    apply elem_of_app in Hin as [Hin|Hin].
    + destruct (carStep_arrival _ _ _ _ _ _ _ _ _ _ H1 Hin)
        as (-> & c & Hc & Harr & Hct & Hsc).
      split; [done|]. exists c. split; [|done].
      apply (processCars_preserves
               (λ d2, cars d2 !! j = Some c ∧ Car.arrived c = true))
        with (R := R) (t := t) (order := order) (d := d1) (x := x1)
             (x' := x') (ev := ev2); [|done..].
      intros R' t'' i' d3 x3 d4 x4 ev'. apply carStep_frozen.
    + rewrite <- (carStep_simulation _ _ _ _ _ _ _ _ H1). by eapply IH.
Qed.

Lemma loopIn_arrival order n R t d d' ev t' j :
  loopIn order n R t d = Ok (d', ev) → Arrive t' j ∈ ev →
  t ≤ t' < t + Z.of_nat n
  ∧ ∃ c, cars d' !! j = Some c ∧ Car.arrived c = true
         ∧ Car.commuteTime c = t'
         ∧ Car.score c
           = Simulation.bonusPoint (simulation d) + (R - 1 - (t' - t)).
Proof.
  revert R t d ev. induction n as [|n IH]; intros R t d ev H Hin.
  - cbn in H. inv_result. set_solver.
  - apply loopIn_succ in H as (d1 & x & ev1 & ev2 & H1 & H2 & ->).
    apply elem_of_app in Hin as [Hin|Hin].
    + destruct (processCars_arrival _ _ _ _ _ _ _ _ _ _ H1 Hin)
        as (-> & c & Hc & Harr & Hct & Hsc).
      split; [lia|]. exists c.
      split; [by eapply loopIn_frozen|].
      do 2 (split; [done|]). rewrite Hsc. lia.
    + destruct (IH _ _ _ _ H2 Hin) as (Ht & c & Hc & Harr & Hct & Hsc).
      split; [lia|]. exists c. do 3 (split; [done|]). rewrite Hsc.
      replace (simulation d1) with (simulation d); [lia|].
      symmetry.
      apply (processCars_preserves (λ d2, simulation d2 = simulation d))
        with (R := R - 1) (t := t) (order := order t d) (d := d) (x := ∅)
             (x' := x) (ev := ev1); [|done..].
      intros R' t'' i' d3 x3 d4 x4 ev' Hs <-. by eapply carStep_simulation.
Qed.

Lemma carStep_arrived_source R t i d x d' x' ev j c :
  carStep R t i (d, x) = Ok (d', x', ev) →
  cars d' !! j = Some c → Car.arrived c = true →
  cars d !! j = Some c ∨ Arrive (Car.commuteTime c) j ∈ ev.
Proof.
  intros H Hc Harr'.
  destruct (decide (j = i)) as [->|Hj].
  2:{ left. by rewrite <- (carStep_other _ _ _ _ _ _ _ _ _ H Hj). }
  assert (∀ car1 car streets, Car.arrived car = false →
            ∀ ev1 streets1, register t i car streets = Ok (car1, streets1, ev1) →
            Car.arrived (decrement car1) = false) as Hdec.
  { intros car1 car0 streets0 Hf ev1 streets1 Hr.
    apply register_cases in Hr as [(_ & _ & st & _ & -> & _)|(_ & -> & _)];
      unfold decrement; case_match; done. }
  step_cases H; [by left|..]; cbn in Hc;
    rewrite list_lookup_insert_eq in Hc by (by eapply lookup_lt_Some);
    injection Hc as <-;
    try (rewrite (Hdec _ _ _ Harr _ _ Hreg) in Harr'; done).
  - right. cbn. set_solver.
  - cbn in Harr'. rewrite (Hdec _ _ _ Harr _ _ Hreg) in Harr'. done.
Qed.

Lemma processCars_arrived_source R t order d x d' x' ev j c :
  processCars R t order (d, x) = Ok (d', x', ev) →
  cars d' !! j = Some c → Car.arrived c = true →
  cars d !! j = Some c ∨ Arrive (Car.commuteTime c) j ∈ ev.
Proof.
  revert d x ev. induction order as [|i order IH]; intros d x ev H Hc Harr.
  - cbn in H. inv_result. by left.
  - apply processCars_cons in H as ([d1 x1] & ev1 & ev2 & H1 & H2 & ->).
    destruct (IH _ _ _ H2 Hc Harr) as [Hc1|Hin]; [|set_solver].
    destruct (carStep_arrived_source _ _ _ _ _ _ _ _ _ _ H1 Hc1 Harr);
      [by left|set_solver].
Qed.

Lemma loopIn_arrived_source order n R t d d' ev j c :
  loopIn order n R t d = Ok (d', ev) →
  cars d' !! j = Some c → Car.arrived c = true →
  cars d !! j = Some c ∨ Arrive (Car.commuteTime c) j ∈ ev.
Proof.
  revert R t d ev. induction n as [|n IH]; intros R t d ev H Hc Harr.
  - cbn in H. inv_result. by left.
  - apply loopIn_succ in H as (d1 & x & ev1 & ev2 & H1 & H2 & ->).
    destruct (IH _ _ _ _ H2 Hc Harr) as [Hc1|Hin]; [|set_solver].
    destruct (processCars_arrived_source _ _ _ _ _ _ _ _ _ _ H1 Hc1 Harr);
      [by left|set_solver].
Qed.

(** *** The claims about arrivals and about the range of the car fields *)

(** C1.  A car arrives on tick [t] exactly when the run leaves it arrived
    with [commuteTime = t]; that tick lies in [[0, duration]] and the score
    of the car is [bonusPoint + (duration - commuteTime)]. *)
Theorem arrival_commute_time_and_score (d d' : Dataset) (ev : list event) :
  Forall (λ c, Car.arrived c = false) (cars d) →
  simulate d = Ok (d', ev) →
  let duration := Simulation.duration (simulation d) in
  let bonusPoint := Simulation.bonusPoint (simulation d) in
  (∀ t i, Arrive t i ∈ ev →
     ∃ c, cars d' !! i = Some c ∧ Car.arrived c = true
          ∧ Car.commuteTime c = t ∧ 0 ≤ t ≤ duration
          ∧ Car.score c = bonusPoint + (duration - Car.commuteTime c))
  ∧ (∀ i c, cars d' !! i = Some c → Car.arrived c = true →
       Arrive (Car.commuteTime c) i ∈ ev).
Proof.
  intros Hinit H duration bonusPoint. unfold simulate, simulateIn in H.
  fold duration in H. split.
  - intros t i Hin.
    destruct (loopIn_arrival _ _ _ _ _ _ _ _ _ H Hin)
      as (Ht & c & Hc & Harr & Hct & Hsc).
    exists c. do 3 (split; [done|]). split; [lia|].
    rewrite Hsc, Hct. fold bonusPoint. lia.
  - intros i c Hc Harr.
    destruct (loopIn_arrived_source _ _ _ _ _ _ _ _ _ H Hc Harr)
      as [Hc0|Hin]; [|done].
    rewrite Forall_lookup in Hinit. specialize (Hinit _ _ Hc0). congruence.
Qed.

Lemma arrival_commute_time_and_score_witness :
  ∃ d' ev,
    simulate Sample.ticketDataset = Ok (d', ev)
    ∧ (∀ t i, Arrive t i ∈ ev →
         ∃ c, cars d' !! i = Some c ∧ Car.arrived c = true
              ∧ Car.commuteTime c = t ∧ 0 ≤ t ≤ 6
              ∧ Car.score c = 1000 + (6 - Car.commuteTime c))
    ∧ (∀ i c, cars d' !! i = Some c → Car.arrived c = true →
         Arrive (Car.commuteTime c) i ∈ ev).
Proof.
  destruct (simulate Sample.ticketDataset) as [[d' ev]|e] eqn:H;
    [|vm_compute in H; discriminate].
  exists d', ev. split; [done|].
  apply (arrival_commute_time_and_score Sample.ticketDataset d' ev);
    [|exact H].
  vm_compute. repeat constructor.
Defined.

(** C10.  At every tick of the simulation every car has
    [0 <= currentStreetIdx <= numStreets - 1] and
    [0 <= remainingTimeOnStreet], and a car that is arrived after [n] ticks
    is the very same record after [n + m] ticks. *)
Theorem range_and_frozen_arrivals (d d' : Dataset) (ev : list event)
    (n m : nat) :
  wellFormed d →
  simulate d = Ok (d', ev) →
  (n + m ≤ Z.to_nat (Simulation.duration (simulation d) + 1))%nat →
  let R := Simulation.duration (simulation d) + 1 in
  ∃ dn evn dm evm,
    loop n R 0 d = Ok (dn, evn)
    ∧ loop (n + m) R 0 d = Ok (dm, evm)
    ∧ Forall carInRange (cars dn)
    ∧ (∀ j c, cars dn !! j = Some c → Car.arrived c = true →
         cars dm !! j = Some c).
Proof.
  intros Hwf H Hle R. unfold simulate, simulateIn in H. fold R in H.
  replace (Z.to_nat R) with ((n + m) + (Z.to_nat R - (n + m)))%nat in H
    by (subst R; lia).
  apply loopIn_add in H as (dm & evm & ev2 & Hm & _ & _).
  pose proof Hm as Hm'.
  apply loopIn_add in Hm' as (dn & evn & ev3 & Hn & Hnm & _).
  exists dn, evn, dm, evm. do 2 (split; [done|]). split.
  - by destruct (loopIn_wellFormed _ _ _ _ _ _ _ Hn Hwf).
  - intros j c Hc Harr. by eapply loopIn_frozen.
Qed.

Lemma range_and_frozen_arrivals_witness :
  wellFormed Sample.ticketDataset
  ∧ ∃ dn evn dm evm,
      loop 4 7 0 Sample.ticketDataset = Ok (dn, evn)
      ∧ loop (4 + 2) 7 0 Sample.ticketDataset = Ok (dm, evm)
      ∧ Forall carInRange (cars dn)
      ∧ (∀ j c, cars dn !! j = Some c → Car.arrived c = true →
           cars dm !! j = Some c).
Proof.
  assert (wellFormed Sample.ticketDataset) as Hwf.
  { split.
    - vm_compute. repeat constructor; discriminate.
    - unfold Sample.ticketDataset.
      apply (bool_decide_unpack (map_Forall _ _)). vm_compute. exact I. }
  split; [exact Hwf|].
  destruct (simulate Sample.ticketDataset) as [[d' ev]|e] eqn:H;
    [|vm_compute in H; discriminate].
  apply (range_and_frozen_arrivals Sample.ticketDataset d' ev 4 2 Hwf H).
  vm_compute. lia.
Defined.

(** *** Crossings: the light *)

Lemma isTrafficLightGreen_spec t st :
  isTrafficLightGreen t st = true ↔
  ∃ gte lte w, Street.schedule st = Some (gte, lte)
               ∧ Street.scheduledTimeWindow st = Some w
               ∧ w ≠ 0 ∧ gte ≤ Z.rem t w ≤ lte.
Proof.
  unfold isTrafficLightGreen, JS.rem.
  destruct (Street.schedule st) as [[gte lte]|];
    [|split; [done|intros (? & ? & ? & ? & _); done]].
  destruct (Street.scheduledTimeWindow st) as [w|]; cbn;
    [|split; [done|intros (? & ? & ? & _ & ? & _); done]].
  destruct (Z.eqb_spec w 0) as [Hw|Hw]; cbn.
  { split; [done|]. intros (? & ? & ? & _ & [= <-] & ? & _). done. }
  rewrite andb_true_iff, !Z.leb_le. split.
  - intros Hle. exists gte, lte, w. done.
  - intros (? & ? & ? & [= <- <-] & [= <-] & _ & Hle). done.
Qed.

Lemma isTrafficLightGreen_static t st st' :
  static st = static st' →
  isTrafficLightGreen t st = isTrafficLightGreen t st'.
Proof.
  unfold static, isTrafficLightGreen. intros [= _ _ _ -> ->]. done.
Qed.

Lemma register_static t i car streets car1 streets1 ev1 s :
  register t i car streets = Ok (car1, streets1, ev1) →
  static <$> streets1 !! s = static <$> streets !! s.
Proof.
  intros H.
  destruct (register_cases _ _ _ _ _ _ _ H)
    as [(_ & _ & st & Hst & _ & -> & _)|(_ & _ & -> & _)]; [|done].
  destruct (decide (Car.currentStreetName car = s)) as [<-|Hne].
  - rewrite lookup_insert_eq, Hst. done.
  - by rewrite lookup_insert_ne.
Qed.

Lemma carStep_static R t i d x d' x' ev s :
  carStep R t i (d, x) = Ok (d', x', ev) →
  static <$> streets d' !! s = static <$> streets d !! s.
Proof.
  intros H. step_cases H; [done|..]; cbn;
    try by eapply register_static.
  rewrite <- (register_static _ _ _ _ _ _ _ s Hreg).
  destruct (decide (Car.currentStreetName (decrement car1) = s)) as [<-|Hne].
  - rewrite lookup_insert_eq, Hst. done.
  - by rewrite lookup_insert_ne.
Qed.

Lemma register_no_crossing t i car streets car1 streets1 ev1 :
  register t i car streets = Ok (car1, streets1, ev1) →
  ∀ t' s j q, Cross t' s j q ∉ ev1.
Proof.
  intros H t' s j q.
  destruct (register_cases _ _ _ _ _ _ _ H)
    as [(_ & _ & st & _ & _ & _ & ->)|(_ & _ & _ & ->)]; set_solver.
Qed.

Lemma carStep_crossing_green R t i d x d' x' ev t' s j q :
  carStep R t i (d, x) = Ok (d', x', ev) → Cross t' s j q ∈ ev →
  t' = t ∧ R ≠ 0 ∧ ∃ st, streets d !! s = Some st
                         ∧ isTrafficLightGreen t st = true.
Proof.
  intros H Hin. step_cases H; [by apply not_elem_of_nil in Hin|..];
    pose proof (register_no_crossing _ _ _ _ _ _ _ Hreg t' s j q) as Hno;
    try (rewrite elem_of_app in Hin; destruct Hin as [Hin|Hin]);
    try done;
    try (apply list_elem_of_singleton in Hin; discriminate Hin).
  apply list_elem_of_singleton in Hin. injection Hin as -> -> -> ->.
  do 2 (split; [done|]).
  pose proof (register_static _ _ _ _ _ _ _
                (Car.currentStreetName (decrement car1)) Hreg) as Hs.
  rewrite Hst in Hs. cbn in Hs.
  destruct (streets d !! Car.currentStreetName (decrement car1)) as [st0|];
    [|done].
  exists st0. split; [done|]. apply (inj Some) in Hs.
  by rewrite <- (isTrafficLightGreen_static t st st0).
Qed.

Lemma processCars_static R t order d x d' x' ev s :
  processCars R t order (d, x) = Ok (d', x', ev) →
  static <$> streets d' !! s = static <$> streets d !! s.
Proof.
  intros H.
  apply (processCars_preserves
           (λ d1, static <$> streets d1 !! s = static <$> streets d !! s))
    with (R := R) (t := t) (order := order) (d := d) (x := x) (x' := x')
         (ev := ev); [|done..].
  intros R' t' i' d1 x1 d2 x2 ev' Hs <-. by eapply carStep_static.
Qed.

Lemma static_green t (m m' : gmap string Street.t) s st :
  static <$> m !! s = static <$> m' !! s →
  m !! s = Some st → isTrafficLightGreen t st = true →
  ∃ st', m' !! s = Some st' ∧ isTrafficLightGreen t st' = true.
Proof.
  intros Hs Hst Hg. rewrite Hst in Hs. cbn in Hs.
  destruct (m' !! s) as [st'|]; [|done]. apply (inj Some) in Hs.
  exists st'. split; [done|].
  by rewrite <- (isTrafficLightGreen_static t st st').
Qed.

Lemma processCars_crossing_green R t order d x d' x' ev t' s j q :
  processCars R t order (d, x) = Ok (d', x', ev) → Cross t' s j q ∈ ev →
  t' = t ∧ R ≠ 0 ∧ ∃ st, streets d !! s = Some st
                         ∧ isTrafficLightGreen t st = true.
Proof.
  revert d x ev. induction order as [|i order IH]; intros d x ev H Hin.
  - cbn in H. inv_result. set_solver.
  - apply processCars_cons in H as ([d1 x1] & ev1 & ev2 & H1 & H2 & ->).
    apply elem_of_app in Hin as [Hin|Hin]; [by eapply carStep_crossing_green|].
    destruct (IH _ _ _ H2 Hin) as (-> & HR & st & Hst & Hg).
    do 2 (split; [done|]).
    eapply static_green; [|done..]. by eapply carStep_static.
Qed.

Lemma loopIn_crossing_green order n R t d d' ev t' s j q :
  loopIn order n R t d = Ok (d', ev) → Cross t' s j q ∈ ev →
  t ≤ t' < t + Z.of_nat n ∧ R - 1 - (t' - t) ≠ 0
  ∧ ∃ st, streets d !! s = Some st ∧ isTrafficLightGreen t' st = true.
Proof.
  revert R t d ev. induction n as [|n IH]; intros R t d ev H Hin.
  - cbn in H. inv_result. set_solver.
  - apply loopIn_succ in H as (d1 & x & ev1 & ev2 & H1 & H2 & ->).
    apply elem_of_app in Hin as [Hin|Hin].
    + destruct (processCars_crossing_green _ _ _ _ _ _ _ _ _ _ _ _ H1 Hin)
        as (-> & HR & st & Hst & Hg).
      split; [lia|]. split; [lia|]. by exists st.
    + destruct (IH _ _ _ _ H2 Hin) as (Ht & HR & st & Hst & Hg).
      split; [lia|]. split; [lia|].
      eapply static_green; [|done..]. by eapply processCars_static.
Qed.

(** C2.  A car crosses street [s] at tick [t] only if [s] has a compiled
    green window [[gte, lte]] and a cycle length [w], and [t % w] lies
    within the bounds (the operator [%] agrees with [mod] for a positive
    [w]); on a street without schedule no car crosses in the whole run. *)
Theorem crossing_only_on_green (d d' : Dataset) (ev : list event) :
  simulate d = Ok (d', ev) →
  (∀ t s i q, Cross t s i q ∈ ev →
     0 ≤ t < Simulation.duration (simulation d)
     ∧ ∃ st gte lte w,
         streets d !! s = Some st
         ∧ Street.schedule st = Some (gte, lte)
         ∧ Street.scheduledTimeWindow st = Some w
         ∧ w ≠ 0 ∧ gte ≤ Z.rem t w ≤ lte
         ∧ (0 < w → gte ≤ t mod w ≤ lte))
  ∧ (∀ s, (∀ st, streets d !! s = Some st → Street.schedule st = None) →
          ∀ t i q, Cross t s i q ∉ ev).
Proof.
  intros H. unfold simulate, simulateIn in H.
  assert (∀ t s i q, Cross t s i q ∈ ev →
     0 ≤ t < Simulation.duration (simulation d)
     ∧ ∃ st gte lte w,
         streets d !! s = Some st
         ∧ Street.schedule st = Some (gte, lte)
         ∧ Street.scheduledTimeWindow st = Some w
         ∧ w ≠ 0 ∧ gte ≤ Z.rem t w ≤ lte
         ∧ (0 < w → gte ≤ t mod w ≤ lte)) as Hmain.
  { intros t s i q Hin.
    destruct (loopIn_crossing_green _ _ _ _ _ _ _ _ _ _ _ H Hin)
      as (Ht & HR & st & Hst & Hg).
    split; [lia|].
    apply isTrafficLightGreen_spec in Hg as (gte & lte & w & Hsch & Hw & Hw0 & Hle).
    exists st, gte, lte, w. do 5 (split; [done|]).
    intros Hpos. rewrite <- Z.rem_mod_nonneg by lia. done. }
  split; [done|].
  intros s Hnone t i q Hin.
  destruct (Hmain _ _ _ _ Hin) as (_ & st & gte & lte & w & Hst & Hsch & _).
  rewrite (Hnone _ Hst) in Hsch. done.
Qed.

Lemma crossing_only_on_green_witness :
  ∃ d' ev,
    simulate Sample.ticketDataset = Ok (d', ev)
    ∧ Cross 2 "b" 0 0 ∈ ev
    ∧ (∀ t s i q, Cross t s i q ∈ ev →
         0 ≤ t < 6
         ∧ ∃ st gte lte w,
             streets Sample.ticketDataset !! s = Some st
             ∧ Street.schedule st = Some (gte, lte)
             ∧ Street.scheduledTimeWindow st = Some w
             ∧ w ≠ 0 ∧ gte ≤ Z.rem t w ≤ lte
             ∧ (0 < w → gte ≤ t mod w ≤ lte))
    ∧ (∀ s, (∀ st, streets Sample.ticketDataset !! s = Some st
                   → Street.schedule st = None) →
            ∀ t i q, Cross t s i q ∉ ev).
Proof.
  destruct (simulate Sample.ticketDataset) as [[d' ev]|e] eqn:H;
    [|vm_compute in H; discriminate].
  exists d', ev. split; [done|]. split.
  - assert (ev = [Cross 0 "a" 0 0; Cross 1 "a" 1 1; Register 2 "b" 0 0;
                  Cross 2 "b" 0 0; Arrive 3 0; Arrive 3 1]) as ->
      by (vm_compute in H; congruence).
    apply list_elem_of_lookup. by exists 3%nat.
  - exact (crossing_only_on_green Sample.ticketDataset d' ev H).
Defined.

(** *** Crossings: one per street and tick *)

Lemma crossedStreets_app ev1 ev2 :
  crossedStreets (ev1 ++ ev2) = crossedStreets ev1 ++ crossedStreets ev2.
Proof. apply omap_app. Qed.

Lemma crossedAt_app t ev1 ev2 :
  crossedAt t (ev1 ++ ev2) = crossedAt t ev1 ++ crossedAt t ev2.
Proof. apply omap_app. Qed.

Lemma crossingsOf_app s ev1 ev2 :
  crossingsOf s (ev1 ++ ev2) = crossingsOf s ev1 ++ crossingsOf s ev2.
Proof. apply omap_app. Qed.

Lemma register_observed t i car streets car1 streets1 ev1 :
  register t i car streets = Ok (car1, streets1, ev1) →
  crossedStreets ev1 = [] ∧ (∀ t', crossedAt t' ev1 = [])
  ∧ (∀ s, crossingsOf s ev1 = []).
Proof.
  intros H.
  destruct (register_cases _ _ _ _ _ _ _ H)
    as [(_ & _ & st & _ & _ & _ & ->)|(_ & _ & _ & ->)]; done.
Qed.

(** A visit crosses at most one street, which the marker did not hold, and
    adds it to the marker. *)
Lemma carStep_marker R t i d x d' x' ev :
  carStep R t i (d, x) = Ok (d', x', ev) →
  (crossedStreets ev = [] ∧ x' = x)
  ∨ (∃ s, crossedStreets ev = [s] ∧ (s ∉ x) ∧ x' = {[s]} ∪ x).
Proof.
  intros H. step_cases H; [by left|..];
    destruct (register_observed _ _ _ _ _ _ _ Hreg) as (Hcs & _ & _);
    rewrite ?crossedStreets_app, Hcs; [by left..|].
  right. eexists. done.
Qed.

Lemma carStep_crossedAt R t i d x d' x' ev t' :
  carStep R t i (d, x) = Ok (d', x', ev) →
  crossedAt t' ev = if decide (t' = t) then crossedStreets ev else [].
Proof.
  intros H. step_cases H; [by case_decide|..];
    destruct (register_observed _ _ _ _ _ _ _ Hreg) as (Hcs & Hat & _);
    rewrite ?crossedAt_app, ?crossedStreets_app, Hat, Hcs; cbn;
    [by case_decide..|].
  destruct (decide (t = t')), (decide (t' = t)); done || congruence.
Qed.

Lemma processCars_crossedAt R t order d x d' x' ev t' :
  processCars R t order (d, x) = Ok (d', x', ev) →
  crossedAt t' ev = if decide (t' = t) then crossedStreets ev else [].
Proof.
  revert d x ev. induction order as [|i order IH]; intros d x ev H.
  - cbn in H. inv_result. by case_decide.
  - apply processCars_cons in H as ([d1 x1] & ev1 & ev2 & H1 & H2 & ->).
    rewrite crossedAt_app, crossedStreets_app,
      (carStep_crossedAt _ _ _ _ _ _ _ _ _ H1), (IH _ _ _ H2).
    by case_decide.
Qed.

Lemma processCars_marker R t order d x d' x' ev :
  processCars R t order (d, x) = Ok (d', x', ev) →
  NoDup (crossedStreets ev)
  ∧ (∀ s, s ∈ crossedStreets ev → s ∉ x)
  ∧ (∀ s, s ∈ x' ↔ s ∈ x ∨ s ∈ crossedStreets ev).
Proof.
  revert d x ev. induction order as [|i order IH]; intros d x ev H.
  - cbn in H. inv_result. cbn. split; [constructor|]. split.
    + intros s Hs. by apply not_elem_of_nil in Hs.
    + intros s. split; [by left|]. intros [Hs|Hs]; [done|].
      by apply not_elem_of_nil in Hs.
  - apply processCars_cons in H as ([d1 x1] & ev1 & ev2 & H1 & H2 & ->).
    destruct (IH _ _ _ H2) as (Hnd & Hfresh & Hx').
    rewrite crossedStreets_app.
    destruct (carStep_marker _ _ _ _ _ _ _ _ H1) as [[-> ->]|(s0 & -> & Hs0 & ->)].
    + done.
    + cbn. split; [|split].
      * constructor; [|done]. intros Hin. apply (Hfresh _ Hin). set_solver.
      * intros s [->|Hin]%elem_of_cons; [done|].
        specialize (Hfresh _ Hin). set_solver.
      * intros s. rewrite Hx', elem_of_cons. set_solver.
Qed.

Lemma loopIn_crossedAt order n R t d d' ev t' :
  loopIn order n R t d = Ok (d', ev) →
  NoDup (crossedAt t' ev) ∧ (t' < t → crossedAt t' ev = []).
Proof.
  revert R t d ev. induction n as [|n IH]; intros R t d ev H.
  - cbn in H. inv_result. split; [constructor|done].
  - apply loopIn_succ in H as (d1 & x & ev1 & ev2 & H1 & H2 & ->).
    destruct (IH _ _ _ _ H2) as [Hnd Hbefore].
    rewrite crossedAt_app, (processCars_crossedAt _ _ _ _ _ _ _ _ t' H1).
    destruct (decide (t' = t)) as [->|Hne].
    + rewrite Hbefore by lia. rewrite app_nil_r. split; [|lia].
      by destruct (processCars_marker _ _ _ _ _ _ _ _ H1).
    + cbn. split; [done|]. intros Hlt. apply Hbefore. lia.
Qed.

(** C3.  Whatever the order in which the cars are visited, no street is
    crossed twice in one tick of the simulation; and the marker a tick ends
    with holds exactly the streets crossed in that tick (it starts empty). *)
Theorem one_crossing_per_street_per_tick
    (order : Z → Dataset → list nat) (d d' : Dataset) (ev : list event) :
  simulateIn order d = Ok (d', ev) →
  (∀ t, NoDup (crossedAt t ev))
  ∧ (∀ ord R t d0 d1 x ev1,
       tickIn ord R t d0 = Ok (d1, x, ev1) →
       NoDup (crossedStreets ev1) ∧ ∀ s, s ∈ x ↔ s ∈ crossedStreets ev1).
Proof.
  intros H. split.
  - intros t. by destruct (loopIn_crossedAt _ _ _ _ _ _ _ t H).
  - intros ord R t d0 d1 x ev1 Ht.
    destruct (processCars_marker _ _ _ _ _ _ _ _ Ht) as (Hnd & _ & Hx).
    split; [done|]. intros s. rewrite Hx. set_solver.
Qed.

Lemma one_crossing_per_street_per_tick_witness :
  ∃ d' ev,
    simulateIn (λ _ d, rev (seq 0 (length (cars d)))) Sample.ticketDataset
      = Ok (d', ev)
    ∧ crossedAt 0 ev = ["a"]
    ∧ (∀ t, NoDup (crossedAt t ev))
    ∧ (∀ ord R t d0 d1 x ev1,
         tickIn ord R t d0 = Ok (d1, x, ev1) →
         NoDup (crossedStreets ev1) ∧ ∀ s, s ∈ x ↔ s ∈ crossedStreets ev1).
Proof.
  destruct (simulateIn (λ _ d, rev (seq 0 (length (cars d))))
              Sample.ticketDataset) as [[d' ev]|e] eqn:H;
    [|vm_compute in H; discriminate].
  exists d', ev. split; [done|]. split.
  - vm_compute in H. injection H as _ <-. reflexivity.
  - exact (one_crossing_per_street_per_tick _ _ _ _ H).
Defined.

(** *** Crossings: the order of the tickets *)

Lemma consecutive_weaken t0 t0' l cs :
  t0' ≤ t0 → consecutive t0 l cs → consecutive t0' l cs.
Proof. destruct cs as [|[t q] cs]; cbn; [done|]. intros ? (? & ? & ?). repeat split; [lia|done..]. Qed.

Lemma consecutive_bounds t0 l cs t q :
  consecutive t0 l cs → (t, q) ∈ cs → t0 ≤ t ∧ l < q.
Proof.
  revert t0 l. induction cs as [|[t1 q1] cs IH]; intros t0 l Hc Hin.
  - by apply not_elem_of_nil in Hin.
  - destruct Hc as (Ht & -> & Hc). apply elem_of_cons in Hin as [[= -> ->]|Hin].
    + lia.
    + destruct (IH _ _ Hc Hin). lia.
Qed.

Lemma consecutive_order t0 l cs t1 q1 t2 q2 :
  consecutive t0 l cs → (t1, q1) ∈ cs → (t2, q2) ∈ cs → q1 < q2 → t1 < t2.
Proof.
  revert t0 l. induction cs as [|[t q] cs IH]; intros t0 l Hc H1 H2 Hlt.
  - by apply not_elem_of_nil in H1.
  - destruct Hc as (Ht & -> & Hc).
    apply elem_of_cons in H1 as [[= -> ->]|H1];
      apply elem_of_cons in H2 as [[= -> ->]|H2].
    + lia.
    + destruct (consecutive_bounds _ _ _ _ _ Hc H2). lia.
    + destruct (consecutive_bounds _ _ _ _ _ Hc H1). lia.
    + by eapply IH.
Qed.

Lemma consecutive_dense t0 l cs t2 q2 q1 :
  consecutive t0 l cs → (t2, q2) ∈ cs → l < q1 < q2 →
  ∃ t1, (t1, q1) ∈ cs ∧ t1 < t2.
Proof.
  revert t0 l. induction cs as [|[t q] cs IH]; intros t0 l Hc H2 Hlt.
  - by apply not_elem_of_nil in H2.
  - destruct Hc as (Ht & -> & Hc).
    apply elem_of_cons in H2 as [[= -> ->]|H2]; [lia|].
    destruct (decide (q1 = l + 1)) as [->|Hne].
    + exists t. split; [left|].
      destruct (consecutive_bounds _ _ _ _ _ Hc H2). lia.
    + destruct (IH _ _ Hc H2) as (t1 & Hin & Ht1); [lia|].
      exists t1. split; [by right|done].
Qed.

Lemma consecutive_snoc_tick t l cs :
  consecutive (t + 1) (l + 1) cs → consecutive t l ((t, l + 1) :: cs).
Proof. cbn. intros ?. repeat split; [lia|done]. Qed.

Lemma elem_of_crossingsOf s ev t q :
  (t, q) ∈ crossingsOf s ev ↔ ∃ i, Cross t s i q ∈ ev.
Proof.
  unfold crossingsOf. rewrite list_elem_of_omap. split.
  - intros ([] & Hin & Hf); try done. case_decide; [|done].
    injection Hf as -> ->. subst. by eexists.
  - intros (i & Hin). eexists. split; [done|]. cbn. by case_decide.
Qed.

Lemma register_last t i car streets car1 streets1 ev1 s :
  register t i car streets = Ok (car1, streets1, ev1) →
  Street.lastQueuingNumber <$> streets1 !! s
  = Street.lastQueuingNumber <$> streets !! s.
Proof.
  intros H.
  destruct (register_cases _ _ _ _ _ _ _ H)
    as [(_ & _ & st & Hst & _ & -> & _)|(_ & _ & -> & _)]; [|done].
  destruct (decide (Car.currentStreetName car = s)) as [<-|Hne].
  - rewrite lookup_insert_eq, Hst. done.
  - by rewrite lookup_insert_ne.
Qed.

(** A visit either leaves street [s] alone, or lets the holder of the
    ticket after the last one cross it, the marker not holding [s] yet. *)
Lemma carStep_crossing s R t i d x d' x' ev :
  carStep R t i (d, x) = Ok (d', x', ev) →
  (crossingsOf s ev = [] ∧ lastOf s d' = lastOf s d ∧ (s ∈ x' ↔ s ∈ x))
  ∨ (∃ l, lastOf s d = Some l ∧ crossingsOf s ev = [(t, l + 1)]
          ∧ lastOf s d' = Some (l + 1) ∧ (s ∉ x) ∧ s ∈ x').
Proof.
  intros H. unfold lastOf. step_cases H; [by left|..];
    destruct (register_observed _ _ _ _ _ _ _ Hreg) as (_ & _ & Hcs);
    pose proof (register_last _ _ _ _ _ _ _ s Hreg) as Hlast;
    rewrite ?crossingsOf_app, Hcs; cbn [streets put app];
    [by left..|].
  destruct (decide (Car.currentStreetName (decrement car1) = s)) as [<-|Hne].
  - right. exists (Street.lastQueuingNumber st).
    rewrite Hst in Hlast. cbn in Hlast. split; [done|].
    cbn. rewrite decide_True by done. rewrite lookup_insert_eq. cbn.
    rewrite <- Hq. split; [done|]. split; [done|]. split; [done|]. set_solver.
  - left. cbn. rewrite decide_False by done.
    rewrite lookup_insert_ne by done. split; [done|]. split; [done|].
    set_solver.
Qed.

Lemma processCars_crossing s R t order d x d' x' ev :
  processCars R t order (d, x) = Ok (d', x', ev) →
  (crossingsOf s ev = [] ∧ lastOf s d' = lastOf s d ∧ (s ∈ x' ↔ s ∈ x))
  ∨ (∃ l, lastOf s d = Some l ∧ crossingsOf s ev = [(t, l + 1)]
          ∧ lastOf s d' = Some (l + 1) ∧ (s ∉ x) ∧ s ∈ x').
Proof.
  revert d x ev. induction order as [|i order IH]; intros d x ev H.
  - cbn in H. inv_result. by left.
  - apply processCars_cons in H as ([d1 x1] & ev1 & ev2 & H1 & H2 & ->).
    rewrite crossingsOf_app.
    destruct (carStep_crossing s _ _ _ _ _ _ _ _ H1)
      as [(-> & Hl1 & Hx1)|(l & Hl & -> & Hl1 & Hx & Hx1)];
      destruct (IH _ _ _ H2)
        as [(-> & Hl2 & Hx2)|(l' & Hl' & -> & Hl2 & Hx2 & Hx')].
    + left. split; [done|]. split; [congruence|]. by rewrite Hx2.
    + right. exists l'. split; [congruence|]. do 2 (split; [done|]).
      split; [|done]. by rewrite <- Hx1.
    + right. exists l. split; [done|]. split; [done|]. split; [congruence|].
      split; [done|]. by apply Hx2.
    + done.
Qed.

Lemma loopIn_crossings s order n R t d d' ev l :
  loopIn order n R t d = Ok (d', ev) → lastOf s d = Some l →
  consecutive t l (crossingsOf s ev)
  ∧ lastOf s d' = Some (l + Z.of_nat (length (crossingsOf s ev))).
Proof.
  revert R t d ev l. induction n as [|n IH]; intros R t d ev l H Hl.
  - cbn in H. inv_result. cbn. split; [done|]. rewrite Hl. f_equal. lia.
  - apply loopIn_succ in H as (d1 & x & ev1 & ev2 & H1 & H2 & ->).
    rewrite crossingsOf_app.
    destruct (processCars_crossing s _ _ _ _ _ _ _ _ H1)
      as [(-> & Hl1 & _)|(l0 & Hl0 & -> & Hl1 & _)].
    + rewrite Hl in Hl1. destruct (IH _ _ _ _ _ H2 Hl1) as [Hc Hl'].
      cbn. split; [|done]. eapply consecutive_weaken; [|done]. lia.
    + rewrite Hl in Hl0. injection Hl0 as <-.
      destruct (IH _ _ _ _ _ H2 Hl1) as [Hc Hl'].
      split; [by apply consecutive_snoc_tick|].
      rewrite Hl'. cbn [app length]. f_equal. lia.
Qed.

(** C4.  On every street the crossings follow the tickets, whatever the
    order in which the cars are visited: each crossing ticket is the
    successor of the one that crossed before; of two crossings the one with
    the smaller ticket happens at a strictly earlier tick; and when a ticket
    crosses, every smaller outstanding ticket has crossed before. *)
Theorem crossings_in_ticket_order
    (order : Z → Dataset → list nat) (d d' : Dataset) (ev : list event)
    (s : string) :
  simulateIn order d = Ok (d', ev) →
  (∀ st, streets d !! s = Some st →
         consecutive 0 (Street.lastQueuingNumber st) (crossingsOf s ev))
  ∧ (∀ t1 i1 q1 t2 i2 q2,
       Cross t1 s i1 q1 ∈ ev → Cross t2 s i2 q2 ∈ ev → q1 < q2 → t1 < t2)
  ∧ (∀ st t2 i2 q2 q1,
       streets d !! s = Some st → Cross t2 s i2 q2 ∈ ev →
       Street.lastQueuingNumber st < q1 < q2 →
       ∃ t1 i1, Cross t1 s i1 q1 ∈ ev ∧ t1 < t2).
Proof.
  intros H. unfold simulateIn in H.
  assert (∀ st, streets d !! s = Some st →
            consecutive 0 (Street.lastQueuingNumber st) (crossingsOf s ev))
    as Hcons.
  { intros st Hst.
    apply (loopIn_crossings s _ _ _ _ _ _ _ _ H). unfold lastOf.
    by rewrite Hst. }
  split; [done|]. split.
  - intros t1 i1 q1 t2 i2 q2 H1 H2 Hlt.
    destruct (loopIn_crossing_green _ _ _ _ _ _ _ _ _ _ _ H H1)
      as (_ & _ & st & Hst & _).
    eapply (consecutive_order _ _ _ _ _ _ _ (Hcons _ Hst));
      [apply elem_of_crossingsOf; by eexists..|done].
  - intros st t2 i2 q2 q1 Hst H2 Hlt.
    destruct (consecutive_dense _ _ _ t2 q2 q1 (Hcons _ Hst))
      as (t1 & Hin & Ht1); [apply elem_of_crossingsOf; by eexists|done|].
    apply elem_of_crossingsOf in Hin as (i1 & Hin). by exists t1, i1.
Qed.

Lemma crossings_in_ticket_order_witness :
  ∃ d' ev,
    simulateIn (λ _ d, rev (seq 0 (length (cars d)))) Sample.ticketDataset
      = Ok (d', ev)
    ∧ crossingsOf "a" ev = [(0, 0); (1, 1)]
    ∧ (∀ st, streets Sample.ticketDataset !! "a" = Some st →
             consecutive 0 (Street.lastQueuingNumber st) (crossingsOf "a" ev))
    ∧ (∀ t1 i1 q1 t2 i2 q2,
         Cross t1 "a" i1 q1 ∈ ev → Cross t2 "a" i2 q2 ∈ ev → q1 < q2 → t1 < t2)
    ∧ (∀ st t2 i2 q2 q1,
         streets Sample.ticketDataset !! "a" = Some st →
         Cross t2 "a" i2 q2 ∈ ev →
         Street.lastQueuingNumber st < q1 < q2 →
         ∃ t1 i1, Cross t1 "a" i1 q1 ∈ ev ∧ t1 < t2).
Proof.
  destruct (simulateIn (λ _ d, rev (seq 0 (length (cars d))))
              Sample.ticketDataset) as [[d' ev]|e] eqn:H;
    [|vm_compute in H; discriminate].
  exists d', ev. split; [done|]. split.
  - vm_compute in H. injection H as _ <-. reflexivity.
  - exact (crossings_in_ticket_order _ _ _ _ "a" H).
Defined.

(** *** Registration *)

Lemma decrement_fields c :
  Car.numStreets (decrement c) = Car.numStreets c
  ∧ Car.streetNames (decrement c) = Car.streetNames c
  ∧ Car.currentStreetIdx (decrement c) = Car.currentStreetIdx c
  ∧ Car.currentStreetName (decrement c) = Car.currentStreetName c
  ∧ Car.queuingNumber (decrement c) = Car.queuingNumber c
  ∧ Car.arrived (decrement c) = Car.arrived c
  ∧ Car.remainingTimeOnStreet (decrement c)
    = (if 0 <? Car.remainingTimeOnStreet c
       then Car.remainingTimeOnStreet c - 1
       else Car.remainingTimeOnStreet c).
Proof. unfold decrement. by case_match. Qed.

Lemma carStep_ticket R t i d x d' x' ev car :
  carStep R t i (d, x) = Ok (d', x', ev) →
  cars d !! i = Some car → Car.arrived car = false →
  ∃ car1 streets1 ev1 car',
    register t i car (streets d) = Ok (car1, streets1, ev1)
    ∧ cars d' !! i = Some car'
    ∧ Car.queuingNumber car' = Car.queuingNumber car1
    ∧ (∀ s, nextOf s d' = Street.nextQueuingNumber <$> streets1 !! s)
    ∧ (∀ e, e ∈ ev1 → e ∈ ev)
    ∧ (∀ t' s j q, Register t' s j q ∈ ev → Register t' s j q ∈ ev1).
Proof.
  intros H Hc Hna. unfold nextOf.
  assert (i < length (cars d))%nat as Hi by (by eapply lookup_lt_Some).
  step_cases H; [congruence|..]; rewrite Hc in Hcar; injection Hcar as <-;
    destruct (decrement_fields car1) as (_ & _ & _ & Hname & Hqn & _ & _);
    exists car1, streets1, ev1; eexists; (split; [done|]);
    cbn [cars streets put]; rewrite list_lookup_insert_eq by done;
    (split; [done|]); (split; [by rewrite <- Hqn|]).
  - done.
  - split; [done|]. split; [intros e He; apply elem_of_app; by left|].
    intros t' s j q [Hin|Hin]%elem_of_app; [done|].
    by apply list_elem_of_singleton in Hin.
  - done.
  - done.
  - split; [|split].
    + intros s.
      destruct (decide (Car.currentStreetName (decrement car1) = s)) as [<-|Hne].
      * rewrite lookup_insert_eq, Hst. done.
      * by rewrite lookup_insert_ne.
    + intros e He; apply elem_of_app; by left.
    + intros t' s j q [Hin|Hin]%elem_of_app; [done|].
      by apply list_elem_of_singleton in Hin.
Qed.

(** C5, amended.  A car that is not arrived is registered in a tick exactly
    when its time left is [1] before the decrement of that tick (so that it
    reaches [0] in that very tick) and it has one more street to travel; it
    is then registered on the street it is finishing, [currentStreetName],
    with the next ticket of that street, which moves on by one.  In every
    other situation the visit registers nothing: the ticket of the car and
    the next ticket of every street stay as they are. *)
Theorem registration_on_current_street
    (R t : Z) (i : nat) (d d' : Dataset) (x x' : gset string)
    (ev : list event) (car : Car.t) :
  carStep R t i (d, x) = Ok (d', x', ev) →
  cars d !! i = Some car → Car.arrived car = false →
  ∃ car', cars d' !! i = Some car' ∧
    ((Car.remainingTimeOnStreet car = 1
      ∧ Car.currentStreetIdx car < Car.numStreets car - 1 →
      ∃ st, streets d !! Car.currentStreetName car = Some st
        ∧ Register t (Car.currentStreetName car) i
                   (Street.nextQueuingNumber st) ∈ ev
        ∧ Car.queuingNumber car' = Street.nextQueuingNumber st
        ∧ nextOf (Car.currentStreetName car) d'
          = Some (Street.nextQueuingNumber st + 1))
     ∧ (¬ (Car.remainingTimeOnStreet car = 1
           ∧ Car.currentStreetIdx car < Car.numStreets car - 1) →
        (∀ t' s j q, Register t' s j q ∉ ev)
        ∧ Car.queuingNumber car' = Car.queuingNumber car
        ∧ ∀ s, nextOf s d' = nextOf s d)).
Proof.
  intros H Hc Hna.
  destruct (carStep_ticket _ _ _ _ _ _ _ _ _ H Hc Hna)
    as (car1 & streets1 & ev1 & car' & Hreg & Hc' & Hq & Hnext & Hsub & Hregs).
  exists car'. split; [done|].
  destruct (register_cases _ _ _ _ _ _ _ Hreg)
    as [(H1 & H2 & st & Hst & -> & -> & ->)|(Hnot & -> & -> & ->)].
  - split; [intros _|intros Hnot; by destruct Hnot].
    exists st. split; [done|]. split; [apply Hsub; by left|].
    split; [done|]. rewrite Hnext. by rewrite lookup_insert_eq.
  - split; [intros Hyes; by destruct Hnot|intros _].
    split; [|done]. intros t' s j q Hin%Hregs. by apply not_elem_of_nil in Hin.
Qed.

Lemma registration_on_current_street_witness :
  ∃ d' x' ev car,
    carStep 4 2 0 (Sample.ticketAfter 2, ∅) = Ok (d', x', ev)
    ∧ cars (Sample.ticketAfter 2) !! 0%nat = Some car
    ∧ Car.arrived car = false
    ∧ Car.remainingTimeOnStreet car = 1
    ∧ Car.currentStreetName car = "b"
    ∧ ∃ car', cars d' !! 0%nat = Some car' ∧
        ((Car.remainingTimeOnStreet car = 1
          ∧ Car.currentStreetIdx car < Car.numStreets car - 1 →
          ∃ st, streets (Sample.ticketAfter 2) !! Car.currentStreetName car
                = Some st
            ∧ Register 2 (Car.currentStreetName car) 0
                       (Street.nextQueuingNumber st) ∈ ev
            ∧ Car.queuingNumber car' = Street.nextQueuingNumber st
            ∧ nextOf (Car.currentStreetName car) d'
              = Some (Street.nextQueuingNumber st + 1))
         ∧ (¬ (Car.remainingTimeOnStreet car = 1
               ∧ Car.currentStreetIdx car < Car.numStreets car - 1) →
            (∀ t' s j q, Register t' s j q ∉ ev)
            ∧ Car.queuingNumber car' = Car.queuingNumber car
            ∧ ∀ s, nextOf s d' = nextOf s (Sample.ticketAfter 2))).
Proof.
  destruct (carStep 4 2 0 (Sample.ticketAfter 2, ∅)) as [[[d' x'] ev]|e] eqn:H;
    [|vm_compute in H; discriminate].
  destruct (cars (Sample.ticketAfter 2) !! 0%nat) as [car|] eqn:Hc;
    [|vm_compute in Hc; discriminate].
  exists d', x', ev, car. split; [done|]. split; [done|].
  assert (Car.arrived car = false) as Hna
    by (vm_compute in Hc; injection Hc as <-; reflexivity).
  split; [done|].
  split; [vm_compute in Hc; injection Hc as <-; reflexivity|].
  split; [vm_compute in Hc; injection Hc as <-; reflexivity|].
  exact (registration_on_current_street 4 2 0 _ d' ∅ x' ev car H Hc Hna).
Defined.

(** C5 as stated fails.  After the first tick of the sample run car [0] has
    time left [2] on [b] and one more street, [c], to travel: its time left
    reaches exactly [1] in the tick at time [1], and that tick registers it
    nowhere.  The tick at time [2] registers it, on [b], the street it is
    finishing; the next ticket of [c] never moves. *)
Lemma registration_not_one_tick_ahead :
  ∃ car d' x' ev car' d'' x'' ev'',
    cars (Sample.ticketAfter 1) !! 0%nat = Some car
    ∧ Car.arrived car = false
    ∧ Car.remainingTimeOnStreet car = 2
    ∧ Car.currentStreetIdx car < Car.numStreets car - 1
    ∧ Car.currentStreetName car = "b"
    ∧ JS.nth (Car.streetNames car) (Car.currentStreetIdx car + 1) = Some "c"
    ∧ tick 5 1 (Sample.ticketAfter 1) = Ok (d', x', ev)
    ∧ ev = [Cross 1 "a" 1 1]
    ∧ cars d' !! 0%nat = Some car'
    ∧ Car.remainingTimeOnStreet car' = 1
    ∧ Car.queuingNumber car' = Car.queuingNumber car
    ∧ nextOf "c" d' = nextOf "c" (Sample.ticketAfter 1)
    ∧ nextOf "b" d' = nextOf "b" (Sample.ticketAfter 1)
    ∧ tick 4 2 d' = Ok (d'', x'', ev'')
    ∧ ev'' = [Register 2 "b" 0 0; Cross 2 "b" 0 0]
    ∧ nextOf "c" d'' = nextOf "c" d'
    ∧ nextOf "b" d'' = (λ n, n + 1) <$> nextOf "b" d'.
Proof.
  do 8 eexists.
  split; [vm_compute; reflexivity|].
  do 5 (split; [vm_compute; reflexivity|]).
  split; [vm_compute; reflexivity|].
  split; [reflexivity|].
  split; [vm_compute; reflexivity|].
  do 4 (split; [vm_compute; reflexivity|]).
  split; [vm_compute; reflexivity|].
  split; [reflexivity|].
  split; vm_compute; reflexivity.
Qed.

(** *** The final tick *)

Lemma processCars_app R t l1 l2 s s'' ev :
  processCars R t (l1 ++ l2) s = Ok (s'', ev) →
  ∃ s' ev1 ev2, processCars R t l1 s = Ok (s', ev1)
                ∧ processCars R t l2 s' = Ok (s'', ev2)
                ∧ ev = ev1 ++ ev2.
Proof.
  revert s ev. induction l1 as [|i l1 IH]; intros s ev H.
  - exists s, [], ev. done.
  - cbn [app] in H.
    apply processCars_cons in H as (s1 & ev1 & ev2 & H1 & H2 & ->).
    apply IH in H2 as (s2 & ev3 & ev4 & H3 & H4 & ->).
    exists s2, (ev1 ++ ev3), ev4. split; [|split; [done|by rewrite app_assoc]].
    cbn [processCars]. rewrite H1. cbn. rewrite H3. done.
Qed.

Lemma processCars_untouched R t order d x d' x' ev j :
  processCars R t order (d, x) = Ok (d', x', ev) → j ∉ order →
  cars d' !! j = cars d !! j.
Proof.
  revert d x ev. induction order as [|i order IH]; intros d x ev H Hj.
  - cbn in H. inv_result. done.
  - apply processCars_cons in H as ([d1 x1] & ev1 & ev2 & H1 & H2 & ->).
    apply not_elem_of_cons in Hj as [Hji Hj].
    rewrite (IH _ _ _ H2 Hj). by eapply carStep_other.
Qed.

(** The visit of a car in the last tick, when its time left is [0] after the
    decrement. *)
Lemma carStep_final t i d x d' x' ev c :
  carStep 0 t i (d, x) = Ok (d', x', ev) →
  cars d !! i = Some c → Car.arrived c = false →
  0 ≤ Car.remainingTimeOnStreet c ≤ 1 →
  ∃ c', cars d' !! i = Some c'
    ∧ Car.currentStreetIdx c' = Car.currentStreetIdx c
    ∧ (Car.currentStreetIdx c = Car.numStreets c - 1 →
       Car.arrived c' = true
       ∧ Car.score c' = Simulation.bonusPoint (simulation d) + 0
       ∧ Car.commuteTime c' = t)
    ∧ (Car.currentStreetIdx c ≠ Car.numStreets c - 1 →
       Car.arrived c' = false).
Proof.
  intros H Hc Hna Hrem.
  assert (i < length (cars d))%nat as Hi by (by eapply lookup_lt_Some).
  step_cases H; [congruence|..]; rewrite Hc in Hcar; injection Hcar as <-;
    destruct (decrement_fields car1) as (Hn & _ & Hidx' & _ & _ & Harr' & Hrem');
    assert (Car.numStreets car1 = Car.numStreets c
            ∧ Car.currentStreetIdx car1 = Car.currentStreetIdx c
            ∧ Car.arrived car1 = Car.arrived c
            ∧ Car.remainingTimeOnStreet car1 = Car.remainingTimeOnStreet c)
      as (Hn1 & Hidx1 & Harr1 & Hrem1)
      by (destruct (register_cases _ _ _ _ _ _ _ Hreg)
            as [(_ & _ & st0 & _ & -> & _)|(_ & -> & _)]; done);
    cbn [cars put]; rewrite list_lookup_insert_eq by done;
    eexists; (split; [done|]).
  - exfalso. rewrite Hrem', Hrem1 in Hrem0. destruct (Z.ltb_spec 0 (Car.remainingTimeOnStreet c)); lia.
  - cbn. split; [congruence|]. split; [done|]. intros Hne. congruence.
  - split; [congruence|]. split; [intros He; congruence|]. intros _. congruence.
  - done.
  - done.
Qed.

(** C6.  On the final tick ([remainingTime = 0], [time = duration]) no car
    crosses; a car whose time left reaches [0] on its last street is marked
    arrived with score [bonusPoint + 0] and [commuteTime = duration]; a car
    whose time left reaches [0] on another street stays where it is and ends
    the run not arrived. *)
Theorem final_tick (d d1 d' : Dataset) (ev1 ev : list event) (i : nat) (c : Car.t) :
  let duration := Simulation.duration (simulation d) in
  0 ≤ duration →
  loop (Z.to_nat duration) (duration + 1) 0 d = Ok (d1, ev1) →
  simulate d = Ok (d', ev) →
  cars d1 !! i = Some c → Car.arrived c = false →
  0 ≤ Car.remainingTimeOnStreet c ≤ 1 →
  (∀ s j q, Cross duration s j q ∉ ev)
  ∧ ∃ c', cars d' !! i = Some c'
      ∧ Car.currentStreetIdx c' = Car.currentStreetIdx c
      ∧ (Car.currentStreetIdx c = Car.numStreets c - 1 →
         Car.arrived c' = true
         ∧ Car.score c' = Simulation.bonusPoint (simulation d) + 0
         ∧ Car.commuteTime c' = duration)
      ∧ (Car.currentStreetIdx c ≠ Car.numStreets c - 1 →
         Car.arrived c' = false).
Proof.
  intros duration HD H1 H Hc Hna Hrem. split.
  { intros s j q Hin. pose proof H as H0.
    unfold simulate, simulateIn in H0. fold duration in H0.
    destruct (loopIn_crossing_green _ _ _ _ _ _ _ _ _ _ _ H0 Hin)
      as (Ht & HR & _).
    lia. }
  unfold simulate, simulateIn in H. fold duration in H.
  replace (Z.to_nat (duration + 1)) with (Z.to_nat duration + 1)%nat in H by lia.
  apply loopIn_add in H as (d1' & ev1' & ev2 & H1' & H2 & ->).
  unfold loop in H1. rewrite H1 in H1'. injection H1' as <- <-.
  apply loopIn_succ in H2 as (d2 & x & ev3 & ev4 & H2 & H3 & ->).
  cbn in H3. inv_result.
  rewrite Z2Nat.id in H2 by lia.
  replace (duration + 1 - duration - 1) with 0 in H2 by lia.
  replace (0 + duration) with duration in H2 by lia.
  unfold tickIn, sourceOrder in H2.
  assert (i < length (cars d1))%nat as Hi by (by eapply lookup_lt_Some).
  replace (seq 0 (length (cars d1)))
    with (seq 0 i ++ [i] ++ seq (S i) (length (cars d1) - S i)) in H2.
  2:{ replace (length (cars d1))
        with (i + S (length (cars d1) - S i))%nat at 2 by lia.
      rewrite seq_app. done. }
  apply processCars_app in H2 as ([da xa] & eva & evb & Ha & Hb & ->).
  apply processCars_app in Hb as ([db xb] & evc & evd & Hb & Hd & ->).
  apply processCars_cons in Hb as ([dc xc] & eve & evf & Hb & Hf & ->).
  cbn in Hf. inv_result.
  assert (cars da !! i = Some c) as Hca.
  { rewrite (processCars_untouched _ _ _ _ _ _ _ _ i Ha); [done|].
    rewrite elem_of_seq. lia. }
  destruct (carStep_final _ _ _ _ _ _ _ _ Hb Hca Hna Hrem)
    as (c' & Hc' & Hidx & Hlast & Hmore).
  exists c'. split.
  { rewrite (processCars_untouched _ _ _ _ _ _ _ _ i Hd); [done|].
    rewrite elem_of_seq. lia. }
  split; [done|]. split; [|done].
  intros He. destruct (Hlast He) as (? & Hsc & ?).
  split; [done|]. split; [|done].
  rewrite Hsc. f_equal. f_equal.
  transitivity (simulation d1).
  - apply (processCars_preserves (λ d2, simulation d2 = simulation d1))
      with (R := 0) (t := duration) (order := seq 0 i) (d := d1) (x := ∅)
           (x' := xa) (ev := eva); [|done..].
    intros R' t'' i' d3 x3 d4 x4 ev' Hs <-. by eapply carStep_simulation.
  - by eapply loopIn_simulation.
Qed.

Lemma final_tick_witness :
  (∃ d1 ev1 d' ev c c',
     loop 3 4 0 (Sample.ticketFor 3) = Ok (d1, ev1)
     ∧ simulate (Sample.ticketFor 3) = Ok (d', ev)
     ∧ cars d1 !! 0%nat = Some c ∧ Car.arrived c = false
     ∧ Car.remainingTimeOnStreet c = 1
     ∧ Car.currentStreetIdx c = Car.numStreets c - 1
     ∧ cars d' !! 0%nat = Some c'
     ∧ Car.arrived c' = true ∧ Car.score c' = 1000 + 0
     ∧ Car.commuteTime c' = 3)
  ∧ (∃ d1 ev1 d' ev c c',
       loop 2 3 0 (Sample.ticketFor 2) = Ok (d1, ev1)
       ∧ simulate (Sample.ticketFor 2) = Ok (d', ev)
       ∧ cars d1 !! 0%nat = Some c ∧ Car.arrived c = false
       ∧ Car.remainingTimeOnStreet c = 1
       ∧ Car.currentStreetIdx c ≠ Car.numStreets c - 1
       ∧ cars d' !! 0%nat = Some c'
       ∧ Car.arrived c' = false
       ∧ Car.currentStreetIdx c' = Car.currentStreetIdx c
       ∧ ∀ s j q, Cross 2 s j q ∉ ev).
Proof.
  split.
  - destruct (loop 3 4 0 (Sample.ticketFor 3)) as [[d1 ev1]|e] eqn:H1;
      [|vm_compute in H1; discriminate].
    destruct (simulate (Sample.ticketFor 3)) as [[d' ev]|e] eqn:H;
      [|vm_compute in H; discriminate].
    destruct (cars d1 !! 0%nat) as [c|] eqn:Hc;
      [|vm_compute in H1; injection H1 as <- _; vm_compute in Hc; discriminate].
    assert (Car.arrived c = false ∧ Car.remainingTimeOnStreet c = 1
            ∧ Car.currentStreetIdx c = Car.numStreets c - 1)
      as (Hna & Hrem & Hidx).
    { vm_compute in H1. injection H1 as <- _. vm_compute in Hc.
      injection Hc as <-. repeat split. }
    destruct (final_tick (Sample.ticketFor 3) d1 d' ev1 ev 0 c)
      as (_ & c' & Hc' & _ & Hlast & _);
      [discriminate|exact H1|exact H|exact Hc|exact Hna|lia|].
    destruct (Hlast Hidx) as (Ha & Hs & Ht).
    exists d1, ev1, d', ev, c, c'.
    repeat (split; [first [reflexivity|assumption]|]). exact Ht.
  - destruct (loop 2 3 0 (Sample.ticketFor 2)) as [[d1 ev1]|e] eqn:H1;
      [|vm_compute in H1; discriminate].
    destruct (simulate (Sample.ticketFor 2)) as [[d' ev]|e] eqn:H;
      [|vm_compute in H; discriminate].
    destruct (cars d1 !! 0%nat) as [c|] eqn:Hc;
      [|vm_compute in H1; injection H1 as <- _; vm_compute in Hc; discriminate].
    assert (Car.arrived c = false ∧ Car.remainingTimeOnStreet c = 1
            ∧ Car.currentStreetIdx c ≠ Car.numStreets c - 1)
      as (Hna & Hrem & Hidx).
    { vm_compute in H1. injection H1 as <- _. vm_compute in Hc.
      injection Hc as <-. repeat split. discriminate. }
    destruct (final_tick (Sample.ticketFor 2) d1 d' ev1 ev 0 c)
      as (Hno & c' & Hc' & Hsame & _ & Hmore);
      [discriminate|exact H1|exact H|exact Hc|exact Hna|lia|].
    exists d1, ev1, d', ev, c, c'. specialize (Hmore Hidx).
    repeat (split; [first [reflexivity|assumption]|]). exact Hno.
Defined.

(** *** The validator: the reported averages *)

Lemma sumZ_app l1 l2 : sumZ (l1 ++ l2) = sumZ l1 + sumZ l2.
Proof. unfold sumZ. induction l1 as [|a l1 IH]; cbn; lia. Qed.

Lemma scheduleStreet_entry sim lines id pos streets names last entries
    streets' names' last' entries' :
  scheduleStreet sim lines id pos (streets, names, last, entries)
    = Ok (streets', names', last', entries') →
  ∃ name g, entries' = entries ++ [(name, g)] ∧ last' = last + g
            ∧ names' = names ++ [name].
Proof.
  unfold scheduleStreet. intros H. inv_result. 
  repeat case_match; inv_result; try done.
  eexists _, _. done.
Qed.

Lemma scheduleStreets_entries sim lines id n pos streets names last entries
    streets' names' last' entries' :
  scheduleStreets sim lines id n pos (streets, names, last, entries)
    = Ok (streets', names', last', entries') →
  ∃ new, entries' = entries ++ new ∧ length new = n
         ∧ last' = last + sumZ (snd <$> new).
Proof.
  revert pos streets names last entries.
  induction n as [|n IH]; intros pos streets names last entries H.
  - cbn in H. inv_result. exists []. rewrite app_nil_r. cbn. split; [done|]. split; [done|]. unfold sumZ; cbn; lia.
  - cbn [scheduleStreets] in H. inv_result.
    destruct a as [[[streets1 names1] last1] entries1].
    apply scheduleStreet_entry in Ha as (name & g & -> & -> & ->).
    apply IH in H as (new & -> & Hlen & ->).
    exists ((name, g) :: new). rewrite <- app_assoc. split; [done|].
    split; [cbn; lia|]. unfold sumZ. cbn. lia.
Qed.

Lemma scheduleIntersection_log sim lines i v v' :
  scheduleIntersection sim lines i v = Ok v' →
  ∃ b, scheduled v' = scheduled v ++ [b]
       ∧ s_line b = currentLine v + i
       ∧ totalCycles_sum v' = totalCycles_sum v + cycleLength b
       ∧ numSchedules v' = numSchedules v + s_declared b
       ∧ currentLine v' = currentLine v + s_declared b + 1
       ∧ length (s_entries b) = Z.to_nat (s_declared b).
Proof.
  unfold scheduleIntersection. intros H.
  repeat case_match; inv_result; try done.
  destruct a as [[[streets1 names1] last1] entries1]. inv_result.
  apply scheduleStreets_entries in Ha as (new & -> & Hlen & ->).
  eexists. cbn. split; [done|]. unfold cycleLength. cbn. done.
Qed.

Lemma scheduleIntersections_log sim lines n i v v' :
  scheduleIntersections sim lines n i v = Ok v' →
  ∃ bs, scheduled v' = scheduled v ++ bs ∧ length bs = n
        ∧ totalCycles_sum v' = totalCycles_sum v + sumZ (cycleLength <$> bs)
        ∧ numSchedules v' = numSchedules v + sumZ (s_declared <$> bs)
        ∧ Forall (λ b, length (s_entries b) = Z.to_nat (s_declared b)) bs.
Proof.
  revert i v. induction n as [|n IH]; intros i v H.
  - cbn in H. inv_result. exists []. rewrite app_nil_r. unfold sumZ. cbn.
    repeat split; try lia. constructor.
  - cbn [scheduleIntersections] in H. inv_result.
    apply scheduleIntersection_log in Ha as (b & Hb & _ & Ht & Hn & _ & Hl).
    apply IH in H as (bs & -> & Hlen & -> & -> & Hall).
    exists (b :: bs). rewrite Hb, <- app_assoc. split; [done|].
    split; [cbn; lia|]. unfold sumZ in *. cbn. rewrite Ht, Hn.
    repeat split; try lia. by constructor.
Qed.

Lemma declared_entries (bs : list Scheduled) :
  Forall (λ b, length (s_entries b) = Z.to_nat (s_declared b)) bs →
  Forall (λ b, 0 ≤ s_declared b) bs →
  sumZ (s_declared <$> bs) = Z.of_nat (length (bs ≫= s_entries)).
Proof.
  induction 1 as [|b bs Hb _ IH]; intros Hnn; [done|].
  apply Forall_cons in Hnn as [Hb0 Hnn].
  cbn. rewrite length_app, Hb. unfold sumZ in *. cbn. rewrite (IH Hnn). lia.
Qed.

Lemma cycles_greens (bs : list Scheduled) :
  sumZ (cycleLength <$> bs) = sumZ (snd <$> (bs ≫= s_entries)).
Proof.
  induction bs as [|b bs IH]; [done|].
  cbn. rewrite fmap_app, sumZ_app, <- IH. unfold sumZ, cycleLength. cbn. done.
Qed.

(** C8, amended.  After a successful validation the record of the
    validator holds one entry per declared intersection; the reported
    average cycle length is the sum of the cycle lengths of the scheduled
    intersections divided by the number of intersections of the city (the
    header of the dataset), not by the number of scheduled intersections;
    the reported average green duration is the sum of all green durations
    divided by the sum of the declared street counts, which is the number of
    scheduled street entries when no declared count is negative. *)
Theorem reported_averages (d d' : Dataset) (data : string) (avg : Averages)
    (log : list Scheduled) :
  parseSubmittedDataSet d data = Ok (d', avg, log) →
  length log
  = Z.to_nat (default 0 (head (JS.split "010" data) ≫= JS.Number))
  ∧ totalCycles avg
    = JS.div (sumZ (cycleLength <$> log))
             (Simulation.numIntersections (simulation d))
  ∧ greenCycles avg
    = JS.div (sumZ (snd <$> (log ≫= s_entries))) (sumZ (s_declared <$> log))
  ∧ sumZ (cycleLength <$> log) = sumZ (snd <$> (log ≫= s_entries))
  ∧ (Forall (λ b, 0 ≤ s_declared b) log →
     sumZ (s_declared <$> log) = Z.of_nat (length (log ≫= s_entries))).
Proof.
  unfold parseSubmittedDataSet, parseSubmittedLines. intros H. inv_result.
  apply scheduleIntersections_log in Ha as (bs & Hbs & Hlen & Ht & Hn & Hall).
  cbn in Hbs, Ht, Hn. rewrite Hbs, Ht, Hn, <- cycles_greens.
  split; [done|]. split; [done|]. split; [done|]. split; [done|].
  by apply declared_entries.
Qed.

Lemma reported_averages_witness :
  ∃ d' avg log,
    parseSubmittedDataSet Sample.ticketParsed Sample.submission
      = Ok (d', avg, log)
    ∧ length log = 2%nat
    ∧ totalCycles avg = JS.div (sumZ (cycleLength <$> log)) 3
    ∧ greenCycles avg
      = JS.div (sumZ (snd <$> (log ≫= s_entries))) (sumZ (s_declared <$> log))
    ∧ sumZ (cycleLength <$> log) = sumZ (snd <$> (log ≫= s_entries))
    ∧ (Forall (λ b, 0 ≤ s_declared b) log →
       sumZ (s_declared <$> log) = Z.of_nat (length (log ≫= s_entries))).
Proof.
  destruct (parseSubmittedDataSet Sample.ticketParsed Sample.submission)
    as [[[d' avg] log]|e] eqn:H; [|vm_compute in H; discriminate].
  exists d', avg, log. split; [reflexivity|].
  exact (reported_averages Sample.ticketParsed d' Sample.submission avg log H).
Defined.

(** C8 as stated fails.  The sample submission schedules 2 of the 3
    intersections of the city, with cycle lengths 1 and 2: the reported
    average cycle length is 3 / 3, not 3 / 2. *)
Lemma average_cycle_length_over_city :
  ∃ d' avg log,
    parseSubmittedDataSet Sample.ticketParsed Sample.submission
      = Ok (d', avg, log)
    ∧ length log = 2%nat
    ∧ sumZ (cycleLength <$> log) = 3
    ∧ Simulation.numIntersections (simulation Sample.ticketParsed) = 3
    ∧ totalCycles avg = JS.div 3 3
    ∧ totalCycles avg ≠ JS.div 3 (Z.of_nat (length log)).
Proof.
  do 3 eexists. split; [vm_compute; reflexivity|].
  do 3 (split; [vm_compute; reflexivity|]).
  split; [vm_compute; reflexivity|].
  vm_compute. intros H. discriminate H.
Qed.

(** *** The validator: truncated submissions *)

Lemma nth_take {A} (l : list A) (m : nat) (p : Z) :
  JS.nth (take m l) p = if p <? Z.of_nat m then JS.nth l p else None.
Proof.
  unfold JS.nth. destruct (Z.ltb_spec p 0) as [Hn|Hn].
  - by case_match.
  - destruct (Z.ltb_spec p (Z.of_nat m)) as [Hlt|Hge].
    + apply lookup_take_lt. lia.
    + apply lookup_take_ge. lia.
Qed.

Lemma scheduleStreet_cut sim lines m id pos acc :
  pos < Z.of_nat m →
  scheduleStreet sim (take m lines) id pos acc
  = scheduleStreet sim lines id pos acc.
Proof.
  intros Hlt. unfold scheduleStreet. rewrite nth_take.
  destruct (Z.ltb_spec pos (Z.of_nat m)); [done|lia].
Qed.

Lemma scheduleStreet_missing sim lines m id pos acc :
  Z.of_nat m ≤ pos →
  scheduleStreet sim (take m lines) id pos acc = Throw TypeError.
Proof.
  intros Hge. unfold scheduleStreet. rewrite nth_take.
  destruct (Z.ltb_spec pos (Z.of_nat m)); [lia|].
  by destruct acc as [[[? ?] ?] ?].
Qed.

Lemma scheduleStreets_cut sim lines m id n pos acc :
  pos + Z.of_nat n ≤ Z.of_nat m →
  scheduleStreets sim (take m lines) id n pos acc
  = scheduleStreets sim lines id n pos acc.
Proof.
  revert pos acc. induction n as [|n IH]; intros pos acc Hle; [done|].
  cbn [scheduleStreets]. rewrite scheduleStreet_cut by lia.
  destruct (scheduleStreet sim lines id pos acc) as [acc1|e]; [|done].
  cbn. apply IH. lia.
Qed.

Lemma scheduleStreets_short sim lines m id n pos acc acc' :
  scheduleStreets sim lines id n pos acc = Ok acc' →
  pos ≤ Z.of_nat m < pos + Z.of_nat n →
  scheduleStreets sim (take m lines) id n pos acc = Throw TypeError.
Proof.
  revert pos acc. induction n as [|n IH]; intros pos acc H Hlt; [lia|].
  cbn [scheduleStreets] in *.
  destruct (Z.ltb_spec pos (Z.of_nat m)) as [Hin|Hout].
  - rewrite scheduleStreet_cut by done. inv_result. rewrite Ha. cbn.
    eapply IH; [done|lia].
  - by rewrite scheduleStreet_missing.
Qed.

(** An intersection whose count line is cut off. *)
Lemma scheduleIntersection_no_count sim lines m i v :
  Z.of_nat m ≤ currentLine v + i + 1 →
  scheduleIntersection sim (take m lines) i v = Throw TruncatedSubmission.
Proof.
  intros Hle. unfold scheduleIntersection. rewrite (nth_take _ _ (_ + 1)).
  destruct (Z.ltb_spec (currentLine v + i + 1) (Z.of_nat m)); [lia|done].
Qed.

Lemma scheduleIntersection_cut sim lines m i v v' :
  scheduleIntersection sim lines i v = Ok v' →
  currentLine v' + i + 1 ≤ Z.of_nat m →
  0 ≤ currentLine v' - currentLine v - 1 →
  scheduleIntersection sim (take m lines) i v = Ok v'.
Proof.
  intros H Hle Hnn. pose proof H as H'.
  apply scheduleIntersection_log in H' as (b & _ & _ & _ & _ & Hcur & _).
  unfold scheduleIntersection in *. rewrite !nth_take.
  destruct (Z.ltb_spec (currentLine v + i + 1) (Z.of_nat m)); [|lia].
  destruct (Z.ltb_spec (currentLine v + i) (Z.of_nat m)); [|lia].
  destruct (JS.nth lines (currentLine v + i + 1)) as [count|]; [|done].
  destruct (JS.Number count) as [n|]; [|done].
  case_bool_decide; [done|].
  rewrite scheduleStreets_cut; [done|].
  inv_result. destruct a as [[[? ?] ?] ?]. inv_result. cbn in *. lia.
Qed.

Lemma scheduleIntersection_short sim lines m i v v' :
  scheduleIntersection sim lines i v = Ok v' →
  currentLine v + i + 1 < Z.of_nat m < currentLine v' + i + 1 →
  0 ≤ currentLine v' - currentLine v - 1 →
  scheduleIntersection sim (take m lines) i v = Throw TypeError.
Proof.
  intros H Hlt Hnn. 
  unfold scheduleIntersection in *. rewrite !nth_take.
  destruct (Z.ltb_spec (currentLine v + i + 1) (Z.of_nat m)); [|lia].
  destruct (Z.ltb_spec (currentLine v + i) (Z.of_nat m)); [|lia].
  destruct (JS.nth lines (currentLine v + i + 1)) as [count|]; [|done].
  destruct (JS.Number count) as [n|]; [|done].
  case_bool_decide; [done|].
  inv_result. destruct a as [[[? ?] ?] ?]. inv_result. cbn in *.
  erewrite scheduleStreets_short; [done|done|lia].
Qed.

Lemma scheduleIntersections_lines sim lines n i v v' bs :
  scheduleIntersections sim lines n i v = Ok v' →
  scheduled v' = scheduled v ++ bs →
  Forall (λ b, 0 ≤ s_declared b) bs →
  currentLine v' + i + Z.of_nat n
  = currentLine v + i + requiredLines bs
  ∧ ∀ b, b ∈ bs → currentLine v + i ≤ s_line b.
Proof.
  revert i v bs. induction n as [|n IH]; intros i v bs H Hbs Hnn.
  - cbn in H. inv_result.
    assert (bs = []) as -> by (by eapply app_inv_head; rewrite app_nil_r).
    unfold requiredLines, sumZ. cbn. split; [lia|].
    intros b Hb. by apply not_elem_of_nil in Hb.
  - cbn [scheduleIntersections] in H. inv_result.
    pose proof Ha as (b & Hb & Hline & _ & _ & Hcur & _)%scheduleIntersection_log.
    pose proof H as (bs' & Hbs' & _)%scheduleIntersections_log.
    rewrite Hbs', Hb, <- app_assoc in Hbs. apply app_inv_head in Hbs as <-.
    apply Forall_cons in Hnn as [Hb0 Hnn].
    destruct (IH _ _ _ H Hbs' Hnn) as [Hend Hpos].
    unfold requiredLines, sumZ in *. cbn. split; [lia|].
    intros b' [->|Hin]%elem_of_cons; [lia|].
    specialize (Hpos _ Hin). lia.
Qed.

Lemma scheduleIntersections_truncated sim lines m n i v v' bs :
  scheduleIntersections sim lines n i v = Ok v' →
  scheduled v' = scheduled v ++ bs →
  Forall (λ b, 0 ≤ s_declared b) bs →
  currentLine v + i ≤ Z.of_nat m < currentLine v + i + requiredLines bs →
  ∃ e, scheduleIntersections sim (take m lines) n i v = Throw e
       ∧ ((∃ b, b ∈ bs ∧ (Z.of_nat m = s_line b ∨ Z.of_nat m = s_line b + 1))
          → e = TruncatedSubmission).
Proof.
  revert i v bs. induction n as [|n IH]; intros i v bs H Hbs Hnn Hlt.
  - cbn in H. inv_result.
    assert (bs = []) as -> by (by eapply app_inv_head; rewrite app_nil_r).
    unfold requiredLines, sumZ in Hlt. cbn in Hlt. lia.
  - cbn [scheduleIntersections] in *. inv_result. rename a into v1.
    pose proof Ha as (b & Hb & Hline & _ & _ & Hcur & _)%scheduleIntersection_log.
    pose proof H as (bs' & Hbs' & _)%scheduleIntersections_log.
    rewrite Hbs', Hb, <- app_assoc in Hbs. apply app_inv_head in Hbs as <-.
    apply Forall_cons in Hnn as [Hb0 Hnn].
    destruct (scheduleIntersections_lines _ _ _ _ _ _ _ H Hbs' Hnn)
      as [Hend Hpos].
    unfold requiredLines, sumZ in Hlt. cbn in Hlt.
    fold (sumZ ((λ b, s_declared b + 2) <$> bs')) in Hlt.
    fold (requiredLines bs') in Hlt.
    destruct (Z.le_gt_cases (Z.of_nat m) (currentLine v + i + 1)) as [Hcut|Hcut].
    { exists TruncatedSubmission.
      rewrite scheduleIntersection_no_count by done. done. }
    destruct (Z.lt_ge_cases (Z.of_nat m) (currentLine v1 + i + 1)) as [Hmid|Hpast].
    { exists TypeError.
      rewrite (scheduleIntersection_short _ _ _ _ _ _ Ha) by lia.
      split; [done|].
      intros (b' & [->|Hin]%elem_of_cons & Hm); [lia|].
      specialize (Hpos _ Hin). lia. }
    rewrite (scheduleIntersection_cut _ _ _ _ _ _ Ha) by lia. cbn.
    destruct (IH _ _ _ H Hbs' Hnn) as (e & He & Hhead); [lia|].
    exists e. split; [done|].
    intros (b' & [->|Hin]%elem_of_cons & Hm); [lia|].
    apply Hhead. by exists b'.
Qed.

Lemma tail_take {A} (l : list A) (m : nat) :
  tail (take (S m) l) = take m (tail l).
Proof. destruct l; [by destruct m|done]. Qed.

Lemma head_take {A} (l : list A) (m : nat) : head (take (S m) l) = head l.
Proof. by destruct l. Qed.

(** Where the validator does notice the end of the file.  Take a submission
    that validation accepts, in which no declared street count is negative,
    and let the lines of another text be its first line and the [m] lines
    after it, fewer than its intersections occupy (so the cut takes the line
    feed of the last line kept as well): validation of that text fails, so
    that [evaluate] fails with the same error and the engine is not run; the
    error is [TruncatedSubmission] when the first missing line is the
    identifier or the count line of an intersection. *)
Theorem truncated_submission_rejected (inp : Input) (d d' : Dataset)
    (data data' : string) (avg : Averages) (log : list Scheduled) (m : nat) :
  parseInputDataSet inp = Ok d →
  parseSubmittedDataSet d data = Ok (d', avg, log) →
  Forall (λ b, 0 ≤ s_declared b) log →
  JS.split "010" data' = take (S m) (JS.split "010" data) →
  Z.of_nat m < requiredLines log →
  ∃ e, parseSubmittedDataSet d data' = Throw e
       ∧ evaluate inp data' = Throw e
       ∧ ((∃ b, b ∈ log
                ∧ (Z.of_nat m = s_line b ∨ Z.of_nat m = s_line b + 1))
          → e = TruncatedSubmission).
Proof.
  intros Hinp H Hnn Hsplit Hlt.
  unfold evaluate, parseSubmittedDataSet, parseSubmittedLines in *.
  rewrite Hinp. cbn. rewrite Hsplit, head_take, tail_take.
  inv_result. rename a into v.
  destruct (scheduleIntersections_truncated _ _ m _ _ _ _ _ Ha eq_refl Hnn)
    as (e & He & Hhead); [cbn; lia|].
  exists e. rewrite He. done.
Qed.

Lemma truncated_submission_rejected_witness :
  ∃ d e,
    parseInputDataSet Sample.input = Ok d
    ∧ JS.split "010" Sample.cutAtCount
      = take 5 (JS.split "010" Sample.submission)
    ∧ parseSubmittedDataSet d Sample.cutAtCount = Throw e
    ∧ evaluate Sample.input Sample.cutAtCount = Throw e
    ∧ e = TruncatedSubmission.
Proof.
  destruct (parseInputDataSet Sample.input) as [d|e] eqn:Hinp;
    [|vm_compute in Hinp; discriminate].
  destruct (parseSubmittedDataSet d Sample.submission)
    as [[[d' avg] log]|e] eqn:H.
  2:{ vm_compute in Hinp. injection Hinp as <-. vm_compute in H.
      discriminate. }
  assert (log = [ {| s_line := 0; s_intersectionId := "1"; s_declared := 1;
                     s_entries := [("a", 1)] |};
                  {| s_line := 3; s_intersectionId := "2"; s_declared := 1;
                     s_entries := [("b", 2)] |} ]) as Hlog.
  { pose proof H as H'. vm_compute in Hinp. injection Hinp as <-.
    vm_compute in H'. injection H' as _ _ <-. reflexivity. }
  destruct (truncated_submission_rejected Sample.input d d'
              Sample.submission Sample.cutAtCount avg log 4 Hinp H)
    as (e & He & Hev & Hhead).
  - rewrite Hlog. repeat constructor; discriminate.
  - reflexivity.
  - rewrite Hlog. reflexivity.
  - exists d, e. split; [reflexivity|]. split; [reflexivity|].
    split; [exact He|]. split; [exact Hev|].
    apply Hhead. rewrite Hlog. eexists. split; [right; left|].
    right. reflexivity.
Defined.

(** [Sample.cutAtStreet] is the sample submission without its last street
    line: both files fail on it with a [TypeError] ([parseLine(undefined)]),
    not with the error of a truncated file.  When an entry before the
    missing line is invalid, its error comes first. *)
Lemma truncated_submission_other_errors :
  JS.split "010" Sample.cutAtStreet
  = take 6 (JS.split "010" Sample.submission)
  ∧ parseSubmittedDataSet Sample.ticketParsed Sample.cutAtStreet
    = Throw TypeError
  ∧ evaluate Sample.input Sample.cutAtStreet = Throw TypeError
  ∧ Fifo.evaluate Sample.input Sample.cutAtStreet = Throw TypeError
  ∧ evaluate Sample.input Sample.cutAfterBadDuration
    = Throw GreenDurationOutOfRange
  ∧ Fifo.evaluate Sample.input Sample.cutAfterBadDuration
    = Throw GreenDurationOutOfRange.
Proof. repeat split; vm_compute; reflexivity. Qed.

(** C9 fails on the code.  [Sample.cutKeepingLineFeed] is the sample
    submission cut after the identifier of its second intersection, the
    line feed after the identifier kept: four lines follow its first line
    and an empty text, where the two intersections that it declares occupy
    six lines.  The test for the end of the file looks for a missing count
    line only; here the count line is the empty text, which both files read
    as the count [0]: they accept the submission with no street scheduled
    at intersection 2 and run the engine, which reports one arrived car. *)
Theorem truncated_submission_accepted :
  JS.split "010" Sample.cutKeepingLineFeed
  = take 5 (JS.split "010" Sample.submission) ++ [""]
  ∧ requiredLines Sample.ticketLog = 6
  ∧ (∃ d avg,
       parseSubmittedDataSet Sample.ticketParsed Sample.cutKeepingLineFeed
       = Ok (d, avg,
             [ {| s_line := 0; s_intersectionId := "1"; s_declared := 1;
                  s_entries := [("a", 1)] |};
               {| s_line := 3; s_intersectionId := "2"; s_declared := 0;
                  s_entries := [] |} ]))
  ∧ finalCars Sample.input Sample.cutKeepingLineFeed
    = Ok [Build_CarView false 0 0; Build_CarView true 1003 3]
  ∧ Fifo.finalCars Sample.input Sample.cutKeepingLineFeed
    = Ok [Build_CarView false 0 0; Build_CarView true 1003 3]
  ∧ (∃ ins, evaluate Sample.input Sample.cutKeepingLineFeed = Ok ins
            ∧ i_score ins = 1003)
  ∧ (∃ ins, Fifo.evaluate Sample.input Sample.cutKeepingLineFeed = Ok ins
            ∧ i_score ins = 1003).
Proof.
  split; [vm_compute; reflexivity|]. split; [vm_compute; reflexivity|].
  split.
  { destruct (parseSubmittedDataSet Sample.ticketParsed
                Sample.cutKeepingLineFeed) as [[[d avg] log]|e] eqn:H;
      [|vm_compute in H; discriminate].
    exists d, avg. f_equal. f_equal.
    vm_compute in H. injection H as _ _ <-. reflexivity. }
  split; [vm_compute; reflexivity|]. split; [vm_compute; reflexivity|].
  split.
  - destruct (evaluate Sample.input Sample.cutKeepingLineFeed)
      as [ins|e] eqn:H; [|vm_compute in H; discriminate].
    exists ins. split; [reflexivity|].
    vm_compute in H. injection H as <-. reflexivity.
  - destruct (Fifo.evaluate Sample.input Sample.cutKeepingLineFeed)
      as [ins|e] eqn:H; [|vm_compute in H; discriminate].
    exists ins. split; [reflexivity|].
    vm_compute in H. injection H as <-. reflexivity.
Qed.

End TicketFacts.

(** ** [src/index.js]: the engine *)

Module FifoFacts.
Import Fifo.

Section Engine.
Variable sch : gmap string IntersectionSchedule.

Lemma fifo_register_cases t i car streets streets1 ev1 :
  register t i car streets = Ok (streets1, ev1) →
  (Car.remainingTimeOnStreet car = 1
   ∧ Car.currentStreetIdx car < Car.numStreets car - 1
   ∧ ∃ name st,
       JS.nth (Car.streetNames car) (Car.currentStreetIdx car) = Some name
       ∧ streets !! name = Some st
       ∧ streets1 = <[name := Street.set_carIdQueue
                                 (Street.carIdQueue st ++ [i]) st]> streets
       ∧ ev1 = [Register t name i])
  ∨ (¬ (Car.remainingTimeOnStreet car = 1
        ∧ Car.currentStreetIdx car < Car.numStreets car - 1)
     ∧ streets1 = streets ∧ ev1 = []).
Proof.
  unfold register. intros H.
  destruct (Z.eqb_spec (Car.remainingTimeOnStreet car) 1) as [H1|H1];
    destruct (Z.ltb_spec (Car.currentStreetIdx car) (Car.numStreets car - 1))
      as [H2|H2]; cbn [andb] in H; inv_result.
  - left. do 2 (split; [done|]). exists a, a0. done.
  - right. split; [lia|done].
  - right. split; [lia|done].
  - right. split; [lia|done].
Qed.

(** The outcomes of one visit of a car, read off [carStep]. *)
Lemma fifo_carStep_cases R t i d x d' x' ev :
  carStep sch R t i (d, x) = Ok (d', x', ev) →
  ∃ car, cars d !! i = Some car ∧
    ((Car.arrived car = true ∧ d' = d ∧ x' = x ∧ ev = [])
     ∨ (Car.arrived car = false ∧
        ∃ streets1 ev1,
          register t i car (streets d) = Ok (streets1, ev1) ∧
          let car2 := decrement car in
          ((Car.remainingTimeOnStreet car2 ≠ 0 ∧
            d' = put i car2 streets1 d ∧ x' = x ∧ ev = ev1)
           ∨ (Car.remainingTimeOnStreet car2 = 0 ∧
              Car.currentStreetIdx car2 = Car.numStreets car2 - 1 ∧
              d' = put i (Car.set_arrived
                            (Simulation.bonusPoint (simulation d) + R) t car2)
                       streets1 d ∧
              x' = x ∧ ev = ev1 ++ [Arrive t i])
           ∨ (Car.remainingTimeOnStreet car2 = 0 ∧
              Car.currentStreetIdx car2 ≠ Car.numStreets car2 - 1 ∧
              R = 0 ∧ d' = put i car2 streets1 d ∧ x' = x ∧ ev = ev1)
           ∨ (Car.remainingTimeOnStreet car2 = 0 ∧
              Car.currentStreetIdx car2 ≠ Car.numStreets car2 - 1 ∧
              R ≠ 0 ∧
              ∃ name st,
                JS.nth (Car.streetNames car2) (Car.currentStreetIdx car2)
                  = Some name ∧
                streets1 !! name = Some st ∧
                (isTrafficLightGreen sch t name st = false ∨ name ∈ x ∨
                 head (Street.carIdQueue st) ≠ Some i) ∧
                d' = put i car2 streets1 d ∧ x' = x ∧ ev = ev1)
           ∨ (Car.remainingTimeOnStreet car2 = 0 ∧
              Car.currentStreetIdx car2 ≠ Car.numStreets car2 - 1 ∧
              R ≠ 0 ∧
              ∃ name st next nst,
                JS.nth (Car.streetNames car2) (Car.currentStreetIdx car2)
                  = Some name ∧
                streets1 !! name = Some st ∧
                isTrafficLightGreen sch t name st = true ∧ (name ∉ x) ∧
                head (Street.carIdQueue st) = Some i ∧
                JS.nth (Car.streetNames car2) (Car.currentStreetIdx car2 + 1)
                  = Some next ∧
                (<[name := Street.set_carIdQueue
                             (tail (Street.carIdQueue st)) st]> streets1)
                  !! next = Some nst ∧
                d' = put i (Car.advance (Street.duration nst) car2)
                       (<[name := Street.set_carIdQueue
                                    (tail (Street.carIdQueue st)) st]>
                          streets1) d ∧
                x' = {[name]} ∪ x ∧
                ev = ev1 ++ [Cross t name i])))).
Proof.
  unfold carStep, resolve. intros H. inv_result.
  exists a. split; [done|].
  destruct (Car.arrived a) eqn:Harr.
  { left. inv_result. done. }
  right. split; [done|]. inv_result.
  destruct a0 as [streets1 ev1].
  exists streets1, ev1. split; [done|]. cbn zeta.
  destruct (Z.eqb_spec (Car.remainingTimeOnStreet (decrement a)) 0) as [Hrem|Hrem];
    cbn [negb] in H.
  2:{ inv_result. left. done. }
  right.
  destruct (Z.eqb_spec (Car.currentStreetIdx (decrement a))
              (Car.numStreets (decrement a) - 1)) as [Hidx|Hidx].
  { inv_result. left. done. }
  right.
  destruct (Z.eqb_spec R 0) as [HR|HR].
  { inv_result. left. done. }
  right. inv_result.
  rename a0 into name, a1 into st.
  destruct (isTrafficLightGreen sch t name st) eqn:Hgreen; cbn [negb orb] in H.
  2:{ inv_result. left. do 3 (split; [done|]). exists name, st.
      do 2 (split; [done|]). split; [by left|done]. }
  case_bool_decide as Hx; cbn [orb] in H.
  { inv_result. left. do 3 (split; [done|]). exists name, st.
    do 2 (split; [done|]). split; [by right; left|done]. }
  case_bool_decide as Hq; cbn [negb] in H.
  2:{ inv_result. left. do 3 (split; [done|]). exists name, st.
      do 2 (split; [done|]). split; [by right; right|done]. }
  inv_result. right. do 3 (split; [done|]).
  exists name, st, a0, a1. done.
Qed.

Ltac fifo_step_cases H :=
  apply fifo_carStep_cases in H;
  let car := fresh "car" in
  let Hcar := fresh "Hcar" in
  let Harr := fresh "Harr" in
  let streets1 := fresh "streets1" in
  let ev1 := fresh "ev1" in
  let Hreg := fresh "Hreg" in
  let Hrem := fresh "Hrem" in
  let Hidx := fresh "Hidx" in
  let HR := fresh "HR" in
  let name := fresh "name" in
  let Hname := fresh "Hname" in
  let st := fresh "st" in
  let Hst := fresh "Hst" in
  let Hblk := fresh "Hblk" in
  let next := fresh "next" in
  let nst := fresh "nst" in
  let Hgreen := fresh "Hgreen" in
  let Hx := fresh "Hx" in
  let Hq := fresh "Hq" in
  let Hnext := fresh "Hnext" in
  let Hnst := fresh "Hnst" in
  destruct H as (car & Hcar &
    [(Harr & -> & -> & ->) | (Harr & streets1 & ev1 & Hreg & H)]);
  [| cbn zeta in H;
     destruct H as
       [(Hrem & -> & -> & ->)
       |[(Hrem & Hidx & -> & -> & ->)
        |[(Hrem & Hidx & HR & -> & -> & ->)
         |[(Hrem & Hidx & HR & name & st & Hname & Hst & Hblk & -> & -> & ->)
          |(Hrem & Hidx & HR & name & st & next & nst & Hname & Hst & Hgreen
            & Hx & Hq & Hnext & Hnst & -> & -> & ->)]]]]].

Lemma fifo_processCars_cons R t i order s s'' ev :
  processCars sch R t (i :: order) s = Ok (s'', ev) →
  ∃ s' ev1 ev2, carStep sch R t i s = Ok (s', ev1)
                ∧ processCars sch R t order s' = Ok (s'', ev2)
                ∧ ev = ev1 ++ ev2.
Proof.
  cbn [processCars]. intros H. inv_result.
  destruct a as [s' ev1]. inv_result. destruct a as [s3 ev2]. inv_result.
  exists s', ev1, ev2. done.
Qed.

Lemma fifo_loopIn_succ order n R t d d'' ev :
  loopIn sch order (S n) R t d = Ok (d'', ev) →
  ∃ d' x ev1 ev2, tickIn sch (order t d) (R - 1) t d = Ok (d', x, ev1)
                  ∧ loopIn sch order n (R - 1) (t + 1) d' = Ok (d'', ev2)
                  ∧ ev = ev1 ++ ev2.
Proof.
  cbn [loopIn]. intros H. inv_result.
  destruct a as [[d' x] ev1]. inv_result. destruct a as [d3 ev2]. inv_result.
  exists d', x, ev1, ev2. done.
Qed.

(** What every visit of a car preserves, the tick and the loop preserve. *)
Section Preservation.
Variable P : Dataset → Prop.
Hypothesis P_step : ∀ R t i d x d' x' ev,
  carStep sch R t i (d, x) = Ok (d', x', ev) → P d → P d'.

Lemma fifo_processCars_preserves R t order d x d' x' ev :
  processCars sch R t order (d, x) = Ok (d', x', ev) → P d → P d'.
Proof.
  revert d x ev. induction order as [|i order IH]; intros d x ev H HP.
  - cbn in H. inv_result. done.
  - apply fifo_processCars_cons in H as ([d1 x1] & ev1 & ev2 & H1 & H2 & ->).
    eauto.
Qed.

Lemma fifo_loopIn_preserves order n R t d d' ev :
  loopIn sch order n R t d = Ok (d', ev) → P d → P d'.
Proof.
  revert R t d ev. induction n as [|n IH]; intros R t d ev H HP.
  - cbn in H. inv_result. done.
  - apply fifo_loopIn_succ in H as (d1 & x & ev1 & ev2 & H1 & H2 & ->).
    eapply IH; [done|]. eapply fifo_processCars_preserves; done.
Qed.
End Preservation.

Lemma fifo_decrement_inRange c : carInRange c → carInRange (decrement c).
Proof.
  unfold decrement, carInRange.
  destruct (Z.ltb_spec 0 (Car.remainingTimeOnStreet c)); cbn; lia.
Qed.

Lemma fifo_decrement_arrived c : Car.arrived (decrement c) = Car.arrived c.
Proof. unfold decrement. by case_match. Qed.

Lemma fifo_register_durations t i car streets streets1 ev1 :
  register t i car streets = Ok (streets1, ev1) →
  map_Forall (λ _ st, 0 ≤ Street.duration st) streets →
  map_Forall (λ _ st, 0 ≤ Street.duration st) streets1.
Proof.
  intros H Hs.
  apply fifo_register_cases in H
    as [(_ & _ & name & st & _ & Hst & -> & _)|(_ & -> & _)]; [|done].
  apply map_Forall_insert_2; [|done]. cbn. by apply (Hs _ _ Hst).
Qed.

Lemma fifo_carStep_wellFormed R t i d x d' x' ev :
  carStep sch R t i (d, x) = Ok (d', x', ev) → wellFormed d → wellFormed d'.
Proof.
  intros H [Hcars Hstreets]. fifo_step_cases H; [done|..];
    pose proof (fifo_register_durations _ _ _ _ _ _ Hreg Hstreets) as Hs1;
    assert (carInRange (decrement car)) as Hc2
      by (apply fifo_decrement_inRange; by eapply Forall_lookup_1).
  - split; [by apply Forall_insert|done].
  - split; [by apply Forall_insert|done].
  - split; [by apply Forall_insert|done].
  - split; [by apply Forall_insert|done].
  - assert (map_Forall (λ _ st, 0 ≤ Street.duration st)
              (<[name := Street.set_carIdQueue
                           (tail (Street.carIdQueue st)) st]> streets1))
      as Hs2.
    { apply map_Forall_insert_2; [|done]. cbn. by apply (Hs1 _ _ Hst). }
    split; [|done]. apply Forall_insert; [done|].
    destruct Hc2 as [Hi Hr]. split; cbn; [lia|].
    by apply (Hs2 _ _ Hnst).
Qed.

Lemma fifo_carStep_other R t i d x d' x' ev j :
  carStep sch R t i (d, x) = Ok (d', x', ev) → j ≠ i →
  cars d' !! j = cars d !! j.
Proof.
  intros H Hj. fifo_step_cases H; [done|..]; cbn;
    by apply list_lookup_insert_ne.
Qed.

Lemma fifo_carStep_frozen j c R t i d x d' x' ev :
  carStep sch R t i (d, x) = Ok (d', x', ev) →
  cars d !! j = Some c ∧ Car.arrived c = true →
  cars d' !! j = Some c ∧ Car.arrived c = true.
Proof.
  intros H [Hc Harr]. split; [|done].
  destruct (decide (j = i)) as [->|Hj].
  - fifo_step_cases H; [done|congruence..].
  - by rewrite (fifo_carStep_other _ _ _ _ _ _ _ _ _ H Hj).
Qed.

Lemma fifo_carStep_simulation R t i d x d' x' ev :
  carStep sch R t i (d, x) = Ok (d', x', ev) → simulation d' = simulation d.
Proof. intros H. fifo_step_cases H; done. Qed.

Lemma fifo_loopIn_simulation order n R t d d' ev :
  loopIn sch order n R t d = Ok (d', ev) → simulation d' = simulation d.
Proof.
  intros H.
  apply (fifo_loopIn_preserves (λ d1, simulation d1 = simulation d))
    with (order := order) (n := n) (R := R) (t := t) (d := d) (ev := ev);
    [|done..].
  intros R' t' i' d1 x1 d2 x2 ev' Hs <-. by eapply fifo_carStep_simulation.
Qed.

Lemma fifo_loopIn_add order n m R t d d'' ev :
  loopIn sch order (n + m) R t d = Ok (d'', ev) →
  ∃ d' ev1 ev2, loopIn sch order n R t d = Ok (d', ev1)
                ∧ loopIn sch order m (R - Z.of_nat n) (t + Z.of_nat n) d'
                  = Ok (d'', ev2)
                ∧ ev = ev1 ++ ev2.
Proof.
  revert R t d ev. induction n as [|n IH]; intros R t d ev H.
  - exists d, [], ev. cbn [loopIn]. split; [done|].
    replace (R - Z.of_nat 0) with R by lia.
    replace (t + Z.of_nat 0) with t by lia. done.
  - cbn [Nat.add] in H.
    apply fifo_loopIn_succ in H as (d1 & x & ev1 & ev2 & H1 & H2 & ->).
    apply IH in H2 as (d2 & ev3 & ev4 & H3 & H4 & ->).
    exists d2, (ev1 ++ ev3), ev4. split; [|split].
    + cbn [loopIn]. rewrite H1. cbn. rewrite H3. done.
    + replace (R - Z.of_nat (S n)) with (R - 1 - Z.of_nat n) by lia.
      replace (t + Z.of_nat (S n)) with (t + 1 + Z.of_nat n) by lia. done.
    + by rewrite app_assoc.
Qed.

Lemma fifo_loopIn_wellFormed order n R t d d' ev :
  loopIn sch order n R t d = Ok (d', ev) → wellFormed d → wellFormed d'.
Proof.
  apply (fifo_loopIn_preserves wellFormed). intros R' t' i' d1 x1 d2 x2 ev'.
  apply fifo_carStep_wellFormed.
Qed.

Lemma fifo_loopIn_frozen j c order n R t d d' ev :
  loopIn sch order n R t d = Ok (d', ev) →
  cars d !! j = Some c → Car.arrived c = true → cars d' !! j = Some c.
Proof.
  intros H Hc Harr.
  apply (fifo_loopIn_preserves
           (λ d1, cars d1 !! j = Some c ∧ Car.arrived c = true))
    with (order := order) (n := n) (R := R) (t := t) (d := d) (ev := ev);
    [|done..].
  intros R' t' i' d1 x1 d2 x2 ev'. apply fifo_carStep_frozen.
Qed.

Lemma fifo_register_events t i car streets streets1 ev1 :
  register t i car streets = Ok (streets1, ev1) →
  ev1 = [] ∨ ∃ name, ev1 = [Register t name i].
Proof.
  intros H.
  apply fifo_register_cases in H
    as [(_ & _ & name & st & _ & _ & _ & ->)|(_ & _ & ->)];
    [right; by exists name|by left].
Qed.

Lemma fifo_register_no_arrival t i car streets streets1 ev1 t' j :
  register t i car streets = Ok (streets1, ev1) → Arrive t' j ∉ ev1.
Proof.
  intros H Hin.
  destruct (fifo_register_events _ _ _ _ _ _ H) as [->|[name ->]].
  - by apply not_elem_of_nil in Hin.
  - by apply list_elem_of_singleton in Hin.
Qed.

Lemma fifo_carStep_arrival R t i d x d' x' ev t' j :
  carStep sch R t i (d, x) = Ok (d', x', ev) → Arrive t' j ∈ ev →
  t' = t ∧ ∃ c, cars d' !! j = Some c ∧ Car.arrived c = true
                ∧ Car.commuteTime c = t
                ∧ Car.score c = Simulation.bonusPoint (simulation d) + R.
Proof.
  intros H Hin. fifo_step_cases H; [by apply not_elem_of_nil in Hin|..];
    pose proof (fifo_register_no_arrival _ _ _ _ _ _ t' j Hreg) as Hno;
    try (rewrite elem_of_app in Hin; destruct Hin as [Hin|Hin]);
    try done;
    try (apply list_elem_of_singleton in Hin; discriminate Hin).
  apply list_elem_of_singleton in Hin. injection Hin as -> ->.
  split; [done|]. eexists. split.
  - cbn. apply list_lookup_insert_eq. by eapply lookup_lt_Some.
  - done.
Qed.

Lemma fifo_processCars_arrival R t order d x d' x' ev t' j :
  processCars sch R t order (d, x) = Ok (d', x', ev) → Arrive t' j ∈ ev →
  t' = t ∧ ∃ c, cars d' !! j = Some c ∧ Car.arrived c = true
                ∧ Car.commuteTime c = t
                ∧ Car.score c = Simulation.bonusPoint (simulation d) + R.
Proof.
  revert d x ev. induction order as [|i order IH]; intros d x ev H Hin.
  - cbn in H. inv_result. by apply not_elem_of_nil in Hin.
  - apply fifo_processCars_cons in H as ([d1 x1] & ev1 & ev2 & H1 & H2 & ->).
    apply elem_of_app in Hin as [Hin|Hin].
    + destruct (fifo_carStep_arrival _ _ _ _ _ _ _ _ _ _ H1 Hin)
        as (-> & c & Hc & Harr & Hct & Hsc).
      split; [done|]. exists c. split; [|done].
      apply (fifo_processCars_preserves
               (λ d2, cars d2 !! j = Some c ∧ Car.arrived c = true))
        with (R := R) (t := t) (order := order) (d := d1) (x := x1)
             (x' := x') (ev := ev2); [|done..].
      intros R' t'' i' d3 x3 d4 x4 ev'. apply fifo_carStep_frozen.
    + rewrite <- (fifo_carStep_simulation _ _ _ _ _ _ _ _ H1). by eapply IH.
Qed.

Lemma fifo_loopIn_arrival order n R t d d' ev t' j :
  loopIn sch order n R t d = Ok (d', ev) → Arrive t' j ∈ ev →
  t ≤ t' < t + Z.of_nat n
  ∧ ∃ c, cars d' !! j = Some c ∧ Car.arrived c = true
         ∧ Car.commuteTime c = t'
         ∧ Car.score c
           = Simulation.bonusPoint (simulation d) + (R - 1 - (t' - t)).
Proof.
  revert R t d ev. induction n as [|n IH]; intros R t d ev H Hin.
  - cbn in H. inv_result. by apply not_elem_of_nil in Hin.
  - apply fifo_loopIn_succ in H as (d1 & x & ev1 & ev2 & H1 & H2 & ->).
    apply elem_of_app in Hin as [Hin|Hin].
    + destruct (fifo_processCars_arrival _ _ _ _ _ _ _ _ _ _ H1 Hin)
        as (-> & c & Hc & Harr & Hct & Hsc).
      split; [lia|]. exists c.
      split; [by eapply fifo_loopIn_frozen|].
      do 2 (split; [done|]). rewrite Hsc. lia.
    + destruct (IH _ _ _ _ H2 Hin) as (Ht & c & Hc & Harr & Hct & Hsc).
      split; [lia|]. exists c. do 3 (split; [done|]). rewrite Hsc.
      replace (simulation d1) with (simulation d); [lia|].
      symmetry.
      apply (fifo_processCars_preserves (λ d2, simulation d2 = simulation d))
        with (R := R - 1) (t := t) (order := order t d) (d := d) (x := ∅)
             (x' := x) (ev := ev1); [|done..].
      intros R' t'' i' d3 x3 d4 x4 ev' Hs <-.
      by eapply fifo_carStep_simulation.
Qed.

Lemma fifo_carStep_arrived_source R t i d x d' x' ev j c :
  carStep sch R t i (d, x) = Ok (d', x', ev) →
  cars d' !! j = Some c → Car.arrived c = true →
  cars d !! j = Some c ∨ Arrive (Car.commuteTime c) j ∈ ev.
Proof.
  intros H Hc Harr'.
  destruct (decide (j = i)) as [->|Hj].
  2:{ left. by rewrite <- (fifo_carStep_other _ _ _ _ _ _ _ _ _ H Hj). }
  fifo_step_cases H; [by left|..]; cbn in Hc;
    rewrite list_lookup_insert_eq in Hc by (by eapply lookup_lt_Some);
    injection Hc as <-;
    try (rewrite fifo_decrement_arrived, Harr in Harr'; done).
  - right. cbn. apply elem_of_app. right. by apply list_elem_of_singleton.
  - cbn in Harr'. rewrite fifo_decrement_arrived, Harr in Harr'. done.
Qed.

Lemma fifo_processCars_arrived_source R t order d x d' x' ev j c :
  processCars sch R t order (d, x) = Ok (d', x', ev) →
  cars d' !! j = Some c → Car.arrived c = true →
  cars d !! j = Some c ∨ Arrive (Car.commuteTime c) j ∈ ev.
Proof.
  revert d x ev. induction order as [|i order IH]; intros d x ev H Hc Harr.
  - cbn in H. inv_result. by left.
  - apply fifo_processCars_cons in H as ([d1 x1] & ev1 & ev2 & H1 & H2 & ->).
    destruct (IH _ _ _ H2 Hc Harr) as [Hc1|Hin];
      [|right; apply elem_of_app; by right].
    destruct (fifo_carStep_arrived_source _ _ _ _ _ _ _ _ _ _ H1 Hc1 Harr);
      [by left|right; apply elem_of_app; by left].
Qed.

Lemma fifo_loopIn_arrived_source order n R t d d' ev j c :
  loopIn sch order n R t d = Ok (d', ev) →
  cars d' !! j = Some c → Car.arrived c = true →
  cars d !! j = Some c ∨ Arrive (Car.commuteTime c) j ∈ ev.
Proof.
  revert R t d ev. induction n as [|n IH]; intros R t d ev H Hc Harr.
  - cbn in H. inv_result. by left.
  - apply fifo_loopIn_succ in H as (d1 & x & ev1 & ev2 & H1 & H2 & ->).
    destruct (IH _ _ _ _ H2 Hc Harr) as [Hc1|Hin];
      [|right; apply elem_of_app; by right].
    destruct (fifo_processCars_arrived_source _ _ _ _ _ _ _ _ _ _ H1 Hc1 Harr);
      [by left|right; apply elem_of_app; by left].
Qed.

(** The arrivals of [index.js] (the counterpart of C1): a car arrives on tick [t] exactly when the
    run leaves it arrived with [commuteTime = t]; that tick lies in
    [[0, duration]] and the score is
    [bonusPoint + (duration - commuteTime)]. *)
Theorem fifo_arrival_commute_time_and_score (d d' : Dataset)
    (ev : list event) :
  Forall (λ c, Car.arrived c = false) (cars d) →
  simulate sch d = Ok (d', ev) →
  let duration := Simulation.duration (simulation d) in
  let bonusPoint := Simulation.bonusPoint (simulation d) in
  (∀ t i, Arrive t i ∈ ev →
     ∃ c, cars d' !! i = Some c ∧ Car.arrived c = true
          ∧ Car.commuteTime c = t ∧ 0 ≤ t ≤ duration
          ∧ Car.score c = bonusPoint + (duration - Car.commuteTime c))
  ∧ (∀ i c, cars d' !! i = Some c → Car.arrived c = true →
       Arrive (Car.commuteTime c) i ∈ ev).
Proof.
  intros Hinit H duration bonusPoint. unfold simulate, simulateIn in H.
  fold duration in H. split.
  - intros t i Hin.
    destruct (fifo_loopIn_arrival _ _ _ _ _ _ _ _ _ H Hin)
      as (Ht & c & Hc & Harr & Hct & Hsc).
    exists c. do 3 (split; [done|]). split; [lia|].
    rewrite Hsc, Hct. fold bonusPoint. lia.
  - intros i c Hc Harr.
    destruct (fifo_loopIn_arrived_source _ _ _ _ _ _ _ _ _ H Hc Harr)
      as [Hc0|Hin]; [|done].
    rewrite Forall_lookup in Hinit. specialize (Hinit _ _ Hc0). congruence.
Qed.

(** The range of the car fields in [index.js] (the counterpart of C10):
    at every tick every car has
    its route index within its route and a non-negative time left, and a car
    that is arrived after [n] ticks is the very same record after [n + m]
    ticks. *)
Theorem fifo_range_and_frozen_arrivals (d d' : Dataset) (ev : list event)
    (n m : nat) :
  wellFormed d →
  simulate sch d = Ok (d', ev) →
  (n + m ≤ Z.to_nat (Simulation.duration (simulation d) + 1))%nat →
  let R := Simulation.duration (simulation d) + 1 in
  ∃ dn evn dm evm,
    loop sch n R 0 d = Ok (dn, evn)
    ∧ loop sch (n + m) R 0 d = Ok (dm, evm)
    ∧ Forall carInRange (cars dn)
    ∧ (∀ j c, cars dn !! j = Some c → Car.arrived c = true →
         cars dm !! j = Some c).
Proof.
  intros Hwf H Hle R. unfold simulate, simulateIn in H. fold R in H.
  replace (Z.to_nat R) with ((n + m) + (Z.to_nat R - (n + m)))%nat in H
    by (subst R; lia).
  apply fifo_loopIn_add in H as (dm & evm & ev2 & Hm & _ & _).
  pose proof Hm as Hm'.
  apply fifo_loopIn_add in Hm' as (dn & evn & ev3 & Hn & Hnm & _).
  exists dn, evn, dm, evm. do 2 (split; [done|]). split.
  - by destruct (fifo_loopIn_wellFormed _ _ _ _ _ _ _ Hn Hwf).
  - intros j c Hc Harr. by eapply fifo_loopIn_frozen.
Qed.

(** *** Crossings: the light *)

Lemma fifo_isTrafficLightGreen_spec t s st :
  isTrafficLightGreen sch t s st = true ↔
  ∃ isch gte lte w,
    sch !! JS.String (Street.end_ st) = Some isch
    ∧ windows isch !! s = Some (gte, lte)
    ∧ scheduledTimeWindow isch = Some w
    ∧ w ≠ 0 ∧ gte ≤ Z.rem t w ≤ lte.
Proof.
  unfold isTrafficLightGreen, JS.rem. split.
  - destruct (sch !! JS.String (Street.end_ st)) as [isch|] eqn:Hs; [|done].
    destruct (windows isch !! s) as [[gte lte]|] eqn:Hwin; [|done].
    destruct (scheduledTimeWindow isch) as [w|] eqn:Hc; cbn; [|done].
    destruct (Z.eqb_spec w 0) as [Hw|Hw]; cbn; [done|].
    rewrite andb_true_iff, !Z.leb_le. intros Hle.
    exists isch, gte, lte, w. done.
  - intros (isch & gte & lte & w & -> & -> & -> & Hw & Hle). cbn.
    destruct (Z.eqb_spec w 0) as [Hw0|Hw0]; [done|]. cbn.
    rewrite andb_true_iff, !Z.leb_le. done.
Qed.

Lemma fifo_isTrafficLightGreen_static t s st st' :
  static st = static st' →
  isTrafficLightGreen sch t s st = isTrafficLightGreen sch t s st'.
Proof.
  unfold static, isTrafficLightGreen. intros [= _ -> _]. done.
Qed.

Lemma fifo_register_static t i car streets streets1 ev1 s :
  register t i car streets = Ok (streets1, ev1) →
  static <$> streets1 !! s = static <$> streets !! s.
Proof.
  intros H.
  destruct (fifo_register_cases _ _ _ _ _ _ H)
    as [(_ & _ & name & st & _ & Hst & -> & _)|(_ & -> & _)]; [|done].
  destruct (decide (name = s)) as [<-|Hne].
  - rewrite lookup_insert_eq, Hst. done.
  - by rewrite lookup_insert_ne.
Qed.

Lemma fifo_carStep_static R t i d x d' x' ev s :
  carStep sch R t i (d, x) = Ok (d', x', ev) →
  static <$> streets d' !! s = static <$> streets d !! s.
Proof.
  intros H. fifo_step_cases H; [done|..]; cbn;
    try by eapply fifo_register_static.
  rewrite <- (fifo_register_static _ _ _ _ _ _ s Hreg).
  destruct (decide (name = s)) as [<-|Hne].
  - rewrite lookup_insert_eq, Hst. done.
  - by rewrite lookup_insert_ne.
Qed.

Lemma fifo_processCars_static R t order d x d' x' ev s :
  processCars sch R t order (d, x) = Ok (d', x', ev) →
  static <$> streets d' !! s = static <$> streets d !! s.
Proof.
  intros H.
  apply (fifo_processCars_preserves
           (λ d1, static <$> streets d1 !! s = static <$> streets d !! s))
    with (R := R) (t := t) (order := order) (d := d) (x := x) (x' := x')
         (ev := ev); [|done..].
  intros R' t' i' d1 x1 d2 x2 ev' Hs <-. by eapply fifo_carStep_static.
Qed.

Lemma fifo_static_green t (m m' : gmap string Street.t) s st :
  static <$> m !! s = static <$> m' !! s →
  m !! s = Some st → isTrafficLightGreen sch t s st = true →
  ∃ st', m' !! s = Some st' ∧ isTrafficLightGreen sch t s st' = true.
Proof.
  intros Hs Hst Hg. rewrite Hst in Hs. cbn in Hs.
  destruct (m' !! s) as [st'|]; [|done]. apply (inj Some) in Hs.
  exists st'. split; [done|].
  by rewrite <- (fifo_isTrafficLightGreen_static t s st st').
Qed.

Lemma fifo_register_no_crossing t i car streets streets1 ev1 t' s j :
  register t i car streets = Ok (streets1, ev1) → Cross t' s j ∉ ev1.
Proof.
  intros H Hin.
  destruct (fifo_register_events _ _ _ _ _ _ H) as [->|[name ->]].
  - by apply not_elem_of_nil in Hin.
  - by apply list_elem_of_singleton in Hin.
Qed.

Lemma fifo_carStep_crossing_green R t i d x d' x' ev t' s j :
  carStep sch R t i (d, x) = Ok (d', x', ev) → Cross t' s j ∈ ev →
  t' = t ∧ R ≠ 0 ∧ ∃ st, streets d !! s = Some st
                         ∧ isTrafficLightGreen sch t s st = true.
Proof.
  intros H Hin. fifo_step_cases H; [by apply not_elem_of_nil in Hin|..];
    pose proof (fifo_register_no_crossing _ _ _ _ _ _ t' s j Hreg) as Hno;
    try (rewrite elem_of_app in Hin; destruct Hin as [Hin|Hin]);
    try done;
    try (apply list_elem_of_singleton in Hin; discriminate Hin).
  apply list_elem_of_singleton in Hin. injection Hin as -> -> ->.
  do 2 (split; [done|]).
  eapply fifo_static_green; [|done..].
  by eapply fifo_register_static.
Qed.

Lemma fifo_processCars_crossing_green R t order d x d' x' ev t' s j :
  processCars sch R t order (d, x) = Ok (d', x', ev) → Cross t' s j ∈ ev →
  t' = t ∧ R ≠ 0 ∧ ∃ st, streets d !! s = Some st
                         ∧ isTrafficLightGreen sch t s st = true.
Proof.
  revert d x ev. induction order as [|i order IH]; intros d x ev H Hin.
  - cbn in H. inv_result. by apply not_elem_of_nil in Hin.
  - apply fifo_processCars_cons in H as ([d1 x1] & ev1 & ev2 & H1 & H2 & ->).
    apply elem_of_app in Hin as [Hin|Hin];
      [by eapply fifo_carStep_crossing_green|].
    destruct (IH _ _ _ H2 Hin) as (-> & HR & st & Hst & Hg).
    do 2 (split; [done|]).
    eapply fifo_static_green; [|done..]. by eapply fifo_carStep_static.
Qed.

Lemma fifo_loopIn_crossing_green order n R t d d' ev t' s j :
  loopIn sch order n R t d = Ok (d', ev) → Cross t' s j ∈ ev →
  t ≤ t' < t + Z.of_nat n ∧ R - 1 - (t' - t) ≠ 0
  ∧ ∃ st, streets d !! s = Some st ∧ isTrafficLightGreen sch t' s st = true.
Proof.
  revert R t d ev. induction n as [|n IH]; intros R t d ev H Hin.
  - cbn in H. inv_result. by apply not_elem_of_nil in Hin.
  - apply fifo_loopIn_succ in H as (d1 & x & ev1 & ev2 & H1 & H2 & ->).
    apply elem_of_app in Hin as [Hin|Hin].
    + destruct (fifo_processCars_crossing_green _ _ _ _ _ _ _ _ _ _ _ H1 Hin)
        as (-> & HR & st & Hst & Hg).
      split; [lia|]. split; [lia|]. by exists st.
    + destruct (IH _ _ _ _ H2 Hin) as (Ht & HR & st & Hst & Hg).
      split; [lia|]. split; [lia|].
      eapply fifo_static_green; [|done..]. by eapply fifo_processCars_static.
Qed.

(** The light in [index.js] (the counterpart of C2): a car crosses street [s] at tick [t] only if
    the intersection at the end of [s] has a schedule, found under the key
    that the number of the intersection converts to, with a window
    [[gte, lte]] for [s] and a cycle length [w], and [t % w] lies within the
    bounds; on a street without such a window no car ever crosses. *)
Theorem fifo_crossing_only_on_green (d d' : Dataset) (ev : list event) :
  simulate sch d = Ok (d', ev) →
  (∀ t s i, Cross t s i ∈ ev →
     0 ≤ t < Simulation.duration (simulation d)
     ∧ ∃ st isch gte lte w,
         streets d !! s = Some st
         ∧ sch !! JS.String (Street.end_ st) = Some isch
         ∧ windows isch !! s = Some (gte, lte)
         ∧ scheduledTimeWindow isch = Some w
         ∧ w ≠ 0 ∧ gte ≤ Z.rem t w ≤ lte
         ∧ (0 < w → gte ≤ t mod w ≤ lte))
  ∧ (∀ s, (∀ st isch, streets d !! s = Some st →
                      sch !! JS.String (Street.end_ st) = Some isch →
                      windows isch !! s = None) →
          ∀ t i, Cross t s i ∉ ev).
Proof.
  intros H. unfold simulate, simulateIn in H.
  assert (∀ t s i, Cross t s i ∈ ev →
     0 ≤ t < Simulation.duration (simulation d)
     ∧ ∃ st isch gte lte w,
         streets d !! s = Some st
         ∧ sch !! JS.String (Street.end_ st) = Some isch
         ∧ windows isch !! s = Some (gte, lte)
         ∧ scheduledTimeWindow isch = Some w
         ∧ w ≠ 0 ∧ gte ≤ Z.rem t w ≤ lte
         ∧ (0 < w → gte ≤ t mod w ≤ lte)) as Hmain.
  { intros t s i Hin.
    destruct (fifo_loopIn_crossing_green _ _ _ _ _ _ _ _ _ _ H Hin)
      as (Ht & HR & st & Hst & Hg).
    split; [lia|].
    apply fifo_isTrafficLightGreen_spec in Hg
      as (isch & gte & lte & w & Hsch & Hwin & Hw & Hw0 & Hle).
    exists st, isch, gte, lte, w. do 6 (split; [done|]).
    intros Hpos. rewrite <- Z.rem_mod_nonneg by lia. done. }
  split; [done|].
  intros s Hnone t i Hin.
  destruct (Hmain _ _ _ Hin)
    as (_ & st & isch & gte & lte & w & Hst & Hsch & Hwin & _).
  rewrite (Hnone _ _ Hst Hsch) in Hwin. done.
Qed.

(** *** Crossings: one per street and tick *)

Lemma fifo_crossedStreets_app ev1 ev2 :
  crossedStreets (ev1 ++ ev2) = crossedStreets ev1 ++ crossedStreets ev2.
Proof. apply omap_app. Qed.

Lemma fifo_crossedAt_app t ev1 ev2 :
  crossedAt t (ev1 ++ ev2) = crossedAt t ev1 ++ crossedAt t ev2.
Proof. apply omap_app. Qed.

Lemma fifo_register_observed t i car streets streets1 ev1 :
  register t i car streets = Ok (streets1, ev1) →
  crossedStreets ev1 = [] ∧ (∀ t', crossedAt t' ev1 = []).
Proof.
  intros H.
  destruct (fifo_register_events _ _ _ _ _ _ H) as [->|[name ->]]; done.
Qed.

Lemma fifo_carStep_marker R t i d x d' x' ev :
  carStep sch R t i (d, x) = Ok (d', x', ev) →
  (crossedStreets ev = [] ∧ x' = x)
  ∨ (∃ s, crossedStreets ev = [s] ∧ (s ∉ x) ∧ x' = {[s]} ∪ x).
Proof.
  intros H. fifo_step_cases H; [by left|..];
    destruct (fifo_register_observed _ _ _ _ _ _ Hreg) as (Hcs & _);
    rewrite ?fifo_crossedStreets_app, Hcs; [by left..|].
  right. eexists. done.
Qed.

Lemma fifo_carStep_crossedAt R t i d x d' x' ev t' :
  carStep sch R t i (d, x) = Ok (d', x', ev) →
  crossedAt t' ev = if decide (t' = t) then crossedStreets ev else [].
Proof.
  intros H. fifo_step_cases H; [by case_decide|..];
    destruct (fifo_register_observed _ _ _ _ _ _ Hreg) as (Hcs & Hat);
    rewrite ?fifo_crossedAt_app, ?fifo_crossedStreets_app, Hat, Hcs; cbn;
    [by case_decide..|].
  destruct (decide (t = t')), (decide (t' = t)); done || congruence.
Qed.

Lemma fifo_processCars_crossedAt R t order d x d' x' ev t' :
  processCars sch R t order (d, x) = Ok (d', x', ev) →
  crossedAt t' ev = if decide (t' = t) then crossedStreets ev else [].
Proof.
  revert d x ev. induction order as [|i order IH]; intros d x ev H.
  - cbn in H. inv_result. by case_decide.
  - apply fifo_processCars_cons in H as ([d1 x1] & ev1 & ev2 & H1 & H2 & ->).
    rewrite fifo_crossedAt_app, fifo_crossedStreets_app,
      (fifo_carStep_crossedAt _ _ _ _ _ _ _ _ _ H1), (IH _ _ _ H2).
    by case_decide.
Qed.

Lemma fifo_processCars_marker R t order d x d' x' ev :
  processCars sch R t order (d, x) = Ok (d', x', ev) →
  NoDup (crossedStreets ev)
  ∧ (∀ s, s ∈ crossedStreets ev → s ∉ x)
  ∧ (∀ s, s ∈ x' ↔ s ∈ x ∨ s ∈ crossedStreets ev).
Proof.
  revert d x ev. induction order as [|i order IH]; intros d x ev H.
  - cbn in H. inv_result. cbn. split; [constructor|]. split.
    + intros s Hs. by apply not_elem_of_nil in Hs.
    + intros s. split; [by left|]. intros [Hs|Hs]; [done|].
      by apply not_elem_of_nil in Hs.
  - apply fifo_processCars_cons in H as ([d1 x1] & ev1 & ev2 & H1 & H2 & ->).
    destruct (IH _ _ _ H2) as (Hnd & Hfresh & Hx').
    rewrite fifo_crossedStreets_app.
    destruct (fifo_carStep_marker _ _ _ _ _ _ _ _ H1)
      as [[-> ->]|(s0 & -> & Hs0 & ->)].
    + done.
    + cbn. split; [|split].
      * constructor; [|done]. intros Hin. apply (Hfresh _ Hin).
        apply elem_of_union. left. by apply elem_of_singleton.
      * intros s [->|Hin]%elem_of_cons; [done|].
        specialize (Hfresh _ Hin). intros Hs. apply Hfresh.
        apply elem_of_union. by right.
      * intros s. rewrite Hx', elem_of_cons, elem_of_union, elem_of_singleton.
        tauto.
Qed.

Lemma fifo_loopIn_crossedAt order n R t d d' ev t' :
  loopIn sch order n R t d = Ok (d', ev) →
  NoDup (crossedAt t' ev) ∧ (t' < t → crossedAt t' ev = []).
Proof.
  revert R t d ev. induction n as [|n IH]; intros R t d ev H.
  - cbn in H. inv_result. split; [constructor|done].
  - apply fifo_loopIn_succ in H as (d1 & x & ev1 & ev2 & H1 & H2 & ->).
    destruct (IH _ _ _ _ H2) as [Hnd Hbefore].
    rewrite fifo_crossedAt_app,
      (fifo_processCars_crossedAt _ _ _ _ _ _ _ _ t' H1).
    destruct (decide (t' = t)) as [->|Hne].
    + rewrite Hbefore by lia. rewrite app_nil_r. split; [|lia].
      by destruct (fifo_processCars_marker _ _ _ _ _ _ _ _ H1).
    + cbn. split; [done|]. intros Hlt. apply Hbefore. lia.
Qed.

(** One crossing per street and tick in [index.js] (the counterpart of
    C3), whatever the order in
    which the cars are visited; the marker a tick ends with holds exactly
    the streets crossed in that tick. *)
Theorem fifo_one_crossing_per_street_per_tick
    (order : Z → Dataset → list nat) (d d' : Dataset) (ev : list event) :
  simulateIn sch order d = Ok (d', ev) →
  (∀ t, NoDup (crossedAt t ev))
  ∧ (∀ ord R t d0 d1 x ev1,
       tickIn sch ord R t d0 = Ok (d1, x, ev1) →
       NoDup (crossedStreets ev1) ∧ ∀ s, s ∈ x ↔ s ∈ crossedStreets ev1).
Proof.
  intros H. split.
  - intros t. by destruct (fifo_loopIn_crossedAt _ _ _ _ _ _ _ t H).
  - intros ord R t d0 d1 x ev1 Ht.
    destruct (fifo_processCars_marker _ _ _ _ _ _ _ _ Ht) as (Hnd & _ & Hx).
    split; [done|]. intros s. rewrite Hx. split; [|by right].
    intros [Hs|Hs]; [|done]. by apply not_elem_of_empty in Hs.
Qed.

(** *** Crossings: the order of the queue *)

Lemma fifo_registeredOn_app s ev1 ev2 :
  registeredOn s (ev1 ++ ev2) = registeredOn s ev1 ++ registeredOn s ev2.
Proof. apply omap_app. Qed.

Lemma fifo_crossedOn_app s ev1 ev2 :
  crossedOn s (ev1 ++ ev2) = crossedOn s ev1 ++ crossedOn s ev2.
Proof. apply omap_app. Qed.

Lemma fifo_register_queue t i car streets streets1 ev1 s q :
  register t i car streets = Ok (streets1, ev1) →
  Street.carIdQueue <$> streets !! s = Some q →
  Street.carIdQueue <$> streets1 !! s = Some (q ++ registeredOn s ev1)
  ∧ crossedOn s ev1 = [].
Proof.
  intros H Hq.
  destruct (fifo_register_cases _ _ _ _ _ _ H)
    as [(_ & _ & name & st & _ & Hst & -> & ->)|(_ & -> & ->)].
  - cbn. destruct (decide (name = s)) as [<-|Hne].
    + rewrite lookup_insert_eq. rewrite Hst in Hq. injection Hq as <-. done.
    + rewrite lookup_insert_ne by done. by rewrite app_nil_r.
  - cbn. by rewrite app_nil_r.
Qed.

(** A visit takes the crossing car from the front of the queue of its
    street and puts the registered car at the back. *)
Lemma fifo_carStep_queue R t i d x d' x' ev s q :
  carStep sch R t i (d, x) = Ok (d', x', ev) →
  queueOf s d = Some q →
  ∃ q', queueOf s d' = Some q'
        ∧ crossedOn s ev ++ q' = q ++ registeredOn s ev.
Proof.
  unfold queueOf. intros H Hq.
  fifo_step_cases H;
    [exists q; by rewrite app_nil_r|..];
    destruct (fifo_register_queue _ _ _ _ _ _ s q Hreg Hq) as [Hq1 Hc1];
    cbn [streets put];
    rewrite ?fifo_crossedOn_app, ?fifo_registeredOn_app, Hc1; cbn;
    rewrite ?app_nil_r; [by eexists..|].
  destruct (decide (name = s)) as [<-|Hne].
  - cbn. rewrite lookup_insert_eq. cbn.
    rewrite Hst in Hq1. injection Hq1 as Hq1. eexists. split; [done|].
    rewrite <- Hq1. destruct (Street.carIdQueue st) as [|j q0]; [done|].
    match goal with
    | Hh : head _ = Some _ |- _ => cbn in Hh; by injection Hh as ->
    end.
  - cbn. rewrite lookup_insert_ne by done. rewrite ?app_nil_r.
    by eexists.
Qed.

Lemma fifo_processCars_queue R t order d x d' x' ev s q :
  processCars sch R t order (d, x) = Ok (d', x', ev) →
  queueOf s d = Some q →
  ∃ q', queueOf s d' = Some q'
        ∧ crossedOn s ev ++ q' = q ++ registeredOn s ev.
Proof.
  revert d x ev q. induction order as [|i order IH]; intros d x ev q H Hq.
  - cbn in H. inv_result. exists q. by rewrite app_nil_r.
  - apply fifo_processCars_cons in H as ([d1 x1] & ev1 & ev2 & H1 & H2 & ->).
    destruct (fifo_carStep_queue _ _ _ _ _ _ _ _ _ _ H1 Hq) as (q1 & Hq1 & E1).
    destruct (IH _ _ _ _ H2 Hq1) as (q2 & Hq2 & E2).
    exists q2. split; [done|].
    rewrite fifo_crossedOn_app, fifo_registeredOn_app, <- app_assoc, E2,
      !app_assoc, E1. done.
Qed.

Lemma fifo_loopIn_queue order n R t d d' ev s q :
  loopIn sch order n R t d = Ok (d', ev) →
  queueOf s d = Some q →
  ∃ q', queueOf s d' = Some q'
        ∧ crossedOn s ev ++ q' = q ++ registeredOn s ev.
Proof.
  revert R t d ev q. induction n as [|n IH]; intros R t d ev q H Hq.
  - cbn in H. inv_result. exists q. by rewrite app_nil_r.
  - apply fifo_loopIn_succ in H as (d1 & x & ev1 & ev2 & H1 & H2 & ->).
    destruct (fifo_processCars_queue _ _ _ _ _ _ _ _ _ _ H1 Hq)
      as (q1 & Hq1 & E1).
    destruct (IH _ _ _ _ _ H2 Hq1) as (q2 & Hq2 & E2).
    exists q2. split; [done|].
    rewrite fifo_crossedOn_app, fifo_registeredOn_app, <- app_assoc, E2,
      !app_assoc, E1. done.
Qed.

(** The order of the crossings in [index.js] (the counterpart of C4),
    whatever the order in which
    the cars are visited: the cars that cross a street, followed by the cars
    left in its queue, are the cars that were in the queue at the start
    followed by the cars pushed during the run, in that order; so the cars
    cross in the order in which they were queued. *)
Theorem fifo_crossings_in_queue_order
    (order : Z → Dataset → list nat) (d d' : Dataset) (ev : list event)
    (s : string) (q : list nat) :
  simulateIn sch order d = Ok (d', ev) →
  queueOf s d = Some q →
  (∃ q', queueOf s d' = Some q'
         ∧ crossedOn s ev ++ q' = q ++ registeredOn s ev)
  ∧ crossedOn s ev `prefix_of` q ++ registeredOn s ev.
Proof.
  intros H Hq. unfold simulateIn in H.
  destruct (fifo_loopIn_queue _ _ _ _ _ _ _ _ _ H Hq) as (q' & Hq' & E).
  split; [by exists q'|]. exists q'. done.
Qed.

(** *** The final tick *)

Lemma fifo_processCars_app R t l1 l2 s s'' ev :
  processCars sch R t (l1 ++ l2) s = Ok (s'', ev) →
  ∃ s' ev1 ev2, processCars sch R t l1 s = Ok (s', ev1)
                ∧ processCars sch R t l2 s' = Ok (s'', ev2)
                ∧ ev = ev1 ++ ev2.
Proof.
  revert s ev. induction l1 as [|i l1 IH]; intros s ev H.
  - exists s, [], ev. done.
  - cbn [app] in H.
    apply fifo_processCars_cons in H as (s1 & ev1 & ev2 & H1 & H2 & ->).
    apply IH in H2 as (s2 & ev3 & ev4 & H3 & H4 & ->).
    exists s2, (ev1 ++ ev3), ev4. split; [|split; [done|by rewrite app_assoc]].
    cbn [processCars]. rewrite H1. cbn. rewrite H3. done.
Qed.

Lemma fifo_processCars_untouched R t order d x d' x' ev j :
  processCars sch R t order (d, x) = Ok (d', x', ev) → j ∉ order →
  cars d' !! j = cars d !! j.
Proof.
  revert d x ev. induction order as [|i order IH]; intros d x ev H Hj.
  - cbn in H. inv_result. done.
  - apply fifo_processCars_cons in H as ([d1 x1] & ev1 & ev2 & H1 & H2 & ->).
    apply not_elem_of_cons in Hj as [Hji Hj].
    rewrite (IH _ _ _ H2 Hj). by eapply fifo_carStep_other.
Qed.

Lemma fifo_decrement_fields c :
  Car.numStreets (decrement c) = Car.numStreets c
  ∧ Car.currentStreetIdx (decrement c) = Car.currentStreetIdx c
  ∧ Car.remainingTimeOnStreet (decrement c)
    = if 0 <? Car.remainingTimeOnStreet c
      then Car.remainingTimeOnStreet c - 1
      else Car.remainingTimeOnStreet c.
Proof. unfold decrement. by case_match. Qed.

Lemma fifo_carStep_final t i d x d' x' ev c :
  carStep sch 0 t i (d, x) = Ok (d', x', ev) →
  cars d !! i = Some c → Car.arrived c = false →
  0 ≤ Car.remainingTimeOnStreet c ≤ 1 →
  ∃ c', cars d' !! i = Some c'
    ∧ Car.currentStreetIdx c' = Car.currentStreetIdx c
    ∧ (Car.currentStreetIdx c = Car.numStreets c - 1 →
       Car.arrived c' = true
       ∧ Car.score c' = Simulation.bonusPoint (simulation d) + 0
       ∧ Car.commuteTime c' = t)
    ∧ (Car.currentStreetIdx c ≠ Car.numStreets c - 1 →
       Car.arrived c' = false).
Proof.
  intros H Hc Hna Hrem.
  assert (i < length (cars d))%nat as Hi by (by eapply lookup_lt_Some).
  fifo_step_cases H; [congruence|..]; rewrite Hc in Hcar;
    injection Hcar as <-;
    destruct (fifo_decrement_fields c) as (Hn & Hidx' & Hrem');
    pose proof (fifo_decrement_arrived c) as Harr';
    cbn [cars put]; rewrite list_lookup_insert_eq by done;
    eexists; (split; [done|]).
  - exfalso. rewrite Hrem' in Hrem0.
    destruct (Z.ltb_spec 0 (Car.remainingTimeOnStreet c)); lia.
  - cbn. split; [congruence|]. split; [done|]. intros Hne. congruence.
  - split; [congruence|]. split; [intros He; congruence|]. intros _.
    congruence.
  - done.
  - done.
Qed.

(** The final tick of [index.js] (the counterpart of C6;
    [remainingTime = 0], [time = duration]):
    no car crosses; a car whose time left reaches [0] on its last street is
    marked arrived with score [bonusPoint + 0] and [commuteTime = duration];
    a car whose time left reaches [0] on another street ends the run not
    arrived.  The header counts the cars. *)
Theorem fifo_final_tick (d d1 d' : Dataset) (ev1 ev : list event) (i : nat)
    (c : Car.t) :
  let duration := Simulation.duration (simulation d) in
  0 ≤ duration →
  Simulation.numCars (simulation d) = Z.of_nat (length (cars d)) →
  loop sch (Z.to_nat duration) (duration + 1) 0 d = Ok (d1, ev1) →
  simulate sch d = Ok (d', ev) →
  cars d1 !! i = Some c → Car.arrived c = false →
  0 ≤ Car.remainingTimeOnStreet c ≤ 1 →
  (∀ s j, Cross duration s j ∉ ev)
  ∧ ∃ c', cars d' !! i = Some c'
      ∧ Car.currentStreetIdx c' = Car.currentStreetIdx c
      ∧ (Car.currentStreetIdx c = Car.numStreets c - 1 →
         Car.arrived c' = true
         ∧ Car.score c' = Simulation.bonusPoint (simulation d) + 0
         ∧ Car.commuteTime c' = duration)
      ∧ (Car.currentStreetIdx c ≠ Car.numStreets c - 1 →
         Car.arrived c' = false).
Proof.
  intros duration HD Hcount H1 H Hc Hna Hrem. split.
  { intros s j Hin. pose proof H as H0.
    unfold simulate, simulateIn in H0. fold duration in H0.
    destruct (fifo_loopIn_crossing_green _ _ _ _ _ _ _ _ _ _ H0 Hin)
      as (Ht & HR & _).
    lia. }
  unfold simulate, simulateIn in H. fold duration in H.
  replace (Z.to_nat (duration + 1)) with (Z.to_nat duration + 1)%nat in H
    by lia.
  apply fifo_loopIn_add in H as (d1' & ev1' & ev2 & H1' & H2 & ->).
  unfold loop in H1. rewrite H1 in H1'. injection H1' as <- <-.
  apply fifo_loopIn_succ in H2 as (d2 & x & ev3 & ev4 & H2 & H3 & ->).
  cbn in H3. inv_result.
  rewrite Z2Nat.id in H2 by lia.
  replace (duration + 1 - duration - 1) with 0 in H2 by lia.
  replace (0 + duration) with duration in H2 by lia.
  unfold tickIn, sourceOrder in H2.
  assert (i < length (cars d1))%nat as Hi by (by eapply lookup_lt_Some).
  assert (simulation d1 = simulation d) as Hsim
    by (by eapply fifo_loopIn_simulation).
  assert (length (cars d1) = length (cars d)) as Hlen.
  { apply (fifo_loopIn_preserves (λ d2, length (cars d2) = length (cars d)))
      with (order := sourceOrder) (n := Z.to_nat duration)
           (R := duration + 1) (t := 0) (d := d) (ev := ev1); [|done..].
    intros R' t' i' d3 x3 d4 x4 ev' Hs <-.
    fifo_step_cases Hs; [done|..]; cbn; apply length_insert. }
  rewrite Hsim, Hcount, Nat2Z.id, <- Hlen in H2.
  replace (seq 0 (length (cars d1)))
    with (seq 0 i ++ [i] ++ seq (S i) (length (cars d1) - S i)) in H2.
  2:{ replace (length (cars d1))
        with (i + S (length (cars d1) - S i))%nat at 2 by lia.
      rewrite seq_app. done. }
  apply fifo_processCars_app in H2 as ([da xa] & eva & evb & Ha & Hb & ->).
  apply fifo_processCars_app in Hb as ([db xb] & evc & evd & Hb & Hd & ->).
  apply fifo_processCars_cons in Hb as ([dc xc] & eve & evf & Hb & Hf & ->).
  cbn in Hf. inv_result.
  assert (cars da !! i = Some c) as Hca.
  { rewrite (fifo_processCars_untouched _ _ _ _ _ _ _ _ i Ha); [done|].
    rewrite elem_of_seq. lia. }
  destruct (fifo_carStep_final _ _ _ _ _ _ _ _ Hb Hca Hna Hrem)
    as (c' & Hc' & Hidx & Hlast & Hmore).
  exists c'. split.
  { rewrite (fifo_processCars_untouched _ _ _ _ _ _ _ _ i Hd); [done|].
    rewrite elem_of_seq. lia. }
  split; [done|]. split; [|done].
  intros He. destruct (Hlast He) as (? & Hsc & ?).
  split; [done|]. split; [|done].
  rewrite Hsc. f_equal. f_equal.
  transitivity (simulation d1); [|done].
  apply (fifo_processCars_preserves (λ d2, simulation d2 = simulation d1))
    with (R := 0) (t := duration) (order := seq 0 i) (d := d1) (x := ∅)
         (x' := xa) (ev := eva); [|done..].
  intros R' t'' i' d3 x3 d4 x4 ev' Hs <-. by eapply fifo_carStep_simulation.
Qed.

End Engine.

Lemma fifo_arrival_commute_time_and_score_witness :
  ∃ d' ev,
    simulate Sample.fifoSchedules Sample.fifoDataset = Ok (d', ev)
    ∧ Arrive 3 0 ∈ ev
    ∧ (∀ t i, Arrive t i ∈ ev →
         ∃ c, cars d' !! i = Some c ∧ Car.arrived c = true
              ∧ Car.commuteTime c = t ∧ 0 ≤ t ≤ 6
              ∧ Car.score c = 1000 + (6 - Car.commuteTime c))
    ∧ (∀ i c, cars d' !! i = Some c → Car.arrived c = true →
         Arrive (Car.commuteTime c) i ∈ ev).
Proof.
  destruct (simulate Sample.fifoSchedules Sample.fifoDataset)
    as [[d' ev]|e] eqn:H; [|vm_compute in H; discriminate].
  exists d', ev. split; [reflexivity|]. split.
  - assert (ev = [Cross 0 "a" 0; Cross 1 "a" 1; Register 2 "b" 0;
                  Cross 2 "b" 0; Arrive 3 0; Arrive 3 1]) as ->
      by (vm_compute in H; congruence).
    apply list_elem_of_lookup. by exists 4%nat.
  - apply (fifo_arrival_commute_time_and_score Sample.fifoSchedules
             Sample.fifoDataset d' ev); [|exact H].
    vm_compute. repeat constructor.
Defined.

Lemma fifo_range_and_frozen_arrivals_witness :
  wellFormed Sample.fifoDataset
  ∧ ∃ dn evn dm evm,
      loop Sample.fifoSchedules 4 7 0 Sample.fifoDataset = Ok (dn, evn)
      ∧ loop Sample.fifoSchedules (4 + 2) 7 0 Sample.fifoDataset
        = Ok (dm, evm)
      ∧ Forall carInRange (cars dn)
      ∧ (∀ j c, cars dn !! j = Some c → Car.arrived c = true →
           cars dm !! j = Some c).
Proof.
  assert (wellFormed Sample.fifoDataset) as Hwf.
  { split.
    - vm_compute. repeat constructor; discriminate.
    - unfold Sample.fifoDataset.
      apply (bool_decide_unpack (map_Forall _ _)). vm_compute. exact I. }
  split; [exact Hwf|].
  destruct (simulate Sample.fifoSchedules Sample.fifoDataset)
    as [[d' ev]|e] eqn:H; [|vm_compute in H; discriminate].
  apply (fifo_range_and_frozen_arrivals Sample.fifoSchedules
           Sample.fifoDataset d' ev 4 2 Hwf H).
  vm_compute. lia.
Defined.

Lemma fifo_crossing_only_on_green_witness :
  ∃ d' ev,
    simulate Sample.fifoSchedules Sample.fifoDataset = Ok (d', ev)
    ∧ Cross 2 "b" 0 ∈ ev
    ∧ (∀ t s i, Cross t s i ∈ ev →
         0 ≤ t < 6
         ∧ ∃ st isch gte lte w,
             streets Sample.fifoDataset !! s = Some st
             ∧ Sample.fifoSchedules !! JS.String (Street.end_ st)
               = Some isch
             ∧ windows isch !! s = Some (gte, lte)
             ∧ scheduledTimeWindow isch = Some w
             ∧ w ≠ 0 ∧ gte ≤ Z.rem t w ≤ lte
             ∧ (0 < w → gte ≤ t mod w ≤ lte))
    ∧ (∀ s, (∀ st isch, streets Sample.fifoDataset !! s = Some st →
                        Sample.fifoSchedules !! JS.String (Street.end_ st)
                        = Some isch →
                        windows isch !! s = None) →
            ∀ t i, Cross t s i ∉ ev).
Proof.
  destruct (simulate Sample.fifoSchedules Sample.fifoDataset)
    as [[d' ev]|e] eqn:H; [|vm_compute in H; discriminate].
  exists d', ev. split; [reflexivity|]. split.
  - assert (ev = [Cross 0 "a" 0; Cross 1 "a" 1; Register 2 "b" 0;
                  Cross 2 "b" 0; Arrive 3 0; Arrive 3 1]) as ->
      by (vm_compute in H; congruence).
    apply list_elem_of_lookup. by exists 3%nat.
  - exact (fifo_crossing_only_on_green Sample.fifoSchedules
             Sample.fifoDataset d' ev H).
Defined.

Lemma fifo_one_crossing_per_street_per_tick_witness :
  ∃ d' ev,
    simulateIn Sample.fifoSchedules (λ _ d, rev (seq 0 (length (cars d))))
      Sample.fifoDataset = Ok (d', ev)
    ∧ crossedAt 0 ev = ["a"]
    ∧ (∀ t, NoDup (crossedAt t ev))
    ∧ (∀ ord R t d0 d1 x ev1,
         tickIn Sample.fifoSchedules ord R t d0 = Ok (d1, x, ev1) →
         NoDup (crossedStreets ev1) ∧ ∀ s, s ∈ x ↔ s ∈ crossedStreets ev1).
Proof.
  destruct (simulateIn Sample.fifoSchedules
              (λ _ d, rev (seq 0 (length (cars d)))) Sample.fifoDataset)
    as [[d' ev]|e] eqn:H; [|vm_compute in H; discriminate].
  exists d', ev. split; [reflexivity|]. split.
  - vm_compute in H. injection H as _ <-. reflexivity.
  - exact (fifo_one_crossing_per_street_per_tick _ _ _ _ _ H).
Defined.

Lemma fifo_crossings_in_queue_order_witness :
  ∃ d' ev,
    simulateIn Sample.fifoSchedules (λ _ d, rev (seq 0 (length (cars d))))
      Sample.fifoDataset = Ok (d', ev)
    ∧ queueOf "a" Sample.fifoDataset = Some [0; 1]%nat
    ∧ crossedOn "a" ev = [0; 1]%nat
    ∧ (∃ q', queueOf "a" d' = Some q'
             ∧ crossedOn "a" ev ++ q' = [0; 1]%nat ++ registeredOn "a" ev)
    ∧ crossedOn "a" ev `prefix_of` [0; 1]%nat ++ registeredOn "a" ev.
Proof.
  destruct (simulateIn Sample.fifoSchedules
              (λ _ d, rev (seq 0 (length (cars d)))) Sample.fifoDataset)
    as [[d' ev]|e] eqn:H; [|vm_compute in H; discriminate].
  assert (queueOf "a" Sample.fifoDataset = Some [0; 1]%nat) as Hq
    by (vm_compute; reflexivity).
  exists d', ev. split; [reflexivity|]. split; [exact Hq|]. split.
  - pose proof H as H0. vm_compute in H0. injection H0 as _ <-. reflexivity.
  - exact (fifo_crossings_in_queue_order _ _ _ _ _ "a" _ H Hq).
Defined.

Lemma fifo_final_tick_witness :
  ∃ d1 ev1 d' ev c c',
    loop Sample.fifoSchedules 3 4 0 (Sample.fifoFor 3) = Ok (d1, ev1)
    ∧ simulate Sample.fifoSchedules (Sample.fifoFor 3) = Ok (d', ev)
    ∧ cars d1 !! 0%nat = Some c ∧ Car.arrived c = false
    ∧ Car.remainingTimeOnStreet c = 1
    ∧ Car.currentStreetIdx c = Car.numStreets c - 1
    ∧ cars d' !! 0%nat = Some c'
    ∧ Car.arrived c' = true ∧ Car.score c' = 1000 + 0
    ∧ Car.commuteTime c' = 3
    ∧ ∀ s j, Cross 3 s j ∉ ev.
Proof.
  destruct (loop Sample.fifoSchedules 3 4 0 (Sample.fifoFor 3))
    as [[d1 ev1]|e] eqn:H1; [|vm_compute in H1; discriminate].
  destruct (simulate Sample.fifoSchedules (Sample.fifoFor 3))
    as [[d' ev]|e] eqn:H; [|vm_compute in H; discriminate].
  destruct (cars d1 !! 0%nat) as [c|] eqn:Hc;
    [|vm_compute in H1; injection H1 as <- _; vm_compute in Hc; discriminate].
  assert (Car.arrived c = false ∧ Car.remainingTimeOnStreet c = 1
          ∧ Car.currentStreetIdx c = Car.numStreets c - 1)
    as (Hna & Hrem & Hidx).
  { vm_compute in H1. injection H1 as <- _. vm_compute in Hc.
    injection Hc as <-. repeat split. }
  destruct (fifo_final_tick Sample.fifoSchedules (Sample.fifoFor 3)
              d1 d' ev1 ev 0 c)
    as (Hno & c' & Hc' & _ & Hlast & _);
    [discriminate|reflexivity|exact H1|exact H|exact Hc|exact Hna|lia|].
  destruct (Hlast Hidx) as (Ha & Hs & Ht).
  exists d1, ev1, d', ev, c, c'.
  repeat (split; [first [reflexivity|assumption]|]). exact Hno.
Defined.

(** The registration in [index.js] (the counterpart of C5): a car that is
    not arrived is pushed on a queue in a tick exactly when its time left is
    [1] before the decrement of that tick and it has one more street to
    travel; it is pushed on the queue of the street it is finishing,
    [streetNames[currentStreetIdx]]. *)
Theorem fifo_registration_on_current_street
    (sch : gmap string IntersectionSchedule) (R t : Z) (i : nat)
    (d d' : Dataset) (x x' : gset string) (ev : list event) (car : Car.t) :
  carStep sch R t i (d, x) = Ok (d', x', ev) →
  cars d !! i = Some car → Car.arrived car = false →
  (Car.remainingTimeOnStreet car = 1
   ∧ Car.currentStreetIdx car < Car.numStreets car - 1 →
   ∃ name q,
     JS.nth (Car.streetNames car) (Car.currentStreetIdx car) = Some name
     ∧ queueOf name d = Some q
     ∧ Register t name i ∈ ev
     ∧ registeredOn name ev = [i]
     ∧ ∃ q', queueOf name d' = Some q'
             ∧ crossedOn name ev ++ q' = q ++ [i])
  ∧ (¬ (Car.remainingTimeOnStreet car = 1
        ∧ Car.currentStreetIdx car < Car.numStreets car - 1) →
     ∀ t' s j, Register t' s j ∉ ev).
Proof.
  intros H Hc Hna.
  pose proof (fifo_carStep_cases _ _ _ _ _ _ _ _ _ H)
    as (car0 & Hcar & [(Harr & _)|(_ & streets1 & ev1 & Hreg & Hcases)]);
    rewrite Hc in Hcar; injection Hcar as <-; [congruence|].
  assert (∀ t' s j, Register t' s j ∈ ev → Register t' s j ∈ ev1) as Hsub.
  { intros t' s j Hin. cbn zeta in Hcases.
    destruct Hcases
      as [(_ & _ & _ & ->)
         |[(_ & _ & _ & _ & ->)
          |[(_ & _ & _ & _ & _ & ->)
           |[(_ & _ & _ & ? & ? & _ & _ & _ & _ & _ & ->)
            |(_ & _ & _ & ? & ? & ? & ? & _ & _ & _ & _ & _ & _ & _ & _ & _
              & ->)]]]];
      try done;
      apply elem_of_app in Hin as [Hin|Hin]; try done;
      by apply list_elem_of_singleton in Hin. }
  destruct (fifo_register_cases _ _ _ _ _ _ Hreg)
    as [(H1 & H2 & name & st & Hname & Hst & -> & ->)|(Hnot & -> & ->)].
  - split; [|intros Hn; by destruct Hn].
    intros _. exists name, (Street.carIdQueue st). split; [done|].
    assert (queueOf name d = Some (Street.carIdQueue st)) as Hq
      by (unfold queueOf; by rewrite Hst).
    split; [done|].
    assert (registeredOn name ev = [i]) as Hreg1.
    { cbn zeta in Hcases.
      destruct Hcases
        as [(_ & _ & _ & ->)
           |[(_ & _ & _ & _ & ->)
            |[(_ & _ & _ & _ & _ & ->)
             |[(_ & _ & _ & ? & ? & _ & _ & _ & _ & _ & ->)
              |(_ & _ & _ & ? & ? & ? & ? & _ & _ & _ & _ & _ & _ & _ & _ & _
                & ->)]]]];
        rewrite ?fifo_registeredOn_app; cbn; by rewrite decide_True. }
    split.
    { assert (i ∈ registeredOn name ev) as Hin
        by (rewrite Hreg1; apply list_elem_of_here).
      apply list_elem_of_omap in Hin as (e & He & Hm).
      destruct e as [t' s j|t' s j|t' j]; try done.
      case_decide as Hs; [|done]. injection Hm as ->. subst s.
      specialize (Hsub _ _ _ He). apply list_elem_of_singleton in Hsub.
      by rewrite <- Hsub. }
    split; [done|].
    destruct (fifo_carStep_queue _ _ _ _ _ _ _ _ _ _ _ H Hq) as (q' & Hq' & E).
    exists q'. split; [done|]. by rewrite E, Hreg1.
  - split; [by intros Hy|]. intros _ t' s j Hin.
    specialize (Hsub _ _ _ Hin). by apply not_elem_of_nil in Hsub.
Qed.

Lemma fifo_registration_on_current_street_witness :
  ∃ d' x' ev car,
    carStep Sample.fifoSchedules 4 2 0 (Sample.fifoAfter 2, ∅) = Ok (d', x', ev)
    ∧ cars (Sample.fifoAfter 2) !! 0%nat = Some car
    ∧ Car.arrived car = false
    ∧ Car.remainingTimeOnStreet car = 1
    ∧ JS.nth (Car.streetNames car) (Car.currentStreetIdx car) = Some "b"
    ∧ (Car.remainingTimeOnStreet car = 1
       ∧ Car.currentStreetIdx car < Car.numStreets car - 1 →
       ∃ name q,
         JS.nth (Car.streetNames car) (Car.currentStreetIdx car) = Some name
         ∧ queueOf name (Sample.fifoAfter 2) = Some q
         ∧ Register 2 name 0 ∈ ev
         ∧ registeredOn name ev = [0%nat]
         ∧ ∃ q', queueOf name d' = Some q'
                 ∧ crossedOn name ev ++ q' = q ++ [0%nat])
    ∧ (¬ (Car.remainingTimeOnStreet car = 1
          ∧ Car.currentStreetIdx car < Car.numStreets car - 1) →
       ∀ t' s j, Register t' s j ∉ ev).
Proof.
  destruct (carStep Sample.fifoSchedules 4 2 0 (Sample.fifoAfter 2, ∅))
    as [[[d' x'] ev]|e] eqn:H; [|vm_compute in H; discriminate].
  destruct (cars (Sample.fifoAfter 2) !! 0%nat) as [car|] eqn:Hc;
    [|vm_compute in Hc; discriminate].
  exists d', x', ev, car. split; [reflexivity|]. split; [reflexivity|].
  assert (Car.arrived car = false) as Hna
    by (vm_compute in Hc; injection Hc as <-; reflexivity).
  split; [exact Hna|].
  split; [vm_compute in Hc; injection Hc as <-; reflexivity|].
  split; [vm_compute in Hc; injection Hc as <-; reflexivity|].
  exact (fifo_registration_on_current_street Sample.fifoSchedules 4 2 0 _ d'
           ∅ x' ev car H Hc Hna).
Defined.

End FifoFacts.

(** ** The two files compared *)

Module RefineFacts.
Import Refine.

(** *** The engine *)

Lemma related_lookup sch df dt i :
  related sch df dt →
  option_Forall2 carRel (Fifo.cars df !! i) (Ticket.cars dt !! i).
Proof. intros H. apply Forall2_lookup. apply H. Qed.

Lemma decrement_rel cf ct :
  carRel cf ct → carRel (Fifo.decrement cf) (Ticket.decrement ct).
Proof.
  unfold carRel, Fifo.decrement, Ticket.decrement.
  intros (Hn & Hs & Hi & Hr & Ha & Hsc & Hc & Hname & Hle).
  rewrite Hr. case_match; cbn; repeat split; try done; try lia.
Qed.

(** A car that is not registered and whose time left is decremented. *)
Lemma decrement_related sch df dt i cf ct :
  related sch df dt →
  Fifo.cars df !! i = Some cf → Ticket.cars dt !! i = Some ct →
  Ticket.Car.arrived ct = false →
  ¬ (Ticket.Car.remainingTimeOnStreet ct = 1
     ∧ Ticket.Car.currentStreetIdx ct < Ticket.Car.numStreets ct - 1) →
  related sch (Fifo.put i (Fifo.decrement cf) (Fifo.streets df) df)
              (Ticket.put i (Ticket.decrement ct) (Ticket.streets dt) dt).
Proof.
  intros H Hcf Hct Hna Hnot.
  assert (carRel cf ct) as Hrel.
  { pose proof (related_lookup _ _ _ i H) as Hl. rewrite Hcf, Hct in Hl.
    by inversion Hl. }
  assert (i < length (Ticket.cars dt))%nat as Hi by (by eapply lookup_lt_Some).
  destruct (TicketFacts.decrement_fields ct) as (Hn & Hs & Hidx & Hname & Hq & Harr & Hrem).
  assert (Ticket.Car.remainingTimeOnStreet ct = 0 ∨
          (Ticket.Car.remainingTimeOnStreet ct ≠ 0 ∧
           (Ticket.Car.remainingTimeOnStreet (Ticket.decrement ct) = 0 →
            Ticket.Car.currentStreetIdx ct = Ticket.Car.numStreets ct - 1))) as Hcase.
  { destruct (decide (Ticket.Car.remainingTimeOnStreet ct = 0)); [by left|right].
    split; [done|]. rewrite Hrem. destruct Hrel as (_&_&_&_&_&_&_&_&Hle).
    case_match; intros; lia. }
  split; cbn.
  - apply H.
  - apply Forall2_insert; [apply H|]. by apply decrement_rel.
  - apply H.
  - intros s sf st k j Hsf Hst Hk.
    destruct (rel_queue _ _ _ H _ _ _ _ _ Hsf Hst Hk) as (cj & Hcj & Hqj & Hnj & Hrj).
    destruct (decide (j = i)) as [->|Hne].
    + rewrite Hct in Hcj. injection Hcj as <-.
      exists (Ticket.decrement ct). rewrite list_lookup_insert_eq by done.
      split; [done|]. rewrite Hq, Hname, Hrem, Hrj. done.
    + exists cj. by rewrite list_lookup_insert_ne.
  - intros j cj Hcj Hnaj Hrj Hij.
    destruct (decide (j = i)) as [->|Hne].
    + rewrite list_lookup_insert_eq in Hcj by done. injection Hcj as <-.
      rewrite Hname. rewrite Hidx, Hn in Hij.
      destruct Hcase as [H0|[Hn0 Hlast]]; [|specialize (Hlast Hrj); lia].
      apply (rel_waiting _ _ _ H i ct); done.
    + rewrite list_lookup_insert_ne in Hcj by done.
      by apply (rel_waiting _ _ _ H j cj).
  - apply H.
Qed.

Lemma lookup_related_car sch df dt i cf ct :
  related sch df dt →
  Fifo.cars df !! i = Some cf → Ticket.cars dt !! i = Some ct → carRel cf ct.
Proof.
  intros H Hcf Hct.
  pose proof (related_lookup _ _ _ i H) as Hl. rewrite Hcf, Hct in Hl.
  by inversion Hl.
Qed.

Lemma lookup_related_street sch df dt s sf st :
  related sch df dt →
  Fifo.streets df !! s = Some sf → Ticket.streets dt !! s = Some st → streetRel sf st.
Proof.
  intros H Hsf Hst.
  pose proof (rel_streets _ _ _ H s) as Hl. rewrite Hsf, Hst in Hl.
  by inversion Hl.
Qed.

(** A car that is registered, and whose time left goes from [1] to [0]. *)
Lemma register_related sch df dt i cf ct sf st :
  related sch df dt →
  Fifo.cars df !! i = Some cf → Ticket.cars dt !! i = Some ct →
  Ticket.Car.arrived ct = false →
  Ticket.Car.remainingTimeOnStreet ct = 1 →
  Ticket.Car.currentStreetIdx ct < Ticket.Car.numStreets ct - 1 →
  Fifo.streets df !! Ticket.Car.currentStreetName ct = Some sf →
  Ticket.streets dt !! Ticket.Car.currentStreetName ct = Some st →
  related sch
    (Fifo.put i (Fifo.decrement cf)
       (<[Ticket.Car.currentStreetName ct :=
            Fifo.Street.set_carIdQueue (Fifo.Street.carIdQueue sf ++ [i]) sf]>
          (Fifo.streets df)) df)
    (Ticket.put i (Ticket.decrement
                (Ticket.Car.set_queuingNumber (Ticket.Street.nextQueuingNumber st) ct))
       (<[Ticket.Car.currentStreetName ct :=
            Ticket.Street.set_nextQueuingNumber
              (Ticket.Street.nextQueuingNumber st + 1) st]> (Ticket.streets dt)) dt).
Proof.
  intros H Hcf Hct Hna Hrem Hidx Hsf Hst.
  pose proof (lookup_related_car _ _ _ _ _ _ H Hcf Hct) as Hrel.
  pose proof (lookup_related_street _ _ _ _ _ _ H Hsf Hst)
    as (Hs1 & Hs2 & Hs3 & Hs4 & Hnext).
  assert (i < length (Ticket.cars dt))%nat as Hi by (by eapply lookup_lt_Some).
  set (ct' := Ticket.decrement (Ticket.Car.set_queuingNumber (Ticket.Street.nextQueuingNumber st) ct)).
  assert (Ticket.Car.queuingNumber ct' = Ticket.Street.nextQueuingNumber st
          ∧ Ticket.Car.currentStreetName ct' = (Ticket.Car.currentStreetName ct)
          ∧ Ticket.Car.remainingTimeOnStreet ct' = 0
          ∧ Ticket.Car.currentStreetIdx ct' = Ticket.Car.currentStreetIdx ct
          ∧ Ticket.Car.numStreets ct' = Ticket.Car.numStreets ct) as (Hq' & Hn' & Hr' & Hi' & Hns').
  { subst ct'. unfold Ticket.decrement. cbn. rewrite Hrem. cbn. done. }
  assert (∀ s sf0 st0 k j,
            Fifo.streets df !! s = Some sf0 → Ticket.streets dt !! s = Some st0 →
            Fifo.Street.carIdQueue sf0 !! k = Some j → j ≠ i) as Hother.
  { intros s sf0 st0 k j Hsf0 Hst0 Hk ->.
    destruct (rel_queue _ _ _ H _ _ _ _ _ Hsf0 Hst0 Hk) as (cj & Hcj & _ & _ & Hrj).
    rewrite Hct in Hcj. injection Hcj as <-. lia. }
  split; cbn.
  - apply H.
  - apply Forall2_insert; [apply H|]. apply decrement_rel.
    destruct Hrel as (?&?&?&?&?&?&?&?&?). repeat split; done.
  - intros s. destruct (decide ((Ticket.Car.currentStreetName ct) = s)) as [<-|Hne].
    + rewrite !lookup_insert_eq. constructor. repeat split; cbn; try done.
      rewrite length_app. cbn. lia.
    + rewrite !lookup_insert_ne by done. apply H.
  - intros s sf0 st0 k j Hsf0 Hst0 Hk.
    destruct (decide ((Ticket.Car.currentStreetName ct) = s)) as [<-|Hne].
    + rewrite lookup_insert_eq in Hsf0. rewrite lookup_insert_eq in Hst0.
      injection Hsf0 as <-. injection Hst0 as <-. cbn in *.
      destruct (decide (k < length (Fifo.Street.carIdQueue sf))%nat) as [Hlt|Hge].
      * rewrite lookup_app_l in Hk by done.
        destruct (rel_queue _ _ _ H _ _ _ _ _ Hsf Hst Hk) as (cj & Hcj & ?).
        exists cj. rewrite list_lookup_insert_ne; [done|].
        intros <-. by eapply Hother.
      * rewrite lookup_app_r in Hk by lia.
        destruct (k - length (Fifo.Street.carIdQueue sf))%nat as [|k'] eqn:Hk';
          [|done].
        injection Hk as <-. exists ct'.
        rewrite list_lookup_insert_eq by done. split; [done|].
        rewrite Hq', Hnext. split; [lia|done].
    + rewrite lookup_insert_ne in Hsf0 by done.
      rewrite lookup_insert_ne in Hst0 by done.
      destruct (rel_queue _ _ _ H _ _ _ _ _ Hsf0 Hst0 Hk) as (cj & Hcj & ?).
      exists cj. rewrite list_lookup_insert_ne; [done|].
      intros <-. by eapply Hother.
  - intros j cj Hcj Hnaj Hrj Hij.
    destruct (decide (j = i)) as [->|Hne].
    + rewrite list_lookup_insert_eq in Hcj by done. injection Hcj as <-.
      rewrite Hn'. eexists _, (length (Fifo.Street.carIdQueue sf)).
      rewrite lookup_insert_eq. split; [done|]. cbn.
      rewrite lookup_app_r by lia. by rewrite Nat.sub_diag.
    + rewrite list_lookup_insert_ne in Hcj by done.
      destruct (rel_waiting _ _ _ H j cj Hcj Hnaj Hrj Hij) as (sf0 & k & Hsf0 & Hk).
      destruct (decide ((Ticket.Car.currentStreetName ct) = Ticket.Car.currentStreetName cj)) as [Heq|Hneq].
      * rewrite <- Heq in *. rewrite Hsf in Hsf0. injection Hsf0 as <-.
        eexists _, k. rewrite lookup_insert_eq. split; [done|]. cbn.
        rewrite lookup_app_l; [done|]. by eapply lookup_lt_Some.
      * exists sf0, k. by rewrite lookup_insert_ne.
  - intros t s sf0 st0 Hsf0 Hst0.
    destruct (decide ((Ticket.Car.currentStreetName ct) = s)) as [<-|Hne].
    + rewrite lookup_insert_eq in Hsf0. rewrite lookup_insert_eq in Hst0.
      injection Hsf0 as <-. injection Hst0 as <-.
      transitivity (Fifo.isTrafficLightGreen sch t (Ticket.Car.currentStreetName ct) sf);
        [reflexivity|].
      rewrite (rel_green _ _ _ H t _ sf st) by done. reflexivity.
    + rewrite lookup_insert_ne in Hsf0 by done.
      rewrite lookup_insert_ne in Hst0 by done. by apply H.
Qed.

Lemma arrive_related sch df dt i cf ct sc tm :
  related sch df dt →
  Fifo.cars df !! i = Some cf → Ticket.cars dt !! i = Some ct →
  related sch (Fifo.put i (Fifo.Car.set_arrived sc tm cf) (Fifo.streets df) df)
              (Ticket.put i (Ticket.Car.set_arrived sc tm ct) (Ticket.streets dt) dt).
Proof.
  intros H Hcf Hct.
  pose proof (lookup_related_car _ _ _ _ _ _ H Hcf Hct) as Hrel.
  assert (i < length (Ticket.cars dt))%nat as Hi by (by eapply lookup_lt_Some).
  split; cbn.
  - apply H.
  - apply Forall2_insert; [apply H|].
    destruct Hrel as (?&?&?&?&?&?&?&?&?). repeat split; done.
  - apply H.
  - intros s sf st k j Hsf Hst Hk.
    destruct (rel_queue _ _ _ H _ _ _ _ _ Hsf Hst Hk) as (cj & Hcj & Hqj & Hnj & Hrj).
    destruct (decide (j = i)) as [->|Hne].
    + rewrite Hct in Hcj. injection Hcj as <-.
      eexists. rewrite list_lookup_insert_eq by done. done.
    + exists cj. by rewrite list_lookup_insert_ne.
  - intros j cj Hcj Hnaj Hrj Hij.
    destruct (decide (j = i)) as [->|Hne].
    + rewrite list_lookup_insert_eq in Hcj by done. by injection Hcj as <-.
    + rewrite list_lookup_insert_ne in Hcj by done.
      by apply (rel_waiting _ _ _ H j cj).
  - apply H.
Qed.

(** The head of the queue is the holder of the ticket after the last one. *)
Lemma head_ticket sch df dt i ct sf st :
  related sch df dt → Ticket.cars dt !! i = Some ct →
  Ticket.Car.arrived ct = false → Ticket.Car.remainingTimeOnStreet ct = 0 →
  Ticket.Car.currentStreetIdx ct < Ticket.Car.numStreets ct - 1 →
  Fifo.streets df !! Ticket.Car.currentStreetName ct = Some sf →
  Ticket.streets dt !! Ticket.Car.currentStreetName ct = Some st →
  head (Fifo.Street.carIdQueue sf) = Some i
  ↔ Ticket.Street.lastQueuingNumber st + 1 = Ticket.Car.queuingNumber ct.
Proof.
  intros H Hct Hna Hrem Hidx Hsf Hst. split.
  - intros Hhead. rewrite head_lookup in Hhead.
    destruct (rel_queue _ _ _ H _ _ _ _ _ Hsf Hst Hhead) as (cj & Hcj & Hqj & _).
    rewrite Hct in Hcj. injection Hcj as <-. lia.
  - intros Hq.
    destruct (rel_waiting _ _ _ H i ct Hct Hna Hrem Hidx) as (sf0 & k & Hsf0 & Hk).
    rewrite Hsf in Hsf0. injection Hsf0 as <-.
    destruct (rel_queue _ _ _ H _ _ _ _ _ Hsf Hst Hk) as (cj & Hcj & Hqj & _).
    rewrite Hct in Hcj. injection Hcj as <-.
    assert (k = 0%nat) as -> by lia. by rewrite head_lookup.
Qed.

(** The car at the head of the queue crosses. *)
Lemma cross_related sch df dt i cf ct sf st next nsf nst :
  related sch df dt →
  Fifo.cars df !! i = Some cf → Ticket.cars dt !! i = Some ct →
  Ticket.Car.arrived ct = false → Ticket.Car.remainingTimeOnStreet ct = 0 →
  Ticket.Car.currentStreetIdx ct < Ticket.Car.numStreets ct - 1 →
  Fifo.streets df !! Ticket.Car.currentStreetName ct = Some sf →
  Ticket.streets dt !! Ticket.Car.currentStreetName ct = Some st →
  head (Fifo.Street.carIdQueue sf) = Some i →
  JS.nth (Ticket.Car.streetNames ct) (Ticket.Car.currentStreetIdx ct + 1) = Some next →
  (<[Ticket.Car.currentStreetName ct :=
       Fifo.Street.set_carIdQueue (tail (Fifo.Street.carIdQueue sf)) sf]>
     (Fifo.streets df)) !! next = Some nsf →
  (<[Ticket.Car.currentStreetName ct :=
       Ticket.Street.set_lastQueuingNumber (Ticket.Car.queuingNumber ct) st]>
     (Ticket.streets dt)) !! next = Some nst →
  related sch
    (Fifo.put i (Fifo.Car.advance (Fifo.Street.duration nsf) cf)
       (<[Ticket.Car.currentStreetName ct :=
            Fifo.Street.set_carIdQueue (tail (Fifo.Street.carIdQueue sf)) sf]>
          (Fifo.streets df)) df)
    (Ticket.put i (Ticket.Car.advance next (Ticket.Street.duration nst) ct)
       (<[Ticket.Car.currentStreetName ct :=
            Ticket.Street.set_lastQueuingNumber (Ticket.Car.queuingNumber ct) st]>
          (Ticket.streets dt)) dt).
Proof.
  intros H Hcf Hct Hna Hrem Hidx Hsf Hst Hhead Hnext Hnsf Hnst.
  pose proof (lookup_related_car _ _ _ _ _ _ H Hcf Hct) as Hrel.
  pose proof (lookup_related_street _ _ _ _ _ _ H Hsf Hst)
    as (Hs1 & Hs2 & Hs3 & Hs4 & Hnx).
  assert (i < length (Ticket.cars dt))%nat as Hi by (by eapply lookup_lt_Some).
  pose proof (proj1 (head_ticket _ _ _ _ _ _ _ H Hct Hna Hrem Hidx Hsf Hst) Hhead)
    as Hq.
  destruct (Fifo.Street.carIdQueue sf) as [|i0 q] eqn:Hqueue; [done|].
  injection Hhead as ->. cbn [tail] in *.
  assert (Fifo.Street.duration nsf = Ticket.Street.duration nst
          ∧ 1 ≤ Ticket.Street.duration nst) as [Hdur Hdur1].
  { destruct (decide (Ticket.Car.currentStreetName ct = next)) as [<-|Hne].
    - rewrite lookup_insert_eq in Hnsf. rewrite lookup_insert_eq in Hnst.
      injection Hnsf as <-. injection Hnst as <-. done.
    - rewrite lookup_insert_ne in Hnsf by done.
      rewrite lookup_insert_ne in Hnst by done.
      by destruct (lookup_related_street _ _ _ _ _ _ H Hnsf Hnst)
        as (_ & _ & ? & ? & _). }
  (* no other entry of a queue is the car [i] *)
  assert (∀ s sf0 st0 k j,
            Fifo.streets df !! s = Some sf0 → Ticket.streets dt !! s = Some st0 →
            Fifo.Street.carIdQueue sf0 !! k = Some j →
            (s, k) ≠ (Ticket.Car.currentStreetName ct, 0%nat) → j ≠ i) as Hother.
  { intros s sf0 st0 k j Hsf0 Hst0 Hk Hsk ->.
    destruct (rel_queue _ _ _ H _ _ _ _ _ Hsf0 Hst0 Hk) as (cj & Hcj & Hqj & Hnj & _).
    rewrite Hct in Hcj. injection Hcj as <-. subst s.
    rewrite Hst in Hst0. injection Hst0 as <-.
    destruct k; [done|lia]. }
  split; cbn.
  - apply H.
  - apply Forall2_insert; [apply H|].
    destruct Hrel as (?&?&?&?&?&?&?&?&?).
    repeat split; cbn; try done; try lia; try congruence.
  - intros s. destruct (decide (Ticket.Car.currentStreetName ct = s)) as [<-|Hne].
    + rewrite !lookup_insert_eq. constructor. repeat split; cbn; try done.
      rewrite Hnx. cbn. lia.
    + rewrite !lookup_insert_ne by done. apply H.
  - intros s sf0 st0 k j Hsf0 Hst0 Hk.
    destruct (decide (Ticket.Car.currentStreetName ct = s)) as [<-|Hne].
    + rewrite lookup_insert_eq in Hsf0. rewrite lookup_insert_eq in Hst0.
      injection Hsf0 as <-. injection Hst0 as <-. cbn in *.
      assert (Fifo.Street.carIdQueue sf !! S k = Some j) as Hk'
        by (by rewrite Hqueue).
      destruct (rel_queue _ _ _ H _ _ _ _ _ Hsf Hst Hk') as (cj & Hcj & Hqj & ?).
      exists cj. rewrite list_lookup_insert_ne.
      * split; [done|]. split; [lia|done].
      * intros <-. eapply (Hother _ _ _ (S k)); [exact Hsf|exact Hst|exact Hk'|congruence|done].
    + rewrite lookup_insert_ne in Hsf0 by done.
      rewrite lookup_insert_ne in Hst0 by done.
      destruct (rel_queue _ _ _ H _ _ _ _ _ Hsf0 Hst0 Hk) as (cj & Hcj & ?).
      exists cj. rewrite list_lookup_insert_ne; [done|].
      intros <-. eapply (Hother _ _ _ k); [exact Hsf0|exact Hst0|exact Hk|congruence|done].
  - intros j cj Hcj Hnaj Hrj Hij.
    destruct (decide (j = i)) as [->|Hne].
    + rewrite list_lookup_insert_eq in Hcj by done. injection Hcj as <-.
      cbn in Hrj. lia.
    + rewrite list_lookup_insert_ne in Hcj by done.
      destruct (rel_waiting _ _ _ H j cj Hcj Hnaj Hrj Hij) as (sf0 & k & Hsf0 & Hk).
      destruct (decide (Ticket.Car.currentStreetName ct = Ticket.Car.currentStreetName cj))
        as [Heq|Hneq].
      * rewrite <- Heq in *. rewrite Hsf in Hsf0. injection Hsf0 as <-.
        rewrite Hqueue in Hk. destruct k as [|k]; [by injection Hk|].
        eexists _, k. rewrite lookup_insert_eq. done.
      * exists sf0, k. by rewrite lookup_insert_ne.
  - intros t s sf0 st0 Hsf0 Hst0.
    destruct (decide (Ticket.Car.currentStreetName ct = s)) as [<-|Hne].
    + rewrite lookup_insert_eq in Hsf0. rewrite lookup_insert_eq in Hst0.
      injection Hsf0 as <-. injection Hst0 as <-.
      transitivity (Fifo.isTrafficLightGreen sch t (Ticket.Car.currentStreetName ct) sf);
        [reflexivity|].
      rewrite (rel_green _ _ _ H t _ sf st) by done. reflexivity.
    + rewrite lookup_insert_ne in Hsf0 by done.
      rewrite lookup_insert_ne in Hst0 by done. by apply H.
Qed.

Lemma fifo_put_same i c (d : Fifo.Dataset) :
  Fifo.cars d !! i = Some c → Fifo.put i c (Fifo.streets d) d = d.
Proof. intros H. destruct d. unfold Fifo.put. cbn in *. by rewrite list_insert_id. Qed.

Lemma ticket_put_same i c (d : Ticket.Dataset) :
  Ticket.cars d !! i = Some c → Ticket.put i c (Ticket.streets d) d = d.
Proof. intros H. destruct d. unfold Ticket.put. cbn in *. by rewrite list_insert_id. Qed.

Lemma fifo_put_put i c c' s s' (d : Fifo.Dataset) :
  Fifo.put i c' s' (Fifo.put i c s d) = Fifo.put i c' s' d.
Proof. unfold Fifo.put. cbn. by rewrite list_insert_insert_eq. Qed.

Lemma ticket_put_put i c c' s s' (d : Ticket.Dataset) :
  Ticket.put i c' s' (Ticket.put i c s d) = Ticket.put i c' s' d.
Proof. unfold Ticket.put. cbn. by rewrite list_insert_insert_eq. Qed.

(** The third statement of the body, from a related pair of datasets in
    which the car [i] is not arrived. *)
Lemma resolve_related sch df dt x Rm t i cf ct sf stt evf evt :
  related sch (Fifo.put i cf sf df) (Ticket.put i ct stt dt) →
  (i < length (Fifo.cars df))%nat → (i < length (Ticket.cars dt))%nat →
  Ticket.Car.arrived ct = false →
  agree (stepRel sch)
    (Fifo.resolve sch Rm t i cf sf df x evf)
    (Ticket.resolve Rm t i ct stt dt x evt).
Proof.
  intros H Hif Hit Hna.
  set (Df := Fifo.put i cf sf df) in *. set (Dt := Ticket.put i ct stt dt) in *.
  assert (Fifo.cars Df !! i = Some cf) as Hcf
    by (cbn; by apply list_lookup_insert_eq).
  assert (Ticket.cars Dt !! i = Some ct) as Hct
    by (cbn; by apply list_lookup_insert_eq).
  pose proof (lookup_related_car _ _ _ _ _ _ H Hcf Hct)
    as (Hn & Hnames & Hidx & Hrem & Harr & Hsc & Hcm & Hname & Hle).
  unfold Fifo.resolve, Ticket.resolve. rewrite Hrem, Hidx, Hn.
  destruct (Z.eqb_spec (Ticket.Car.remainingTimeOnStreet ct) 0) as [Hr0|Hr0];
    cbn [negb].
  2:{ by split. }
  destruct (Z.eqb_spec (Ticket.Car.currentStreetIdx ct) (Ticket.Car.numStreets ct - 1))
    as [Hlast|Hlast].
  { split; [|done]. cbn [fst snd].
    rewrite <- (fifo_put_put i cf _ sf sf df), <- (ticket_put_put i ct _ stt stt dt).
    replace (Fifo.simulation df) with (Ticket.simulation dt)
      by (symmetry; apply (rel_simulation _ _ _ H)).
    by apply (arrive_related sch Df Dt). }
  destruct (Z.eqb_spec Rm 0) as [HR|HR].
  { by split. }
  rewrite Hnames, Hname. cbn.
  pose proof (rel_streets _ _ _ H (Ticket.Car.currentStreetName ct)) as Hst.
  cbn in Hst.
  destruct (sf !! Ticket.Car.currentStreetName ct) as [sf0|] eqn:Hsf;
    destruct (stt !! Ticket.Car.currentStreetName ct) as [st0|] eqn:Hstt;
    inversion Hst as [? ? Hsr|]; subst; cbn; [|done].
  rewrite (rel_green _ _ _ H t _ sf0 st0) by done.
  assert (bool_decide (head (Fifo.Street.carIdQueue sf0) = Some i)
          = (Ticket.Street.lastQueuingNumber st0 + 1 =? Ticket.Car.queuingNumber ct))
    as ->.
  { pose proof (head_ticket _ _ _ _ _ _ _ H Hct Hna Hr0 ltac:(lia) Hsf Hstt) as Hht.
    destruct (Z.eqb_spec (Ticket.Street.lastQueuingNumber st0 + 1)
                (Ticket.Car.queuingNumber ct)) as [Hq|Hq].
    - apply bool_decide_eq_true. by apply Hht.
    - apply bool_decide_eq_false. intros Hh. by apply Hq, Hht. }
  destruct (negb (Ticket.isTrafficLightGreen t st0)
            || bool_decide (Ticket.Car.currentStreetName ct ∈ x)
            || negb (Ticket.Street.lastQueuingNumber st0 + 1 =? Ticket.Car.queuingNumber ct))
    eqn:Hblocked.
  { by split. }
  apply orb_false_iff in Hblocked as [_ Hq].
  apply negb_false_iff, Z.eqb_eq in Hq.
  destruct (JS.nth (Ticket.Car.streetNames ct) (Ticket.Car.currentStreetIdx ct + 1))
    as [next|] eqn:Hnext; cbn; [|done].
  assert (option_Forall2 (λ _ _, True)
            (<[Ticket.Car.currentStreetName ct :=
                 Fifo.Street.set_carIdQueue (tail (Fifo.Street.carIdQueue sf0)) sf0]>
               sf !! next)
            (<[Ticket.Car.currentStreetName ct :=
                 Ticket.Street.set_lastQueuingNumber (Ticket.Car.queuingNumber ct) st0]>
               stt !! next)) as Hnx.
  { destruct (decide (Ticket.Car.currentStreetName ct = next)) as [<-|Hne].
    - rewrite !lookup_insert_eq. by constructor.
    - rewrite !lookup_insert_ne by done.
      pose proof (rel_streets _ _ _ H next) as Hr. cbn in Hr.
      destruct Hr; by constructor. }
  inversion Hnx as [nsf nst _ Hnsf Hnst|Hnsf Hnst]; cbn; [|done].
  split; [|done]. cbn [fst snd].
  rewrite <- (fifo_put_put i cf _ sf _ df), <- (ticket_put_put i ct _ stt _ dt).
  apply (cross_related sch Df Dt); try done; [lia|].
  apply (head_ticket _ _ _ _ _ _ _ H Hct Hna Hr0 ltac:(lia) Hsf Hstt). done.
Qed.

(** One visit of a car in both files. *)
Lemma carStep_related sch df dt x Rm t i :
  related sch df dt →
  agree (stepRel sch) (Fifo.carStep sch Rm t i (df, x)) (Ticket.carStep Rm t i (dt, x)).
Proof.
  intros H. unfold Fifo.carStep, Ticket.carStep.
  pose proof (related_lookup _ _ _ i H) as Hl.
  destruct (Fifo.cars df !! i) as [cf|] eqn:Hcf;
    destruct (Ticket.cars dt !! i) as [ct|] eqn:Hct;
    inversion Hl as [? ? Hrel|]; subst; cbn; [|done].
  pose proof Hrel as (Hn & Hnames & Hidx & Hrem & Harr & Hsc & Hcm & Hname & Hle).
  rewrite Harr. destruct (Ticket.Car.arrived ct) eqn:Hna; [by split|].
  assert (i < length (Ticket.cars dt))%nat as Hi by (by eapply lookup_lt_Some).
  assert (i < length (Fifo.cars df))%nat as Hi' by (by eapply lookup_lt_Some).
  unfold Fifo.register, Ticket.register. rewrite Hrem, Hidx, Hn, Hnames, Hname.
  destruct (Z.eqb_spec (Ticket.Car.remainingTimeOnStreet ct) 1) as [Hr1|Hr1];
    destruct (Z.ltb_spec (Ticket.Car.currentStreetIdx ct) (Ticket.Car.numStreets ct - 1))
      as [Hlt|Hge]; cbn [andb].
  2,3,4:
    cbn; apply resolve_related;
    [apply decrement_related; [done..|lia]
    |done|done
    |by destruct (TicketFacts.decrement_fields ct) as (_&_&_&_&_&->&_)].
  cbn.
  pose proof (rel_streets _ _ _ H (Ticket.Car.currentStreetName ct)) as Hst.
  destruct (Fifo.streets df !! Ticket.Car.currentStreetName ct) as [sf|] eqn:Hsf;
    destruct (Ticket.streets dt !! Ticket.Car.currentStreetName ct) as [st|] eqn:Hstt;
    inversion Hst as [? ? Hsr|]; subst; cbn; [|done].
  apply resolve_related; [by apply register_related|done|done|].
  unfold Ticket.decrement. by case_match.
Qed.

Lemma processCars_related sch Rm t order df dt x :
  related sch df dt →
  agree (stepRel sch) (Fifo.processCars sch Rm t order (df, x))
                      (Ticket.processCars Rm t order (dt, x)).
Proof.
  revert df dt x. induction order as [|i order IH]; intros df dt x H.
  - by split.
  - cbn [Fifo.processCars Ticket.processCars].
    pose proof (carStep_related sch df dt x Rm t i H) as Hs.
    destruct (Fifo.carStep sch Rm t i (df, x)) as [[[df1 xf1] evf]|ef];
      destruct (Ticket.carStep Rm t i (dt, x)) as [[[dt1 xt1] evt]|et];
      cbn in *; try done.
    destruct Hs as [H1 Hx]. cbn in H1, Hx. subst xt1.
    specialize (IH df1 dt1 xf1 H1).
    destruct (Fifo.processCars sch Rm t order (df1, xf1)) as [[[df2 xf2] evf2]|ef];
      destruct (Ticket.processCars Rm t order (dt1, xf1)) as [[[dt2 xt2] evt2]|et];
      cbn in *; done.
Qed.

Lemma sourceOrder_related sch t df dt :
  related sch df dt → countsCars dt → Fifo.sourceOrder t df = Ticket.sourceOrder t dt.
Proof.
  intros H Hn. unfold Fifo.sourceOrder, Ticket.sourceOrder.
  rewrite (rel_simulation _ _ _ H), Hn. by rewrite Nat2Z.id.
Qed.

Lemma processCars_countsCars Rm t order dt x dt' x' ev :
  Ticket.processCars Rm t order (dt, x) = Ok (dt', x', ev) →
  countsCars dt → countsCars dt'.
Proof.
  apply (TicketFacts.processCars_preserves countsCars).
  intros R' t' i d1 x1 d2 x2 ev' Hs Hc. unfold countsCars in *.
  by rewrite (TicketFacts.carStep_simulation _ _ _ _ _ _ _ _ Hs),
             (TicketFacts.carStep_length _ _ _ _ _ _ _ _ Hs).
Qed.

Lemma loop_related sch n Rm t df dt :
  related sch df dt → countsCars dt →
  agree (λ rf rt, related sch rf.1 rt.1) (Fifo.loop sch n Rm t df) (Ticket.loop n Rm t dt).
Proof.
  revert Rm t df dt. induction n as [|n IH]; intros Rm t df dt H Hn; [done|].
  unfold Fifo.loop, Ticket.loop in *. cbn [Fifo.loopIn Ticket.loopIn].
  unfold Fifo.tickIn, Ticket.tickIn. rewrite (sourceOrder_related sch t df dt H Hn).
  pose proof (processCars_related sch (Rm - 1) t (Ticket.sourceOrder t dt) df dt ∅ H)
    as Hs.
  destruct (Fifo.processCars sch (Rm - 1) t (Ticket.sourceOrder t dt) (df, ∅))
    as [[[df1 xf1] evf]|ef];
    destruct (Ticket.processCars (Rm - 1) t (Ticket.sourceOrder t dt) (dt, ∅))
      as [[[dt1 xt1] evt]|et] eqn:Ht; cbn in *; try done.
  destruct Hs as [H1 _]. cbn in H1.
  pose proof (processCars_countsCars _ _ _ _ _ _ _ _ Ht Hn) as Hn1.
  specialize (IH (Rm - 1) (t + 1) df1 dt1 H1 Hn1).
  destruct (Fifo.loopIn sch Fifo.sourceOrder n (Rm - 1) (t + 1) df1) as [[df2 evf2]|ef];
    destruct (Ticket.loopIn Ticket.sourceOrder n (Rm - 1) (t + 1) dt1) as [[dt2 evt2]|et];
    cbn in *; done.
Qed.

Lemma related_views sch df dt :
  related sch df dt → Fifo.Car.view <$> Fifo.cars df = Ticket.Car.view <$> Ticket.cars dt.
Proof.
  intros H. pose proof (rel_cars _ _ _ H) as Hc.
  induction Hc as [|cf ct lf lt Hrel _ IH]; [done|].
  cbn. rewrite IH. f_equal.
  destruct Hrel as (_ & _ & _ & _ & Ha & Hs & Hc' & _).
  unfold Fifo.Car.view, Ticket.Car.view. by rewrite Ha, Hs, Hc'.
Qed.

Lemma simulate_related sch df dt :
  related sch df dt → countsCars dt →
  agree (λ rf rt, related sch rf.1 rt.1) (Fifo.simulate sch df) (Ticket.simulate dt).
Proof.
  intros H Hn. unfold Fifo.simulate, Ticket.simulate, Fifo.simulateIn, Ticket.simulateIn.
  rewrite (rel_simulation _ _ _ H). by apply loop_related.
Qed.

Lemma fifo_green_empty t s sf : Fifo.isTrafficLightGreen ∅ t s sf = false.
Proof. unfold Fifo.isTrafficLightGreen. by rewrite lookup_empty. Qed.

Lemma ticket_green_unscheduled t st :
  Ticket.Street.schedule st = None → Ticket.isTrafficLightGreen t st = false.
Proof. unfold Ticket.isTrafficLightGreen. by intros ->. Qed.

Lemma addStreets_related (ls : list StreetLine) mf mt :
  Forall (λ l, 1 ≤ sl_duration l) ls →
  (∀ s, option_Forall2 streetRel (mf !! s) (mt !! s)) →
  (∀ s sf, mf !! s = Some sf → Fifo.Street.carIdQueue sf = []) →
  unscheduled mt →
  (∀ s, option_Forall2 streetRel (fold_left Fifo.addStreet ls mf !! s)
                                 (fold_left Ticket.addStreet ls mt !! s))
  ∧ (∀ s sf, fold_left Fifo.addStreet ls mf !! s = Some sf →
             Fifo.Street.carIdQueue sf = [])
  ∧ unscheduled (fold_left Ticket.addStreet ls mt).
Proof.
  revert mf mt. induction ls as [|l ls IH]; intros mf mt Hd Hrel Hq Hu; [done|].
  apply Forall_cons in Hd as [Hl Hd]. cbn [fold_left].
  apply IH; [done|..].
  - intros s. unfold Fifo.addStreet, Ticket.addStreet.
    destruct (decide (sl_name l = s)) as [<-|Hne].
    + rewrite !lookup_insert_eq. constructor. repeat split; cbn; done.
    + rewrite !lookup_insert_ne by done. apply Hrel.
  - intros s sf. unfold Fifo.addStreet.
    destruct (decide (sl_name l = s)) as [<-|Hne].
    + rewrite lookup_insert_eq. by intros [= <-].
    + rewrite lookup_insert_ne by done. apply Hq.
  - intros s st. unfold Ticket.addStreet.
    destruct (decide (sl_name l = s)) as [<-|Hne].
    + rewrite lookup_insert_eq. by intros [= <-].
    + rewrite lookup_insert_ne by done. apply Hu.
Qed.

Lemma nth_head {A} (l : list A) x : head l = Some x → JS.nth l 0 = Some x.
Proof. by destruct l. Qed.

(** One car line read by both files. *)
Lemma addCar_related df dt (l : CarLine) :
  related ∅ df dt → unscheduled (Ticket.streets dt) → 1 ≤ cl_numStreets l →
  agree (λ df' dt', related ∅ df' dt' ∧ unscheduled (Ticket.streets dt')
                    ∧ length (Ticket.cars dt') = S (length (Ticket.cars dt))
                    ∧ Ticket.simulation dt' = Ticket.simulation dt)
        (Fifo.addCar df l) (Ticket.addCar dt l).
Proof.
  intros H Hu Hl. unfold Fifo.addCar, Ticket.addCar.
  destruct (head (cl_streetNames l)) as [name|] eqn:Hhead; cbn; [|done].
  pose proof (rel_streets _ _ _ H name) as Hst.
  destruct (Fifo.streets df !! name) as [sf|] eqn:Hsf;
    destruct (Ticket.streets dt !! name) as [st|] eqn:Hstt;
    inversion Hst as [? ? (Hs1 & Hs2 & Hs3 & Hs4 & Hnx)|]; subst; cbn; [|done].
  pose proof (Forall2_length _ _ _ (rel_cars _ _ _ H)) as Hlen.
  split; [|split; [|split; [|done]]].
  - split; cbn.
    + apply H.
    + apply Forall2_app; [apply H|]. constructor; [|constructor].
      repeat split; cbn; try done; [by apply nth_head|lia].
    + intros s. destruct (decide (name = s)) as [<-|Hne].
      * rewrite !lookup_insert_eq. constructor. repeat split; cbn; try done.
        rewrite length_app. cbn. lia.
      * rewrite !lookup_insert_ne by done. apply H.
    + intros s sf0 st0 k j Hsf0 Hst0 Hk.
      destruct (decide (name = s)) as [<-|Hne].
      * rewrite lookup_insert_eq in Hsf0. rewrite lookup_insert_eq in Hst0.
        injection Hsf0 as <-. injection Hst0 as <-. cbn in *.
        destruct (decide (k < length (Fifo.Street.carIdQueue sf))%nat) as [Hlt|Hge].
        -- rewrite lookup_app_l in Hk by done.
           destruct (rel_queue _ _ _ H _ _ _ _ _ Hsf Hstt Hk) as (cj & Hcj & ?).
           exists cj. rewrite lookup_app_l; [done|]. by eapply lookup_lt_Some.
        -- rewrite lookup_app_r in Hk by lia.
           destruct (k - length (Fifo.Street.carIdQueue sf))%nat as [|k'] eqn:Hk';
             [|done].
           injection Hk as <-. eexists. rewrite Hlen.
           rewrite lookup_app_r by lia. rewrite Nat.sub_diag. cbn.
           split; [done|]. cbn. split; [lia|done].
      * rewrite lookup_insert_ne in Hsf0 by done.
        rewrite lookup_insert_ne in Hst0 by done.
        destruct (rel_queue _ _ _ H _ _ _ _ _ Hsf0 Hst0 Hk) as (cj & Hcj & ?).
        exists cj. rewrite lookup_app_l; [done|]. by eapply lookup_lt_Some.
    + intros j cj Hcj Hnaj Hrj Hij.
      destruct (decide (j < length (Ticket.cars dt))%nat) as [Hlt|Hge].
      * rewrite lookup_app_l in Hcj by done.
        destruct (rel_waiting _ _ _ H j cj Hcj Hnaj Hrj Hij) as (sf0 & k & Hsf0 & Hk).
        destruct (decide (name = Ticket.Car.currentStreetName cj)) as [Heq|Hneq].
        -- rewrite <- Heq in *. rewrite Hsf in Hsf0. injection Hsf0 as <-.
           eexists _, k. rewrite lookup_insert_eq. split; [done|]. cbn.
           rewrite lookup_app_l; [done|]. by eapply lookup_lt_Some.
        -- exists sf0, k. by rewrite lookup_insert_ne.
      * rewrite lookup_app_r in Hcj by lia.
        destruct (j - length (Ticket.cars dt))%nat as [|j'] eqn:Hj'; [|done].
        injection Hcj as <-. cbn.
        eexists _, (length (Fifo.Street.carIdQueue sf)).
        rewrite lookup_insert_eq. split; [done|]. cbn.
        rewrite lookup_app_r by lia. rewrite Nat.sub_diag. cbn. f_equal. clear -Hlen Hj' Hge. lia.
    + intros t s sf0 st0 Hsf0 Hst0. rewrite fifo_green_empty.
      symmetry. apply ticket_green_unscheduled.
      destruct (decide (name = s)) as [<-|Hne].
      * rewrite lookup_insert_eq in Hst0. injection Hst0 as <-. cbn.
        by apply (Hu name).
      * rewrite lookup_insert_ne in Hst0 by done. by apply (Hu s).
  - intros s st0. cbn. destruct (decide (name = s)) as [<-|Hne].
    + rewrite lookup_insert_eq. intros [= <-]. cbn. by apply (Hu name).
    + rewrite lookup_insert_ne by done. apply Hu.
  - cbn. rewrite length_app. cbn. lia.
Qed.

Lemma addCars_related df dt (ls : list CarLine) :
  related ∅ df dt → unscheduled (Ticket.streets dt) →
  Forall (λ l, 1 ≤ cl_numStreets l) ls →
  agree (λ df' dt', related ∅ df' dt' ∧ unscheduled (Ticket.streets dt')
                    ∧ length (Ticket.cars dt') = (length (Ticket.cars dt) + length ls)%nat
                    ∧ Ticket.simulation dt' = Ticket.simulation dt)
        (Fifo.addCars df ls) (Ticket.addCars dt ls).
Proof.
  revert df dt. induction ls as [|l ls IH]; intros df dt H Hu Hls.
  - cbn. split; [done|]. split; [done|]. split; [lia|done].
  - apply Forall_cons in Hls as [Hl Hls]. cbn [Fifo.addCars Ticket.addCars].
    pose proof (addCar_related df dt l H Hu Hl) as Hs.
    destruct (Fifo.addCar df l) as [df1|ef]; destruct (Ticket.addCar dt l) as [dt1|et];
      cbn in *; try done.
    destruct Hs as (H1 & Hu1 & Hlen1 & Hsim1).
    specialize (IH df1 dt1 H1 Hu1 Hls).
    destruct (Fifo.addCars df1 ls) as [df2|ef]; destruct (Ticket.addCars dt1 ls) as [dt2|et];
      cbn in *; try done.
    destruct IH as (H2 & Hu2 & Hlen2 & Hsim2).
    split; [done|]. split; [done|]. split; [lia|congruence].
Qed.

(** [parseInputDataSet] of both files. *)
Lemma parseInputDataSet_related (inp : Input) :
  wellFormedInput inp →
  agree (λ df dt, related ∅ df dt ∧ unscheduled (Ticket.streets dt) ∧ countsCars dt)
        (Fifo.parseInputDataSet inp) (Ticket.parseInputDataSet inp).
Proof.
  intros (Hn & Hstreets & Hcars).
  unfold Fifo.parseInputDataSet, Ticket.parseInputDataSet.
  destruct (addStreets_related (streetLines inp) ∅ ∅ Hstreets)
    as (Hrel & Hq & Hu).
  { intros s. rewrite !lookup_empty. constructor. }
  { intros s sf. by rewrite lookup_empty. }
  { intros s st. by rewrite lookup_empty. }
  match goal with
  | |- agree _ (Fifo.addCars ?df _) (Ticket.addCars ?dt _) =>
      pose proof (addCars_related df dt (carLines inp)) as Hs
  end.
  match type of Hs with
  | ?A → _ => assert A as Hinit
  end.
  { split; cbn.
    - done.
    - constructor.
    - done.
    - intros s sf st k j Hsf _ Hk. by rewrite (Hq _ _ Hsf) in Hk.
    - intros i ct. by rewrite lookup_nil.
    - intros t s sf st _ Hst. rewrite fifo_green_empty. symmetry.
      apply ticket_green_unscheduled. by apply (Hu s). }
  specialize (Hs Hinit Hu Hcars).
  match goal with
  | |- agree _ ?a ?b => destruct a as [df|ef]; destruct b as [dt|et]
  end; cbn in *; try done.
  destruct Hs as (H & Hu' & Hlen & Hsim). split; [done|]. split; [done|].
  unfold countsCars. rewrite Hsim. cbn. rewrite Hn, Hlen. done.
Qed.

Lemma fifo_green_windows sch t s sf :
  Fifo.isTrafficLightGreen sch t s sf
  = greenOf t (fifoWindow sch (Fifo.Street.end_ sf) s).
Proof.
  unfold Fifo.isTrafficLightGreen, fifoWindow, greenOf.
  destruct (sch !! JS.String (Fifo.Street.end_ sf)) as [isch|]; cbn; [|done].
  destruct (Fifo.windows isch !! s) as [[gte lte]|]; cbn; done.
Qed.

Lemma ticket_green_windows t st :
  Ticket.isTrafficLightGreen t st = greenOf t (ticketWindow st).
Proof.
  unfold Ticket.isTrafficLightGreen, ticketWindow, greenOf.
  destruct (Ticket.Street.schedule st) as [[gte lte]|]; cbn; done.
Qed.

Lemma sameCore_refl st : sameCore st st.
Proof. by repeat split. Qed.

Lemma sameCore_trans a b c : sameCore a b → sameCore b c → sameCore a c.
Proof.
  intros (?&?&?&?&?) (?&?&?&?&?). repeat split; congruence.
Qed.

Lemma scheduleStreet_related df sim lines id pos m streets names last entries
    ws total streets' names' last' entries' :
  Simulation.duration (Fifo.simulation df) = Simulation.duration sim →
  endsRel df streets →
  entriesRel id m streets names ws →
  Ticket.scheduleStreet sim lines id pos (streets, names, last, entries)
    = Ok (streets', names', last', entries') →
  ∃ ws',
    Fifo.scheduleStreet df lines id pos (ws, last, total)
      = Ok (ws', last', total + (last' - last))
    ∧ endsRel df streets'
    ∧ entriesRel id m streets' names' ws'.
Proof.
  intros Hdur Hends [Hout Hin] H.
  unfold Ticket.scheduleStreet, Fifo.scheduleStreet in *.
  destruct (JS.nth lines pos) as [line|]; cbn in *; [|done].
  set (name := default "" (head (parseLine line))) in *.
  pose proof (Hends name) as He.
  destruct (streets !! name) as [st|] eqn:Hst.
  2:{ repeat case_match; done. }
  inversion He as [sf ? Hend Hsf|]; subst. 
  rewrite Hend. case_bool_decide as Hmis; [done|].
  destruct (parseLine line !! 1%nat ≫= JS.Number) as [g|]; [|done].
  rewrite Hdur.
  destruct ((g <? 1) || (Simulation.duration sim <? g)); [done|].
  cbn in H. injection H as <- <- <- <-.
  eexists. split; [f_equal; f_equal; lia|]. split; [|split].
  - intros s. destruct (decide (name = s)) as [<-|Hne].
    + rewrite lookup_insert_eq, <- Hsf. by constructor.
    + rewrite lookup_insert_ne by done. apply Hends.
  - intros s Hs. apply not_elem_of_app in Hs as [Hs Hsn].
    apply not_elem_of_cons in Hsn as [Hsn _].
    rewrite !lookup_insert_ne by done. by apply Hout.
  - intros s Hs. destruct (decide (name = s)) as [<-|Hne].
    + rewrite !lookup_insert_eq.
      assert (∃ st0, m !! name = Some st0 ∧ sameCore st0 st
                     ∧ Ticket.Street.scheduledTimeWindow st
                       = Ticket.Street.scheduledTimeWindow st0)
        as (st0 & Hm & Hcore & Hw).
      { destruct (decide (name ∈ names)) as [Hn|Hn].
        - destruct (Hin _ Hn) as (st0 & st1 & w & Hm & Hst1 & Hc & _ & _ & Hw & _).
          rewrite Hst in Hst1. injection Hst1 as <-. by exists st0.
        - destruct (Hout _ Hn) as [Hsame _]. rewrite Hst in Hsame.
          exists st. split; [done|]. split; [apply sameCore_refl|done]. }
      eexists st0, _, _. split; [done|]. split; [done|].
      split; [by destruct Hcore as (?&?&?&?&?)|].
      split; [by destruct (decide (JS.Number id = Some (Ticket.Street.end_ st)))|]. done.
    + apply elem_of_app in Hs as [Hs|Hs]; [|by apply list_elem_of_singleton in Hs].
      rewrite !lookup_insert_ne by done. by apply Hin.
Qed.

Lemma scheduleStreets_related df sim lines id n pos m streets names last entries
    ws total streets' names' last' entries' :
  Simulation.duration (Fifo.simulation df) = Simulation.duration sim →
  endsRel df streets →
  entriesRel id m streets names ws →
  Ticket.scheduleStreets sim lines id n pos (streets, names, last, entries)
    = Ok (streets', names', last', entries') →
  ∃ ws',
    Fifo.scheduleStreets df lines id n pos (ws, last, total)
      = Ok (ws', last', total + (last' - last))
    ∧ endsRel df streets'
    ∧ entriesRel id m streets' names' ws'.
Proof.
  intros Hdur. revert pos streets names last entries ws total.
  induction n as [|n IH];
    intros pos streets names last entries ws total Hends Hrel H.
  - cbn in H. injection H as <- <- <- <-. exists ws. cbn.
    split; [do 2 f_equal; lia|]. done.
  - cbn [Ticket.scheduleStreets Fifo.scheduleStreets] in *.
    destruct (Ticket.scheduleStreet sim lines id pos
                (streets, names, last, entries))
      as [[[[streets1 names1] last1] entries1]|e] eqn:H1; cbn in H; [|done].
    destruct (scheduleStreet_related _ _ _ _ _ _ _ _ _ _ ws total _ _ _ _
                Hdur Hends Hrel H1) as (ws1 & -> & Hends1 & Hrel1).
    cbn. destruct (IH _ _ _ _ _ ws1 (total + (last1 - last)) Hends1 Hrel1 H)
      as (ws' & -> & Hends' & Hrel').
    exists ws'. split; [do 2 f_equal; lia|]. done.
Qed.

Lemma set_window_twice w st :
  Ticket.Street.set_scheduledTimeWindow w
    (Ticket.Street.set_scheduledTimeWindow w st)
  = Ticket.Street.set_scheduledTimeWindow w st.
Proof. by destruct st. Qed.

Lemma setWindows_lookup w names (m : gmap string Ticket.Street.t) s :
  Ticket.setWindows w names m !! s
  = if decide (s ∈ names)
    then Ticket.Street.set_scheduledTimeWindow w <$> m !! s
    else m !! s.
Proof.
  unfold Ticket.setWindows. revert m.
  induction names as [|name names IH]; intros m.
  - by rewrite decide_False by apply not_elem_of_nil.
  - cbn [fold_left]. rewrite IH, lookup_alter.
    destruct (decide (name = s)) as [->|Hne].
    + rewrite (decide_True (P := s ∈ s :: names)) by apply list_elem_of_here.
      case_decide; [|done].
      destruct (m !! s); cbn; [|done]. by rewrite set_window_twice.
    + destruct (decide (s ∈ names)) as [Hin|Hin].
      * by rewrite decide_True by by apply list_elem_of_further.
      * rewrite decide_False; [done|].
        intros [?|?]%elem_of_cons; congruence.
Qed.

Lemma canonical_key id e :
  canonical id → JS.Number id = Some e → JS.String e = id.
Proof. unfold canonical. intros H He. rewrite He in H. by injection H. Qed.

Lemma entriesRel_start id (m : gmap string Ticket.Street.t) :
  entriesRel id m m [] ∅.
Proof.
  split.
  - intros s _. by rewrite lookup_empty.
  - intros s Hs. by apply not_elem_of_nil in Hs.
Qed.

Lemma scheduleIntersection_related df sim lines i m0 vf vt vt' :
  Simulation.duration (Fifo.simulation df) = Simulation.duration sim →
  endsRel df (Ticket.v_streets vt) →
  validRel m0 vf vt →
  Ticket.scheduleIntersection sim lines i vt = Ok vt' →
  Forall (λ b, canonical (s_intersectionId b)) (Ticket.scheduled vt') →
  ∃ vf', Fifo.scheduleIntersection df lines i vf = Ok vf'
         ∧ endsRel df (Ticket.v_streets vt')
         ∧ validRel m0 vf' vt'.
Proof.
  intros Hdur Hends Hrel H Hcan.
  unfold Ticket.scheduleIntersection, Fifo.scheduleIntersection in *.
  rewrite (vr_line _ _ _ Hrel).
  set (id := default "undefined" (JS.nth lines (Ticket.currentLine vt + i)))
    in *.
  destruct (JS.nth lines (Ticket.currentLine vt + i + 1)) as [count|];
    [|done].
  destruct (JS.Number count) as [n|]; [|done].
  case_bool_decide as Hdup; [done|].
  assert (Fifo.intersectionSchedulesById vf !! id = None) as Hfresh.
  { apply eq_None_not_Some. by rewrite (vr_keys _ _ _ Hrel). }
  rewrite bool_decide_false by by rewrite (vr_keys _ _ _ Hrel).
  destruct (Ticket.scheduleStreets sim lines id (Z.to_nat n)
              (Ticket.currentLine vt + i + 2) (Ticket.v_streets vt, [], 0, []))
    as [[[[streets' names'] last'] entries']|e] eqn:Hs; cbn in H; [|done].
  destruct (scheduleStreets_related _ _ _ _ _ _ _ _ _ _ _ ∅
              (Fifo.totalCycles_sum vf) _ _ _ _
              Hdur Hends (entriesRel_start id _) Hs)
    as (ws' & -> & Hends' & Hout & Hin).
  injection H as <-. cbn in Hcan |- *.
  apply Forall_app in Hcan as [_ Hcan]. rewrite Forall_singleton in Hcan.
  cbn in Hcan. eexists. split; [done|]. split.
  - intros s. rewrite setWindows_lookup. specialize (Hends' s).
    case_decide; [|done].
    destruct Hends'; cbn; constructor. by destruct y.
  - split; cbn.
    + by rewrite (vr_num _ _ _ Hrel).
    + done.
    + rewrite (vr_total _ _ _ Hrel). lia.
    + intros x. rewrite lookup_insert, elem_of_union, elem_of_singleton.
      rewrite <- (vr_keys _ _ _ Hrel).
      case_decide as Hx; [subst x|].
      * split; [by left|by eexists].
      * split; [by right|]. intros [?|?]; [congruence|done].
    + intros s. rewrite setWindows_lookup. pose proof (vr_core _ _ _ Hrel s) as Hc.
      destruct (decide (s ∈ names')) as [Hs'|Hs'].
      * destruct (Hin _ Hs') as (st0 & st & w & Hm & Hst & Hcore & _).
        rewrite Hst. rewrite Hm in Hc. inversion Hc as [x ? Hx|]; subst.
        cbn. constructor. eapply sameCore_trans; [done|].
        eapply sameCore_trans; [done|]. by destruct st.
      * destruct (Hout _ Hs') as [-> _]. done.
    + intros s st'. rewrite setWindows_lookup.
      destruct (decide (s ∈ names')) as [Hs'|Hs'].
      * destruct (Hin _ Hs') as (st0 & st & w & Hm & Hst & Hcore & Hid & Hw & _ & Hws).
        rewrite Hst. cbn. intros [= <-].
        unfold fifoWindow, ticketWindow.
        replace (Ticket.Street.end_ (Ticket.Street.set_scheduledTimeWindow last' st))
          with (Ticket.Street.end_ st) by by destruct st.
        rewrite (canonical_key _ _ Hcan Hid), lookup_insert_eq. cbn.
        rewrite Hws. cbn.
        replace (Ticket.Street.schedule (Ticket.Street.set_scheduledTimeWindow last' st))
          with (Ticket.Street.schedule st) by by destruct st.
        rewrite Hw. cbn. by destruct st.
      * destruct (Hout _ Hs') as [-> Hws]. intros Hst'.
        pose proof (vr_windows _ _ _ Hrel _ _ Hst') as Hold.
        rewrite <- Hold. unfold fifoWindow.
        destruct (decide (id = JS.String (Ticket.Street.end_ st'))) as [Hk|Hk].
        -- rewrite <- Hk, lookup_insert_eq, Hfresh. cbn. by rewrite Hws.
        -- by rewrite lookup_insert_ne.
Qed.

Lemma scheduleIntersections_related df sim lines n i m0 vf vt vt' :
  Simulation.duration (Fifo.simulation df) = Simulation.duration sim →
  endsRel df (Ticket.v_streets vt) →
  validRel m0 vf vt →
  Ticket.scheduleIntersections sim lines n i vt = Ok vt' →
  Forall (λ b, canonical (s_intersectionId b)) (Ticket.scheduled vt') →
  ∃ vf', Fifo.scheduleIntersections df lines n i vf = Ok vf'
         ∧ endsRel df (Ticket.v_streets vt')
         ∧ validRel m0 vf' vt'.
Proof.
  intros Hdur. revert i vf vt.
  induction n as [|n IH]; intros i vf vt Hends Hrel H Hcan.
  - cbn in H. injection H as <-. by exists vf.
  - cbn [Ticket.scheduleIntersections Fifo.scheduleIntersections] in *.
    destruct (Ticket.scheduleIntersection sim lines i vt) as [vt1|e] eqn:H1;
      cbn in H; [|done].
    pose proof (TicketFacts.scheduleIntersections_log _ _ _ _ _ _ H)
      as (bs & Hlog & _).
    assert (Forall (λ b, canonical (s_intersectionId b)) (Ticket.scheduled vt1))
      as Hcan1.
    { rewrite Hlog in Hcan. by apply Forall_app in Hcan as [? _]. }
    destruct (scheduleIntersection_related _ _ _ _ _ _ _ _ Hdur Hends Hrel H1 Hcan1)
      as (vf1 & -> & Hends1 & Hrel1).
    cbn. by apply (IH _ _ vt1).
Qed.

Lemma core_of (m0 m : gmap string Ticket.Street.t) s st :
  (∀ s, option_Forall2 sameCore (m0 !! s) (m !! s)) →
  m !! s = Some st → ∃ st0, m0 !! s = Some st0 ∧ sameCore st0 st.
Proof.
  intros Hc Hst. specialize (Hc s). rewrite Hst in Hc.
  inversion Hc as [st0 ? Hcore Hst0|]; subst. by exists st0.
Qed.

Lemma parseSubmittedDataSet_related df dt data dt' avg log :
  related ∅ df dt → unscheduled (Ticket.streets dt) →
  Ticket.parseSubmittedDataSet dt data = Ok (dt', avg, log) →
  Forall (λ b, canonical (s_intersectionId b)) log →
  ∃ sch, Fifo.parseSubmittedDataSet df data = Ok (sch, avg)
         ∧ related sch df dt'
         ∧ Ticket.simulation dt' = Ticket.simulation dt
         ∧ Ticket.cars dt' = Ticket.cars dt.
Proof.
  intros Hrel Hun H Hcan.
  unfold Ticket.parseSubmittedDataSet, Ticket.parseSubmittedLines,
    Fifo.parseSubmittedDataSet in *.
  set (lines := JS.split "010" data) in *.
  set (vt0 := Ticket.Build_Validation _ _ _ _ _ _) in H.
  destruct (Ticket.scheduleIntersections _ _ _ _ vt0) as [vt|e] eqn:Hv;
    cbn in H; [|done].
  injection H as <- <- <-.
  set (vf0 := Fifo.Build_Validation _ _ _ _).
  assert (endsRel df (Ticket.v_streets vt0)) as Hends0.
  { intros s. pose proof (rel_streets _ _ _ Hrel s) as Hs. cbn.
    destruct Hs as [sf st (_ & He & _)|]; by constructor. }
  assert (validRel (Ticket.streets dt) vf0 vt0) as Hrel0.
  { split; cbn; try done.
    - intros id. rewrite lookup_empty. split; [by intros [? ?]|].
      intros Hid. by apply not_elem_of_empty in Hid.
    - intros s. destruct (Ticket.streets dt !! s); constructor.
      apply sameCore_refl.
    - intros s st Hst. unfold fifoWindow, ticketWindow.
      rewrite lookup_empty, (Hun _ _ Hst). done. }
  destruct (scheduleIntersections_related df (Ticket.simulation dt) (tail lines)
              _ 0 _ vf0 vt0 vt
              (f_equal Simulation.duration (rel_simulation _ _ _ Hrel))
              Hends0 Hrel0 Hv Hcan)
    as (vf & Hvf & Hends & Hrelv).
  rewrite (rel_simulation _ _ _ Hrel), Hvf. cbn.
  rewrite (vr_total _ _ _ Hrelv), (vr_num _ _ _ Hrelv).
  eexists. split; [done|]. split; [|by destruct dt].
  split.
  - rewrite (rel_simulation _ _ _ Hrel). by destruct dt.
  - replace (Ticket.cars (Ticket.with_streets (Ticket.v_streets vt) dt))
      with (Ticket.cars dt) by by destruct dt.
    apply (rel_cars _ _ _ Hrel).
  - intros s.
    replace (Ticket.streets (Ticket.with_streets (Ticket.v_streets vt) dt))
      with (Ticket.v_streets vt) by by destruct dt.
    pose proof (rel_streets _ _ _ Hrel s) as Hs.
    pose proof (vr_core _ _ _ Hrelv s) as Hc.
    destruct Hc as [st0 st (?&?&?&?&?)|]; inversion Hs as [sf ? Hsr|]; subst;
      constructor.
    destruct Hsr as (?&?&?&?&?). repeat split; congruence.
  - intros s sf st k j Hsf Hst Hk.
    replace (Ticket.streets (Ticket.with_streets (Ticket.v_streets vt) dt))
      with (Ticket.v_streets vt) in Hst by by destruct dt.
    replace (Ticket.cars (Ticket.with_streets (Ticket.v_streets vt) dt))
      with (Ticket.cars dt) by by destruct dt.
    destruct (core_of _ _ _ _ (vr_core _ _ _ Hrelv) Hst)
      as (st0 & Hst0 & (_&_&_&Hlast&_)).
    rewrite <- Hlast. by apply (rel_queue _ _ _ Hrel s sf).
  - intros i ct.
    replace (Ticket.cars (Ticket.with_streets (Ticket.v_streets vt) dt))
      with (Ticket.cars dt) by by destruct dt.
    apply (rel_waiting _ _ _ Hrel).
  - intros t s sf st Hsf Hst.
    replace (Ticket.streets (Ticket.with_streets (Ticket.v_streets vt) dt))
      with (Ticket.v_streets vt) in Hst by by destruct dt.
    rewrite fifo_green_windows, ticket_green_windows.
    specialize (Hends s). rewrite Hsf, Hst in Hends.
    inversion Hends as [? ? He|]; subst. rewrite He.
    by rewrite (vr_windows _ _ _ Hrelv _ _ Hst).
Qed.

(** C7, amended.  On a well-formed dataset, whose header counts its lines
    and whose names meet no property that a JavaScript object holds unasked
    ([plainInput]), and a submission written in decimal numerals and names
    ([plainText]: no carriage return, no exponent, no hexadecimal literal)
    that the validator of [part_001] accepts and that writes every
    intersection identifier as the decimal numeral of its number,
    [index.js] and [part_001] hand the same final car states (arrived flag,
    score and commute time of every car) to [createInsights], and the same
    report; a run that fails fails with the same exception in both.  The
    hypotheses [plainInput] and [plainText] are the inputs on which the
    embedding reads names and numbers as JavaScript does; outside them
    nothing is stated. *)
Theorem fifo_ticket_agree (inp : Input) (data : string) (d d' : Ticket.Dataset)
    (avg : Averages) (log : list Scheduled) :
  wellFormedInput inp →
  plainInput inp →
  plainText data →
  Ticket.parseInputDataSet inp = Ok d →
  Ticket.parseSubmittedDataSet d data = Ok (d', avg, log) →
  Forall (λ b, canonical (s_intersectionId b)) log →
  Fifo.finalCars inp data = Ticket.finalCars inp data
  ∧ Fifo.evaluate inp data = Ticket.evaluate inp data.
Proof.
  intros Hwf _ _ Hd Hs Hcan.
  pose proof (parseInputDataSet_related inp Hwf) as Hp.
  rewrite Hd in Hp. unfold agree in Hp.
  destruct (Fifo.parseInputDataSet inp) as [df|] eqn:Hdf; [|done].
  destruct Hp as (Hrel & Hun & Hcount).
  destruct (parseSubmittedDataSet_related _ _ _ _ _ _ Hrel Hun Hs Hcan)
    as (sch & Hfs & Hrel' & Hsim & Hcars).
  assert (countsCars d') as Hcount'.
  { unfold countsCars in *. by rewrite Hsim, Hcars. }
  pose proof (simulate_related _ _ _ Hrel' Hcount') as Hr.
  unfold Fifo.finalCars, Ticket.finalCars, Fifo.evaluate, Ticket.evaluate.
  rewrite Hd, Hdf. cbn. rewrite Hs, Hfs. cbn.
  destruct (Fifo.simulate sch df) as [[df2 ef]|ef],
    (Ticket.simulate d') as [[dt2 et]|et]; cbn in *; try done.
  - unfold Fifo.createInsights, Ticket.createInsights.
    by rewrite (related_views _ _ _ Hr), (rel_simulation _ _ _ Hr).
  - by subst.
Qed.

Lemma fifo_ticket_agree_witness :
  wellFormedInput Sample.input
  ∧ plainInput Sample.input
  ∧ plainText Sample.submission
  ∧ Ticket.parseInputDataSet Sample.input = Ok Sample.ticketParsed
  ∧ Ticket.parseSubmittedDataSet Sample.ticketParsed Sample.submission
    = Ok (Sample.ticketDataset, Sample.ticketAverages, Sample.ticketLog)
  ∧ Forall (λ b, canonical (s_intersectionId b)) Sample.ticketLog
  ∧ Fifo.finalCars Sample.input Sample.submission
    = Ticket.finalCars Sample.input Sample.submission
  ∧ Fifo.evaluate Sample.input Sample.submission
    = Ticket.evaluate Sample.input Sample.submission.
Proof.
  assert (wellFormedInput Sample.input) as Hwf.
  { split; [reflexivity|]. split; repeat constructor; cbn; lia. }
  assert (plainInput Sample.input) as Hin.
  { split; [reflexivity|]. split; [reflexivity|].
    split; repeat constructor. }
  assert (plainText Sample.submission) as Htx.
  { unfold plainText.
    change (JS.split "010" Sample.submission)
      with ["2"; "1"; "1"; "a 1"; "2"; "1"; "b 2"; ""].
    repeat constructor. }
  assert (Ticket.parseInputDataSet Sample.input = Ok Sample.ticketParsed)
    as Hd by (vm_compute; reflexivity).
  assert (Ticket.parseSubmittedDataSet Sample.ticketParsed Sample.submission
          = Ok (Sample.ticketDataset, Sample.ticketAverages, Sample.ticketLog))
    as Hs by (vm_compute; reflexivity).
  assert (Forall (λ b, canonical (s_intersectionId b)) Sample.ticketLog) as Hcan.
  { repeat constructor. }
  split; [exact Hwf|]. split; [exact Hin|]. split; [exact Htx|].
  split; [exact Hd|]. split; [exact Hs|]. split; [exact Hcan|].
  exact (fifo_ticket_agree Sample.input Sample.submission Sample.ticketParsed
           Sample.ticketDataset Sample.ticketAverages Sample.ticketLog
           Hwf Hin Htx Hd Hs Hcan).
Defined.

(** C7 as stated fails.  A submission that writes the identifier of
    intersection 1 as [01] passes the validation of both files, which
    compare the identifier as a number; [index.js] stores the schedule under
    the key [01] and looks it up under the key [1], so the light of street
    [a] never turns green and no car arrives, while in [part_001], which
    stores the window on the street, both cars arrive.  And a submission
    that names a street the dataset does not have passes the validation of
    [index.js], which then runs the engine, while [part_001] fails on it
    with a [TypeError]. *)
Lemma leading_zero_identifier_disagree :
  wellFormedInput Sample.input
  ∧ Fifo.finalCars Sample.input Sample.leadingZero
    = Ok [Build_CarView false 0 0; Build_CarView false 0 0]
  ∧ Ticket.finalCars Sample.input Sample.leadingZero
    = Ok [Build_CarView true 1003 3; Build_CarView true 1003 3]
  ∧ Fifo.evaluate Sample.input Sample.leadingZero
    ≠ Ticket.evaluate Sample.input Sample.leadingZero
  ∧ Fifo.finalCars Sample.input Sample.unknownStreet
    = Ok [Build_CarView false 0 0; Build_CarView true 1002 4]
  ∧ Ticket.finalCars Sample.input Sample.unknownStreet = Throw TypeError.
Proof.
  split; [split; [reflexivity|]; split; repeat constructor; cbn; lia|].
  split; [vm_compute; reflexivity|]. split; [vm_compute; reflexivity|].
  split; [intros H; vm_compute in H; discriminate|].
  split; vm_compute; reflexivity.
Qed.

End RefineFacts.

(** ** The report *)

Module InsightsFacts.

Lemma insertByCommuteTime_perm c l : insertByCommuteTime c l ≡ₚ c :: l.
Proof.
  induction l as [|x l IH]; cbn; [done|].
  case_match; [done|]. rewrite IH. apply Permutation_swap.
Qed.

Lemma sortByCommuteTime_perm l : sortByCommuteTime l ≡ₚ l.
Proof.
  induction l as [|c l IH]; cbn; [done|].
  rewrite insertByCommuteTime_perm. by constructor.
Qed.

Lemma insertByCommuteTime_sorted c l :
  StronglySorted byCommuteTime l →
  StronglySorted byCommuteTime (insertByCommuteTime c l).
Proof.
  induction 1 as [|x l Hs IH Hx]; cbn; [repeat constructor|].
  destruct (Z.leb_spec (v_commuteTime c) (v_commuteTime x)) as [Hle|Hlt].
  - constructor; [by constructor|]. constructor; [done|].
    eapply Forall_impl; [done|]. unfold byCommuteTime. intros y Hy. cbn in Hy. lia.
  - constructor; [done|]. rewrite insertByCommuteTime_perm.
    constructor; [unfold byCommuteTime; lia|done].
Qed.

Lemma sortByCommuteTime_sorted l :
  StronglySorted byCommuteTime (sortByCommuteTime l).
Proof.
  induction l as [|c l IH]; cbn; [constructor|].
  by apply insertByCommuteTime_sorted.
Qed.

Lemma fold_left_sum {A} (f : A → Z) (l : list A) (z : Z) :
  fold_left (λ sum c, sum + f c) l z = z + sumZ (f <$> l).
Proof.
  revert z. induction l as [|a l IH]; intros z; cbn.
  - unfold sumZ. cbn. lia.
  - rewrite IH. unfold sumZ. cbn. lia.
Qed.

Lemma sumZ_perm (l1 l2 : list Z) : l1 ≡ₚ l2 → sumZ l1 = sumZ l2.
Proof.
  unfold sumZ. induction 1; cbn; lia.
Qed.

Lemma sumZ_shift (b : Z) (l : list Z) :
  sumZ ((λ s, s - b) <$> l) = sumZ l - b * Z.of_nat (length l).
Proof.
  unfold sumZ. induction l as [|a l IH]; cbn [fmap list_fmap foldr length]; lia.
Qed.

Lemma sorted_head_least l c x :
  StronglySorted byCommuteTime l → head l = Some c → x ∈ l →
  v_commuteTime c ≤ v_commuteTime x.
Proof.
  intros Hs Hh Hx. destruct l as [|c0 l]; [done|]. injection Hh as ->.
  apply StronglySorted_inv in Hs as [_ Hall].
  apply elem_of_cons in Hx as [->|Hx]; [lia|].
  rewrite Forall_forall in Hall. by apply Hall.
Qed.

Lemma sorted_last_greatest l c x :
  StronglySorted byCommuteTime l → last l = Some c → x ∈ l →
  v_commuteTime x ≤ v_commuteTime c.
Proof.
  induction 1 as [|y l Hs IH Hall]; intros Hl Hx; [done|].
  destruct l as [|z l].
  - injection Hl as ->. apply list_elem_of_singleton in Hx as ->. lia.
  - cbn in Hl. apply elem_of_cons in Hx as [->|Hx]; [|by apply IH].
    rewrite Forall_forall in Hall. apply Hall.
    apply last_Some_elem_of. done.
Qed.

(** The totals of the report: the number of arrived cars, the score, and
    the sentence that splits the score into the bonus points of the arrived
    cars and the points for early arrival. *)
Theorem insights_totals (sim : Simulation.t) (avg : Averages)
    (cars : list CarView) :
  let ins := insights sim avg cars in
  let arrivedCars := filter (λ c, v_arrived c = true) cars in
  i_numArrivedCars ins = Z.of_nat (length arrivedCars)
  ∧ 0 ≤ i_numArrivedCars ins ≤ Z.of_nat (length cars)
  ∧ i_score ins = sumZ (v_score <$> arrivedCars)
  ∧ i_score ins = i_bonusPoints ins + i_earlyArrivalBonus ins
  ∧ i_averageCommuteTime ins
    = JS.div (sumZ (v_commuteTime <$> arrivedCars))
             (Z.of_nat (length arrivedCars)).
Proof.
  intros ins arrivedCars. subst ins. unfold insights. cbn.
  fold arrivedCars.
  pose proof (sortByCommuteTime_perm arrivedCars) as Hp.
  rewrite !fold_left_sum, !Z.add_0_l.
  rewrite (Permutation_length Hp).
  rewrite (sumZ_perm _ _ (fmap_Permutation v_score _ _ Hp)).
  rewrite (sumZ_perm _ _ (fmap_Permutation v_commuteTime _ _ Hp)).
  rewrite (sumZ_perm _ _ (fmap_Permutation
             (λ c, v_score c - Simulation.bonusPoint sim) _ _ Hp)).
  split; [done|]. split.
  { pose proof (length_filter (λ c, v_arrived c = true) cars).
    fold arrivedCars in H. lia. }
  split; [done|]. split; [|done].
  replace ((λ c, v_score c - Simulation.bonusPoint sim) <$> arrivedCars)
    with ((λ s, s - Simulation.bonusPoint sim) <$> (v_score <$> arrivedCars))
    by (by rewrite <- list_fmap_compose).
  rewrite sumZ_shift, length_fmap. lia.
Qed.

(** The earliest and the latest car of the report are arrived cars with
    the least and the greatest commute time; the report names none exactly
    when no car arrived, and the average commute time is then [NaN]. *)
Theorem insights_earliest_latest (sim : Simulation.t) (avg : Averages)
    (cars : list CarView) :
  let ins := insights sim avg cars in
  match i_earliest ins, i_latest ins with
  | Some (t1, s1), Some (t2, s2) =>
      (∃ c, c ∈ cars ∧ v_arrived c = true
            ∧ v_commuteTime c = t1 ∧ v_score c = s1)
      ∧ (∃ c, c ∈ cars ∧ v_arrived c = true
              ∧ v_commuteTime c = t2 ∧ v_score c = s2)
      ∧ ∀ c, c ∈ cars → v_arrived c = true →
             t1 ≤ v_commuteTime c ≤ t2
  | None, None =>
      (∀ c, c ∈ cars → v_arrived c = false)
      ∧ i_numArrivedCars ins = 0 ∧ i_score ins = 0
      ∧ i_averageCommuteTime ins = None
  | _, _ => False
  end.
Proof.
  intros ins. subst ins. unfold insights. cbn.
  set (arrivedCars := filter (λ c, v_arrived c = true) cars).
  pose proof (sortByCommuteTime_perm arrivedCars) as Hp.
  pose proof (sortByCommuteTime_sorted arrivedCars) as Hs.
  assert (∀ c, c ∈ sortByCommuteTime arrivedCars
               ↔ c ∈ cars ∧ v_arrived c = true) as Hin.
  { intros c. rewrite Hp. unfold arrivedCars. rewrite list_elem_of_filter.
    tauto. }
  destruct (sortByCommuteTime arrivedCars) as [|c0 l] eqn:E.
  - cbn. split.
    + intros c Hc. destruct (v_arrived c) eqn:Ha; [|done].
      exfalso. eapply not_elem_of_nil. apply Hin. done.
    + done.
  - rewrite <- E in *. 
    destruct (head (sortByCommuteTime arrivedCars)) as [c1|] eqn:Hh;
      [|by rewrite E in Hh].
    destruct (last (sortByCommuteTime arrivedCars)) as [c2|] eqn:Hl;
      [|by rewrite E, last_cons in Hl; destruct (last l)].
    cbn. split; [|split].
    + exists c1. apply head_Some_elem_of in Hh. apply Hin in Hh. tauto.
    + exists c2. apply last_Some_elem_of in Hl. apply Hin in Hl. tauto.
    + intros c Hc Ha. assert (c ∈ sortByCommuteTime arrivedCars) as Hc'
        by (by apply Hin).
      split.
      * by eapply sorted_head_least.
      * by eapply sorted_last_greatest.
Qed.

End InsightsFacts.

(** ** The parser of the input data set *)

Module ParserFacts.
Import Parsed.

Lemma startersFrom_length i j s ls :
  length (startersFrom i s ls) = length (startersFrom j s ls).
Proof.
  revert i j. induction ls as [|l ls IH]; intros i j; cbn; [done|].
  rewrite !length_app, (IH (S i) (S j)). by case_decide.
Qed.

Lemma startersFrom_app i s ls1 ls2 :
  startersFrom i s (ls1 ++ ls2)
  = startersFrom i s ls1 ++ startersFrom (i + length ls1) s ls2.
Proof.
  revert i. induction ls1 as [|l ls1 IH]; intros i; cbn.
  - by rewrite Nat.add_0_r.
  - rewrite IH, <- app_assoc. do 3 f_equal. lia.
Qed.

Lemma streetLineOf_snoc s ls l :
  streetLineOf s (ls ++ [l])
  = if decide (sl_name l = s) then Some l else streetLineOf s ls.
Proof.
  unfold streetLineOf. rewrite filter_app, filter_cons, filter_nil.
  case_decide.
  - by rewrite last_snoc.
  - by rewrite app_nil_r.
Qed.

Lemma ticket_addStreets_lookup (ls : list StreetLine) s :
  fold_left Ticket.addStreet ls ∅ !! s
  = (λ l, Ticket.Street.mk (sl_start l) (sl_end l) (sl_duration l) (-1) 0
                           None None) <$> streetLineOf s ls.
Proof.
  induction ls as [|l ls IH] using rev_ind; [done|].
  rewrite fold_left_app, streetLineOf_snoc. cbn. unfold Ticket.addStreet at 1.
  case_decide as Hs.
  - subst s. by rewrite lookup_insert_eq.
  - by rewrite lookup_insert_ne.
Qed.

Lemma fifo_addStreets_lookup (ls : list StreetLine) s :
  fold_left Fifo.addStreet ls ∅ !! s
  = (λ l, Fifo.Street.mk (sl_start l) (sl_end l) (sl_duration l) [])
    <$> streetLineOf s ls.
Proof.
  induction ls as [|l ls IH] using rev_ind; [done|].
  rewrite fold_left_app, streetLineOf_snoc. cbn. unfold Fifo.addStreet at 1.
  case_decide as Hs.
  - subst s. by rewrite lookup_insert_eq.
  - by rewrite lookup_insert_ne.
Qed.

(** *** [index.js] *)

Lemma fifo_addCars_Ok d ls d' :
  Fifo.addCars d ls = Ok d' →
  Fifo.simulation d' = Fifo.simulation d
  ∧ Fifo.cars d' = Fifo.cars d ++ (fifoCar <$> ls)
  ∧ (∀ s, Fifo.streets d' !! s
          = (λ st, Fifo.Street.set_carIdQueue
                     (Fifo.Street.carIdQueue st
                      ++ startersFrom (length (Fifo.cars d)) s ls) st)
            <$> Fifo.streets d !! s)
  ∧ Forall (λ l, ∃ name, firstStreet l = Some name
                         ∧ is_Some (Fifo.streets d !! name)) ls.
Proof.
  revert d. induction ls as [|l ls IH]; intros d H.
  - cbn in H. injection H as <-. split; [done|]. split; [by rewrite app_nil_r|].
    split; [|constructor]. intros s. cbn.
    destruct (Fifo.streets d !! s) as [[]|]; cbn; [|done].
    by rewrite app_nil_r.
  - cbn [Fifo.addCars] in H.
    destruct (Fifo.addCar d l) as [d1|e1] eqn:H1; cbn in H; [|done].
    unfold Fifo.addCar in H1.
    destruct (head (cl_streetNames l)) as [name|] eqn:Hh; cbn in H1; [|done].
    destruct (Fifo.streets d !! name) as [st|] eqn:Hst; cbn in H1; [|done].
    injection H1 as <-.
    destruct (IH _ H) as (Hsim & Hcars & Hstreets & Hall). cbn in *.
    split; [done|]. split; [by rewrite Hcars, <- app_assoc|].
    split.
    + intros s. rewrite Hstreets, length_app, Nat.add_1_r. cbn.
      unfold firstStreet. rewrite Hh.
      destruct (decide (name = s)) as [<-|Hne].
      * rewrite lookup_insert_eq, Hst, decide_True by done. cbn.
        by rewrite <- app_assoc.
      * rewrite lookup_insert_ne by done.
        rewrite decide_False by congruence. done.
    + constructor.
      * exists name. by rewrite Hst.
      * eapply Forall_impl; [done|]. cbn. intros l' (n & Hn & Hs).
        exists n. split; [done|].
        destruct (decide (name = n)) as [<-|Hne]; [by rewrite Hst|].
        by rewrite lookup_insert_ne in Hs.
Qed.

Lemma fifo_addCars_Throw d ls e :
  Fifo.addCars d ls = Throw e →
  e = TypeError
  ∧ ¬ Forall (λ l, ∃ name, firstStreet l = Some name
                           ∧ is_Some (Fifo.streets d !! name)) ls.
Proof.
  revert d. induction ls as [|l ls IH]; intros d H; [done|].
  cbn [Fifo.addCars] in H.
  destruct (Fifo.addCar d l) as [d1|e1] eqn:H1; cbn in H.
  - destruct (IH _ H) as [-> Hnot]. split; [done|].
    intros Hall. apply Forall_cons in Hall as [_ Hall]. apply Hnot.
    unfold Fifo.addCar in H1.
    destruct (head (cl_streetNames l)) as [name|] eqn:Hh; cbn in H1; [|done].
    destruct (Fifo.streets d !! name) as [st|] eqn:Hst; cbn in H1; [|done].
    injection H1 as <-. cbn.
    eapply Forall_impl; [done|]. cbn. intros l' (n & Hn & Hs).
    exists n. split; [done|].
    destruct (decide (name = n)) as [<-|Hne];
      [by rewrite lookup_insert_eq|by rewrite lookup_insert_ne].
  - injection H as <-. unfold Fifo.addCar in H1.
    destruct (head (cl_streetNames l)) as [name|] eqn:Hh; cbn in H1.
    + destruct (Fifo.streets d !! name) as [st|] eqn:Hst; cbn in H1; [done|].
      injection H1 as <-. split; [done|].
      intros Hall. apply Forall_cons in Hall as [(n & Hn & Hs) _].
      unfold firstStreet in Hn. rewrite Hh in Hn. injection Hn as <-.
      rewrite Hst in Hs. by destruct Hs.
    + injection H1 as <-. split; [done|].
      intros Hall. apply Forall_cons in Hall as [(n & Hn & Hs) _].
      unfold firstStreet in Hn. by rewrite Hh in Hn.
Qed.

(** What [parseInputDataSet] of [index.js] builds of an input data set
    whose header counts its street lines and its car lines and whose names
    meet no property that the dictionary of the streets holds unasked
    ([plainInput]): it succeeds exactly when the route of every car line
    starts on a street of the dataset, and fails with a [TypeError]
    otherwise; on success the header is kept, the cars are the car lines in
    the order of the file, at the end of the first street of their route,
    and every street carries the values of the last line that names it and
    the queue of the cars that start on it, in the order of the file. *)
Theorem fifo_parseInputDataSet_queues (inp : Input) :
  plainInput inp →
  if decide (Forall (startsOnStreet inp) (carLines inp))
  then ∃ d, Fifo.parseInputDataSet inp = Ok d
            ∧ Fifo.simulation d = header inp
            ∧ Fifo.cars d = fifoCar <$> carLines inp
            ∧ ∀ s, Fifo.streets d !! s
                   = (λ l, Fifo.Street.mk (sl_start l) (sl_end l)
                             (sl_duration l) (starters s (carLines inp)))
                     <$> streetLineOf s (streetLines inp)
  else Fifo.parseInputDataSet inp = Throw TypeError.
Proof.
  intros _. unfold Fifo.parseInputDataSet.
  set (d0 := Fifo.Build_Dataset _ _ _).
  assert (∀ l, startsOnStreet inp l
               ↔ ∃ name, firstStreet l = Some name
                         ∧ is_Some (Fifo.streets d0 !! name)) as Hknown.
  { intros l. unfold startsOnStreet. cbn.
    setoid_rewrite fifo_addStreets_lookup. by setoid_rewrite fmap_is_Some. }
  destruct (Fifo.addCars d0 (carLines inp)) as [d|e] eqn:H.
  - destruct (fifo_addCars_Ok _ _ _ H) as (Hsim & Hcars & Hstreets & Hall).
    rewrite decide_True.
    2:{ eapply Forall_impl; [done|]. intros l. by rewrite Hknown. }
    exists d. split; [done|]. split; [done|]. split; [done|].
    intros s. rewrite Hstreets. cbn. rewrite fifo_addStreets_lookup.
    by destruct (streetLineOf s (streetLines inp)).
  - destruct (fifo_addCars_Throw _ _ _ H) as [-> Hnot].
    rewrite decide_False; [done|]. intros Hall. apply Hnot.
    eapply Forall_impl; [done|]. intros l. by rewrite Hknown.
Qed.

Lemma fifo_parseInputDataSet_queues_witness :
  plainInput Sample.input
  ∧ ∃ d, Fifo.parseInputDataSet Sample.input = Ok d
         ∧ Fifo.simulation d = header Sample.input
         ∧ Fifo.cars d = fifoCar <$> carLines Sample.input
         ∧ ∀ s, Fifo.streets d !! s
                = (λ l, Fifo.Street.mk (sl_start l) (sl_end l)
                          (sl_duration l)
                          (starters s (carLines Sample.input)))
                  <$> streetLineOf s (streetLines Sample.input).
Proof.
  assert (plainInput Sample.input) as Hin.
  { split; [reflexivity|]. split; [reflexivity|].
    split; repeat constructor. }
  assert (Forall (startsOnStreet Sample.input) (carLines Sample.input))
    as Hstart.
  { repeat constructor; (exists "a"; split; [reflexivity|by eexists]). }
  split; [exact Hin|].
  pose proof (fifo_parseInputDataSet_queues Sample.input Hin) as H.
  rewrite (decide_True _ _ Hstart) in H. exact H.
Defined.

(** *** [part_001] *)

Lemma set_next_twice a b c st :
  a = b →
  Ticket.Street.set_nextQueuingNumber a
    (Ticket.Street.set_nextQueuingNumber c st)
  = Ticket.Street.set_nextQueuingNumber b st.
Proof. intros ->. by destruct st. Qed.

Lemma ticket_addCars_Ok d ls d' :
  Ticket.addCars d ls = Ok d' →
  Ticket.simulation d' = Ticket.simulation d
  ∧ length (Ticket.cars d') = (length (Ticket.cars d) + length ls)%nat
  ∧ (∀ j c, Ticket.cars d !! j = Some c → Ticket.cars d' !! j = Some c)
  ∧ (∀ k l, ls !! k = Some l →
       ∃ name st,
         firstStreet l = Some name ∧ Ticket.streets d !! name = Some st
         ∧ Ticket.cars d' !! (length (Ticket.cars d) + k)%nat
           = Some (ticketCar l
                     (Ticket.Street.nextQueuingNumber st
                      + Z.of_nat (length (starters name (take k ls))))))
  ∧ (∀ s, Ticket.streets d' !! s
          = (λ st, Ticket.Street.set_nextQueuingNumber
                     (Ticket.Street.nextQueuingNumber st
                      + Z.of_nat (length (starters s ls))) st)
            <$> Ticket.streets d !! s).
Proof.
  revert d. induction ls as [|l ls IH]; intros d H.
  - cbn in H. injection H as <-. split; [done|]. split; [cbn; lia|].
    split; [done|]. split; [done|]. intros s. cbn.
    destruct (Ticket.streets d !! s) as [[]|]; cbn; [|done].
    by rewrite Z.add_0_r.
  - cbn [Ticket.addCars] in H.
    destruct (Ticket.addCar d l) as [d1|e1] eqn:H1; cbn in H; [|done].
    unfold Ticket.addCar in H1.
    destruct (head (cl_streetNames l)) as [name|] eqn:Hh; cbn in H1; [|done].
    destruct (Ticket.streets d !! name) as [st|] eqn:Hst; cbn in H1; [|done].
    injection H1 as <-.
    destruct (IH _ H) as (Hsim & Hlen & Hold & Hnew & Hstreets). cbn in *.
    rewrite length_app in *. cbn in *.
    split; [done|]. split; [lia|]. split; [|split].
    + intros j c Hc. apply Hold. by apply lookup_app_l_Some.
    + intros [|k] l' Hl'.
      * cbn in Hl'. injection Hl' as <-. exists name, st.
        split; [done|]. split; [done|].
        rewrite Nat.add_0_r. apply Hold.
        rewrite lookup_app_r by lia. rewrite Nat.sub_diag. cbn.
        unfold ticketCar, firstStreet. rewrite Hh. cbn.
        by rewrite Z.add_0_r.
      * cbn in Hl'. destruct (Hnew _ _ Hl') as (n & st1 & Hn & Hst1 & Hc).
        exists n.
        replace (length (Ticket.cars d) + S k)%nat
          with (length (Ticket.cars d) + 1 + k)%nat by lia.
        rewrite Hc. unfold starters. cbn.
        rewrite length_app, (startersFrom_length 1 0 n (take k ls)).
        destruct (decide (name = n)) as [<-|Hne].
        -- rewrite lookup_insert_eq in Hst1. injection Hst1 as <-.
           exists st. split; [done|]. split; [done|].
           rewrite decide_True by done. cbn. do 2 f_equal. lia.
        -- rewrite lookup_insert_ne in Hst1 by done.
           exists st1. split; [done|]. split; [done|].
           rewrite decide_False by (unfold firstStreet; congruence).
           cbn. do 2 f_equal.
    + intros s. rewrite Hstreets. unfold starters. cbn.
      rewrite length_app, (startersFrom_length 1 0 s ls).
      destruct (decide (name = s)) as [<-|Hne].
      * rewrite lookup_insert_eq, Hst, decide_True by done. cbn.
        f_equal. apply set_next_twice. cbn. lia.
      * rewrite lookup_insert_ne by done.
        rewrite decide_False by (unfold firstStreet; congruence). done.
Qed.

Lemma ticket_addCars_known d ls d' :
  Ticket.addCars d ls = Ok d' →
  Forall (λ l, ∃ name, firstStreet l = Some name
                       ∧ is_Some (Ticket.streets d !! name)) ls.
Proof.
  intros H. destruct (ticket_addCars_Ok _ _ _ H) as (_ & _ & _ & Hnew & _).
  apply Forall_lookup. intros k l Hl.
  destruct (Hnew _ _ Hl) as (name & st & Hn & Hst & _).
  exists name. by rewrite Hst.
Qed.

Lemma ticket_addCars_Throw d ls e :
  Ticket.addCars d ls = Throw e →
  e = TypeError
  ∧ ¬ Forall (λ l, ∃ name, firstStreet l = Some name
                           ∧ is_Some (Ticket.streets d !! name)) ls.
Proof.
  revert d. induction ls as [|l ls IH]; intros d H; [done|].
  cbn [Ticket.addCars] in H.
  destruct (Ticket.addCar d l) as [d1|e1] eqn:H1; cbn in H.
  - destruct (IH _ H) as [-> Hnot]. split; [done|].
    intros Hall. apply Forall_cons in Hall as [_ Hall]. apply Hnot.
    unfold Ticket.addCar in H1.
    destruct (head (cl_streetNames l)) as [name|] eqn:Hh; cbn in H1; [|done].
    destruct (Ticket.streets d !! name) as [st|] eqn:Hst; cbn in H1; [|done].
    injection H1 as <-. cbn.
    eapply Forall_impl; [done|]. cbn. intros l' (n & Hn & Hs).
    exists n. split; [done|].
    destruct (decide (name = n)) as [<-|Hne];
      [by rewrite lookup_insert_eq|by rewrite lookup_insert_ne].
  - injection H as <-. unfold Ticket.addCar in H1.
    destruct (head (cl_streetNames l)) as [name|] eqn:Hh; cbn in H1.
    + destruct (Ticket.streets d !! name) as [st|] eqn:Hst; cbn in H1;
        [done|].
      injection H1 as <-. split; [done|].
      intros Hall. apply Forall_cons in Hall as [(n & Hn & Hs) _].
      unfold firstStreet in Hn. rewrite Hh in Hn. injection Hn as <-.
      rewrite Hst in Hs. by destruct Hs.
    + injection H1 as <-. split; [done|].
      intros Hall. apply Forall_cons in Hall as [(n & Hn & Hs) _].
      unfold firstStreet in Hn. by rewrite Hh in Hn.
Qed.

(** What [parseInputDataSet] of [part_001] builds of an input data set
    whose header counts its street lines and its car lines and whose names
    meet no property that the dictionary of the streets holds unasked
    ([plainInput]): it succeeds exactly when the route of every car line
    starts on a street of the dataset, and fails with a [TypeError]
    otherwise; on success the header is kept, the cars are the car lines in
    the order of the file, at the end of the first street of their route,
    not arrived; the cars that start on one street
    hold the tickets [0], [1], [2], ... in the order of the file; and every
    street carries the values of the last line that names it, no schedule,
    [lastQueuingNumber = -1] and the number of cars that start on it as its
    next ticket. *)
Theorem parseInputDataSet_tickets (inp : Input) :
  plainInput inp →
  if decide (Forall (startsOnStreet inp) (carLines inp))
  then ∃ d, Ticket.parseInputDataSet inp = Ok d
            ∧ Ticket.simulation d = header inp
            ∧ length (Ticket.cars d) = length (carLines inp)
            ∧ (∀ k l, carLines inp !! k = Some l →
                 ∃ name, firstStreet l = Some name
                   ∧ Ticket.cars d !! k
                     = Some (ticketCar l
                               (Z.of_nat (length
                                  (starters name (take k (carLines inp)))))))
            ∧ ∀ s, Ticket.streets d !! s
                   = (λ l, Ticket.Street.mk (sl_start l) (sl_end l)
                             (sl_duration l) (-1)
                             (Z.of_nat (length (starters s (carLines inp))))
                             None None)
                     <$> streetLineOf s (streetLines inp)
  else Ticket.parseInputDataSet inp = Throw TypeError.
Proof.
  intros _. unfold Ticket.parseInputDataSet.
  set (d0 := Ticket.Build_Dataset _ _ _).
  assert (∀ l, startsOnStreet inp l
               ↔ ∃ name, firstStreet l = Some name
                         ∧ is_Some (Ticket.streets d0 !! name)) as Hknown.
  { intros l. unfold startsOnStreet. cbn.
    setoid_rewrite ticket_addStreets_lookup.
    by setoid_rewrite fmap_is_Some. }
  destruct (Ticket.addCars d0 (carLines inp)) as [d|e] eqn:H.
  - destruct (ticket_addCars_Ok _ _ _ H)
      as (Hsim & Hlen & _ & Hnew & Hstreets).
    rewrite decide_True.
    2:{ eapply Forall_impl; [by eapply ticket_addCars_known|].
        intros l. by rewrite Hknown. }
    exists d. split; [done|]. split; [done|]. split; [done|]. split.
    + intros k l Hl. destruct (Hnew _ _ Hl) as (name & st & Hn & Hst & Hc).
      exists name. split; [done|]. cbn in Hc. rewrite Hc. cbn in Hst.
      rewrite ticket_addStreets_lookup in Hst.
      destruct (streetLineOf name (streetLines inp)); [|done].
      injection Hst as <-. done.
    + intros s. rewrite Hstreets. cbn. rewrite ticket_addStreets_lookup.
      by destruct (streetLineOf s (streetLines inp)).
  - destruct (ticket_addCars_Throw _ _ _ H) as [-> Hnot].
    rewrite decide_False; [done|]. intros Hall. apply Hnot.
    eapply Forall_impl; [done|]. intros l. by rewrite Hknown.
Qed.

Lemma parseInputDataSet_tickets_witness :
  plainInput Sample.input
  ∧ ∃ d, Ticket.parseInputDataSet Sample.input = Ok d
         ∧ Ticket.simulation d = header Sample.input
         ∧ length (Ticket.cars d) = length (carLines Sample.input)
         ∧ (∀ k l, carLines Sample.input !! k = Some l →
              ∃ name, firstStreet l = Some name
                ∧ Ticket.cars d !! k
                  = Some (ticketCar l
                            (Z.of_nat
                               (length (starters name
                                          (take k (carLines Sample.input)))))))
         ∧ ∀ s, Ticket.streets d !! s
                = (λ l, Ticket.Street.mk (sl_start l) (sl_end l)
                          (sl_duration l) (-1)
                          (Z.of_nat
                             (length (starters s (carLines Sample.input))))
                          None None)
                  <$> streetLineOf s (streetLines Sample.input).
Proof.
  assert (plainInput Sample.input) as Hin.
  { split; [reflexivity|]. split; [reflexivity|].
    split; repeat constructor. }
  assert (Forall (startsOnStreet Sample.input) (carLines Sample.input))
    as Hstart.
  { repeat constructor; (exists "a"; split; [reflexivity|by eexists]). }
  split; [exact Hin|].
  pose proof (parseInputDataSet_tickets Sample.input Hin) as H.
  rewrite (decide_True _ _ Hstart) in H. exact H.
Defined.

End ParserFacts.

(** ** The validator *)

Module ValidatorFacts.
Import Refine Validated.

Lemma sameCore_refl' st : sameCore st st.
Proof. by repeat split. Qed.

Lemma sameCore_trans' a b c : sameCore a b → sameCore b c → sameCore a c.
Proof. intros (?&?&?&?&?) (?&?&?&?&?). repeat split; congruence. Qed.

Lemma offsetOf_app_l entries new k :
  (k ≤ length entries)%nat →
  offsetOf (entries ++ new) k = offsetOf entries k.
Proof. intros Hk. unfold offsetOf. by rewrite take_app_le. Qed.

Lemma offsetOf_all entries : offsetOf entries (length entries) = sumZ (snd <$> entries).
Proof. unfold offsetOf. by rewrite firstn_all. Qed.

Lemma sumZ_snoc l x : sumZ (l ++ [x]) = sumZ l + x.
Proof. unfold sumZ. induction l as [|a l IH]; cbn; lia. Qed.

Lemma checked_core sim m m' id e :
  (∀ s, option_Forall2 sameCore (m !! s) (m' !! s)) →
  checked sim m' id e → checked sim m id e.
Proof.
  intros Hc (Hg & st & Hst & Hn). split; [done|].
  specialize (Hc e.1). rewrite Hst in Hc.
  inversion Hc as [st0 ? (_ & He & _) Hst0|]; subst.
  exists st0. split; [done|]. by rewrite He.
Qed.

Lemma scheduleStreet_inv sim lines id pos m streets names last entries
    streets' names' last' entries' :
  entriesInv sim id m streets names last entries →
  Ticket.scheduleStreet sim lines id pos (streets, names, last, entries)
    = Ok (streets', names', last', entries') →
  entriesInv sim id m streets' names' last' entries'.
Proof.
  intros (Hnames & Hlast & Hchk & Hout & Hin) H.
  unfold Ticket.scheduleStreet in H.
  destruct (JS.nth lines pos) as [line|]; cbn in H; [|done].
  set (name := default "" (head (parseLine line))) in *.
  destruct (streets !! name) as [st|] eqn:Hst.
  2:{ repeat case_match; done. }
  case_bool_decide as Hmis; [done|].
  destruct (parseLine line !! 1%nat ≫= JS.Number) as [g|]; [|done].
  destruct (Z.ltb_spec g 1) as [?|Hg1]; [done|].
  destruct (Z.ltb_spec (Simulation.duration sim) g) as [?|Hg2]; [done|].
  cbn in H. injection H as <- <- <- <-.
  assert (JS.Number id = Some (Ticket.Street.end_ st)) as Hid
    by (by destruct (decide (JS.Number id = Some (Ticket.Street.end_ st)))).
  assert (∃ st0, m !! name = Some st0 ∧ sameCore st0 st) as (st0 & Hm & Hcore).
  { destruct (decide (name ∈ names)) as [Hn|Hn].
    - destruct (Hin _ Hn) as (st0 & st1 & k & g' & Hm & Hst1 & Hc & _).
      rewrite Hst in Hst1. injection Hst1 as <-. by exists st0.
    - rewrite (Hout _ Hn) in Hst. exists st. split; [done|].
      apply sameCore_refl'. }
  split; [by rewrite Hnames, fmap_app|].
  split; [rewrite fmap_app; change (snd <$> [(name, g)]) with [g];
          rewrite sumZ_snoc; lia|].
  split.
  { apply Forall_app. split; [done|]. apply Forall_singleton.
    split; [cbn; lia|]. exists st0. split; [done|].
    destruct Hcore as (_ & -> & _). done. }
  split.
  - intros s Hs. apply not_elem_of_app in Hs as [Hs Hsn].
    apply not_elem_of_cons in Hsn as [Hsn _].
    rewrite lookup_insert_ne by done. by apply Hout.
  - intros s Hs. destruct (decide (name = s)) as [<-|Hne].
    + exists st0, (Ticket.Street.set_schedule (last, last + g - 1) st),
        (length entries), g.
      split; [done|]. split; [by rewrite lookup_insert_eq|].
      split; [by destruct Hcore as (?&?&?&?&?)|].
      split; [by rewrite lookup_app_r, Nat.sub_diag by lia|].
      rewrite offsetOf_app_l, offsetOf_all, <- Hlast by lia. done.
    + apply elem_of_app in Hs as [Hs|Hs];
        [|by apply list_elem_of_singleton in Hs].
      destruct (Hin _ Hs) as (st1 & st2 & k & g' & Hm1 & Hst2 & Hc & Hk & Hsch).
      exists st1, st2, k, g'. split; [done|].
      split; [by rewrite lookup_insert_ne|]. split; [done|].
      split; [by apply lookup_app_l_Some|].
      rewrite offsetOf_app_l; [done|].
      apply lookup_lt_Some in Hk. lia.
Qed.

Lemma scheduleStreets_inv sim lines id n pos m streets names last entries
    streets' names' last' entries' :
  entriesInv sim id m streets names last entries →
  Ticket.scheduleStreets sim lines id n pos (streets, names, last, entries)
    = Ok (streets', names', last', entries') →
  entriesInv sim id m streets' names' last' entries'.
Proof.
  revert pos streets names last entries.
  induction n as [|n IH]; intros pos streets names last entries Hinv H.
  - cbn in H. by injection H as <- <- <- <-.
  - cbn [Ticket.scheduleStreets] in H.
    destruct (Ticket.scheduleStreet sim lines id pos
                (streets, names, last, entries))
      as [[[[streets1 names1] last1] entries1]|e] eqn:H1; cbn in H; [|done].
    eapply IH; [|done]. by eapply scheduleStreet_inv.
Qed.

Lemma entriesInv_start sim id (m : gmap string Ticket.Street.t) :
  entriesInv sim id m m [] 0 [].
Proof.
  split; [done|]. split; [done|]. split; [constructor|]. split; [done|].
  intros s Hs. by apply not_elem_of_nil in Hs.
Qed.

Lemma scheduleIntersection_inv sim lines i m0 v v' :
  validInv sim m0 v →
  Ticket.scheduleIntersection sim lines i v = Ok v' →
  validInv sim m0 v'.
Proof.
  intros (Hnd & Hset & Hchk & Hcore & Hcomp) H.
  unfold Ticket.scheduleIntersection in H.
  set (id := default "undefined" (JS.nth lines (Ticket.currentLine v + i)))
    in *.
  destruct (JS.nth lines (Ticket.currentLine v + i + 1)) as [count|];
    [|done].
  destruct (JS.Number count) as [n|]; [|done].
  case_bool_decide as Hdup; [done|].
  destruct (Ticket.scheduleStreets sim lines id (Z.to_nat n)
              (Ticket.currentLine v + i + 2) (Ticket.v_streets v, [], 0, []))
    as [[[[streets' names'] last'] entries']|e] eqn:Hs; cbn in H; [|done].
  injection H as <-.
  destruct (scheduleStreets_inv _ _ _ _ _ _ _ _ _ _ _ _ _ _
              (entriesInv_start sim id _) Hs)
    as (Hnames & Hlast & Hchk' & Hout & Hin).
  split; [|split; [|split; [|split]]]; cbn.
  - rewrite fmap_app. apply NoDup_app. split; [done|]. split.
    + intros x Hx [->|Hx']%elem_of_cons; [by apply Hdup, Hset|].
      by apply not_elem_of_nil in Hx'.
    + apply NoDup_singleton.
  - intros x. rewrite fmap_app, elem_of_app, elem_of_union, elem_of_singleton,
      Hset. cbn. rewrite list_elem_of_singleton. tauto.
  - apply Forall_app. split; [done|]. apply Forall_singleton. cbn.
    eapply Forall_impl; [done|]. intros e0. by apply checked_core.
  - intros s. rewrite RefineFacts.setWindows_lookup.
    specialize (Hcore s).
    destruct (decide (s ∈ names')) as [Hs'|Hs'].
    + destruct (Hin _ Hs') as (st0 & st & k & g & Hm & Hst & Hc & _).
      rewrite Hst. rewrite Hm in Hcore.
      inversion Hcore as [x ? Hx|]; subst. cbn. constructor.
      eapply sameCore_trans'; [done|].
      eapply sameCore_trans'; [done|]. by destruct st.
    + by rewrite (Hout _ Hs').
  - intros s st'. rewrite RefineFacts.setWindows_lookup.
    destruct (decide (s ∈ names')) as [Hs'|Hs'].
    + destruct (Hin _ Hs') as (st0 & st & k & g & Hm & Hst & Hc & Hk & Hsch).
      rewrite Hst. cbn. intros [= <-]. right.
      eexists (length (Ticket.scheduled v)), _.
      split; [by rewrite lookup_app_r, Nat.sub_diag by lia|].
      exists k, g. cbn [s_entries s_intersectionId]. split; [done|].
      split; [by destruct st|].
      split; [unfold cycleLength; cbn [s_entries]; rewrite <- Hlast;
              by destruct st|].
      rewrite Forall_forall in Hchk'.
      destruct (Hchk' (s, g)) as (_ & st1 & Hst1 & Hn);
        [by eapply list_elem_of_lookup_2|].
      cbn in Hst1. rewrite Hm in Hst1. injection Hst1 as <-.
      rewrite Hn. destruct Hc as (_ & -> & _). by destruct st.
    + rewrite (Hout _ Hs'). intros Hst'.
      destruct (Hcomp _ _ Hst') as [?|(j & b & Hb & Hc)]; [by left|].
      right. exists j, b. split; [|done]. by apply lookup_app_l_Some.
Qed.

Lemma scheduleIntersections_inv sim lines n i m0 v v' :
  validInv sim m0 v →
  Ticket.scheduleIntersections sim lines n i v = Ok v' →
  validInv sim m0 v'.
Proof.
  revert i v. induction n as [|n IH]; intros i v Hinv H.
  - cbn in H. by injection H as <-.
  - cbn [Ticket.scheduleIntersections] in H.
    destruct (Ticket.scheduleIntersection sim lines i v) as [v1|e] eqn:H1;
      cbn in H; [|done].
    eapply IH; [|done]. by eapply scheduleIntersection_inv.
Qed.

Lemma parseSubmittedDataSet_inv d data d' avg log :
  Ticket.parseSubmittedDataSet d data = Ok (d', avg, log) →
  ∃ v, validInv (Ticket.simulation d) (Ticket.streets d) v
       ∧ d' = Ticket.with_streets (Ticket.v_streets v) d
       ∧ log = Ticket.scheduled v.
Proof.
  unfold Ticket.parseSubmittedDataSet, Ticket.parseSubmittedLines.
  intros H.
  match type of H with
  | context [Ticket.scheduleIntersections ?sim ?lines ?n ?i ?v0] =>
      destruct (Ticket.scheduleIntersections sim lines n i v0)
        as [v|e] eqn:Hv; cbn in H; [|done];
      pose proof (scheduleIntersections_inv sim lines n i
                    (Ticket.streets d) v0 v) as Hinv
  end.
  injection H as <- _ <-. exists v. split; [|done].
  apply Hinv; [|done]. unfold validInv. cbn.
  split; [constructor|]. split.
  { intros id. split; intros Hid; [by apply not_elem_of_empty in Hid|].
    by apply not_elem_of_nil in Hid. }
  split; [constructor|]. split.
  - intros s. destruct (Ticket.streets d !! s); constructor.
    apply sameCore_refl'.
  - intros s st Hst. by left.
Qed.

Lemma sumZ_nonneg (l : list Z) : Forall (λ g, 0 ≤ g) l → 0 ≤ sumZ l.
Proof. unfold sumZ. induction 1; cbn; lia. Qed.

Lemma sumZ_app' l1 l2 : sumZ (l1 ++ l2) = sumZ l1 + sumZ l2.
Proof. unfold sumZ. induction l1 as [|a l1 IH]; cbn; lia. Qed.

Lemma offsetOf_bounds (entries : list (string * Z)) k s g :
  Forall (λ e, 1 ≤ e.2) entries →
  entries !! k = Some (s, g) →
  0 ≤ offsetOf entries k ∧ 1 ≤ g
  ∧ offsetOf entries k + g ≤ sumZ (snd <$> entries).
Proof.
  intros Hall Hk. unfold offsetOf.
  assert (∀ l : list (string * Z), Forall (λ e, 1 ≤ e.2) l →
                                   0 ≤ sumZ (snd <$> l)) as Hnn.
  { intros l Hl. apply sumZ_nonneg, Forall_fmap.
    eapply Forall_impl; [done|]. cbn. lia. }
  pose proof (Hnn _ (Forall_take _ k _ Hall)) as HA.
  pose proof (Hnn _ (Forall_drop _ (S k) _ Hall)) as HB.
  rewrite Forall_forall in Hall.
  pose proof (Hall _ (list_elem_of_lookup_2 _ _ _ Hk)) as Hg. cbn in Hg.
  pose proof (take_drop_middle _ _ _ Hk) as E.
  remember (take k entries) as A. remember (drop (S k) entries) as B.
  rewrite <- E, fmap_app, sumZ_app', fmap_cons.
  unfold sumZ in *. cbn. lia.
Qed.

Lemma offsetOf_mono (entries : list (string * Z)) k1 k2 s g :
  Forall (λ e, 1 ≤ e.2) entries →
  entries !! k1 = Some (s, g) → (k1 < k2)%nat →
  offsetOf entries k1 + g ≤ offsetOf entries k2.
Proof.
  intros Hall Hk Hlt. unfold offsetOf.
  replace k2 with (S k1 + (k2 - S k1))%nat by lia.
  rewrite <- take_take_drop.
  rewrite fmap_app, sumZ_app', (take_S_r _ _ _ Hk), fmap_app, sumZ_app'.
  assert (0 ≤ sumZ (snd <$> take (k2 - S k1) (drop (S k1) entries))).
  { apply sumZ_nonneg, Forall_fmap, Forall_take, Forall_drop.
    eapply Forall_impl; [done|]. cbn. lia. }
  unfold sumZ in *. cbn. lia.
Qed.

Lemma checked_positive sim m id entries :
  Forall (checked sim m id) entries → Forall (λ e, 1 ≤ e.2) entries.
Proof.
  intros H. eapply Forall_impl; [done|]. by intros e ((? & _) & _).
Qed.

(** What validation guarantees of a submission that [part_001] accepts: no
    identifier is scheduled twice; every green duration lies between [1]
    and the duration of the simulation; every scheduled street is a street
    of the dataset that enters the intersection that schedules it; and the
    validation changes nothing but the schedule of the streets. *)
Theorem validated_submission_checked (d d' : Ticket.Dataset) (data : string)
    (avg : Averages) (log : list Scheduled) :
  Ticket.parseSubmittedDataSet d data = Ok (d', avg, log) →
  NoDup (s_intersectionId <$> log)
  ∧ Forall (λ b, Forall (checked (Ticket.simulation d) (Ticket.streets d)
                                 (s_intersectionId b)) (s_entries b)) log
  ∧ Ticket.simulation d' = Ticket.simulation d
  ∧ Ticket.cars d' = Ticket.cars d
  ∧ ∀ s, option_Forall2 sameCore (Ticket.streets d !! s)
                                 (Ticket.streets d' !! s).
Proof.
  intros H.
  destruct (parseSubmittedDataSet_inv _ _ _ _ _ H)
    as (v & (Hnd & _ & Hchk & Hcore & _) & -> & ->).
  split; [done|]. split; [done|]. by destruct d.
Qed.

(** The windows that [part_001] compiles for an accepted submission, the
    dataset having no schedule before: a street with a window carries the
    window of an entry of a scheduled intersection that it enters; the window
    starts at the sum of the green durations before the entry, lasts for the
    green duration, and lies within the cycle of the intersection. *)
Theorem validated_windows_within_cycle (d d' : Ticket.Dataset)
    (data : string) (avg : Averages) (log : list Scheduled) :
  Ticket.parseSubmittedDataSet d data = Ok (d', avg, log) →
  unscheduled (Ticket.streets d) →
  ∀ s st gte lte,
    Ticket.streets d' !! s = Some st →
    Ticket.Street.schedule st = Some (gte, lte) →
    ∃ i b, log !! i = Some b ∧ compiled b s st
           ∧ 0 ≤ gte ≤ lte ∧ lte < cycleLength b.
Proof.
  intros H Hun s st gte lte Hst Hsch.
  destruct (parseSubmittedDataSet_inv _ _ _ _ _ H)
    as (v & (_ & _ & Hchk & _ & Hcomp) & -> & ->).
  assert (Ticket.v_streets v !! s = Some st) as Hst' by (by destruct d).
  destruct (Hcomp _ _ Hst') as [Hold|(i & b & Hb & Hc)].
  { rewrite (Hun _ _ Hold) in Hsch. done. }
  exists i, b. split; [done|]. split; [done|].
  destruct Hc as (k & g & Hk & Hsch' & _).
  rewrite Hsch in Hsch'. injection Hsch' as -> ->.
  rewrite Forall_forall in Hchk.
  pose proof (Hchk _ (list_elem_of_lookup_2 _ _ _ Hb)) as Hb'.
  destruct (offsetOf_bounds _ _ _ _ (checked_positive _ _ _ _ Hb') Hk)
    as (H0 & Hg & Hle).
  unfold cycleLength. lia.
Qed.

(** One green light per intersection: after [part_001] accepted a
    submission whose identifiers are the numerals of different numbers, the
    dataset having no schedule before, two different streets that enter the
    same intersection are never green at the same tick. *)
Theorem one_green_per_intersection (d d' : Ticket.Dataset) (data : string)
    (avg : Averages) (log : list Scheduled) :
  Ticket.parseSubmittedDataSet d data = Ok (d', avg, log) →
  unscheduled (Ticket.streets d) →
  NoDup ((λ b, JS.Number (s_intersectionId b)) <$> log) →
  ∀ s1 s2 st1 st2 t,
    s1 ≠ s2 →
    Ticket.streets d' !! s1 = Some st1 →
    Ticket.streets d' !! s2 = Some st2 →
    Ticket.Street.end_ st1 = Ticket.Street.end_ st2 →
    Ticket.isTrafficLightGreen t st1 = true →
    Ticket.isTrafficLightGreen t st2 = false.
Proof.
  intros H Hun Hnd s1 s2 st1 st2 t Hne Hst1 Hst2 Hend Hg1.
  destruct (Ticket.isTrafficLightGreen t st2) eqn:Hg2; [exfalso|done].
  apply TicketFacts.isTrafficLightGreen_spec in Hg1
    as (gte1 & lte1 & w1 & Hsch1 & Hw1 & _ & Hle1).
  apply TicketFacts.isTrafficLightGreen_spec in Hg2
    as (gte2 & lte2 & w2 & Hsch2 & Hw2 & _ & Hle2).
  destruct (parseSubmittedDataSet_inv _ _ _ _ _ H)
    as (v & (_ & _ & Hchk & _ & Hcomp) & -> & ->).
  assert (Ticket.v_streets v !! s1 = Some st1) as Hst1' by (by destruct d).
  assert (Ticket.v_streets v !! s2 = Some st2) as Hst2' by (by destruct d).
  destruct (Hcomp _ _ Hst1') as [Hold|(i1 & b1 & Hb1 & Hc1)].
  { rewrite (Hun _ _ Hold) in Hsch1. done. }
  destruct (Hcomp _ _ Hst2') as [Hold|(i2 & b2 & Hb2 & Hc2)].
  { rewrite (Hun _ _ Hold) in Hsch2. done. }
  destruct Hc1 as (k1 & g1 & Hk1 & Hsch1' & Hw1' & Hn1).
  destruct Hc2 as (k2 & g2 & Hk2 & Hsch2' & Hw2' & Hn2).
  assert (i1 = i2) as <-.
  { eapply NoDup_lookup; [done|..].
    - by rewrite list_lookup_fmap, Hb1.
    - rewrite list_lookup_fmap, Hb2. cbn. by rewrite Hn1, Hn2, Hend. }
  rewrite Hb1 in Hb2. injection Hb2 as <-.
  rewrite Hsch1 in Hsch1'. injection Hsch1' as -> ->.
  rewrite Hsch2 in Hsch2'. injection Hsch2' as -> ->.
  rewrite Hw1 in Hw1'. injection Hw1' as ->.
  rewrite Hw2 in Hw2'. injection Hw2' as ->.
  rewrite Forall_forall in Hchk.
  pose proof (checked_positive _ _ _ _
                (Hchk _ (list_elem_of_lookup_2 _ _ _ Hb1))) as Hpos.
  destruct (Nat.lt_total k1 k2) as [Hlt|[->|Hlt]].
  - pose proof (offsetOf_mono _ _ _ _ _ Hpos Hk1 Hlt). lia.
  - rewrite Hk1 in Hk2. by injection Hk2.
  - pose proof (offsetOf_mono _ _ _ _ _ Hpos Hk2 Hlt). lia.
Qed.

Lemma validated_submission_checked_witness :
  Ticket.parseSubmittedDataSet Sample.ticketParsed Sample.submission
  = Ok (Sample.ticketDataset, Sample.ticketAverages, Sample.ticketLog)
  ∧ NoDup (s_intersectionId <$> Sample.ticketLog)
  ∧ Forall (λ b, Forall (checked (Ticket.simulation Sample.ticketParsed)
                                 (Ticket.streets Sample.ticketParsed)
                                 (s_intersectionId b)) (s_entries b))
           Sample.ticketLog
  ∧ Ticket.simulation Sample.ticketDataset
    = Ticket.simulation Sample.ticketParsed
  ∧ Ticket.cars Sample.ticketDataset = Ticket.cars Sample.ticketParsed
  ∧ ∀ s, option_Forall2 sameCore (Ticket.streets Sample.ticketParsed !! s)
                                 (Ticket.streets Sample.ticketDataset !! s).
Proof.
  assert (Ticket.parseSubmittedDataSet Sample.ticketParsed Sample.submission
          = Ok (Sample.ticketDataset, Sample.ticketAverages, Sample.ticketLog))
    as Hs by (vm_compute; reflexivity).
  split; [exact Hs|].
  exact (validated_submission_checked _ _ _ _ _ Hs).
Defined.

Lemma validated_windows_within_cycle_witness :
  ∃ st,
    Ticket.streets Sample.ticketDataset !! "b" = Some st
    ∧ Ticket.Street.schedule st = Some (0, 1)
    ∧ ∃ i b, Sample.ticketLog !! i = Some b ∧ compiled b "b" st
             ∧ 0 ≤ 0 ≤ 1 ∧ 1 < cycleLength b.
Proof.
  assert (Ticket.parseSubmittedDataSet Sample.ticketParsed Sample.submission
          = Ok (Sample.ticketDataset, Sample.ticketAverages, Sample.ticketLog))
    as Hs by (vm_compute; reflexivity).
  assert (unscheduled (Ticket.streets Sample.ticketParsed)) as Hun.
  { apply (bool_decide_unpack (map_Forall _ _)). vm_compute. exact I. }
  destruct (Ticket.streets Sample.ticketDataset !! "b") as [st|] eqn:Hst;
    [|vm_compute in Hst; discriminate].
  assert (Ticket.Street.schedule st = Some (0, 1)) as Hsch
    by (vm_compute in Hst; injection Hst as <-; reflexivity).
  exists st. split; [reflexivity|]. split; [exact Hsch|].
  exact (validated_windows_within_cycle _ _ _ _ _ Hs Hun "b" st 0 1 Hst Hsch).
Defined.

Lemma one_green_per_intersection_witness :
  ∃ st1 st2,
    Ticket.streets SampleJunction.junctionDataset !! "a" = Some st1
    ∧ Ticket.streets SampleJunction.junctionDataset !! "b" = Some st2
    ∧ Ticket.Street.end_ st1 = Ticket.Street.end_ st2
    ∧ Ticket.isTrafficLightGreen 0 st1 = true
    ∧ Ticket.isTrafficLightGreen 0 st2 = false.
Proof.
  assert (Ticket.parseSubmittedDataSet SampleJunction.junctionParsed
            SampleJunction.junctionSubmission
          = Ok (SampleJunction.junctionDataset, SampleJunction.junctionAverages,
                SampleJunction.junctionLog))
    as Hs by (vm_compute; reflexivity).
  assert (unscheduled (Ticket.streets SampleJunction.junctionParsed)) as Hun.
  { apply (bool_decide_unpack (map_Forall _ _)). vm_compute. exact I. }
  assert (NoDup ((λ b, JS.Number (s_intersectionId b))
                 <$> SampleJunction.junctionLog)) as Hnd.
  { cbn. apply NoDup_singleton. }
  destruct (Ticket.streets SampleJunction.junctionDataset !! "a") as [st1|] eqn:H1;
    [|vm_compute in H1; discriminate].
  destruct (Ticket.streets SampleJunction.junctionDataset !! "b") as [st2|] eqn:H2;
    [|vm_compute in H2; discriminate].
  assert (Ticket.Street.end_ st1 = Ticket.Street.end_ st2
          ∧ Ticket.isTrafficLightGreen 0 st1 = true) as [Hend Hg].
  { vm_compute in H1. injection H1 as <-. vm_compute in H2.
    injection H2 as <-. split; reflexivity. }
  exists st1, st2. split; [reflexivity|]. split; [reflexivity|].
  split; [exact Hend|]. split; [exact Hg|].
  refine (one_green_per_intersection _ _ _ _ _ Hs Hun Hnd "a" "b" st1 st2 0
            _ H1 H2 Hend Hg).
  discriminate.
Defined.

(** *** [index.js] *)

Lemma fifo_scheduleStreet_laidOut d lines id pos ws last total ws' last'
    total' entries :
  laidOut ws entries → last = sumZ (snd <$> entries) →
  Fifo.scheduleStreet d lines id pos (ws, last, total)
    = Ok (ws', last', total') →
  ∃ entries', laidOut ws' entries' ∧ last' = sumZ (snd <$> entries').
Proof.
  intros [Hpos Hws] Hlast H. unfold Fifo.scheduleStreet in H.
  destruct (JS.nth lines pos) as [line|]; cbn in H; [|done].
  set (name := default "" (head (parseLine line))) in *.
  destruct (match Fifo.streets d !! name with
            | Some st => _
            | None => false
            end); [done|].
  destruct (parseLine line !! 1%nat ≫= JS.Number) as [g|]; [|done].
  destruct (Z.ltb_spec g 1) as [?|Hg1]; [done|].
  destruct (Z.ltb_spec (Simulation.duration (Fifo.simulation d)) g)
    as [?|Hg2]; [done|].
  cbn in H. injection H as <- <- <-.
  exists (entries ++ [(name, g)]). split; [split|].
  - apply Forall_app. split; [done|]. by apply Forall_singleton.
  - intros s w. destruct (decide (name = s)) as [<-|Hne].
    + rewrite lookup_insert_eq. intros [= <-].
      exists (length entries), g.
      split; [by rewrite lookup_app_r, Nat.sub_diag by lia|].
      by rewrite offsetOf_app_l, offsetOf_all, <- Hlast by lia.
    + rewrite lookup_insert_ne by done. intros Hw.
      destruct (Hws _ _ Hw) as (k & g' & Hk & ->).
      exists k, g'. split; [by apply lookup_app_l_Some|].
      rewrite offsetOf_app_l; [done|]. apply lookup_lt_Some in Hk. lia.
  - rewrite fmap_app. change (snd <$> [(name, g)]) with [g].
    rewrite sumZ_snoc. lia.
Qed.

Lemma fifo_scheduleStreets_laidOut d lines id n pos ws last total ws' last'
    total' entries :
  laidOut ws entries → last = sumZ (snd <$> entries) →
  Fifo.scheduleStreets d lines id n pos (ws, last, total)
    = Ok (ws', last', total') →
  ∃ entries', laidOut ws' entries' ∧ last' = sumZ (snd <$> entries').
Proof.
  revert pos ws last total entries.
  induction n as [|n IH]; intros pos ws last total entries Hl Hlast H.
  - cbn in H. injection H as <- <- <-. by exists entries.
  - cbn [Fifo.scheduleStreets] in H.
    destruct (Fifo.scheduleStreet d lines id pos (ws, last, total))
      as [[[ws1 last1] total1]|e] eqn:H1; cbn in H; [|done].
    destruct (fifo_scheduleStreet_laidOut _ _ _ _ _ _ _ _ _ _ _ Hl Hlast H1)
      as (entries1 & Hl1 & Hlast1).
    by eapply IH.
Qed.

Lemma fifo_scheduleIntersection_inv d lines i v v' :
  fifoInv (Fifo.intersectionSchedulesById v) →
  Fifo.scheduleIntersection d lines i v = Ok v' →
  fifoInv (Fifo.intersectionSchedulesById v').
Proof.
  intros Hinv H. unfold Fifo.scheduleIntersection in H.
  set (id := default "undefined" (JS.nth lines (Fifo.currentLine v + i)))
    in *.
  destruct (JS.nth lines (Fifo.currentLine v + i + 1)) as [count|]; [|done].
  destruct (JS.Number count) as [n|]; [|done].
  case_bool_decide as Hdup; [done|].
  destruct (Fifo.scheduleStreets d lines id (Z.to_nat n)
              (Fifo.currentLine v + i + 2) (∅, 0, Fifo.totalCycles_sum v))
    as [[[ws last] total]|e] eqn:Hs; cbn in H; [|done].
  injection H as <-. cbn.
  assert (laidOut (∅ : gmap string (Z * Z)) []) as Hl0.
  { split; [constructor|]. intros s w Hw. by rewrite lookup_empty in Hw. }
  destruct (fifo_scheduleStreets_laidOut _ _ _ _ _ _ _ _ _ _ _ [] Hl0
              eq_refl Hs)
    as (entries & Hl & Hlast).
  intros id' isch. destruct (decide (id = id')) as [<-|Hne].
  - rewrite lookup_insert_eq. intros [= <-]. exists entries. cbn.
    by rewrite Hlast.
  - rewrite lookup_insert_ne by done. apply Hinv.
Qed.

Lemma fifo_scheduleIntersections_inv d lines n i v v' :
  fifoInv (Fifo.intersectionSchedulesById v) →
  Fifo.scheduleIntersections d lines n i v = Ok v' →
  fifoInv (Fifo.intersectionSchedulesById v').
Proof.
  revert i v. induction n as [|n IH]; intros i v Hinv H.
  - cbn in H. by injection H as <-.
  - cbn [Fifo.scheduleIntersections] in H.
    destruct (Fifo.scheduleIntersection d lines i v) as [v1|e] eqn:H1;
      cbn in H; [|done].
    eapply IH; [|done]. by eapply fifo_scheduleIntersection_inv.
Qed.

(** One green light per intersection in [index.js]: after the validation
    accepted a submission, every window lies within the cycle stored with
    it, and two different streets that end at the same intersection are
    never green at the same tick. *)
Theorem fifo_one_green_per_intersection (d : Fifo.Dataset) (data : string)
    (schedules : gmap string Fifo.IntersectionSchedule) (avg : Averages) :
  Fifo.parseSubmittedDataSet d data = Ok (schedules, avg) →
  (∀ id isch s gte lte,
     schedules !! id = Some isch →
     Fifo.windows isch !! s = Some (gte, lte) →
     ∃ w, Fifo.scheduledTimeWindow isch = Some w ∧ 0 ≤ gte ≤ lte ∧ lte < w)
  ∧ (∀ s1 s2 st1 st2 t,
       s1 ≠ s2 →
       Fifo.Street.end_ st1 = Fifo.Street.end_ st2 →
       Fifo.isTrafficLightGreen schedules t s1 st1 = true →
       Fifo.isTrafficLightGreen schedules t s2 st2 = false).
Proof.
  unfold Fifo.parseSubmittedDataSet. intros H.
  match type of H with
  | context [Fifo.scheduleIntersections ?d ?lines ?n ?i ?v0] =>
      destruct (Fifo.scheduleIntersections d lines n i v0)
        as [v|e] eqn:Hv; cbn in H; [|done];
      pose proof (fifo_scheduleIntersections_inv d lines n i v0 v) as Hinv
  end.
  injection H as <- _.
  assert (fifoInv (Fifo.intersectionSchedulesById v)) as Hfi.
  { apply Hinv; [|done]. intros id isch Hid. cbn in Hid.
    by rewrite lookup_empty in Hid. }
  clear Hinv Hv. split.
  - intros id isch s gte lte Hid Hw.
    destruct (Hfi _ _ Hid) as (entries & [Hpos Hws] & Hcycle).
    destruct (Hws _ _ Hw) as (k & g & Hk & [= -> ->]).
    destruct (offsetOf_bounds _ _ _ _ Hpos Hk) as (H0 & Hg & Hle).
    eexists. split; [done|]. lia.
  - intros s1 s2 st1 st2 t Hne Hend Hg1.
    destruct (Fifo.isTrafficLightGreen (Fifo.intersectionSchedulesById v)
                t s2 st2) eqn:Hg2; [exfalso|done].
    apply FifoFacts.fifo_isTrafficLightGreen_spec in Hg1
      as (isch1 & gte1 & lte1 & w1 & Hs1 & Hw1 & Hc1 & _ & Hle1).
    apply FifoFacts.fifo_isTrafficLightGreen_spec in Hg2
      as (isch2 & gte2 & lte2 & w2 & Hs2 & Hw2 & Hc2 & _ & Hle2).
    rewrite Hend, Hs2 in Hs1. injection Hs1 as <-.
    rewrite Hc2 in Hc1. injection Hc1 as <-.
    destruct (Hfi _ _ Hs2) as (entries & [Hpos Hws] & _).
    destruct (Hws _ _ Hw1) as (k1 & g1 & Hk1 & [= -> ->]).
    destruct (Hws _ _ Hw2) as (k2 & g2 & Hk2 & [= -> ->]).
    destruct (Nat.lt_total k1 k2) as [Hlt|[->|Hlt]].
    + pose proof (offsetOf_mono _ _ _ _ _ Hpos Hk1 Hlt). lia.
    + rewrite Hk1 in Hk2. by injection Hk2.
    + pose proof (offsetOf_mono _ _ _ _ _ Hpos Hk2 Hlt). lia.
Qed.

Lemma fifo_one_green_per_intersection_witness :
  Fifo.parseSubmittedDataSet SampleJunction.junctionFifo SampleJunction.junctionSubmission
  = Ok (SampleJunction.junctionSchedules, SampleJunction.junctionAverages)
  ∧ (∃ st1, Fifo.streets SampleJunction.junctionFifo !! "a" = Some st1
            ∧ Fifo.isTrafficLightGreen SampleJunction.junctionSchedules 0 "a" st1
              = true)
  ∧ (∀ id isch s gte lte,
       SampleJunction.junctionSchedules !! id = Some isch →
       Fifo.windows isch !! s = Some (gte, lte) →
       ∃ w, Fifo.scheduledTimeWindow isch = Some w
            ∧ 0 ≤ gte ≤ lte ∧ lte < w)
  ∧ (∀ s1 s2 st1 st2 t,
       s1 ≠ s2 →
       Fifo.Street.end_ st1 = Fifo.Street.end_ st2 →
       Fifo.isTrafficLightGreen SampleJunction.junctionSchedules t s1 st1 = true →
       Fifo.isTrafficLightGreen SampleJunction.junctionSchedules t s2 st2 = false).
Proof.
  assert (Fifo.parseSubmittedDataSet SampleJunction.junctionFifo
            SampleJunction.junctionSubmission
          = Ok (SampleJunction.junctionSchedules, SampleJunction.junctionAverages))
    as Hs by (vm_compute; reflexivity).
  split; [exact Hs|]. split.
  - eexists. split; vm_compute; reflexivity.
  - exact (fifo_one_green_per_intersection _ _ _ _ Hs).
Defined.

End ValidatorFacts.

(** ** Routes and driving time *)

Module EngineFacts.
Import Ticket TicketFacts Route.

Lemma crossedBy_app j ev1 ev2 :
  crossedBy j (ev1 ++ ev2) = crossedBy j ev1 ++ crossedBy j ev2.
Proof. apply omap_app. Qed.

Lemma follows_refl j c : consistent c → follows j c c [].
Proof. intros Hc. repeat split; try done; try apply Hc. cbn. lia. Qed.

Lemma follows_trans j c c1 c2 ev1 ev2 :
  consistent c → follows j c c1 ev1 → follows j c1 c2 ev2 →
  follows j c c2 (ev1 ++ ev2).
Proof.
  intros [H0 _] (Hn1 & Hs1 & Hc1 & Hi1 & He1) (Hn2 & Hs2 & Hc2 & Hi2 & He2).
  split; [congruence|]. split; [congruence|]. split; [done|].
  rewrite crossedBy_app, length_app. split; [lia|].
  rewrite <- take_take_drop, drop_drop, <- He1.
  f_equal. rewrite He2 at 1. rewrite Hs1. do 2 f_equal. lia.
Qed.

Lemma register_crossedBy t i car streets car1 streets1 ev1 j :
  register t i car streets = Ok (car1, streets1, ev1) →
  crossedBy j ev1 = []
  ∧ Car.numStreets car1 = Car.numStreets car
  ∧ Car.streetNames car1 = Car.streetNames car
  ∧ Car.currentStreetIdx car1 = Car.currentStreetIdx car
  ∧ Car.currentStreetName car1 = Car.currentStreetName car
  ∧ Car.remainingTimeOnStreet car1 = Car.remainingTimeOnStreet car
  ∧ Car.arrived car1 = Car.arrived car.
Proof.
  intros H.
  destruct (register_cases _ _ _ _ _ _ _ H)
    as [(_ & _ & st & _ & -> & _ & ->)|(_ & -> & _ & ->)]; done.
Qed.

Lemma carStep_follows R t i d x d' x' ev j c :
  carStep R t i (d, x) = Ok (d', x', ev) →
  cars d !! j = Some c → consistent c →
  ∃ c', cars d' !! j = Some c' ∧ follows j c c' ev.
Proof.
  intros H Hc Hcons.
  assert (j < length (cars d))%nat as Hj by (by eapply lookup_lt_Some).
  destruct (decide (j = i)) as [->|Hne].
  - step_cases H; [exists c; split; [done|by apply follows_refl]|..];
      rewrite Hc in Hcar; injection Hcar as <-;
      destruct (register_crossedBy _ _ _ _ _ _ _ i Hreg)
        as (Hcr & Hn1 & Hs1 & Hi1 & Hnm1 & _);
      destruct (decrement_fields car1) as (Hn2 & Hs2 & Hi2 & Hnm2 & _);
      cbn [cars put]; rewrite list_lookup_insert_eq by done;
      eexists; (split; [done|]);
      unfold follows, consistent in *;
      rewrite ?crossedBy_app, Hcr; cbn;
      rewrite ?decide_True by done; cbn;
      rewrite ?Hn2, ?Hs2, ?Hi2, ?Hnm2, ?Hn1, ?Hs1, ?Hi1, ?Hnm1;
      try (repeat split; try done; try apply Hcons; lia).
    destruct Hcons as [H0 Hnth].
    rewrite Hs2, Hi2, Hs1, Hi1 in Hnext.
    split; [done|]. split; [done|]. split; [split; [lia|done]|].
    split; [done|].
    unfold JS.nth in Hnth. destruct (Z.ltb_spec (Car.currentStreetIdx c) 0);
      [lia|].
    erewrite take_S_r; [done|]. rewrite lookup_drop, Nat.add_0_r. done.
  - exists c. split.
    + by rewrite (carStep_other _ _ _ _ _ _ _ _ _ H Hne).
    + assert (crossedBy j ev = []) as E.
      { step_cases H; [done|..];
          destruct (register_crossedBy _ _ _ _ _ _ _ j Hreg) as (Hcr & _);
          rewrite ?crossedBy_app, Hcr; cbn; try done.
        by rewrite decide_False by done. }
      unfold follows. rewrite E. repeat split; try done; try apply Hcons.
      cbn. lia.
Qed.

Lemma processCars_follows R t order d x d' x' ev j c :
  processCars R t order (d, x) = Ok (d', x', ev) →
  cars d !! j = Some c → consistent c →
  ∃ c', cars d' !! j = Some c' ∧ follows j c c' ev.
Proof.
  revert d x ev c. induction order as [|i order IH]; intros d x ev c H Hc Hcons.
  - cbn in H. inv_result. exists c. split; [done|]. by apply follows_refl.
  - apply processCars_cons in H as ([d1 x1] & ev1 & ev2 & H1 & H2 & ->).
    destruct (carStep_follows _ _ _ _ _ _ _ _ _ _ H1 Hc Hcons)
      as (c1 & Hc1 & Hf1).
    destruct (IH _ _ _ _ H2 Hc1 (proj1 (proj2 (proj2 Hf1))))
      as (c2 & Hc2 & Hf2).
    exists c2. split; [done|]. by eapply follows_trans.
Qed.

Lemma loopIn_follows order n R t d d' ev j c :
  loopIn order n R t d = Ok (d', ev) →
  cars d !! j = Some c → consistent c →
  ∃ c', cars d' !! j = Some c' ∧ follows j c c' ev.
Proof.
  revert R t d ev c. induction n as [|n IH]; intros R t d ev c H Hc Hcons.
  - cbn in H. inv_result. exists c. split; [done|]. by apply follows_refl.
  - apply loopIn_succ in H as (d1 & x & ev1 & ev2 & H1 & H2 & ->).
    destruct (processCars_follows _ _ _ _ _ _ _ _ _ _ H1 Hc Hcons)
      as (c1 & Hc1 & Hf1).
    destruct (IH _ _ _ _ _ H2 Hc1 (proj1 (proj2 (proj2 Hf1))))
      as (c2 & Hc2 & Hf2).
    exists c2. split; [done|]. by eapply follows_trans.
Qed.

(** The cars follow their routes: whatever the order in which the cars are
    visited, a car whose [currentStreetName] is the street of its route at
    [currentStreetIdx] ends the run with the same route, its index moved on
    by the number of its crossings, and the streets it crossed are the
    streets of its route from its first index on, in that order. *)
Theorem cars_follow_their_routes
    (order : Z → Dataset → list nat) (d d' : Dataset) (ev : list event)
    (j : nat) (c : Car.t) :
  simulateIn order d = Ok (d', ev) →
  cars d !! j = Some c → consistent c →
  ∃ c', cars d' !! j = Some c'
        ∧ Car.numStreets c' = Car.numStreets c
        ∧ Car.streetNames c' = Car.streetNames c
        ∧ consistent c'
        ∧ Car.currentStreetIdx c'
          = Car.currentStreetIdx c + Z.of_nat (length (crossedBy j ev))
        ∧ crossedBy j ev
          = take (length (crossedBy j ev))
                 (drop (Z.to_nat (Car.currentStreetIdx c))
                       (Car.streetNames c)).
Proof.
  intros H Hc Hcons. unfold simulateIn in H.
  destruct (loopIn_follows _ _ _ _ _ _ _ _ _ H Hc Hcons) as (c' & Hc' & Hf).
  by exists c'.
Qed.

Lemma cars_follow_their_routes_witness :
  ∃ d' ev c c',
    simulate Sample.ticketDataset = Ok (d', ev)
    ∧ cars Sample.ticketDataset !! 0%nat = Some c
    ∧ consistent c
    ∧ crossedBy 0 ev = ["a"; "b"]
    ∧ cars d' !! 0%nat = Some c'
    ∧ Car.numStreets c' = Car.numStreets c
    ∧ Car.streetNames c' = Car.streetNames c
    ∧ consistent c'
    ∧ Car.currentStreetIdx c'
      = Car.currentStreetIdx c + Z.of_nat (length (crossedBy 0 ev))
    ∧ crossedBy 0 ev
      = take (length (crossedBy 0 ev))
             (drop (Z.to_nat (Car.currentStreetIdx c)) (Car.streetNames c)).
Proof.
  destruct (simulate Sample.ticketDataset) as [[d' ev]|e] eqn:H;
    [|vm_compute in H; discriminate].
  destruct (cars Sample.ticketDataset !! 0%nat) as [c|] eqn:Hc;
    [|vm_compute in Hc; discriminate].
  assert (consistent c) as Hcons.
  { vm_compute in Hc. injection Hc as <-. split; [discriminate|reflexivity]. }
  assert (crossedBy 0 ev = ["a"; "b"]) as Hev.
  { pose proof H as H0. vm_compute in H0. injection H0 as _ <-. reflexivity. }
  destruct (cars_follow_their_routes sourceOrder Sample.ticketDataset d' ev
              0 c H Hc Hcons) as (c' & Hc' & Hrest).
  exists d', ev, c, c'. split; [reflexivity|]. split; [reflexivity|].
  split; [exact Hcons|]. split; [exact Hev|]. split; [exact Hc'|].
  exact Hrest.
Defined.

(** *** The driving time *)

Lemma drop_route_nil c :
  drop (Z.to_nat (Car.numStreets c - 1 + 1)) (route c) = [].
Proof.
  apply drop_ge. unfold route. rewrite length_take. lia.
Qed.

Lemma leftToDrive_cross m c name d :
  Car.currentStreetIdx c + 1 ≤ Car.numStreets c - 1 →
  JS.nth (Car.streetNames c) (Car.currentStreetIdx c + 1) = Some name →
  leftToDrive m c
  = durationOf m name + leftToDrive m (Car.advance name d c).
Proof.
  intros Hle Hn. unfold leftToDrive, JS.nth in *.
  destruct (Z.ltb_spec (Car.currentStreetIdx c + 1) 0) as [?|H0]; [done|].
  assert (route (Car.advance name d c) = route c) as -> by done.
  cbn [Car.currentStreetIdx Car.advance].
  replace (Z.to_nat (Car.currentStreetIdx c + 1 + 1))
    with (S (Z.to_nat (Car.currentStreetIdx c + 1))) by lia.
  erewrite (drop_S (route c) name).
  - unfold sumZ. by cbn.
  - unfold route. rewrite lookup_take_lt by lia. done.
Qed.

Lemma carStep_onTime m R t i d x d' x' ev c :
  carStep R t i (d, x) = Ok (d', x', ev) → 0 ≤ t →
  (∀ s, static <$> streets d !! s = static <$> m !! s) →
  cars d !! i = Some c → onTime m t c →
  ∃ c', cars d' !! i = Some c' ∧ onTime m (t + 1) c'.
Proof.
  intros H Ht Hstatic Hc Hon.
  assert (i < length (cars d))%nat as Hi by (by eapply lookup_lt_Some).
  pose proof (λ s, carStep_static _ _ _ _ _ _ _ _ s H) as Hst'.
  step_cases H.
  { exists c. split; [done|]. rewrite Hc in Hcar. injection Hcar as <-.
    unfold onTime in *. by rewrite Harr in *. }
  all: rewrite Hc in Hcar; injection Hcar as <-.
  all: destruct (register_crossedBy _ _ _ _ _ _ _ i Hreg)
         as (_ & Hn1 & Hs1 & Hi1 & _ & Hr1 & Ha1).
  all: destruct (decrement_fields car1)
         as (Hn2 & Hs2 & Hi2 & _ & _ & Ha2 & Hr2).
  all: cbn [cars put]; rewrite list_lookup_insert_eq by done.
  all: eexists; (split; [done|]).
  all: unfold onTime in Hon |- *; rewrite Harr in Hon.
  all: assert (route (decrement car1) = route c) as Hroute
         by (unfold route; by rewrite Hn2, Hs2, Hn1, Hs1).
  all: assert (drivingTime m (decrement car1) = drivingTime m c) as Hdt
         by (unfold drivingTime; by rewrite Hroute).
  all: assert (leftToDrive m (decrement car1) = leftToDrive m c) as Hl
         by (unfold leftToDrive; by rewrite Hroute, Hi2, Hi1).
  all: rewrite Hr1 in Hr2.
  all: assert (Car.remainingTimeOnStreet c - 1
               ≤ Car.remainingTimeOnStreet (decrement car1)) as Hdec
         by (rewrite Hr2; case_match; lia).
  all: assert (Car.remainingTimeOnStreet (decrement car1) = 0 →
               Car.remainingTimeOnStreet c ≤ 1) as Hone
         by (rewrite Hr2;
             destruct (Z.ltb_spec 0 (Car.remainingTimeOnStreet c)); lia).
  - rewrite Ha2, Ha1, Harr.
    destruct Hon as [Hstuck|[Hrange Hon]]; [left; lia|].
    right. split; [lia|]. left.
    rewrite Hdt, Hl. destruct Hon as [Hon|[Hr0 _]]; [lia|].
    rewrite Hr2, Hr0 in Hrem. done.
  - destruct Hon as [Hstuck|[Hrange Hon]]; [lia|].
    cbn. change (drivingTime m (Car.set_arrived _ _ (decrement car1)))
      with (drivingTime m (decrement car1)). rewrite Hdt.
    assert (leftToDrive m c = 0) as Hl0.
    { unfold leftToDrive. rewrite <- Hi1, <- Hi2, Hidx, <- Hroute.
      by rewrite drop_route_nil. }
    specialize (Hone Hrem). lia.
  - rewrite Ha2, Ha1, Harr.
    destruct Hon as [Hstuck|[Hrange Hon]]; [left; lia|].
    right. split; [lia|]. left. rewrite Hdt, Hl, Hrem.
    specialize (Hone Hrem). lia.
  - rewrite Ha2, Ha1, Harr.
    destruct Hon as [Hstuck|[Hrange Hon]]; [left; lia|].
    right. split; [lia|]. left. rewrite Hdt, Hl, Hrem.
    specialize (Hone Hrem). lia.
  - cbn [Car.arrived Car.advance]. rewrite Ha2, Ha1, Harr.
    cbn [Car.currentStreetIdx Car.numStreets Car.remainingTimeOnStreet
         Car.advance].
    destruct Hon as [Hstuck|[Hrange Hon]]; [left; lia|]. right.
    change (drivingTime m (Car.advance _ _ (decrement car1)))
      with (drivingTime m (decrement car1)). rewrite Hdt.
    assert (Car.currentStreetIdx (decrement car1) + 1
            ≤ Car.numStreets (decrement car1) - 1) as Hle by lia.
    split; [lia|]. left.
    pose proof (leftToDrive_cross m _ _ (Street.duration nst) Hle Hnext)
      as Hcross.
    rewrite Hl in Hcross.
    assert (durationOf m next = Street.duration nst) as Hdur.
    { specialize (Hst' next). cbn in Hst'. rewrite Hnst in Hst'.
      rewrite Hstatic in Hst'. unfold durationOf.
      destruct (m !! next) as [stm|]; [|done]. cbn in *.
      injection Hst' as _ _ ->. done. }
    specialize (Hone Hrem). lia.
Qed.

Lemma onTime_later m t c : 0 ≤ t → onTime m t c → onTime m (t + 1) c.
Proof.
  unfold onTime. destruct (Car.arrived c); [done|].
  intros Ht [Hs|[Hr [H|H]]]; [by left|right..]; (split; [done|]);
    [left; lia|by right].
Qed.

Lemma processCars_onTime m R t order d x d' x' ev :
  processCars R t order (d, x) = Ok (d', x', ev) → 0 ≤ t → NoDup order →
  (∀ s, static <$> streets d !! s = static <$> m !! s) →
  (∀ j c, cars d !! j = Some c →
          if decide (j ∈ order) then onTime m t c else onTime m (t + 1) c) →
  ∀ j c, cars d' !! j = Some c → onTime m (t + 1) c.
Proof.
  revert d x ev. induction order as [|i order IH];
    intros d x ev H Ht Hnd Hstatic Hall.
  - cbn in H. inv_result. intros j c Hc. specialize (Hall _ _ Hc).
    by rewrite decide_False in Hall by apply not_elem_of_nil.
  - apply processCars_cons in H as ([d1 x1] & ev1 & ev2 & H1 & H2 & ->).
    apply NoDup_cons in Hnd as [Hi Hnd].
    apply (IH _ _ _ H2 Ht Hnd).
    + intros s. rewrite <- Hstatic. by eapply carStep_static.
    + intros j c Hc. destruct (decide (j = i)) as [->|Hne].
      * rewrite decide_False by done.
        destruct (cars d !! i) as [c0|] eqn:Hc0.
        2:{ unfold carStep in H1. by rewrite Hc0 in H1. }
        pose proof (Hall _ _ Hc0) as Hon.
        rewrite decide_True in Hon by apply list_elem_of_here.
        destruct (carStep_onTime _ _ _ _ _ _ _ _ _ _ H1 Ht Hstatic Hc0 Hon)
          as (c' & Hc' & Hon').
        rewrite Hc in Hc'. by injection Hc' as <-.
      * rewrite (carStep_other _ _ _ _ _ _ _ _ _ H1 Hne) in Hc.
        specialize (Hall _ _ Hc).
        destruct (decide (j ∈ order)) as [Hin|Hin].
        -- by rewrite decide_True in Hall by by apply list_elem_of_further.
        -- rewrite decide_False in Hall; [done|].
           intros [?|?]%elem_of_cons; done.
Qed.

Lemma loop_onTime m n R t d d' ev :
  loop n R t d = Ok (d', ev) → 0 ≤ t →
  (∀ s, static <$> streets d !! s = static <$> m !! s) →
  (∀ j c, cars d !! j = Some c → onTime m t c) →
  ∀ j c, cars d' !! j = Some c → onTime m (t + Z.of_nat n) c.
Proof.
  unfold loop. revert R t d ev.
  induction n as [|n IH]; intros R t d ev H Ht Hstatic Hall.
  - cbn in H. inv_result. intros j c Hc. rewrite Z.add_0_r. by eapply Hall.
  - apply loopIn_succ in H as (d1 & x & ev1 & ev2 & H1 & H2 & ->).
    replace (t + Z.of_nat (S n)) with (t + 1 + Z.of_nat n) by lia.
    apply (IH _ _ _ _ H2); [lia| |].
    + intros s. rewrite <- Hstatic. by eapply processCars_static.
    + unfold tickIn, sourceOrder in H1.
      apply (processCars_onTime m _ _ _ _ _ _ _ _ H1 Ht); [apply NoDup_seq|done|].
      intros j c Hc. rewrite decide_True; [by eapply Hall|].
      apply elem_of_seq. apply lookup_lt_Some in Hc. lia.
Qed.

Lemma fresh_onTime m c : fresh c → onTime m 0 c.
Proof.
  intros (Ha & Hr & Hi). unfold onTime. rewrite Ha.
  destruct (Z.lt_ge_cases (Car.numStreets c - 1) (Car.currentStreetIdx c))
    as [Hlt|Hge]; [by left|right].
  split; [lia|]. right. split; [done|].
  unfold leftToDrive, drivingTime. by rewrite Hi.
Qed.

Lemma carStep_route R t i d x d' x' ev j c :
  carStep R t i (d, x) = Ok (d', x', ev) →
  cars d !! j = Some c →
  ∃ c', cars d' !! j = Some c' ∧ route c' = route c.
Proof.
  intros H Hc.
  destruct (decide (j = i)) as [->|Hne].
  2:{ exists c. by rewrite (carStep_other _ _ _ _ _ _ _ _ _ H Hne). }
  assert (i < length (cars d))%nat as Hi by (by eapply lookup_lt_Some).
  step_cases H; [by exists c|..]; rewrite Hc in Hcar; injection Hcar as <-;
    destruct (register_crossedBy _ _ _ _ _ _ _ i Hreg)
      as (_ & Hn1 & Hs1 & _);
    destruct (decrement_fields car1) as (Hn2 & Hs2 & _);
    cbn [cars put]; rewrite list_lookup_insert_eq by done;
    eexists; (split; [done|]); unfold route; cbn;
    by rewrite Hn2, Hs2, Hn1, Hs1.
Qed.

Lemma loopIn_route order n R t d d' ev j c :
  loopIn order n R t d = Ok (d', ev) →
  cars d !! j = Some c →
  ∃ c', cars d' !! j = Some c' ∧ route c' = route c.
Proof.
  intros H Hc.
  apply (loopIn_preserves
           (λ d1, ∃ c', cars d1 !! j = Some c' ∧ route c' = route c))
    with (order := order) (n := n) (R := R) (t := t) (d := d) (ev := ev);
    [|done|by exists c].
  intros R' t' i' d1 x1 d2 x2 ev' Hs (c1 & Hc1 & Hr1).
  destruct (carStep_route _ _ _ _ _ _ _ _ _ _ Hs Hc1) as (c2 & Hc2 & Hr2).
  exists c2. split; [done|]. congruence.
Qed.

(** No car is ahead of its driving time: when every car starts as
    [parseInputDataSet] builds it (not arrived, waiting at the end of the
    first street of its route), a car that arrives has a commute time of at least the sum of
    the lengths of the streets of its route after the first. *)
Theorem commute_time_at_least_driving_time (d d' : Dataset)
    (ev : list event) (j : nat) (c c' : Car.t) :
  Forall fresh (cars d) →
  simulate d = Ok (d', ev) →
  cars d !! j = Some c → cars d' !! j = Some c' →
  route c' = route c
  ∧ (Car.arrived c' = true →
     sumZ (durationOf (streets d) <$> drop 1 (route c))
     ≤ Car.commuteTime c').
Proof.
  intros Hfresh H Hc Hc'. unfold simulate, simulateIn in H.
  destruct (loopIn_route _ _ _ _ _ _ _ _ _ H Hc) as (c1 & Hc1 & Hr).
  rewrite Hc' in Hc1. injection Hc1 as <-. split; [done|].
  intros Harr.
  pose proof (loop_onTime (streets d) _ _ _ _ _ _ H (Z.le_refl 0)
                (λ s, eq_refl)) as Hon.
  specialize (Hon (λ j0 c0 Hc0, fresh_onTime _ _
                     (proj1 (Forall_lookup _ _) Hfresh _ _ Hc0)) _ _ Hc').
  unfold onTime in Hon. rewrite Harr in Hon.
  unfold drivingTime in Hon. by rewrite Hr in Hon.
Qed.

Lemma commute_time_at_least_driving_time_witness :
  ∃ d' ev c c',
    simulate Sample.ticketDataset = Ok (d', ev)
    ∧ Forall fresh (cars Sample.ticketDataset)
    ∧ cars Sample.ticketDataset !! 0%nat = Some c
    ∧ cars d' !! 0%nat = Some c'
    ∧ route c' = route c
    ∧ (Car.arrived c' = true →
       sumZ (durationOf (streets Sample.ticketDataset) <$> drop 1 (route c))
       ≤ Car.commuteTime c').
Proof.
  destruct (simulate Sample.ticketDataset) as [[d' ev]|e] eqn:H;
    [|vm_compute in H; discriminate].
  assert (Forall fresh (cars Sample.ticketDataset)) as Hfresh.
  { vm_compute. repeat constructor; discriminate. }
  destruct (cars Sample.ticketDataset !! 0%nat) as [c|] eqn:Hc;
    [|vm_compute in Hc; discriminate].
  destruct (loopIn_route _ _ _ _ _ _ _ _ _ H Hc) as (c' & Hc' & _).
  exists d', ev, c, c'. split; [reflexivity|]. split; [exact Hfresh|].
  split; [reflexivity|]. split; [exact Hc'|].
  exact (commute_time_at_least_driving_time Sample.ticketDataset d' ev 0 c c'
           Hfresh H Hc Hc').
Defined.

End EngineFacts.

(** ** The score that [evaluate] reports *)

Module EvaluateFacts.
Import Refine Parsed Validated Route Bound.
Import Ticket TicketFacts.

Lemma insights_score sim avg views :
  i_score (insights sim avg views)
  = sumZ (v_score <$> filter (λ c, v_arrived c = true) views).
Proof.
  unfold insights. cbn.
  rewrite InsightsFacts.fold_left_sum, Z.add_0_l.
  apply InsightsFacts.sumZ_perm, fmap_Permutation,
    InsightsFacts.sortByCommuteTime_perm.
Qed.

Lemma loopIn_cars_length order n R t d d' ev :
  loopIn order n R t d = Ok (d', ev) → length (cars d') = length (cars d).
Proof.
  intros H.
  apply (loopIn_preserves (λ d1, length (cars d1) = length (cars d)))
    with (order := order) (n := n) (R := R) (t := t) (d := d) (ev := ev);
    [|done|done].
  intros R' t' i' d1 x1 d2 x2 ev' Hs Hl.
  by rewrite (carStep_length _ _ _ _ _ _ _ _ Hs).
Qed.

Lemma score_sum_bound (B : CarLine → Z) (vs : list CarView)
    (ls : list CarLine) :
  (∀ l, 0 ≤ B l) →
  Forall2 (λ v l, v_arrived v = true → v_score v ≤ B l) vs ls →
  sumZ (v_score <$> filter (λ c, v_arrived c = true) vs) ≤ sumZ (B <$> ls).
Proof.
  intros HB. induction 1 as [|c l cs ls Hcl _ IH]; [done|].
  rewrite filter_cons. specialize (HB l).
  destruct (decide (v_arrived c = true)) as [Ha|Ha]; cbn.
  - specialize (Hcl Ha). unfold sumZ in *. cbn. lia.
  - unfold sumZ in *. cbn. lia.
Qed.

Lemma parsed_durationOf inp d0 d1 data avg log s :
  parseInputDataSet inp = Ok d0 →
  parseSubmittedDataSet d0 data = Ok (d1, avg, log) →
  durationOf (streets d1) s = lineDuration inp s.
Proof.
  intros H0 H1. unfold parseInputDataSet in H0.
  destruct (ParserFacts.ticket_addCars_Ok _ _ _ H0)
    as (_ & _ & _ & _ & Hstreets).
  destruct (ValidatorFacts.parseSubmittedDataSet_inv _ _ _ _ _ H1)
    as (v & (_ & _ & _ & Hcore & _) & -> & _).
  specialize (Hcore s). specialize (Hstreets s). cbn in Hstreets.
  rewrite ParserFacts.ticket_addStreets_lookup in Hstreets.
  unfold durationOf, lineDuration. cbn.
  rewrite Hstreets in Hcore.
  destruct (streetLineOf s (streetLines inp)) as [l|]; cbn in *.
  - inversion Hcore as [a b (_ & _ & Hd & _) Ha Hb|]; subst. cbn.
    rewrite <- Hd. done.
  - by inversion Hcore.
Qed.

(** An upper bound of the score: whatever the submission, the score that
    [evaluate] reports is at most the sum, over the car lines of the input
    data set, of what a car scores that never waits at a traffic light: the
    bonus and one point for every second between the driving time of its
    route and the deadline (nothing when the driving time exceeds the
    deadline by more than the bonus). *)
Theorem evaluate_score_upper_bound (inp : Input) (data : string)
    (ins : Insights) :
  evaluate inp data = Ok ins →
  i_score ins ≤ sumZ (bestScore inp <$> carLines inp).
Proof.
  unfold evaluate. intros H.
  destruct (parseInputDataSet inp) as [d0|] eqn:H0; cbn in H; [|done].
  destruct (parseSubmittedDataSet d0 data) as [[[d1 avg] log]|] eqn:H1;
    cbn in H; [|done].
  destruct (simulate d1) as [[d2 ev]|] eqn:H2; cbn in H; [|done].
  injection H as <-. unfold createInsights. rewrite insights_score.
  apply score_sum_bound; [intros l; unfold bestScore; lia|].
  apply Forall2_fmap_l.
  pose proof H0 as H0'. unfold parseInputDataSet in H0'.
  destruct (ParserFacts.ticket_addCars_Ok _ _ _ H0')
    as (Hsim & Hlen & _ & Hnew & _).
  cbn in Hsim, Hlen, Hnew.
  destruct (ValidatorFacts.parseSubmittedDataSet_inv _ _ _ _ _ H1)
    as (v & _ & Hd1 & _).
  assert (cars d1 = cars d0) as Hcars by (by rewrite Hd1).
  assert (simulation d1 = header inp) as Hsim1 by (by rewrite Hd1).
  unfold simulate, simulateIn in H2.
  apply Forall2_same_length_lookup. split.
  { rewrite (loopIn_cars_length _ _ _ _ _ _ _ H2), Hcars. done. }
  intros k c' l Hc' Hl Harr.
  change (Car.arrived c' = true) in Harr.
  change (Car.score c' ≤ bestScore inp l).
  destruct (Hnew _ _ Hl) as (name & st & _ & _ & Hc0).
  rewrite <- Hcars in Hc0.
  set (c := ticketCar l _) in Hc0.
  destruct (EngineFacts.loopIn_route _ _ _ _ _ _ _ _ _ H2 Hc0)
    as (c1 & Hc1 & Hroute).
  rewrite Hc' in Hc1. injection Hc1 as <-.
  destruct (loopIn_arrived_source _ _ _ _ _ _ _ _ _ H2 Hc' Harr)
    as [Hsame|Hin].
  { rewrite Hc0 in Hsame. injection Hsame as <-. done. }
  destruct (loopIn_arrival _ _ _ _ _ _ _ _ _ H2 Hin)
    as (_ & c1 & Hc1 & _ & _ & Hscore).
  rewrite Hc' in Hc1. injection Hc1 as <-.
  pose proof (EngineFacts.loop_onTime (streets d1) _ _ _ _ _ _ H2
                (Z.le_refl 0) (λ s, eq_refl)) as Hon.
  assert (∀ j c0, cars d1 !! j = Some c0 → onTime (streets d1) 0 c0)
    as Hfresh.
  { intros j c0 Hj. apply EngineFacts.fresh_onTime.
    rewrite Hcars in Hj. apply lookup_lt_Some in Hj as Hlt.
    rewrite Hlen in Hlt. cbn in Hlt.
    destruct (lookup_lt_is_Some_2 (carLines inp) j Hlt) as [lj Hlj].
    destruct (Hnew _ _ Hlj) as (? & ? & _ & _ & Hcj).
    rewrite Hj in Hcj. injection Hcj as ->. done. }
  specialize (Hon Hfresh _ _ Hc'). unfold onTime in Hon.
  rewrite Harr in Hon. unfold drivingTime in Hon. rewrite Hroute in Hon.
  assert (sumZ (durationOf (streets d1) <$> drop 1 (route c))
          = lineDrivingTime inp l) as Hdrive.
  { unfold lineDrivingTime, route. subst c. cbn. f_equal.
    apply list_fmap_ext. intros ? s _.
    by eapply parsed_durationOf. }
  rewrite Hdrive in Hon. rewrite Hscore, Hsim1. unfold bestScore. lia.
Qed.

Lemma evaluate_score_upper_bound_witness :
  ∃ ins, evaluate Sample.input Sample.submission = Ok ins
         ∧ i_score ins ≤ sumZ (bestScore Sample.input
                               <$> carLines Sample.input).
Proof.
  destruct (evaluate Sample.input Sample.submission) as [ins|e] eqn:H;
    [|vm_compute in H; discriminate].
  exists ins. split; [reflexivity|].
  exact (evaluate_score_upper_bound Sample.input Sample.submission ins H).
Defined.

End EvaluateFacts.

(** ** Driving time and score in [index.js] *)

Module FifoEngineFacts.
Import Parsed Bound.
Import Fifo FifoFacts FifoRoute.

(** The outcomes of one visit of a car, named. *)
Ltac fifo_visit_cases H :=
  apply fifo_carStep_cases in H;
  let car := fresh "car" in
  let Hcar := fresh "Hcar" in
  let Harr := fresh "Harr" in
  let streets1 := fresh "streets1" in
  let ev1 := fresh "ev1" in
  let Hreg := fresh "Hreg" in
  let Hrem := fresh "Hrem" in
  let Hidx := fresh "Hidx" in
  let HR := fresh "HR" in
  let name := fresh "name" in
  let Hname := fresh "Hname" in
  let st := fresh "st" in
  let Hst := fresh "Hst" in
  let Hblk := fresh "Hblk" in
  let next := fresh "next" in
  let nst := fresh "nst" in
  let Hgreen := fresh "Hgreen" in
  let Hx := fresh "Hx" in
  let Hq := fresh "Hq" in
  let Hnext := fresh "Hnext" in
  let Hnst := fresh "Hnst" in
  destruct H as (car & Hcar &
    [(Harr & -> & -> & ->) | (Harr & streets1 & ev1 & Hreg & H)]);
  [| cbn zeta in H;
     destruct H as
       [(Hrem & -> & -> & ->)
       |[(Hrem & Hidx & -> & -> & ->)
        |[(Hrem & Hidx & HR & -> & -> & ->)
         |[(Hrem & Hidx & HR & name & st & Hname & Hst & Hblk & -> & -> & ->)
          |(Hrem & Hidx & HR & name & st & next & nst & Hname & Hst & Hgreen
            & Hx & Hq & Hnext & Hnst & -> & -> & ->)]]]]].

Section Engine.
Variable sch : gmap string IntersectionSchedule.

Lemma fifo_drop_route_nil c :
  drop (Z.to_nat (Car.numStreets c - 1 + 1)) (route c) = [].
Proof.
  apply drop_ge. unfold route. rewrite length_take. lia.
Qed.

Lemma fifo_leftToDrive_cross m c name d :
  Car.currentStreetIdx c + 1 ≤ Car.numStreets c - 1 →
  JS.nth (Car.streetNames c) (Car.currentStreetIdx c + 1) = Some name →
  leftToDrive m c = durationOf m name + leftToDrive m (Car.advance d c).
Proof.
  intros Hle Hn. unfold leftToDrive, JS.nth in *.
  destruct (Z.ltb_spec (Car.currentStreetIdx c + 1) 0) as [?|H0]; [done|].
  assert (route (Car.advance d c) = route c) as -> by done.
  cbn [Car.currentStreetIdx Car.advance].
  replace (Z.to_nat (Car.currentStreetIdx c + 1 + 1))
    with (S (Z.to_nat (Car.currentStreetIdx c + 1))) by lia.
  erewrite (drop_S (route c) name).
  - unfold sumZ. by cbn.
  - unfold route. rewrite lookup_take_lt by lia. done.
Qed.

Lemma fifo_decrement_route c :
  Car.streetNames (decrement c) = Car.streetNames c
  ∧ Car.arrived (decrement c) = Car.arrived c.
Proof. unfold decrement. by case_match. Qed.

Lemma fifo_carStep_onTime m R t i d x d' x' ev c :
  carStep sch R t i (d, x) = Ok (d', x', ev) → 0 ≤ t →
  (∀ s, static <$> streets d !! s = static <$> m !! s) →
  cars d !! i = Some c → onTime m t c →
  ∃ c', cars d' !! i = Some c' ∧ onTime m (t + 1) c'.
Proof.
  intros H Ht Hstatic Hc Hon.
  assert (i < length (cars d))%nat as Hi by (by eapply lookup_lt_Some).
  pose proof (λ s, fifo_carStep_static sch _ _ _ _ _ _ _ _ s H) as Hst'.
  fifo_visit_cases H.
  { exists c. split; [done|]. rewrite Hc in Hcar. injection Hcar as <-.
    unfold onTime in *. by rewrite Harr in *. }
  all: rewrite Hc in Hcar; injection Hcar as <-.
  all: destruct (fifo_decrement_fields c) as (Hn2 & Hi2 & Hr2).
  all: destruct (fifo_decrement_route c) as (Hs2 & Ha2).
  all: cbn [cars put]; rewrite list_lookup_insert_eq by done.
  all: eexists; (split; [done|]).
  all: unfold onTime in Hon |- *; rewrite Harr in Hon.
  all: assert (route (decrement c) = route c) as Hroute
         by (unfold route; by rewrite Hn2, Hs2).
  all: assert (drivingTime m (decrement c) = drivingTime m c) as Hdt
         by (unfold drivingTime; by rewrite Hroute).
  all: assert (leftToDrive m (decrement c) = leftToDrive m c) as Hl
         by (unfold leftToDrive; by rewrite Hroute, Hi2).
  all: assert (Car.remainingTimeOnStreet c - 1
               ≤ Car.remainingTimeOnStreet (decrement c)) as Hdec
         by (rewrite Hr2; case_match; lia).
  all: assert (Car.remainingTimeOnStreet (decrement c) = 0 →
               Car.remainingTimeOnStreet c ≤ 1) as Hone
         by (rewrite Hr2;
             destruct (Z.ltb_spec 0 (Car.remainingTimeOnStreet c)); lia).
  - rewrite Ha2, Harr.
    destruct Hon as [Hstuck|[Hrange Hon]]; [left; lia|].
    right. split; [lia|]. left.
    rewrite Hdt, Hl. destruct Hon as [Hon|[Hr0 _]]; [lia|].
    rewrite Hr2, Hr0 in Hrem. done.
  - destruct Hon as [Hstuck|[Hrange Hon]]; [lia|].
    cbn. change (drivingTime m (Car.set_arrived _ _ (decrement c)))
      with (drivingTime m (decrement c)). rewrite Hdt.
    assert (leftToDrive m c = 0) as Hl0.
    { unfold leftToDrive. rewrite <- Hi2, Hidx, <- Hroute.
      by rewrite fifo_drop_route_nil. }
    specialize (Hone Hrem). lia.
  - rewrite Ha2, Harr.
    destruct Hon as [Hstuck|[Hrange Hon]]; [left; lia|].
    right. split; [lia|]. left. rewrite Hdt, Hl, Hrem.
    specialize (Hone Hrem). lia.
  - rewrite Ha2, Harr.
    destruct Hon as [Hstuck|[Hrange Hon]]; [left; lia|].
    right. split; [lia|]. left. rewrite Hdt, Hl, Hrem.
    specialize (Hone Hrem). lia.
  - cbn [Car.arrived Car.advance]. rewrite Ha2, Harr.
    cbn [Car.currentStreetIdx Car.numStreets Car.remainingTimeOnStreet
         Car.advance].
    destruct Hon as [Hstuck|[Hrange Hon]]; [left; lia|]. right.
    change (drivingTime m (Car.advance _ (decrement c)))
      with (drivingTime m (decrement c)). rewrite Hdt.
    assert (Car.currentStreetIdx (decrement c) + 1
            ≤ Car.numStreets (decrement c) - 1) as Hle by lia.
    split; [lia|]. left.
    pose proof (fifo_leftToDrive_cross m _ _ (Street.duration nst) Hle Hnext)
      as Hcross.
    rewrite Hl in Hcross.
    assert (durationOf m next = Street.duration nst) as Hdur.
    { specialize (Hst' next). cbn in Hst'. rewrite Hnst in Hst'.
      rewrite Hstatic in Hst'. unfold durationOf.
      destruct (m !! next) as [stm|]; [|done]. cbn in *.
      injection Hst' as _ _ ->. done. }
    specialize (Hone Hrem). lia.
Qed.

Lemma fifo_onTime_later m t c : 0 ≤ t → onTime m t c → onTime m (t + 1) c.
Proof.
  unfold onTime. destruct (Car.arrived c); [done|].
  intros Ht [Hs|[Hr [H|H]]]; [by left|right..]; (split; [done|]);
    [left; lia|by right].
Qed.

Lemma fifo_processCars_onTime m R t order d x d' x' ev :
  processCars sch R t order (d, x) = Ok (d', x', ev) → 0 ≤ t → NoDup order →
  (∀ s, static <$> streets d !! s = static <$> m !! s) →
  (∀ j c, cars d !! j = Some c →
          if decide (j ∈ order) then onTime m t c else onTime m (t + 1) c) →
  ∀ j c, cars d' !! j = Some c → onTime m (t + 1) c.
Proof.
  revert d x ev. induction order as [|i order IH];
    intros d x ev H Ht Hnd Hstatic Hall.
  - cbn in H. inv_result. intros j c Hc. specialize (Hall _ _ Hc).
    by rewrite decide_False in Hall by apply not_elem_of_nil.
  - apply fifo_processCars_cons in H as ([d1 x1] & ev1 & ev2 & H1 & H2 & ->).
    apply NoDup_cons in Hnd as [Hi Hnd].
    apply (IH _ _ _ H2 Ht Hnd).
    + intros s. rewrite <- Hstatic. by eapply fifo_carStep_static.
    + intros j c Hc. destruct (decide (j = i)) as [->|Hne].
      * rewrite decide_False by done.
        destruct (cars d !! i) as [c0|] eqn:Hc0.
        2:{ unfold carStep in H1. by rewrite Hc0 in H1. }
        pose proof (Hall _ _ Hc0) as Hon.
        rewrite decide_True in Hon by apply list_elem_of_here.
        destruct (fifo_carStep_onTime _ _ _ _ _ _ _ _ _ _ H1 Ht Hstatic
                    Hc0 Hon) as (c' & Hc' & Hon').
        rewrite Hc in Hc'. by injection Hc' as <-.
      * rewrite (fifo_carStep_other sch _ _ _ _ _ _ _ _ _ H1 Hne) in Hc.
        specialize (Hall _ _ Hc).
        destruct (decide (j ∈ order)) as [Hin|Hin].
        -- by rewrite decide_True in Hall by by apply list_elem_of_further.
        -- rewrite decide_False in Hall; [done|].
           intros [?|?]%elem_of_cons; done.
Qed.

Lemma fifo_loop_onTime m n R t d d' ev :
  loop sch n R t d = Ok (d', ev) → 0 ≤ t →
  (∀ s, static <$> streets d !! s = static <$> m !! s) →
  (∀ j c, cars d !! j = Some c → onTime m t c) →
  ∀ j c, cars d' !! j = Some c → onTime m (t + Z.of_nat n) c.
Proof.
  unfold loop. revert R t d ev.
  induction n as [|n IH]; intros R t d ev H Ht Hstatic Hall.
  - cbn in H. inv_result. intros j c Hc. rewrite Z.add_0_r. by eapply Hall.
  - apply fifo_loopIn_succ in H as (d1 & x & ev1 & ev2 & H1 & H2 & ->).
    replace (t + Z.of_nat (S n)) with (t + 1 + Z.of_nat n) by lia.
    apply (IH _ _ _ _ H2); [lia| |].
    + intros s. rewrite <- Hstatic. by eapply fifo_processCars_static.
    + unfold tickIn, sourceOrder in H1.
      apply (fifo_processCars_onTime m _ _ _ _ _ _ _ _ H1 Ht);
        [apply NoDup_seq|done|].
      intros j c Hc. case_decide; [by eapply Hall|].
      apply fifo_onTime_later; [done|]. by eapply Hall.
Qed.

Lemma fifo_fresh_onTime m c : fresh c → onTime m 0 c.
Proof.
  intros (Ha & Hr & Hi). unfold onTime. rewrite Ha.
  destruct (Z.lt_ge_cases (Car.numStreets c - 1) (Car.currentStreetIdx c))
    as [Hlt|Hge]; [by left|right].
  split; [lia|]. right. split; [done|].
  unfold leftToDrive, drivingTime. by rewrite Hi.
Qed.

Lemma fifo_carStep_route R t i d x d' x' ev j c :
  carStep sch R t i (d, x) = Ok (d', x', ev) →
  cars d !! j = Some c →
  ∃ c', cars d' !! j = Some c' ∧ route c' = route c.
Proof.
  intros H Hc.
  destruct (decide (j = i)) as [->|Hne].
  2:{ exists c. by rewrite (fifo_carStep_other sch _ _ _ _ _ _ _ _ _ H Hne). }
  assert (i < length (cars d))%nat as Hi by (by eapply lookup_lt_Some).
  fifo_visit_cases H; [by exists c|..]; rewrite Hc in Hcar;
    injection Hcar as <-;
    destruct (fifo_decrement_fields c) as (Hn2 & _);
    destruct (fifo_decrement_route c) as (Hs2 & _);
    cbn [cars put]; rewrite list_lookup_insert_eq by done;
    eexists; (split; [done|]); unfold route; cbn;
    by rewrite Hn2, Hs2.
Qed.

Lemma fifo_loopIn_route order n R t d d' ev j c :
  loopIn sch order n R t d = Ok (d', ev) →
  cars d !! j = Some c →
  ∃ c', cars d' !! j = Some c' ∧ route c' = route c.
Proof.
  intros H Hc.
  apply (fifo_loopIn_preserves sch
           (λ d1, ∃ c', cars d1 !! j = Some c' ∧ route c' = route c))
    with (order := order) (n := n) (R := R) (t := t) (d := d) (ev := ev);
    [|done|by exists c].
  intros R' t' i' d1 x1 d2 x2 ev' Hs (c1 & Hc1 & Hr1).
  destruct (fifo_carStep_route _ _ _ _ _ _ _ _ _ _ Hs Hc1) as (c2 & Hc2 & Hr2).
  exists c2. split; [done|]. congruence.
Qed.

Lemma fifo_loopIn_cars_length order n R t d d' ev :
  loopIn sch order n R t d = Ok (d', ev) → length (cars d') = length (cars d).
Proof.
  intros H.
  apply (fifo_loopIn_preserves sch
           (λ d1, length (cars d1) = length (cars d)))
    with (order := order) (n := n) (R := R) (t := t) (d := d) (ev := ev);
    [|done|done].
  intros R' t' i' d1 x1 d2 x2 ev' Hs <-.
  fifo_visit_cases Hs; [done|..]; cbn; apply length_insert.
Qed.

(** No car of [index.js] is ahead of its driving time: whatever the
    schedules, when every car starts as [parseInputDataSet] builds it (not
    arrived, waiting at the end of the first street of its route), the run
    leaves the route of every car as it was, and a car that arrives has a
    commute time of at least the sum of the lengths of the streets of its
    route after the first. *)
Theorem fifo_commute_time_at_least_driving_time (d d' : Dataset)
    (ev : list event) (j : nat) (c c' : Car.t) :
  Forall fresh (cars d) →
  simulate sch d = Ok (d', ev) →
  cars d !! j = Some c → cars d' !! j = Some c' →
  route c' = route c
  ∧ (Car.arrived c' = true →
     sumZ (durationOf (streets d) <$> drop 1 (route c))
     ≤ Car.commuteTime c').
Proof.
  intros Hfresh H Hc Hc'. unfold simulate, simulateIn in H.
  destruct (fifo_loopIn_route _ _ _ _ _ _ _ _ _ H Hc) as (c1 & Hc1 & Hr).
  rewrite Hc' in Hc1. injection Hc1 as <-. split; [done|].
  intros Harr.
  pose proof (fifo_loop_onTime (streets d) _ _ _ _ _ _ H (Z.le_refl 0)
                (λ s, eq_refl)) as Hon.
  specialize (Hon (λ j0 c0 Hc0, fifo_fresh_onTime _ _
                     (proj1 (Forall_lookup _ _) Hfresh _ _ Hc0)) _ _ Hc').
  unfold onTime in Hon. rewrite Harr in Hon.
  unfold drivingTime in Hon. by rewrite Hr in Hon.
Qed.

End Engine.

Lemma fifo_commute_time_at_least_driving_time_witness :
  ∃ d' ev c c',
    simulate Sample.fifoSchedules Sample.fifoDataset = Ok (d', ev)
    ∧ Forall fresh (cars Sample.fifoDataset)
    ∧ cars Sample.fifoDataset !! 0%nat = Some c
    ∧ cars d' !! 0%nat = Some c'
    ∧ route c' = route c
    ∧ (Car.arrived c' = true →
       sumZ (durationOf (streets Sample.fifoDataset) <$> drop 1 (route c))
       ≤ Car.commuteTime c').
Proof.
  destruct (simulate Sample.fifoSchedules Sample.fifoDataset)
    as [[d' ev]|e] eqn:H; [|vm_compute in H; discriminate].
  assert (Forall fresh (cars Sample.fifoDataset)) as Hfresh.
  { vm_compute. repeat constructor; discriminate. }
  destruct (cars Sample.fifoDataset !! 0%nat) as [c|] eqn:Hc;
    [|vm_compute in Hc; discriminate].
  destruct (fifo_loopIn_route _ _ _ _ _ _ _ _ _ _ H Hc) as (c' & Hc' & _).
  exists d', ev, c, c'. split; [reflexivity|]. split; [exact Hfresh|].
  split; [reflexivity|]. split; [exact Hc'|].
  exact (fifo_commute_time_at_least_driving_time Sample.fifoSchedules
           Sample.fifoDataset d' ev 0 c c' Hfresh H Hc Hc').
Defined.

Lemma fifo_parsed_durationOf inp d s :
  parseInputDataSet inp = Ok d →
  durationOf (streets d) s = lineDuration inp s.
Proof.
  intros H0. unfold parseInputDataSet in H0.
  destruct (ParserFacts.fifo_addCars_Ok _ _ _ H0) as (_ & _ & Hstreets & _).
  specialize (Hstreets s). cbn in Hstreets.
  rewrite ParserFacts.fifo_addStreets_lookup in Hstreets.
  unfold durationOf, lineDuration. rewrite Hstreets.
  by destruct (streetLineOf s (streetLines inp)).
Qed.

(** The upper bound of the score in [index.js]: whatever the submission,
    the score that [evaluate] reports is at most the sum, over the car lines
    of the input data set, of what a car scores that never waits at a
    traffic light. *)
Theorem fifo_evaluate_score_upper_bound (inp : Input) (data : string)
    (ins : Insights) :
  evaluate inp data = Ok ins →
  i_score ins ≤ sumZ (bestScore inp <$> carLines inp).
Proof.
  unfold evaluate. intros H.
  destruct (parseInputDataSet inp) as [d0|] eqn:H0; cbn in H; [|done].
  destruct (parseSubmittedDataSet d0 data) as [[schedules avg]|] eqn:H1;
    cbn in H; [|done].
  destruct (simulate schedules d0) as [[d2 ev]|] eqn:H2; cbn in H; [|done].
  injection H as <-. unfold createInsights.
  rewrite EvaluateFacts.insights_score.
  apply EvaluateFacts.score_sum_bound; [intros l; unfold bestScore; lia|].
  apply Forall2_fmap_l.
  pose proof H0 as H0'. unfold parseInputDataSet in H0'.
  destruct (ParserFacts.fifo_addCars_Ok _ _ _ H0') as (Hsim & Hcars & _).
  cbn in Hsim, Hcars.
  unfold simulate, simulateIn in H2.
  apply Forall2_same_length_lookup. split.
  { rewrite (fifo_loopIn_cars_length _ _ _ _ _ _ _ _ H2), Hcars.
    by rewrite length_fmap. }
  intros k c' l Hc' Hl Harr.
  change (Car.arrived c' = true) in Harr.
  change (Car.score c' ≤ bestScore inp l).
  assert (cars d0 !! k = Some (fifoCar l)) as Hc0.
  { rewrite Hcars, list_lookup_fmap, Hl. done. }
  destruct (fifo_loopIn_route _ _ _ _ _ _ _ _ _ _ H2 Hc0)
    as (c1 & Hc1 & Hroute).
  rewrite Hc' in Hc1. injection Hc1 as <-.
  destruct (fifo_loopIn_arrived_source _ _ _ _ _ _ _ _ _ _ H2 Hc' Harr)
    as [Hsame|Hin].
  { rewrite Hc0 in Hsame. injection Hsame as <-. done. }
  destruct (fifo_loopIn_arrival _ _ _ _ _ _ _ _ _ _ H2 Hin)
    as (_ & c1 & Hc1 & _ & _ & Hscore).
  rewrite Hc' in Hc1. injection Hc1 as <-.
  pose proof (fifo_loop_onTime schedules (streets d0) _ _ _ _ _ _ H2
                (Z.le_refl 0) (λ s, eq_refl)) as Hon.
  assert (∀ j c0, cars d0 !! j = Some c0 → onTime (streets d0) 0 c0)
    as Hfresh.
  { intros j c0 Hj. apply fifo_fresh_onTime.
    rewrite Hcars, list_lookup_fmap in Hj.
    destruct (carLines inp !! j); [|done]. by injection Hj as <-. }
  specialize (Hon Hfresh _ _ Hc'). unfold onTime in Hon.
  rewrite Harr in Hon. unfold drivingTime in Hon. rewrite Hroute in Hon.
  assert (sumZ (durationOf (streets d0) <$> drop 1 (route (fifoCar l)))
          = lineDrivingTime inp l) as Hdrive.
  { unfold lineDrivingTime, route. cbn. f_equal.
    apply list_fmap_ext. intros ? s _.
    by eapply fifo_parsed_durationOf. }
  rewrite Hdrive in Hon. rewrite Hscore, Hsim. unfold bestScore. lia.
Qed.

Lemma fifo_evaluate_score_upper_bound_witness :
  ∃ ins, evaluate Sample.input Sample.submission = Ok ins
         ∧ i_score ins ≤ sumZ (bestScore Sample.input
                               <$> carLines Sample.input).
Proof.
  destruct (evaluate Sample.input Sample.submission) as [ins|e] eqn:H;
    [|vm_compute in H; discriminate].
  exists ins. split; [reflexivity|].
  exact (fifo_evaluate_score_upper_bound Sample.input Sample.submission
           ins H).
Defined.

End FifoEngineFacts.
